(** * Calc-of-Industry: the chain resolution engine

    A shallow embedding of the TypeScript planner (lib/buildIndex and the
    per-node evolution of state/store) together with the properties its
    specification states about it.  The walks of the per-product evolution
    of the store, the focus mode of components/ChainGraph and the converter
    of scripts/convert-to-json are embedded as well, each with what the
    code guarantees.

    Modelling conventions.
    - A JavaScript [number] holding a rate or a quantity is an exact rational
      ([Q]); equality of such numbers is [Qeq].  This is the idealisation
      behind "within floating tolerance" in the specification.  The source
      divides by [timeSec] without a guard, so rational division agrees with
      it on recipes with [0 < timeSec] (the data model's invariant).
      [Math.round] is modelled on the exact value; a sum that lies exactly
      half way between two hundredths is rounded up here, while the double
      that the code holds for it may lie on either side.  What is stated of a
      rounded total is therefore that it is a nearest hundredth of the sum
      ([rounded2]), which holds on both sides of such a tie.
    - Expansion budgets and hop counts are integers ([Z]).
    - Strings are byte strings; [trim] and [toLowerCase] act on the ASCII
      range.
    - A JavaScript object or [Map] used as a dictionary is a [gmap]; only own
      keys are modelled.
    - The store is a record threaded through the operations.
    - The [while] loop of [build] is run for [measure] iterations, a bound
      computed from the budgets and the index; the queue is shown to be empty
      by then, and further iterations to change nothing. *)

From Stdlib Require Import ZArith QArith Qround Lqa List String Ascii Lia.
From stdpp Require Import gmap strings list fin_maps pretty.
From Stdlib Require Import Sorted.

Local Open Scope string_scope.
Local Open Scope list_scope.

(** ** JavaScript primitives used by the engine *)

Module Js.

(** [String.prototype.trim] on the ASCII white space characters. *)
Definition is_space (c : ascii) : bool :=
  let n := nat_of_ascii c in
  ((9 <=? n)%nat && (n <=? 13)%nat) || (n =? 32)%nat.

Fixpoint trimStart (s : string) : string :=
  match s with
  | EmptyString => EmptyString
  | String c s' => if is_space c then trimStart s' else s
  end.

Definition trimEnd (s : string) : string :=
  String.rev (trimStart (String.rev s)).

Definition trim (s : string) : string := trimEnd (trimStart s).

(** [String.prototype.toLowerCase] on the ASCII letters. *)
Definition lower (c : ascii) : ascii :=
  let n := nat_of_ascii c in
  if ((65 <=? n)%nat && (n <=? 90)%nat) then ascii_of_nat (n + 32) else c.

Fixpoint toLowerCase (s : string) : string :=
  match s with
  | EmptyString => EmptyString
  | String c s' => String (lower c) (toLowerCase s')
  end.

(** Truthiness of an optional string: [undefined], [null] and the empty
    string are falsy. *)
Definition truthy (o : option string) : bool :=
  match o with
  | Some s => negb (String.eqb s "")
  | None => false
  end.

(** [Array.prototype.find]. *)
Fixpoint find {A} (p : A -> bool) (l : list A) : option A :=
  match l with
  | [] => None
  | x :: l' => if p x then Some x else find p l'
  end.

(** [x || 0] on a number read from a dictionary: [undefined] and [0] give [0]. *)
Definition or0 (o : option Q) : Q :=
  match o with
  | Some v => if Qeq_bool v 0 then 0%Q else v
  | None => 0%Q
  end.

(** [Math.round(x * 100) / 100]: [Math.round] rounds half up. *)
Definition r2 (x : Q) : Q :=
  (inject_Z (Qfloor (x * 100 + (1 # 2))) / 100)%Q.

(** [s.replace(/\s+/g, " ")] on the ASCII white space characters: every run of
    white space becomes one space. *)
Fixpoint collapse_go (in_run : bool) (s : string) : string :=
  match s with
  | EmptyString => EmptyString
  | String c s' =>
    if is_space c
    then if in_run then collapse_go true s' else String " " (collapse_go true s')
    else String c (collapse_go false s')
  end.

Definition collapseSpaces (s : string) : string := collapse_go false s.

(** [a || b] on values read from a dictionary of arrays: an array is truthy
    even when empty, so only [undefined] falls through. *)
Definition or_else {A} (a b : option A) : option A :=
  match a with
  | Some _ => a
  | None => b
  end.

(** [Array.from(new Set(l))]: the distinct elements, in order of first
    occurrence. *)
Definition distinct `{EqDecision A} (l : list A) : list A :=
  fold_left (fun acc x => if decide (x ∈ acc) then acc else acc ++ [x]) l [].

(** [Array.prototype.sort], which is stable: [le a b] stands for
    [compare(a, b) <= 0]. *)
Fixpoint sort_insert {A} (le : A -> A -> bool) (x : A) (l : list A) : list A :=
  match l with
  | [] => [x]
  | y :: l' => if le x y then x :: y :: l' else y :: sort_insert le x l'
  end.

Definition sort {A} (le : A -> A -> bool) (l : list A) : list A :=
  foldr (sort_insert le) [] l.

End Js.

(** ** types.ts *)

Module IO.
Record t := mk { name : string; qtyPerCycle : Q }.
End IO.

Module Recipe.
Record t := mk {
  recipeId : string;
  building : string;
  timeSec : Q;   (* seconds per craft *)
  inputs : list IO.t;
  outputs : list IO.t
}.

(** The data model's invariant on a loaded recipe. *)
Definition valid (r : t) : Prop := (0 < timeSec r)%Q.
End Recipe.

(** product -> recipes that output it *)
Abbreviation ProductIndex := (gmap string (list Recipe.t)).

(** ** lib/buildIndex *)

Module BuildIndex.

(** [(acc[key] ||= []).push(r)] *)
Definition push (acc : ProductIndex) (key : string) (r : Recipe.t) : ProductIndex :=
  <[ key := default [] (acc !! key) ++ [r] ]> acc.

(** [PRODUCT_INDEX]: the reduce over the loaded recipe list. *)
Definition PRODUCT_INDEX (RECIPES : list Recipe.t) : ProductIndex :=
  fold_left
    (fun acc r =>
       fold_left (fun acc o => push acc (Js.trim (IO.name o)) r) (Recipe.outputs r) acc)
    RECIPES ∅.

(** The name comparison of the rate lookup. *)
Definition same_name (a b : string) : bool :=
  String.eqb (Js.toLowerCase (Js.trim a)) (Js.toLowerCase (Js.trim b)).

Definition outputRatePerMin (r : Recipe.t) (product : string) : Q :=
  match Js.find (fun o => same_name (IO.name o) product) (Recipe.outputs r) with
  | None => 0%Q
  | Some out => ((IO.qtyPerCycle out / Recipe.timeSec r) * 60)%Q
  end.

(** [ALL_PRODUCTS]: the union of the trimmed input and output names, sorted
    (the default sort compares strings by code unit). *)
Definition ALL_PRODUCTS (RECIPES : list Recipe.t) : list string :=
  Js.sort String.leb
    (Js.distinct
       (flat_map
          (fun r =>
             map (fun i => Js.trim (IO.name i)) (Recipe.inputs r)
             ++ map (fun o => Js.trim (IO.name o)) (Recipe.outputs r))
          RECIPES)).

(** [pickRecipeForProduct]: the list under the name as given, else trimmed,
    else with its inner white space collapsed. *)
Definition pickRecipeForProduct (idx : ProductIndex) (product : string)
    (preferredId : option string) : option Recipe.t :=
  match Js.or_else (idx !! product)
          (Js.or_else (idx !! Js.trim product)
             (idx !! Js.collapseSpaces (Js.trim product))) with
  | None => None
  | Some [] => None
  | Some list =>
    let exact :=
      if Js.truthy preferredId
      then Js.find (fun r => bool_decide (Some (Recipe.recipeId r) = preferredId)) list
      else None in
    match exact with
    | Some r => Some r
    | None => head list
    end
  end.

(** [r.building?.trim() || "Unknown"] *)
Definition building_key (r : Recipe.t) : string :=
  let b := Js.trim (Recipe.building r) in
  if String.eqb b "" then "Unknown" else b.

(** [(a, b) => a.timeSec - b.timeSec] is not positive *)
Definition faster (a b : Recipe.t) : bool :=
  Qle_bool (Recipe.timeSec a) (Recipe.timeSec b).

(** All recipes that output [product], grouped by building name, each
    group sorted by time ascending. *)
Definition recipesByBuildingForProduct (idx : ProductIndex) (product : string)
    : gmap string (list Recipe.t) :=
  let list := default [] (idx !! product) in
  let groups := fold_left (fun groups r => push groups (building_key r) r) list ∅ in
  Js.sort faster <$> groups.

End BuildIndex.

(** ** state/store: types *)

Module NodeIO.
Record t := mk { name : string; ratePerMin : Q }.
End NodeIO.

Module NodeOut.
Record t := mk { name : string; ratePerMin : Q; isTarget : bool }.
End NodeOut.

Module GraphNode.
Record t := mk {
  id : string;   (* stable: product::recipeId *)
  product : string;
  recipeId : string;
  building : string;
  runsPerMin : Q;
  timeSec : Q;
  inputs : list NodeIO.t;
  outputs : list NodeOut.t;
  depth : nat
}.
End GraphNode.

Module GraphEdge.
Record t := mk { id : string; source : string; target : string; label : string }.
End GraphEdge.

Module Target.
Record t := mk { product : string; ratePerMin : Q; recipeId : option string }.
End Target.

Module Totals.
Record t := mk { raw : gmap string Q; byproducts : gmap string Q }.
Definition empty : t := mk ∅ ∅.
End Totals.

(** ** state/store: helpers *)

Module Store.
Import BuildIndex.

(** Deterministic node id so that nodes stay stable across rebuilds. *)
Definition nodeIdFor (product recipeId : string) : string :=
  product +:+ "::" +:+ recipeId.

(** Create a graph node from a recipe and a product rate. *)
Definition makeNode (recipe : Recipe.t) (targetProduct : string)
    (requiredRatePerMin : Q) (depth : nat) : GraphNode.t :=
  let rate := outputRatePerMin recipe targetProduct in
  let runs : Q := (if Qeq_bool rate 0 then 0 else requiredRatePerMin / rate)%Q in
  let inputs :=
    map (fun i => NodeIO.mk (IO.name i) (runs * IO.qtyPerCycle i)%Q) (Recipe.inputs recipe) in
  let outputs :=
    map (fun o =>
           NodeOut.mk (IO.name o)
             (runs * (IO.qtyPerCycle o / Recipe.timeSec recipe) * 60)%Q
             (same_name (IO.name o) targetProduct))
        (Recipe.outputs recipe) in
  GraphNode.mk (nodeIdFor targetProduct (Recipe.recipeId recipe)) targetProduct
    (Recipe.recipeId recipe) (Recipe.building recipe) runs (Recipe.timeSec recipe)
    inputs outputs depth.

(** [!PRODUCT_INDEX[name]] is false exactly on the keys of the index. *)
Definition craftable (idx : ProductIndex) (name : string) : bool :=
  bool_decide (is_Some (idx !! name)).

Definition add_raw (idx : ProductIndex) (raw : gmap string Q) (i : NodeIO.t) : gmap string Q :=
  if craftable idx (NodeIO.name i) then raw
  else <[ NodeIO.name i := (Js.or0 (raw !! NodeIO.name i) + NodeIO.ratePerMin i)%Q ]> raw.

Definition add_byproduct (byp : gmap string Q) (o : NodeOut.t) : gmap string Q :=
  if NodeOut.isTarget o then byp
  else <[ NodeOut.name o := (Js.or0 (byp !! NodeOut.name o) + NodeOut.ratePerMin o)%Q ]> byp.

Definition computeTotals (idx : ProductIndex) (nodes : list GraphNode.t) : Totals.t :=
  let acc :=
    fold_left
      (fun '(raw, byp) n =>
         (fold_left (add_raw idx) (GraphNode.inputs n) raw,
          fold_left add_byproduct (GraphNode.outputs n) byp))
      nodes (∅, ∅) in
  Totals.mk (Js.r2 <$> acc.1) (Js.r2 <$> acc.2).

(** Preference order: explicit recipe -> parent building -> stored building
    -> default *)
Definition pickRecipeWithPrefs (idx : ProductIndex) (product : string)
    (explicitRecipe preferredBuilding parentBuildingPreferred : option string)
    : option Recipe.t :=
  let list := default [] (idx !! product) in
  let by_id :=
    if Js.truthy explicitRecipe
    then Js.find (fun x => bool_decide (Some (Recipe.recipeId x) = explicitRecipe)) list
    else None in
  match by_id with
  | Some r => Some r
  | None =>
    let by_parent :=
      if Js.truthy parentBuildingPreferred
      then Js.find (fun x => bool_decide (Some (Recipe.building x) = parentBuildingPreferred)) list
      else None in
    match by_parent with
    | Some r => Some r
    | None =>
      let by_pref :=
        if Js.truthy preferredBuilding
        then Js.find (fun x => bool_decide (Some (Recipe.building x) = preferredBuilding)) list
        else None in
      match by_pref with
      | Some r => Some r
      | None => head list
      end
    end
  end.

(** ** state/store: [build] *)

(** The mutable locals of [build]: the node and edge arrays and the two maps
    that merge identical (product, recipeId) into a single node. *)
Module Graph.
Record t := mk {
  nodes : list GraphNode.t;
  edges : list GraphEdge.t;
  byKey : gmap string GraphNode.t;
  byId : gmap string GraphNode.t
}.
Definition empty : t := mk [] [] ∅ ∅.
End Graph.

Module QItem.
Record t := mk { id : string; rem : Z }.
End QItem.

(** The locals of the expansion phase. *)
Module Bfs.
Record t := mk {
  graph : Graph.t;
  bestRem : gmap string Z;
  queue : list QItem.t
}.
End Bfs.

Section Build.

Variable idx : ProductIndex.
Variable choicesRecipe : gmap string (option string).
Variable choicesBuilding : gmap string string.
Variable expandedByNode : gmap string Z.

(** [expandedByNode[id] ?? 0] *)
Definition budget (id : string) : Z := default 0%Z (expandedByNode !! id).

Definition resolve (product : string) (parentBuilding : option string) : option Recipe.t :=
  pickRecipeWithPrefs idx product
    (default None (choicesRecipe !! product))
    (choicesBuilding !! product)
    parentBuilding.

Definition ensureNode (product : string) (requiredRatePerMin : Q) (depth : nat)
    (parentBuilding : option string) (g : Graph.t) : option GraphNode.t * Graph.t :=
  match resolve product parentBuilding with
  | None => (None, g)
  | Some r =>
    let key := nodeIdFor product (Recipe.recipeId r) in
    match Graph.byKey g !! key with
    | Some n => (Some n, g)
    | None =>
      let n := makeNode r product requiredRatePerMin depth in
      (Some n,
       Graph.mk (Graph.nodes g ++ [n]) (Graph.edges g)
         (<[ key := n ]> (Graph.byKey g))
         (<[ GraphNode.id n := n ]> (Graph.byId g)))
    end
  end.

Definition connect (parent child : GraphNode.t) (label : string) (g : Graph.t) : Graph.t :=
  let id :=
    GraphNode.id parent +:+ "=>" +:+ GraphNode.id child +:+ "#"
      +:+ pretty (length (Graph.edges g)) in
  Graph.mk (Graph.nodes g)
    (Graph.edges g ++ [GraphEdge.mk id (GraphNode.id parent) (GraphNode.id child) label])
    (Graph.byKey g) (Graph.byId g).

(** Step 1: roots + one hop (baseline). *)
Definition baseline_input (root : GraphNode.t) (g : Graph.t) (i : NodeIO.t) : Graph.t :=
  if craftable idx (NodeIO.name i) then
    match ensureNode (NodeIO.name i) (NodeIO.ratePerMin i) 1
            (Some (GraphNode.building root)) g with
    | (Some child, g') => connect root child (NodeIO.name i) g'
    | (None, g') => g'
    end
  else g.

Definition baseline_target (g : Graph.t) (t : Target.t) : Graph.t :=
  match ensureNode (Target.product t) (Target.ratePerMin t) 0 None g with
  | (Some root, g') => fold_left (baseline_input root) (GraphNode.inputs root) g'
  | (None, g') => g'
  end.

Definition baseline (targets : list Target.t) : Graph.t :=
  fold_left baseline_target targets Graph.empty.

(** Step 2: seed the queue using per-node expansions only. *)
Definition seed_node (b : Bfs.t) (n : GraphNode.t) : Bfs.t :=
  let extra := budget (GraphNode.id n) in
  if (0 <? extra)%Z then
    Bfs.mk (Bfs.graph b) (<[ GraphNode.id n := extra ]> (Bfs.bestRem b))
      (Bfs.queue b ++ [QItem.mk (GraphNode.id n) extra])
  else b.

Definition seed (g : Graph.t) : Bfs.t :=
  fold_left seed_node (Graph.nodes g) (Bfs.mk g ∅ []).

(** Step 3: the body of the inner loop over the inputs of a dequeued node. *)
Definition connected (parent child : GraphNode.t) (g : Graph.t) : bool :=
  existsb
    (fun e =>
       String.eqb (GraphEdge.source e) (GraphNode.id parent)
       && String.eqb (GraphEdge.target e) (GraphNode.id child))
    (Graph.edges g).

Definition relax (parent : GraphNode.t) (effParent : Z) (b : Bfs.t) (i : NodeIO.t) : Bfs.t :=
  if craftable idx (NodeIO.name i) then
    match ensureNode (NodeIO.name i) (NodeIO.ratePerMin i) (GraphNode.depth parent + 1)
            (Some (GraphNode.building parent)) (Bfs.graph b) with
    | (None, _) => b
    | (Some child, g1) =>
      let g2 :=
        if connected parent child g1 then g1
        else connect parent child (NodeIO.name i) g1 in
      let nextRem := (effParent - 1)%Z in
      let childExtra := budget (GraphNode.id child) in
      let childAllowance := Z.max nextRem childExtra in
      let prev := default (-1)%Z (Bfs.bestRem b !! GraphNode.id child) in
      if (0 <? childAllowance)%Z && (prev <? childAllowance)%Z then
        Bfs.mk g2 (<[ GraphNode.id child := childAllowance ]> (Bfs.bestRem b))
          (Bfs.queue b ++ [QItem.mk (GraphNode.id child) childAllowance])
      else Bfs.mk g2 (Bfs.bestRem b) (Bfs.queue b)
    end
  else b.

(** One iteration of [while (queue.length)]. *)
Definition step (b : Bfs.t) : Bfs.t :=
  match Bfs.queue b with
  | [] => b
  | item :: rest =>
    let b' := Bfs.mk (Bfs.graph b) (Bfs.bestRem b) rest in
    if (QItem.rem item <=? 0)%Z then b'
    else
      match Graph.byId (Bfs.graph b) !! QItem.id item with
      | None => b'
      | Some parent =>
        let effParent := Z.max (QItem.rem item) (budget (GraphNode.id parent)) in
        fold_left (relax parent effParent) (GraphNode.inputs parent) b'
      end
  end.

(** The loop, run for at most [fuel] iterations. *)
Fixpoint loop (fuel : nat) (b : Bfs.t) : Bfs.t :=
  match fuel with
  | O => b
  | S fuel' =>
    match Bfs.queue b with
    | [] => b
    | _ :: _ => loop fuel' (step b)
    end
  end.

(** The loop stops: every node id that resolution can produce is listed in
    [universe], an allowance recorded in [bestRem] never exceeds the largest
    stored budget, and every enqueue strictly raises one recorded allowance.
    [measure] bounds the iterations that remain. *)
Definition universe : list string :=
  flat_map (fun kv => map (fun r => nodeIdFor kv.1 (Recipe.recipeId r)) kv.2)
    (map_to_list idx).

Definition maxBudget : Z :=
  foldr (fun kv acc => Z.max kv.2 acc) 0%Z (map_to_list expandedByNode).

Definition slack (best : gmap string Z) (k : string) : nat :=
  Z.to_nat (maxBudget - default 0%Z (best !! k)).

Definition potential (best : gmap string Z) : nat :=
  sum_list (map (slack best) universe).

Definition measure (b : Bfs.t) : nat :=
  length (Bfs.queue b) + 2 * potential (Bfs.bestRem b).

(** Steps 2 and 3 on the baseline graph. *)
Definition expand (g : Graph.t) : Bfs.t :=
  let b := seed g in loop (measure b) b.

End Build.

(** ** state/store: the store and its actions *)

Module State.
(** The store.  [products] and [recipes] are constants of the catalog, and the
    focus/compact flags belong to the view; they are left out. *)
Record t := mk {
  targets : list Target.t;
  choicesRecipe : gmap string (option string);
  choicesBuilding : gmap string string;
  expandedByNode : gmap string Z;
  graphNodes : list GraphNode.t;
  graphEdges : list GraphEdge.t;
  totals : Totals.t
}.

Definition init : t := mk [] ∅ ∅ ∅ [] [] Totals.empty.

Definition set_graph (s : t) (ns : list GraphNode.t) (es : list GraphEdge.t)
    (tt : Totals.t) : t :=
  mk (targets s) (choicesRecipe s) (choicesBuilding s) (expandedByNode s) ns es tt.

Definition set_expanded (s : t) (e : gmap string Z) : t :=
  mk (targets s) (choicesRecipe s) (choicesBuilding s) e
    (graphNodes s) (graphEdges s) (totals s).

Definition set_choices (s : t) (cr : gmap string (option string))
    (cb : gmap string string) : t :=
  mk (targets s) cr cb (expandedByNode s) (graphNodes s) (graphEdges s) (totals s).
End State.

Section Actions.

Variable idx : ProductIndex.

Definition setTarget (t : Target.t) (s : State.t) : State.t :=
  State.mk [t] (State.choicesRecipe s) (State.choicesBuilding s)
    (State.expandedByNode s) (State.graphNodes s) (State.graphEdges s) (State.totals s).

(** [building ? { ...choicesBuilding, [product]: building } : choicesBuilding] *)
Definition prefer_building (product : string) (building : option string)
    (cb : gmap string string) : gmap string string :=
  match building with
  | Some b => if Js.truthy building then <[ product := b ]> cb else cb
  | None => cb
  end.

Definition setChoiceRecipe (product : string) (recipeId : option string)
    (s : State.t) : State.t :=
  let list := default [] (idx !! product) in
  let chosen :=
    if Js.truthy recipeId
    then Js.find (fun r => bool_decide (Some (Recipe.recipeId r) = recipeId)) list
    else None in
  State.set_choices s
    (<[ product := recipeId ]> (State.choicesRecipe s))
    (prefer_building product (Recipe.building <$> chosen) (State.choicesBuilding s)).

Definition setChoiceBuilding (product building : string) (s : State.t) : State.t :=
  State.set_choices s (State.choicesRecipe s)
    (<[ product := building ]> (State.choicesBuilding s)).

(** Build the graph once: always render roots + one upstream hop (baseline),
    then expand per-node according to the [expandedByNode] counters. *)
Definition build (s : State.t) : State.t :=
  match State.targets s with
  | [] => State.set_graph s [] [] Totals.empty
  | _ :: _ =>
    let b :=
      expand idx (State.choicesRecipe s) (State.choicesBuilding s) (State.expandedByNode s)
        (baseline idx (State.choicesRecipe s) (State.choicesBuilding s) (State.targets s)) in
    State.set_graph s (Graph.nodes (Bfs.graph b)) (Graph.edges (Bfs.graph b))
      (computeTotals idx (Graph.nodes (Bfs.graph b)))
  end.

Definition resetExpansions (s : State.t) : State.t := State.set_expanded s ∅.

(** +1 hop for THIS node id only, then rebuild. *)
Definition expandNodeOnce (nodeId : string) (s : State.t) : State.t :=
  let cur := default 0%Z (State.expandedByNode s !! nodeId) in
  build (State.set_expanded s (<[ nodeId := (cur + 1)%Z ]> (State.expandedByNode s))).

(** +N hops for THIS node id only, then rebuild. *)
Definition expandBranchBy (nodeId : string) (hops : Z) (s : State.t) : State.t :=
  let cur := default 0%Z (State.expandedByNode s !! nodeId) in
  build (State.set_expanded s
           (<[ nodeId := (cur + Z.max 1 hops)%Z ]> (State.expandedByNode s))).

(** Swap the recipe at a node and rebuild (migrates the expansion budget to
    the new node id). *)
Definition swapNodeRecipe (nodeId recipeId : string) (s : State.t) : State.t :=
  match Js.find (fun n => String.eqb (GraphNode.id n) nodeId) (State.graphNodes s) with
  | None => s
  | Some node =>
    let list := default [] (idx !! GraphNode.product node) in
    let chosen := Js.find (fun r => String.eqb (Recipe.recipeId r) recipeId) list in
    let building := Recipe.building <$> chosen in
    let prevBudget := default 0%Z (State.expandedByNode s !! nodeId) in
    let newId := nodeIdFor (GraphNode.product node) recipeId in
    let migrated :=
      if (0 <? prevBudget)%Z
      then <[ newId := Z.max prevBudget (default 0%Z (State.expandedByNode s !! newId)) ]>
             (State.expandedByNode s)
      else State.expandedByNode s in
    let nextExpanded := delete nodeId migrated in
    build
      (State.mk (State.targets s)
         (<[ GraphNode.product node := Some recipeId ]> (State.choicesRecipe s))
         (prefer_building (GraphNode.product node) building (State.choicesBuilding s))
         nextExpanded (State.graphNodes s) (State.graphEdges s) (State.totals s))
  end.

Definition recomputeTotals (s : State.t) : State.t :=
  State.set_graph s (State.graphNodes s) (State.graphEdges s)
    (computeTotals idx (State.graphNodes s)).

End Actions.

End Store.

(** ** state/store, per-product evolution: [collapseBranch]

    The per-node store has no [collapseBranch]; the action lives in the
    per-product evolution of the store, whose budgets are keyed by product
    name.  Only its budget update is modelled; the action then rebuilds. *)

Module PerProduct.

(** [nodeById.get(id)]: the [Map] constructor keeps the last entry of an id. *)
Definition nodeById (nodes : list GraphNode.t) (id : string) : option GraphNode.t :=
  Js.find (fun n => String.eqb (GraphNode.id n) id) (rev nodes).

(** [parentsByChild.get(id) || []] *)
Definition parentsOf (edges : list GraphEdge.t) (id : string) : list string :=
  map GraphEdge.source (filter (fun e => GraphEdge.target e = id) edges).

Module Walk.
Record t := mk { toZero : gset string; seen : gset string; q : list string }.
End Walk.

(** One iteration of the walk over the reversed edges. *)
Definition walk_step (nodes : list GraphNode.t) (edges : list GraphEdge.t)
    (w : Walk.t) : Walk.t :=
  match Walk.q w with
  | [] => w
  | id :: rest =>
    if decide (id ∈ Walk.seen w) then Walk.mk (Walk.toZero w) (Walk.seen w) rest
    else
      match nodeById nodes id with
      | Some n =>
        Walk.mk ({[ GraphNode.product n ]} ∪ Walk.toZero w) ({[ id ]} ∪ Walk.seen w)
          (rest ++ parentsOf edges id)
      | None => Walk.mk (Walk.toZero w) ({[ id ]} ∪ Walk.seen w) rest
      end
  end.

Fixpoint walk (fuel : nat) (nodes : list GraphNode.t) (edges : list GraphEdge.t)
    (w : Walk.t) : Walk.t :=
  match fuel with
  | O => w
  | S fuel' =>
    match Walk.q w with
    | [] => w
    | _ :: _ => walk fuel' nodes edges (walk_step nodes edges w)
    end
  end.

(** The budgets that [collapseBranch] stores: 0 for the product of every
    node reached by the walk. *)
Definition collapseBranch (fuel : nat) (nodes : list GraphNode.t)
    (edges : list GraphEdge.t) (expandedByProduct : gmap string Z) (nodeId : string)
    : gmap string Z :=
  let w := walk fuel nodes edges (Walk.mk ∅ ∅ [nodeId]) in
  set_fold (fun p next => <[ p := 0%Z ]> next) expandedByProduct (Walk.toZero w).

(** [needs[i.name] = (needs[i.name] || 0) + i.ratePerMin] *)
Definition add_need (needs : gmap string Q) (i : NodeIO.t) : gmap string Q :=
  <[ NodeIO.name i := (Js.or0 (needs !! NodeIO.name i) + NodeIO.ratePerMin i)%Q ]> needs.

(** [!hasChild.has(n.id)], where [hasChild] is the set of edge sources. *)
Definition is_leaf (edges : list GraphEdge.t) (n : GraphNode.t) : bool :=
  negb (existsb (fun e => String.eqb (GraphEdge.source e) (GraphNode.id n)) edges).

(** Inputs needed at the current frontier (sum inputs of all leaf nodes). *)
Definition computeFrontierNeeds (nodes : list GraphNode.t) (edges : list GraphEdge.t)
    : gmap string Q :=
  let leaves := List.filter (is_leaf edges) nodes in
  let needs :=
    fold_left (fun needs leaf => fold_left add_need (GraphNode.inputs leaf) needs)
      leaves ∅ in
  Js.r2 <$> needs.

(** The locals of the per-product [expandBranchBy]: the budgets being
    raised, the best allowance seen per node id and the queue. *)
Module Climb.
Record t := mk {
  next : gmap string Z;
  best : gmap string Z;
  q : list Store.QItem.t
}.
End Climb.

(** One iteration of the walk from a node to its consumers. *)
Definition climb_step (nodes : list GraphNode.t) (edges : list GraphEdge.t)
    (c : Climb.t) : Climb.t :=
  match Climb.q c with
  | [] => c
  | item :: rest =>
    let id := Store.QItem.id item in
    let rem := Store.QItem.rem item in
    match nodeById nodes id with
    | None => Climb.mk (Climb.next c) (Climb.best c) rest
    | Some n =>
      let prev := default (-1)%Z (Climb.best c !! id) in
      if (prev <? rem)%Z then
        let curAllow := default 0%Z (Climb.next c !! GraphNode.product n) in
        let next' :=
          if (curAllow <? rem)%Z then <[ GraphNode.product n := rem ]> (Climb.next c)
          else Climb.next c in
        let q' :=
          if (0 <? rem - 1)%Z
          then rest ++ map (fun p => Store.QItem.mk p (rem - 1)%Z) (parentsOf edges id)
          else rest in
        Climb.mk next' (<[ id := rem ]> (Climb.best c)) q'
      else Climb.mk (Climb.next c) (Climb.best c) rest
    end
  end.

Fixpoint climb (fuel : nat) (nodes : list GraphNode.t) (edges : list GraphEdge.t)
    (c : Climb.t) : Climb.t :=
  match fuel with
  | O => c
  | S fuel' =>
    match Climb.q c with
    | [] => c
    | _ :: _ => climb fuel' nodes edges (climb_step nodes edges c)
    end
  end.

(** The walk stops: an item is expanded only when it raises the allowance
    recorded for its node id, allowances never exceed [hops], and one
    expansion enqueues at most one item per edge. *)
Definition climb_slack (hops : Z) (best : gmap string Z) (n : GraphNode.t) : nat :=
  Z.to_nat (hops - default (-1)%Z (best !! GraphNode.id n)).

Definition climb_potential (nodes : list GraphNode.t) (hops : Z) (best : gmap string Z)
    : nat :=
  sum_list (map (climb_slack hops best) nodes).

Definition climb_measure (nodes : list GraphNode.t) (edges : list GraphEdge.t)
    (hops : Z) (c : Climb.t) : nat :=
  length (Climb.q c) + S (length edges) * climb_potential nodes hops (Climb.best c).

(** The budgets that [expandBranchBy] stores; [hops <= 0] returns before any
    update. *)
Definition expandBranchBy (nodes : list GraphNode.t) (edges : list GraphEdge.t)
    (expandedByProduct : gmap string Z) (nodeId : string) (hops : Z) : gmap string Z :=
  if (hops <=? 0)%Z then expandedByProduct
  else
    let c := Climb.mk expandedByProduct ∅ [Store.QItem.mk nodeId hops] in
    Climb.next (climb (climb_measure nodes edges hops c) nodes edges c).

(** [expandBranchAll]: expand the upstream branch by a large number of hops. *)
Definition expandBranchAll (nodes : list GraphNode.t) (edges : list GraphEdge.t)
    (expandedByProduct : gmap string Z) (nodeId : string) : gmap string Z :=
  expandBranchBy nodes edges expandedByProduct nodeId 50.

End PerProduct.

(** ** components/ChainGraph: focus mode

    [visibleSets]: the ids of the nodes and edges that stay fully visible
    when a node is focused. *)

Module ChainGraph.

(** The key [`${e.source}::${e.target}`] of an edge. *)
Definition edgeKey (source target : string) : string := source +:+ "::" +:+ target.

(** [edgeKeyToId.get(key)]: the [Map] keeps the id of the last edge of a key. *)
Definition edgeKeyToId (edges : list GraphEdge.t) (key : string) : option string :=
  GraphEdge.id
    <$> Js.find
          (fun e => String.eqb (edgeKey (GraphEdge.source e) (GraphEdge.target e)) key)
          (rev edges).

Module Focus.
Record t := mk { keepNodeIds : gset string; keepEdgeIds : gset string; q : list string }.
End Focus.

(** [const eId = edgeKeyToId.get(...); if (eId) keepEdgeIds.add(eId)] *)
Definition keep_edge (edges : list GraphEdge.t) (child : string) (keep : gset string)
    (p : string) : gset string :=
  let eId := edgeKeyToId edges (edgeKey p child) in
  match eId with
  | Some x => if Js.truthy eId then {[ x ]} ∪ keep else keep
  | None => keep
  end.

(** One iteration of [while (q.length)]. *)
Definition focus_step (edges : list GraphEdge.t) (f : Focus.t) : Focus.t :=
  match Focus.q f with
  | [] => f
  | child :: rest =>
    if decide (child ∈ Focus.keepNodeIds f)
    then Focus.mk (Focus.keepNodeIds f) (Focus.keepEdgeIds f) rest
    else
      let parents := PerProduct.parentsOf edges child in
      Focus.mk ({[ child ]} ∪ Focus.keepNodeIds f)
        (fold_left (keep_edge edges child) parents (Focus.keepEdgeIds f))
        (rest ++ parents)
  end.

Fixpoint focus_walk (fuel : nat) (edges : list GraphEdge.t) (f : Focus.t) : Focus.t :=
  match fuel with
  | O => f
  | S fuel' =>
    match Focus.q f with
    | [] => f
    | _ :: _ => focus_walk fuel' edges (focus_step edges f)
    end
  end.

(** The loop runs at most once per queued id; an id is queued at the start
    or once per edge into a node that is visited for the first time. *)
Definition focus_measure (edges : list GraphEdge.t) (f : Focus.t) : nat :=
  length (Focus.q f)
  + length (filter (fun e => GraphEdge.target e ∉ Focus.keepNodeIds f) edges).

Definition visibleSets (edges : list GraphEdge.t) (focusedNodeId : option string)
    : option Focus.t :=
  match focusedNodeId with
  | Some id =>
    if Js.truthy focusedNodeId
    then
      let f := Focus.mk ∅ ∅ [id] in
      Some (focus_walk (focus_measure edges f) edges f)
    else None
  | None => None
  end.

End ChainGraph.

(** ** scripts/convert-to-json: from the rows of the sheet to the catalog

    A cell of a row is [null] (also standing for a missing column), a
    number, a string or a boolean.  [Number] applied to a string and [String]
    applied to a number are left as parameters of the model. *)

Module Convert.

Inductive cell := Null | Num (q : Q) | Str (s : string) | Bool (b : bool).

Record row := mkRow {
  RecipeId : cell;
  Time : cell;
  Building : cell;
  Input : nat -> cell * cell;    (* Input<i>Name, Input<i>Qty *)
  Output : nat -> cell * cell    (* Output<i>Name, Output<i>Qty *)
}.

Section Coercions.

(** [Number(s)] on a string: [None] when the result is not finite. *)
Variable numberOfString : string -> option Q.
(** [String(n)] on a number. *)
Variable stringOfNumber : Q -> string.

Definition toNumber (v : cell) : Q :=
  match v with
  | Null => 0%Q
  | Num q => q
  | Str s => default 0%Q (numberOfString s)
  | Bool b => if b then 1%Q else 0%Q
  end.

Definition toString (v : cell) : string :=
  match v with
  | Null => "null"
  | Num q => stringOfNumber q
  | Str s => s
  | Bool b => if b then "true" else "false"
  end.

Definition is_null (v : cell) : bool :=
  match v with
  | Null => true
  | _ => false
  end.

(** Truthiness of a cell: [null], [0], the empty string and [false] are
    falsy. *)
Definition truthy (v : cell) : bool :=
  match v with
  | Null => false
  | Num q => negb (Qeq_bool q 0)
  | Str s => negb (String.eqb s "")
  | Bool b => b
  end.

Definition collectIO (cols : nat -> cell * cell) : list IO.t :=
  flat_map
    (fun i =>
       let '(name, qty) := cols i in
       if negb (is_null name) && negb (is_null qty) && negb (Qeq_bool (toNumber qty) 0)
       then [IO.mk (Js.trim (toString name)) (toNumber qty)]
       else [])
    (seq 1 9).

Definition convert_row (r : row) : option Recipe.t :=
  let time := toNumber (Time r) in
  if negb (truthy (RecipeId r)) || Qeq_bool time 0 then None
  else
    let recipe :=
      Recipe.mk (Js.trim (toString (RecipeId r)))
        (if is_null (Building r) then "" else Js.trim (toString (Building r)))
        time (collectIO (Input r)) (collectIO (Output r)) in
    match Recipe.outputs recipe with
    | [] => None   (* skip rows with no outputs *)
    | _ :: _ => Some recipe
    end.

Definition convert (rows : list row) : list Recipe.t :=
  flat_map (fun r => match convert_row r with Some x => [x] | None => [] end) rows.

End Coercions.

End Convert.

Import BuildIndex Store.

(** Decidable equality of targets. *)
Instance Q_eq_dec : EqDecision Q.
Proof. solve_decision. Defined.

Instance Target_eq_dec : EqDecision Target.t.
Proof. solve_decision. Defined.

(** ** Statements taken from the specification *)

(** The node has exactly one output entry flagged as target, and that entry
    is produced at rate [r]. *)
Definition one_target_at (n : GraphNode.t) (r : Q) : Prop :=
  exists o, filter (fun o => NodeOut.isTarget o = true) (GraphNode.outputs n) = [o]
            /\ (NodeOut.ratePerMin o == r)%Q.

(** The recipes of a catalog that produce [product], in catalog order: one
    occurrence per output entry whose trimmed name is [product]. *)
Definition producers (RECIPES : list Recipe.t) (product : string) : list Recipe.t :=
  flat_map
    (fun r =>
       flat_map (fun o => if decide (Js.trim (IO.name o) = product) then [r] else [])
         (Recipe.outputs r))
    RECIPES.

(** The resolution order of PreferenceResolver in the specification's words:
    first match wins. *)
Definition pick_spec (idx : ProductIndex) (product : string)
    (explicitRecipeId preferredBuilding parentBuilding : option string) : option Recipe.t :=
  let list := default [] (idx !! product) in
  match explicitRecipeId ≫= (fun e => Js.find (fun x => bool_decide (Recipe.recipeId x = e)) list) with
  | Some r => Some r
  | None =>
    match parentBuilding ≫= (fun b => Js.find (fun x => bool_decide (Recipe.building x = b)) list) with
    | Some r => Some r
    | None =>
      match preferredBuilding ≫= (fun b => Js.find (fun x => bool_decide (Recipe.building x = b)) list) with
      | Some r => Some r
      | None => head list
      end
    end
  end.

(** A hint counts as given when it is a non-empty string. *)
Definition given (o : option string) : option string :=
  if Js.truthy o then o else None.

(** A node as [makeNode] builds it for a recipe of the index. *)
Definition node_of_index (idx : ProductIndex) (n : GraphNode.t) : Prop :=
  GraphNode.id n = nodeIdFor (GraphNode.product n) (GraphNode.recipeId n)
  /\ exists r, r ∈ default [] (idx !! GraphNode.product n)
               /\ Recipe.recipeId r = GraphNode.recipeId n.

(** The inputs named [k], over all nodes in order, when [k] is absent from
    the index (a true external import). *)
Definition raw_inputs (idx : ProductIndex) (nodes : list GraphNode.t) (k : string)
    : list NodeIO.t :=
  filter (fun i => NodeIO.name i = k /\ idx !! k = None)
    (flat_map GraphNode.inputs nodes).

Definition sum_rates (l : list NodeIO.t) : Q :=
  fold_right (fun i acc => (acc + NodeIO.ratePerMin i)%Q) 0%Q (rev l).

(** The accumulator of the first loop of [computeTotals], looked up at [k],
    after the inputs [seen] have been visited. *)
Definition raw_acc_at (idx : ProductIndex) (k : string) (acc : gmap string Q)
    (seen : list NodeIO.t) : Prop :=
  match filter (fun i => NodeIO.name i = k /\ idx !! k = None) seen with
  | [] => acc !! k = None
  | l => exists v, acc !! k = Some v /\ (v == sum_rates l)%Q
  end.

(** The invariant of the locals of [build]: the two maps agree and list
    exactly the nodes of the array by id, ids are unique, and every node was
    made for a recipe of the index. *)
Definition graph_ok (idx : ProductIndex) (g : Graph.t) : Prop :=
  Graph.byKey g = Graph.byId g
  /\ (forall k n, Graph.byId g !! k = Some n <-> n ∈ Graph.nodes g /\ GraphNode.id n = k)
  /\ NoDup (map GraphNode.id (Graph.nodes g))
  /\ Forall (node_of_index idx) (Graph.nodes g).

(** [build] only ever appends to its node and edge arrays. *)
Definition extends (g g' : Graph.t) : Prop :=
  Graph.nodes g `prefix_of` Graph.nodes g'
  /\ Graph.edges g `prefix_of` Graph.edges g'.

(** Every list of the index is non-empty, as in an index built by
    [PRODUCT_INDEX]. *)
Definition index_ok (idx : ProductIndex) : Prop :=
  forall k l, idx !! k = Some l -> l <> [].

(** The hop below [root] through its input [i] is visible in [g]: when the
    input is craftable, its child node, resolved with the building of [root]
    as hint, is in the graph together with an edge from [root] to it.  With
    [fresh], the child is moreover [root] itself or a node of depth 1. *)
Definition hop_at (idx : ProductIndex) (cr : gmap string (option string))
    (cb : gmap string string) (fresh : Prop) (root : GraphNode.t) (g : Graph.t)
    (i : NodeIO.t) : Prop :=
  craftable idx (NodeIO.name i) = true ->
  exists rc child e,
    resolve idx cr cb (NodeIO.name i) (Some (GraphNode.building root)) = Some rc
    /\ child ∈ Graph.nodes g
    /\ GraphNode.id child = nodeIdFor (NodeIO.name i) (Recipe.recipeId rc)
    /\ e ∈ Graph.edges g
    /\ GraphEdge.source e = GraphNode.id root
    /\ GraphEdge.target e = GraphNode.id child
    /\ GraphEdge.label e = NodeIO.name i
    /\ (fresh -> child = root \/ GraphNode.depth child = 1%nat).

Definition first_hop (idx : ProductIndex) (cr : gmap string (option string))
    (cb : gmap string string) (fresh : Prop) (root : GraphNode.t) (g : Graph.t) : Prop :=
  forall i, i ∈ GraphNode.inputs root -> hop_at idx cr cb fresh root g i.

(** All nodes but [root] are at depth 1. *)
Definition one_hop_only (root : GraphNode.t) (g : Graph.t) : Prop :=
  forall n, n ∈ Graph.nodes g -> n = root \/ GraphNode.depth n = 1%nat.

(** What a demand gets when the graph built so far is [g]: the node that
    [g] already holds under the id, as it is, or else, when [g] holds no
    node with that id, the node [fresh] made for the demand. *)
Definition reused_or_made (g : Graph.t) (n fresh : GraphNode.t) : Prop :=
  (n ∈ Graph.nodes g /\ GraphNode.id n = GraphNode.id fresh)
  \/ (n = fresh /\ forall m, m ∈ Graph.nodes g -> GraphNode.id m <> GraphNode.id fresh).

(** The expansion phase in the specification's words. *)
Definition effective_remaining (remaining ownBudget : Z) : Z :=
  Z.max remaining ownBudget.

Definition inherited_allowance (effectiveRemaining childBudget : Z) : Z :=
  Z.max (effectiveRemaining - 1) childBudget.

(** The allowance [a] is positive and strictly greater than any allowance
    previously recorded for [child]. *)
Definition improves (best : gmap string Z) (child : string) (a : Z) : Prop :=
  (0 < a)%Z /\ forall prev, best !! child = Some prev -> (prev < a)%Z.

(** The allowance that [parent], holding [rem] hops, offers through its input
    [i] cannot improve what is recorded for the child. *)
Definition settled (idx : ProductIndex) (cr : gmap string (option string))
    (cb : gmap string string) (e : gmap string Z) (best : gmap string Z)
    (parent : GraphNode.t) (rem : Z) (i : NodeIO.t) : Prop :=
  craftable idx (NodeIO.name i) = true ->
  forall rc, resolve idx cr cb (NodeIO.name i) (Some (GraphNode.building parent)) = Some rc ->
    ~ improves best (nodeIdFor (NodeIO.name i) (Recipe.recipeId rc))
        (inherited_allowance
           (effective_remaining rem (budget e (GraphNode.id parent)))
           (budget e (nodeIdFor (NodeIO.name i) (Recipe.recipeId rc)))).

(** Every recorded allowance, but possibly [skip], is still waiting in the
    queue or has been offered to all the children. *)
Definition relaxed_but (idx : ProductIndex) (cr : gmap string (option string))
    (cb : gmap string string) (e : gmap string Z) (skip : option QItem.t)
    (b : Bfs.t) : Prop :=
  forall parent rem,
    parent ∈ Graph.nodes (Bfs.graph b) ->
    Bfs.bestRem b !! GraphNode.id parent = Some rem ->
    Some (QItem.mk (GraphNode.id parent) rem) = skip
    \/ QItem.mk (GraphNode.id parent) rem ∈ Bfs.queue b
    \/ forall i, i ∈ GraphNode.inputs parent -> settled idx cr cb e (Bfs.bestRem b) parent rem i.

(** The invariant of the expansion loop: allowances and queued hop counts are
    positive, bounded by the largest stored budget, and belong to nodes of
    the graph. *)
Definition bfs_ok (idx : ProductIndex) (e : gmap string Z) (b : Bfs.t) : Prop :=
  graph_ok idx (Bfs.graph b)
  /\ (forall k v, Bfs.bestRem b !! k = Some v ->
        (0 < v <= maxBudget e)%Z /\ is_Some (Graph.byId (Bfs.graph b) !! k))
  /\ Forall (fun it => (0 < QItem.rem it <= maxBudget e)%Z
                       /\ is_Some (Graph.byId (Bfs.graph b) !! QItem.id it))
       (Bfs.queue b).

(** Recorded allowances only grow. *)
Definition best_le (best best' : gmap string Z) : Prop :=
  forall k v, best !! k = Some v -> exists v', best' !! k = Some v' /\ (v <= v')%Z.

(** The baseline phase as the specification states it: every target with a
    producing recipe has a root at depth 0 with [runsPerMin] given by the
    rate formula, and every craftable input of the root has a child at
    depth 1 connected by an edge. *)
Definition baseline_as_stated (idx : ProductIndex) (s : State.t) : Prop :=
  forall t r,
    t ∈ State.targets s ->
    resolve idx (State.choicesRecipe s) (State.choicesBuilding s) (Target.product t) None
    = Some r ->
    exists root,
      root ∈ State.graphNodes (build idx s)
      /\ GraphNode.id root = nodeIdFor (Target.product t) (Recipe.recipeId r)
      /\ GraphNode.depth root = 0%nat
      /\ (GraphNode.runsPerMin root
          == if Qeq_bool (outputRatePerMin r (Target.product t)) 0 then 0
             else Target.ratePerMin t / outputRatePerMin r (Target.product t))%Q
      /\ forall i, i ∈ GraphNode.inputs root -> craftable idx (NodeIO.name i) = true ->
           exists rc child e,
             resolve idx (State.choicesRecipe s) (State.choicesBuilding s) (NodeIO.name i)
               (Some (GraphNode.building root)) = Some rc
             /\ child ∈ State.graphNodes (build idx s)
             /\ GraphNode.id child = nodeIdFor (NodeIO.name i) (Recipe.recipeId rc)
             /\ GraphNode.depth child = 1%nat
             /\ e ∈ State.graphEdges (build idx s)
             /\ GraphEdge.source e = GraphNode.id root
             /\ GraphEdge.target e = GraphNode.id child.

(** The locals of [build] when it publishes, for a non-empty target list. *)
Definition built (idx : ProductIndex) (s : State.t) : Bfs.t :=
  expand idx (State.choicesRecipe s) (State.choicesBuilding s) (State.expandedByNode s)
    (baseline idx (State.choicesRecipe s) (State.choicesBuilding s) (State.targets s)).

(** Two budget maps give the same budget to every node of [g]. *)
Definition agree (e e' : gmap string Z) (g : Graph.t) : Prop :=
  forall n, n ∈ Graph.nodes g -> budget e (GraphNode.id n) = budget e' (GraphNode.id n).

(** No two (product, recipe) pairs of the index share a node id. *)
Definition ids_distinct (idx : ProductIndex) : Prop :=
  forall p1 r1 p2 r2,
    r1 ∈ default [] (idx !! p1) -> r2 ∈ default [] (idx !! p2) ->
    nodeIdFor p1 (Recipe.recipeId r1) = nodeIdFor p2 (Recipe.recipeId r2) ->
    p1 = p2.

(** The graph holds a node for product [P]; it holds the node of [P] under
    the recipe id [R]. *)
Definition has_product (P : string) (g : Graph.t) : Prop :=
  exists n, n ∈ Graph.nodes g /\ GraphNode.product n = P.

Definition has_node (P R : string) (g : Graph.t) : Prop :=
  exists n, n ∈ Graph.nodes g /\ GraphNode.id n = nodeIdFor P R /\ GraphNode.product n = P.

(** Two runs of [build], before and after the recipe of [P] is swapped to
    [R]: they are in the same state with no node for [P] yet, or the first
    has a node for [P] and the second the node of [P] under [R]. *)
Definition in_step (P R : string) (a b : Graph.t) : Prop :=
  (a = b /\ ~ has_product P a) \/ (has_product P a /\ has_node P R b).

Definition in_step_bfs (P R : string) (a b : Bfs.t) : Prop :=
  (a = b /\ ~ has_product P (Bfs.graph a))
  \/ (has_product P (Bfs.graph a) /\ has_node P R (Bfs.graph b)).

(** The swap round trip as the specification states it: for every node of
    the graph with a positive stored budget and every other recipe id, the
    swap to that id followed by the swap back puts the node back under its
    id, with a stored budget at least as large as before. *)
Definition swap_back_as_stated (idx : ProductIndex) (s : State.t) : Prop :=
  forall nodeId node R1 b,
    Js.find (fun n => String.eqb (GraphNode.id n) nodeId) (State.graphNodes s) = Some node ->
    State.expandedByNode s !! nodeId = Some b -> (0 < b)%Z ->
    R1 <> GraphNode.recipeId node ->
    let P := GraphNode.product node in
    let s1 := swapNodeRecipe idx nodeId R1 s in
    let s2 := swapNodeRecipe idx (nodeIdFor P R1) (GraphNode.recipeId node) s1 in
    (exists node2,
       Js.find (fun n => String.eqb (GraphNode.id n) nodeId) (State.graphNodes s2)
       = Some node2)
    /\ exists b', State.expandedByNode s2 !! nodeId = Some b' /\ (b <= b')%Z.

(** ** Statements about what a budget shows *)

(** The hop below [parent] through its input [i] is in the graph: [child] is
    the node of the recipe that resolution gives for the input, with the
    building of [parent] as hint, and an edge joins the two. *)
Definition hop_shown (idx : ProductIndex) (cr : gmap string (option string))
    (cb : gmap string string) (nodes : list GraphNode.t) (edges : list GraphEdge.t)
    (parent : GraphNode.t) (i : NodeIO.t) (child : GraphNode.t) : Prop :=
  exists rc e,
    resolve idx cr cb (NodeIO.name i) (Some (GraphNode.building parent)) = Some rc
    /\ child ∈ nodes
    /\ GraphNode.id child = nodeIdFor (NodeIO.name i) (Recipe.recipeId rc)
    /\ e ∈ edges
    /\ GraphEdge.source e = GraphNode.id parent
    /\ GraphEdge.target e = GraphNode.id child.

(** The upstream of [n] is shown [k] hops deep: every craftable input of [n]
    has its hop in the graph, and so on below for [k - 1] more hops. *)
Fixpoint shown (idx : ProductIndex) (cr : gmap string (option string))
    (cb : gmap string string) (nodes : list GraphNode.t) (edges : list GraphEdge.t)
    (k : nat) (n : GraphNode.t) : Prop :=
  match k with
  | O => True
  | S k' =>
    forall i, i ∈ GraphNode.inputs n -> craftable idx (NodeIO.name i) = true ->
      exists child,
        hop_shown idx cr cb nodes edges n i child
        /\ shown idx cr cb nodes edges k' child
  end.

(** Every recorded allowance still waits in the queue, or the hops below its
    node are in the graph. *)
Definition hops_waiting (idx : ProductIndex) (cr : gmap string (option string))
    (cb : gmap string string) (b : Bfs.t) : Prop :=
  forall parent rem,
    parent ∈ Graph.nodes (Bfs.graph b) ->
    Bfs.bestRem b !! GraphNode.id parent = Some rem ->
    QItem.mk (GraphNode.id parent) rem ∈ Bfs.queue b
    \/ forall i, i ∈ GraphNode.inputs parent -> craftable idx (NodeIO.name i) = true ->
         exists child,
           hop_shown idx cr cb (Graph.nodes (Bfs.graph b)) (Graph.edges (Bfs.graph b))
             parent i child.

(** Every node with a positive budget has an allowance of at least that
    budget recorded. *)
Definition seeded (e : gmap string Z) (b : Bfs.t) : Prop :=
  forall n, n ∈ Graph.nodes (Bfs.graph b) -> (0 < budget e (GraphNode.id n))%Z ->
    exists v, Bfs.bestRem b !! GraphNode.id n = Some v
              /\ (budget e (GraphNode.id n) <= v)%Z.

(** ** Statements about the per-product walks *)

(** [id] is reached from [start] by following edges from target to source,
    passing only through ids that are nodes of the graph. *)
Inductive upstream (nodes : list GraphNode.t) (edges : list GraphEdge.t)
    (start : string) : string -> Prop :=
| upstream_start : upstream nodes edges start start
| upstream_parent id e :
    upstream nodes edges start id ->
    is_Some (PerProduct.nodeById nodes id) ->
    e ∈ edges -> GraphEdge.target e = id ->
    upstream nodes edges start (GraphEdge.source e).

(** The same with the number of edges followed. *)
Inductive upstream_in (nodes : list GraphNode.t) (edges : list GraphEdge.t)
    (start : string) : nat -> string -> Prop :=
| upstream_in_start : upstream_in nodes edges start 0 start
| upstream_in_parent d id e :
    upstream_in nodes edges start d id ->
    is_Some (PerProduct.nodeById nodes id) ->
    e ∈ edges -> GraphEdge.target e = id ->
    upstream_in nodes edges start (S d) (GraphEdge.source e).

(** The iterations that the walk of [collapseBranch] has left at most: the
    queued ids, and one per edge whose target was not visited yet. *)
Definition walk_measure (edges : list GraphEdge.t) (w : PerProduct.Walk.t) : nat :=
  length (PerProduct.Walk.q w)
  + length (filter (fun e => GraphEdge.target e ∉ PerProduct.Walk.seen w) edges).

(** The invariant of the walk of [collapseBranch] from [start]. *)
Definition walk_ok (nodes : list GraphNode.t) (edges : list GraphEdge.t)
    (start : string) (w : PerProduct.Walk.t) : Prop :=
  (forall id, id ∈ PerProduct.Walk.seen w \/ id ∈ PerProduct.Walk.q w ->
     upstream nodes edges start id)
  /\ (start ∈ PerProduct.Walk.seen w \/ start ∈ PerProduct.Walk.q w)
  /\ (forall id e,
        id ∈ PerProduct.Walk.seen w -> is_Some (PerProduct.nodeById nodes id) ->
        e ∈ edges -> GraphEdge.target e = id ->
        GraphEdge.source e ∈ PerProduct.Walk.seen w
        \/ GraphEdge.source e ∈ PerProduct.Walk.q w)
  /\ (forall p, p ∈ PerProduct.Walk.toZero w <->
        exists id n, id ∈ PerProduct.Walk.seen w
                     /\ PerProduct.nodeById nodes id = Some n
                     /\ GraphNode.product n = p).

(** In the walk of the per-product [expandBranchBy], the allowance [a] of
    [x] is taken care of: [x] is not a node, or an allowance of at least [a]
    is recorded for it, or waits in the queue. *)
Definition covered (nodes : list GraphNode.t) (c : PerProduct.Climb.t)
    (x : string) (a : Z) : Prop :=
  PerProduct.nodeById nodes x = None
  \/ (exists v, PerProduct.Climb.best c !! x = Some v /\ (a <= v)%Z)
  \/ (exists it, it ∈ PerProduct.Climb.q c /\ QItem.id it = x /\ (a <= QItem.rem it)%Z).

(** [hops - d] is a positive allowance that reaches [id], [d] edges above
    [start]. *)
Definition reaches (nodes : list GraphNode.t) (edges : list GraphEdge.t)
    (start : string) (hops : Z) (id : string) (v : Z) : Prop :=
  exists d : nat,
    upstream_in nodes edges start d id /\ v = (hops - Z.of_nat d)%Z /\ (0 < v)%Z.

(** The budget of product [p] is as it was, or it was raised to an allowance
    that reaches a node of that product. *)
Definition raised_or_kept (nodes : list GraphNode.t) (edges : list GraphEdge.t)
    (start : string) (hops : Z) (budgets next : gmap string Z) (p : string) : Prop :=
  next !! p = budgets !! p
  \/ exists id n v,
       reaches nodes edges start hops id v
       /\ PerProduct.nodeById nodes id = Some n /\ GraphNode.product n = p
       /\ next !! p = Some v /\ (default 0 (budgets !! p) < v)%Z.

(** The invariant of the walk of the per-product [expandBranchBy]. *)
Definition climb_ok (nodes : list GraphNode.t) (edges : list GraphEdge.t)
    (start : string) (hops : Z) (budgets : gmap string Z) (c : PerProduct.Climb.t)
    : Prop :=
  Forall (fun it => reaches nodes edges start hops (QItem.id it) (QItem.rem it))
    (PerProduct.Climb.q c)
  /\ (forall id v, PerProduct.Climb.best c !! id = Some v ->
        is_Some (PerProduct.nodeById nodes id) /\ reaches nodes edges start hops id v)
  /\ (forall p, raised_or_kept nodes edges start hops budgets (PerProduct.Climb.next c) p)
  /\ (forall id v n,
        PerProduct.Climb.best c !! id = Some v -> PerProduct.nodeById nodes id = Some n ->
        (v <= default 0 (PerProduct.Climb.next c !! GraphNode.product n))%Z)
  /\ (forall id v e,
        PerProduct.Climb.best c !! id = Some v -> (1 < v)%Z ->
        e ∈ edges -> GraphEdge.target e = id ->
        covered nodes c (GraphEdge.source e) (v - 1))
  /\ covered nodes c start hops.

(** ** Statements about focus mode and the converter *)

(** [id] is reached from [start] by following edges from target to source. *)
Inductive above (edges : list GraphEdge.t) (start : string) : string -> Prop :=
| above_start : above edges start start
| above_parent e :
    e ∈ edges -> above edges start (GraphEdge.target e) ->
    above edges start (GraphEdge.source e).

(** The invariant of the walk of [visibleSets] from [start]. *)
Definition focus_ok (edges : list GraphEdge.t) (start : string) (f : ChainGraph.Focus.t)
    : Prop :=
  (forall id, id ∈ ChainGraph.Focus.keepNodeIds f \/ id ∈ ChainGraph.Focus.q f ->
     above edges start id)
  /\ (start ∈ ChainGraph.Focus.keepNodeIds f \/ start ∈ ChainGraph.Focus.q f)
  /\ (forall e, e ∈ edges -> GraphEdge.target e ∈ ChainGraph.Focus.keepNodeIds f ->
        GraphEdge.source e ∈ ChainGraph.Focus.keepNodeIds f
        \/ GraphEdge.source e ∈ ChainGraph.Focus.q f)
  /\ (forall x, x ∈ ChainGraph.Focus.keepEdgeIds f <->
        exists e, e ∈ edges
                  /\ GraphEdge.target e ∈ ChainGraph.Focus.keepNodeIds f
                  /\ ChainGraph.edgeKeyToId edges
                       (ChainGraph.edgeKey (GraphEdge.source e) (GraphEdge.target e))
                     = Some x
                  /\ x <> "").

(** What the converter guarantees of an input or output entry, and of a
    recipe. *)
Definition io_clean (i : IO.t) : Prop :=
  ~ (IO.qtyPerCycle i == 0)%Q /\ Js.trim (IO.name i) = IO.name i.

Definition recipe_clean (r : Recipe.t) : Prop :=
  ~ (Recipe.timeSec r == 0)%Q
  /\ Recipe.outputs r <> []
  /\ Forall io_clean (Recipe.inputs r) /\ Forall io_clean (Recipe.outputs r)
  /\ (length (Recipe.inputs r) <= 9)%nat /\ (length (Recipe.outputs r) <= 9)%nat
  /\ Js.trim (Recipe.recipeId r) = Recipe.recipeId r
  /\ Js.trim (Recipe.building r) = Recipe.building r.

(** The left-to-right sum of the rates of the entries named [k]. *)
Definition rates_named (k : string) (l : list NodeIO.t) : list Q :=
  map NodeIO.ratePerMin (List.filter (fun i => String.eqb (NodeIO.name i) k) l).

(** A catalog whose quantities are not negative and whose times are positive. *)
Definition io_nonneg (i : IO.t) : Prop := (0 <= IO.qtyPerCycle i)%Q.

Definition recipe_nonneg (r : Recipe.t) : Prop :=
  Recipe.valid r /\ Forall io_nonneg (Recipe.inputs r) /\ Forall io_nonneg (Recipe.outputs r).

Definition index_nonneg (idx : ProductIndex) : Prop :=
  forall k l, idx !! k = Some l -> Forall recipe_nonneg l.

Definition node_nonneg (n : GraphNode.t) : Prop :=
  (0 <= GraphNode.runsPerMin n)%Q
  /\ Forall (fun i => (0 <= NodeIO.ratePerMin i)%Q) (GraphNode.inputs n)
  /\ Forall (fun o => (0 <= NodeOut.ratePerMin o)%Q) (GraphNode.outputs n).

(** The string does not start with white space. *)
Definition clean_start_b (s : string) : bool :=
  match s with
  | EmptyString => true
  | String c _ => negb (Js.is_space c)
  end.

(** ** Statements about the tallies *)

(** The update [m[k] = (m[k] || 0) + v] of a tally. *)
Definition tally (acc : gmap string Q) (kv : string * Q) : gmap string Q :=
  <[ kv.1 := (Js.or0 (acc !! kv.1) + kv.2)%Q ]> acc.

(** The left-to-right sum of a list of rates. *)
Definition sumQ (l : list Q) : Q := fold_left Qplus l 0%Q.

(** [v] is [s] rounded to 2 decimal places: a whole number of hundredths
    that lies within half a hundredth of [s]. *)
Definition rounded2 (s v : Q) : Prop :=
  exists z : Z,
    (v == inject_Z z / 100)%Q
    /\ (s * 100 - (1 # 2) <= inject_Z z)%Q
    /\ (inject_Z z <= s * 100 + (1 # 2))%Q.

(** The values tallied under [k]. *)
Definition tallied (k : string) (l : list (string * Q)) : list Q :=
  map snd (List.filter (fun kv => String.eqb kv.1 k) l).

(** The rates of the outputs named [k] that are not flagged as target. *)
Definition byproduct_rates (nodes : list GraphNode.t) (k : string) : list Q :=
  map NodeOut.ratePerMin
    (List.filter (fun o => negb (NodeOut.isTarget o) && String.eqb (NodeOut.name o) k)
       (flat_map GraphNode.outputs nodes)).

(** The rates of the inputs named [k] of the nodes that are the source of no
    edge. *)
Definition frontier_rates (nodes : list GraphNode.t) (edges : list GraphEdge.t)
    (k : string) : list Q :=
  rates_named k
    (flat_map GraphNode.inputs
       (List.filter
          (fun n => bool_decide (Forall (fun e => GraphEdge.source e <> GraphNode.id n) edges))
          nodes)).

(** ** Statements about the published graph *)

(** Why a node is in the graph: it was made as the root of a target, or as
    the child for a craftable input of a node of the graph, at depth 1 (first
    hop) or one below that node, at the rate of that input. *)
Definition made_as_root (idx : ProductIndex) (cr : gmap string (option string))
    (cb : gmap string string) (targets : list Target.t) (n : GraphNode.t) : Prop :=
  exists t r,
    t ∈ targets
    /\ resolve idx cr cb (Target.product t) None = Some r
    /\ n = makeNode r (Target.product t) (Target.ratePerMin t) 0.

Definition made_as_child (idx : ProductIndex) (cr : gmap string (option string))
    (cb : gmap string string) (nodes : list GraphNode.t) (n : GraphNode.t) : Prop :=
  exists parent i r,
    parent ∈ nodes /\ i ∈ GraphNode.inputs parent
    /\ craftable idx (NodeIO.name i) = true
    /\ resolve idx cr cb (NodeIO.name i) (Some (GraphNode.building parent)) = Some r
    /\ n = makeNode r (NodeIO.name i) (NodeIO.ratePerMin i) (GraphNode.depth n)
    /\ (GraphNode.depth n = 1%nat
        \/ GraphNode.depth n = (GraphNode.depth parent + 1)%nat).

(** [n] is reached from the root made for a target along edges of the
    graph, from source to target. *)
Inductive from_root (idx : ProductIndex) (cr : gmap string (option string))
    (cb : gmap string string) (targets : list Target.t)
    (nodes : list GraphNode.t) (edges : list GraphEdge.t) : GraphNode.t -> Prop :=
| from_root_here n :
    n ∈ nodes -> made_as_root idx cr cb targets n ->
    from_root idx cr cb targets nodes edges n
| from_root_hop parent child e :
    from_root idx cr cb targets nodes edges parent ->
    child ∈ nodes -> e ∈ edges ->
    GraphEdge.source e = GraphNode.id parent ->
    GraphEdge.target e = GraphNode.id child ->
    from_root idx cr cb targets nodes edges child.

(** An edge of the graph: it goes from a node to the node that resolution
    gives for one of its craftable inputs, and is labelled with that input. *)
Definition edge_joins (idx : ProductIndex) (cr : gmap string (option string))
    (cb : gmap string string) (nodes : list GraphNode.t) (e : GraphEdge.t) : Prop :=
  exists parent child i r,
    parent ∈ nodes /\ child ∈ nodes /\ i ∈ GraphNode.inputs parent
    /\ craftable idx (NodeIO.name i) = true
    /\ resolve idx cr cb (NodeIO.name i) (Some (GraphNode.building parent)) = Some r
    /\ GraphNode.id child = nodeIdFor (NodeIO.name i) (Recipe.recipeId r)
    /\ GraphEdge.source e = GraphNode.id parent
    /\ GraphEdge.target e = GraphNode.id child
    /\ GraphEdge.label e = NodeIO.name i.

(** The id of the edge at position [k] of the edge array. *)
Definition edge_id_at (k : nat) (e : GraphEdge.t) : Prop :=
  GraphEdge.id e
  = GraphEdge.source e +:+ "=>" +:+ GraphEdge.target e +:+ "#" +:+ pretty k.

(** ** Example catalogs *)

Module Examples.

(** The specification's example: Gear, 1 per 2 second cycle, from 2 Iron. *)
Definition R1 : Recipe.t :=
  Recipe.mk "R1" "Assembler" 2 [IO.mk "Iron" 2] [IO.mk "Gear" 1].

(** A recipe that lists the same output twice. *)
Definition Rdup : Recipe.t :=
  Recipe.mk "Rdup" "Assembler" 2 [IO.mk "Iron" 2] [IO.mk "Gear" 1; IO.mk "Gear" 1].

(** A recipe whose matching output has quantity zero. *)
Definition Rzero : Recipe.t :=
  Recipe.mk "Rzero" "Assembler" 2 [IO.mk "Iron" 2] [IO.mk "Gear" 0].

(** Two furnaces for Steel; the second has no building name. *)
Definition Ra : Recipe.t :=
  Recipe.mk "Ra" "Furnace" 4 [IO.mk "Iron" 1] [IO.mk "Steel" 1].
Definition Rb : Recipe.t :=
  Recipe.mk "Rb" "" 4 [IO.mk "Iron" 2] [IO.mk "Steel" 3].

(** A second way to make gears, and a built store with a budget of 2 on the
    root. *)
Definition R1b : Recipe.t :=
  Recipe.mk "R1b" "Press" 4 [IO.mk "Iron" 3] [IO.mk "Gear" 1].

Definition gears : ProductIndex := PRODUCT_INDEX [R1; R1b].

Definition gear_store : State.t :=
  build gears
    (State.mk [Target.mk "Gear" 60 None] ∅ ∅ {[ "Gear::R1" := 2%Z ]} [] [] Totals.empty).

(** The store of the specification's example: target Gear at 60 per minute
    on the catalog [R1]. *)
Definition gear_example : State.t :=
  build (PRODUCT_INDEX [R1]) (setTarget (Target.mk "Gear" 60 None) State.init).

(** A chain Gear <- Iron <- Ore, with the Ore recipe written with padded
    output name, and a store that targets both Gear and Iron. *)
Definition R2 : Recipe.t :=
  Recipe.mk "R2" "Smelter" 4 [IO.mk "Ore" 3] [IO.mk "Iron" 1; IO.mk "Slag" 1].

Definition R3 : Recipe.t :=
  Recipe.mk "R3" "Mine" 4 [IO.mk "Power" 3] [IO.mk " Ore " 1].

Definition chain : list Recipe.t := [R1; R2; R3].

Definition two_targets : State.t :=
  State.mk [Target.mk "Gear" 60 None; Target.mk "Iron" 30 None] ∅ ∅ ∅ [] [] Totals.empty.

(** A recipe that consumes its own product. *)
Definition Ryeast : Recipe.t :=
  Recipe.mk "Ryeast" "Vat" 6 [IO.mk "Yeast" 1; IO.mk "Sugar" 2] [IO.mk "Yeast" 3].

Definition yeast_target : State.t :=
  State.mk [Target.mk "Yeast" 10 None] ∅ ∅ ∅ [] [] Totals.empty.

(** The chain catalog with one extra hop requested on the Iron node: the
    locals of [build] after seeding the queue. *)
Definition iron_budget : gmap string Z := {[ "Iron::R2" := 1%Z ]}.

Definition chain_store : State.t :=
  State.mk [Target.mk "Gear" 60 None] ∅ ∅ iron_budget [] [] Totals.empty.

Definition chain_seeded : Bfs.t :=
  seed iron_budget (baseline (PRODUCT_INDEX chain) ∅ ∅ [Target.mk "Gear" 60 None]).

(** An id that names no node of the example graph. *)
Definition ghost : string := "Ghost::R9".

(** The graph published for [chain_store]: Gear <- Iron <- Ore. *)
Definition line_nodes : list GraphNode.t :=
  State.graphNodes (build (PRODUCT_INDEX chain) chain_store).

Definition line_edges : list GraphEdge.t :=
  State.graphEdges (build (PRODUCT_INDEX chain) chain_store).

(** Bricks, 3 per minute cycle from 2 Clay, with 2 Ash on the side; the
    store that asks for one brick per minute runs a third of a cycle. *)
Definition Rkiln : Recipe.t :=
  Recipe.mk "Rkiln" "Kiln" 60 [IO.mk "Clay" 2] [IO.mk "Brick" 3; IO.mk "Ash" 2].

Definition brick_example : State.t :=
  build (PRODUCT_INDEX [Rkiln]) (setTarget (Target.mk "Brick" 1 None) State.init).

(** Targets Iron and then Gear on the chain catalog: Iron is an input of
    the later target. *)
Definition gear_after_iron : State.t :=
  State.mk [Target.mk "Iron" 30 None; Target.mk "Gear" 60 None] ∅ ∅ ∅ [] [] Totals.empty.

(** A recipe for gears whose id is the empty string, in the building of
    R1, and a built store with a budget of 2 on the root. *)
Definition Rnoid : Recipe.t :=
  Recipe.mk "" "Assembler" 4 [IO.mk "Iron" 3] [IO.mk "Gear" 1].

Definition noid_store : State.t :=
  build (PRODUCT_INDEX [R1; Rnoid])
    (State.mk [Target.mk "Gear" 60 None] ∅ ∅ {[ "Gear::R1" := 2%Z ]} [] [] Totals.empty).

(** The same recipe without a building name, listed before the press: it
    is the default recipe for gears. *)
Definition Rnoid0 : Recipe.t :=
  Recipe.mk "" "" 4 [IO.mk "Iron" 3] [IO.mk "Gear" 1].

Definition noid0_store : State.t :=
  build (PRODUCT_INDEX [Rnoid0; R1b])
    (State.mk [Target.mk "Gear" 60 None] ∅ ∅ {[ "Gear::" := 2%Z ]} [] [] Totals.empty).

(** Two products whose node ids collide: Tar under the recipe Pitch::R and
    Tar::Pitch under the recipe R. *)
Definition Rpitch : Recipe.t :=
  Recipe.mk "R" "Lab" 4 [IO.mk "Resin" 1] [IO.mk "Tar::Pitch" 1].

Definition Rtar : Recipe.t :=
  Recipe.mk "R0" "Mill" 4 [IO.mk "Coal" 1] [IO.mk "Tar" 1].

Definition Rtar2 : Recipe.t :=
  Recipe.mk "Pitch::R" "Mill" 4 [IO.mk "Coal" 2] [IO.mk "Tar" 1].

Definition tar_store : State.t :=
  build (PRODUCT_INDEX [Rpitch; Rtar; Rtar2])
    (State.mk [Target.mk "Tar::Pitch" 1 None; Target.mk "Tar" 1 None] ∅ ∅
       {[ "Tar::R0" := 2%Z ]} [] [] Totals.empty).

(** The gear store after [setTarget] to Steel and before any rebuild: the
    graph still shows the gears. *)
Definition steel_catalog : list Recipe.t := [R1; R1b; Ra].

Definition stale_store : State.t :=
  setTarget (Target.mk "Steel" 10 None)
    (build (PRODUCT_INDEX steel_catalog)
       (State.mk [Target.mk "Gear" 60 None] ∅ ∅ {[ "Gear::R1" := 2%Z ]} [] [] Totals.empty)).

(** A row of the sheet that converts to [R1]. *)
Definition gear_row : Convert.row :=
  Convert.mkRow (Convert.Str " R1") (Convert.Num 2) (Convert.Str "Assembler ")
    (fun i => if Nat.eqb i 1 then (Convert.Str "Iron ", Convert.Num 2)
              else (Convert.Null, Convert.Null))
    (fun i => if Nat.eqb i 1 then (Convert.Str " Gear", Convert.Num 1)
              else if Nat.eqb i 2 then (Convert.Str "Dust", Convert.Num 0)
              else (Convert.Null, Convert.Null)).

End Examples.

(** ** JavaScript primitives: basic facts *)

Lemma find_filter {A} (p : A -> bool) (l : list A) :
  Js.find p l = head (filter (fun x => p x = true) l).
Proof.
  induction l as [|x l IH]; [reflexivity|].
  cbn [Js.find]. rewrite filter_cons. case_decide as E.
  - by rewrite E.
  - destruct (p x); [done | exact IH].
Qed.

Lemma find_some {A} (p : A -> bool) (l : list A) x :
  Js.find p l = Some x -> x ∈ l /\ p x = true.
Proof.
  induction l as [|y l IH]; cbn [Js.find]; [discriminate|].
  destruct (p y) eqn:E.
  - intros [= <-]. split; [left | exact E].
  - intros H. destruct (IH H) as [? ?]. split; [by right | done].
Qed.

Lemma find_none {A} (p : A -> bool) (l : list A) :
  Js.find p l = None <-> Forall (fun x => p x = false) l.
Proof.
  induction l as [|y l IH]; cbn [Js.find].
  - split; [constructor | reflexivity].
  - destruct (p y) eqn:E.
    + split; [discriminate|]. intros H. inversion H; congruence.
    + rewrite IH. split; [by constructor | by inversion 1].
Qed.

Lemma nodeIdFor_inj_recipe p r1 r2 : nodeIdFor p r1 = nodeIdFor p r2 -> r1 = r2.
Proof.
  unfold nodeIdFor. intros H.
  apply (inj (String.app p)) in H. by apply (inj (String.app "::")) in H.
Qed.

(** ** RateEngine: [outputRatePerMin] and [makeNode] *)

Lemma outputRatePerMin_no_match (r : Recipe.t) (p : string) :
  Forall (fun o => same_name (IO.name o) p = false) (Recipe.outputs r) ->
  outputRatePerMin r p = 0%Q.
Proof.
  intros H. unfold outputRatePerMin.
  by rewrite (proj2 (find_none _ _) H).
Qed.

Lemma makeNode_runs (r : Recipe.t) p req d :
  GraphNode.runsPerMin (makeNode r p req d)
  = (if Qeq_bool (outputRatePerMin r p) 0 then 0 else req / outputRatePerMin r p)%Q.
Proof. reflexivity. Qed.

Lemma makeNode_inputs (r : Recipe.t) p req d :
  GraphNode.inputs (makeNode r p req d)
  = map (fun i => NodeIO.mk (IO.name i)
                    (GraphNode.runsPerMin (makeNode r p req d) * IO.qtyPerCycle i)%Q)
      (Recipe.inputs r).
Proof. reflexivity. Qed.

Lemma makeNode_outputs (r : Recipe.t) p req d :
  GraphNode.outputs (makeNode r p req d)
  = map (fun o => NodeOut.mk (IO.name o)
                    (GraphNode.runsPerMin (makeNode r p req d)
                     * (IO.qtyPerCycle o / Recipe.timeSec r) * 60)%Q
                    (same_name (IO.name o) p))
      (Recipe.outputs r).
Proof. reflexivity. Qed.

(** C8. For a recipe of the data model ([timeSec > 0]) and a product whose
    output rate is 0 (no output matches under trimmed, case-insensitive
    equality, or the matched rate is 0), the node is built with
    [runsPerMin = 0] instead of dividing, and every input and output rate of
    the node is 0; the construction is a total function, no division error
    can arise. *)
Theorem makeNode_zero_rate (r : Recipe.t) (p : string) (req : Q) (d : nat) :
  Recipe.valid r ->
  (outputRatePerMin r p == 0)%Q ->
  GraphNode.runsPerMin (makeNode r p req d) = 0%Q
  /\ Forall (fun i => (NodeIO.ratePerMin i == 0)%Q) (GraphNode.inputs (makeNode r p req d))
  /\ Forall (fun o => (NodeOut.ratePerMin o == 0)%Q) (GraphNode.outputs (makeNode r p req d)).
Proof.
  intros _ Hz.
  assert (Hr : GraphNode.runsPerMin (makeNode r p req d) = 0%Q).
  { rewrite makeNode_runs. by rewrite (proj2 (Qeq_bool_iff _ _) Hz). }
  split; [exact Hr|]. split.
  - rewrite makeNode_inputs, Hr. apply Forall_map, Forall_forall.
    intros i _. cbn. ring.
  - rewrite makeNode_outputs, Hr. apply Forall_map, Forall_forall.
    intros o _. cbn. ring.
Qed.

Lemma makeNode_zero_rate_witness :
  Recipe.valid Examples.R1
  /\ (outputRatePerMin Examples.R1 "Copper" == 0)%Q
  /\ GraphNode.runsPerMin (makeNode Examples.R1 "Copper" 60 0) = 0%Q.
Proof.
  assert (Hv : Recipe.valid Examples.R1) by reflexivity.
  assert (Hz : (outputRatePerMin Examples.R1 "Copper" == 0)%Q) by reflexivity.
  split; [exact Hv|]. split; [exact Hz|].
  exact (proj1 (makeNode_zero_rate Examples.R1 "Copper" 60 0 Hv Hz)).
Defined.

Lemma filter_map_pred {A B} (f : A -> B) (P : B -> Prop) `{!forall y, Decision (P y)}
    (l : list A) :
  filter P (map f l) = map f (filter (fun x => P (f x)) l).
Proof.
  induction l as [|x l IH]; [reflexivity|].
  cbn [map]. rewrite !filter_cons. case_decide; cbn [map]; by rewrite IH.
Qed.

(** The claim of C1 fails on a recipe that lists the target twice (two
    entries are flagged) and on a recipe whose matching output has quantity
    zero (the flagged entry is produced at rate 0). *)
Lemma makeNode_target_counterexample :
  (Recipe.valid Examples.Rdup
   /\ same_name "Gear" "Gear" = true
   /\ ~ one_target_at (makeNode Examples.Rdup "Gear" 60 0) 60)
  /\ (Recipe.valid Examples.Rzero
      /\ same_name "Gear" "Gear" = true
      /\ ~ one_target_at (makeNode Examples.Rzero "Gear" 60 0) 60).
Proof.
  split; (split; [reflexivity|]; split; [reflexivity|]).
  - intros [o [Hf _]]. vm_compute in Hf. discriminate Hf.
  - intros [o [Hf Hr]]. vm_compute in Hf. injection Hf as <-.
    vm_compute in Hr. discriminate Hr.
Qed.

(** C1 (amended). When exactly one output of a valid recipe matches the
    target product (trimmed, case-insensitive) and its quantity per cycle is
    not zero, the node built at rate [r] has exactly one output entry flagged
    [isTarget], that entry is the matching output and its rate is [r]; every
    other entry is not flagged. *)
Theorem makeNode_target_unique (R : Recipe.t) (p : string) (r : Q) (d : nat) (o : IO.t) :
  Recipe.valid R ->
  filter (fun x => same_name (IO.name x) p = true) (Recipe.outputs R) = [o] ->
  ~ (IO.qtyPerCycle o == 0)%Q ->
  exists t,
    filter (fun x => NodeOut.isTarget x = true) (GraphNode.outputs (makeNode R p r d)) = [t]
    /\ NodeOut.name t = IO.name o
    /\ (NodeOut.ratePerMin t == r)%Q.
Proof.
  intros Hv Hf Hq. unfold Recipe.valid in Hv.
  assert (Hfind : Js.find (fun x => same_name (IO.name x) p) (Recipe.outputs R) = Some o).
  { rewrite find_filter, Hf. reflexivity. }
  assert (Hrate : outputRatePerMin R p = (IO.qtyPerCycle o / Recipe.timeSec R * 60)%Q).
  { unfold outputRatePerMin. by rewrite Hfind. }
  assert (Hnz : ~ (outputRatePerMin R p == 0)%Q).
  { rewrite Hrate. intros E. apply Hq.
    assert (Ht : ~ (Recipe.timeSec R == 0)%Q) by lra.
    assert (Hs : (IO.qtyPerCycle o
                  == IO.qtyPerCycle o / Recipe.timeSec R * 60 * (Recipe.timeSec R / 60))%Q)
      by (field; exact Ht).
    rewrite Hs, E. ring. }
  eexists. split; [|split].
  - rewrite makeNode_outputs, filter_map_pred. cbn [NodeOut.isTarget].
    rewrite Hf. reflexivity.
  - reflexivity.
  - cbn [NodeOut.ratePerMin]. rewrite makeNode_runs.
    destruct (Qeq_bool (outputRatePerMin R p) 0) eqn:E.
    + apply Qeq_bool_iff in E. contradiction.
    + rewrite Hrate in *. field. split; [lra | exact Hq].
Qed.

Lemma makeNode_target_unique_witness :
  exists t,
    filter (fun x => NodeOut.isTarget x = true)
      (GraphNode.outputs (makeNode Examples.R1 "gear " 60 0)) = [t]
    /\ NodeOut.name t = "Gear"
    /\ (NodeOut.ratePerMin t == 60)%Q.
Proof.
  apply (makeNode_target_unique Examples.R1 "gear " 60 0 (IO.mk "Gear" 1)).
  - reflexivity.
  - reflexivity.
  - discriminate.
Defined.

(** ** RecipeCatalog: the product index *)

Lemma push_lookup (acc : ProductIndex) key r k :
  default [] (push acc key r !! k)
  = default [] (acc !! k) ++ (if decide (key = k) then [r] else []).
Proof.
  unfold push. rewrite lookup_insert. case_decide as E.
  - subst. reflexivity.
  - by rewrite app_nil_r.
Qed.

Lemma PRODUCT_INDEX_lookup (RECIPES : list Recipe.t) (k : string) :
  default [] (PRODUCT_INDEX RECIPES !! k) = producers RECIPES k.
Proof.
  unfold PRODUCT_INDEX, producers.
  enough (H : forall acc : ProductIndex,
    default [] (fold_left
      (fun acc r => fold_left (fun acc o => push acc (Js.trim (IO.name o)) r)
                      (Recipe.outputs r) acc) RECIPES acc !! k)
    = default [] (acc !! k)
      ++ flat_map (fun r => flat_map
           (fun o => if decide (Js.trim (IO.name o) = k) then [r] else [])
           (Recipe.outputs r)) RECIPES).
  { rewrite H, lookup_empty. reflexivity. }
  induction RECIPES as [|r rs IH]; intros acc; cbn [fold_left flat_map].
  - by rewrite app_nil_r.
  - rewrite IH, app_assoc. f_equal.
    generalize (Recipe.outputs r) as os. intros os. revert acc.
    induction os as [|o os IHo]; intros acc; cbn [fold_left flat_map].
    + by rewrite app_nil_r.
    + rewrite IHo, push_lookup, <- app_assoc. reflexivity.
Qed.

Lemma push_nonempty (acc : ProductIndex) key r :
  (forall k l, acc !! k = Some l -> l <> []) ->
  forall k l, push acc key r !! k = Some l -> l <> [].
Proof.
  intros Hacc k l. unfold push. rewrite lookup_insert. case_decide.
  - intros [= <-]. by destruct (default [] (acc !! key)).
  - apply Hacc.
Qed.

Lemma PRODUCT_INDEX_nonempty (RECIPES : list Recipe.t) k l :
  PRODUCT_INDEX RECIPES !! k = Some l -> l <> [].
Proof.
  unfold PRODUCT_INDEX. revert k l.
  enough (H : forall acc : ProductIndex,
    (forall k l, acc !! k = Some l -> l <> []) ->
    forall k l,
      fold_left (fun acc r => fold_left (fun acc o => push acc (Js.trim (IO.name o)) r)
                                (Recipe.outputs r) acc) RECIPES acc !! k = Some l ->
      l <> []).
  { apply H. intros k l. by rewrite lookup_empty. }
  induction RECIPES as [|r rs IH]; intros acc Hacc; cbn [fold_left]; [exact Hacc|].
  apply IH. generalize (Recipe.outputs r) as os. intros os. revert acc Hacc.
  induction os as [|o os IHo]; intros acc Hacc; cbn [fold_left]; [exact Hacc|].
  apply IHo. by apply push_nonempty.
Qed.

Lemma PRODUCT_INDEX_raw (RECIPES : list Recipe.t) k :
  PRODUCT_INDEX RECIPES !! k = None <-> producers RECIPES k = [].
Proof.
  rewrite <- PRODUCT_INDEX_lookup.
  destruct (PRODUCT_INDEX RECIPES !! k) as [l|] eqn:E; cbn.
  - split; [discriminate|]. intros ->. by apply PRODUCT_INDEX_nonempty in E.
  - done.
Qed.

(** ** PreferenceResolver *)

(** The claim of C5 fails when the parent's building is the empty string:
    rule (2) names [Rb], the code skips the rule and returns [Ra]. *)
Lemma pickRecipeWithPrefs_counterexample :
  let idx := PRODUCT_INDEX [Examples.Ra; Examples.Rb] in
  pick_spec idx "Steel" None None (Some "") = Some Examples.Rb
  /\ pickRecipeWithPrefs idx "Steel" None None (Some "") = Some Examples.Ra
  /\ pickRecipeWithPrefs idx "Steel" None None (Some "")
     <> pick_spec idx "Steel" None None (Some "").
Proof.
  assert (H1 : pick_spec (PRODUCT_INDEX [Examples.Ra; Examples.Rb]) "Steel" None None (Some "")
               = Some Examples.Rb) by (vm_compute; reflexivity).
  assert (H2 : pickRecipeWithPrefs (PRODUCT_INDEX [Examples.Ra; Examples.Rb]) "Steel"
                 None None (Some "") = Some Examples.Ra) by (vm_compute; reflexivity).
  cbv zeta. split; [exact H1|]. split; [exact H2|].
  rewrite H1, H2. intros [=].
Qed.

Lemma find_given (A : Type) (f : A -> string) (o : option string) (l : list A) :
  (if Js.truthy o then Js.find (fun x => bool_decide (Some (f x) = o)) l else None)
  = given o ≫= (fun e => Js.find (fun x => bool_decide (f x = e)) l).
Proof.
  unfold given. destruct (Js.truthy o) eqn:E; [|reflexivity].
  destruct o as [e|]; [|discriminate]. cbn.
  induction l as [|x l IH]; [reflexivity|]. cbn [Js.find].
  rewrite IH.
  by rewrite (bool_decide_ext (Some (f x) = Some e) (f x = e)) by (split; congruence).
Qed.

(** C5 (amended). A hint that is absent or the empty string is skipped.
    With that reading, resolution returns the first match in the order
    explicit recipe id, parent building, sticky building, catalog order; and
    on the index of a catalog it returns nothing exactly when no recipe of
    the catalog produces the product. *)
Theorem pickRecipeWithPrefs_order (RECIPES : list Recipe.t) (product : string)
    (explicitRecipe preferredBuilding parentBuilding : option string) :
  pickRecipeWithPrefs (PRODUCT_INDEX RECIPES) product
    explicitRecipe preferredBuilding parentBuilding
  = pick_spec (PRODUCT_INDEX RECIPES) product
      (given explicitRecipe) (given preferredBuilding) (given parentBuilding)
  /\ (pickRecipeWithPrefs (PRODUCT_INDEX RECIPES) product
        explicitRecipe preferredBuilding parentBuilding = None
      <-> producers RECIPES product = []).
Proof.
  assert (Heq : forall idx : ProductIndex,
    pickRecipeWithPrefs idx product explicitRecipe preferredBuilding parentBuilding
    = pick_spec idx product
        (given explicitRecipe) (given preferredBuilding) (given parentBuilding)).
  { intros idx. unfold pickRecipeWithPrefs, pick_spec. cbv zeta.
    rewrite !find_given. reflexivity. }
  split; [apply Heq|].
  rewrite <- PRODUCT_INDEX_lookup. unfold pickRecipeWithPrefs. cbv zeta.
  split.
  - intros H.
    repeat match type of H with
           | match ?x with Some _ => _ | None => _ end = None =>
             destruct x; [discriminate H|]
           end.
    by destruct (default [] (PRODUCT_INDEX RECIPES !! product)).
  - intros ->. by repeat match goal with |- context [if ?b then _ else _] => destruct b end.
Qed.

(** ** ExpansionController: [swapNodeRecipe] *)

Section Swap.

Variable idx : ProductIndex.

Lemma build_targets s : State.targets (build idx s) = State.targets s.
Proof. unfold build. destruct (State.targets s) eqn:E; cbn; congruence. Qed.

Lemma build_choicesRecipe s : State.choicesRecipe (build idx s) = State.choicesRecipe s.
Proof. unfold build. destruct (State.targets s) eqn:E; cbn; congruence. Qed.

Lemma build_choicesBuilding s : State.choicesBuilding (build idx s) = State.choicesBuilding s.
Proof. unfold build. destruct (State.targets s) eqn:E; cbn; congruence. Qed.

Lemma build_expandedByNode s : State.expandedByNode (build idx s) = State.expandedByNode s.
Proof. unfold build. destruct (State.targets s) eqn:E; cbn; congruence. Qed.

Lemma find_id_some (nodes : list GraphNode.t) nodeId node :
  Js.find (fun n => String.eqb (GraphNode.id n) nodeId) nodes = Some node ->
  GraphNode.id node = nodeId.
Proof. intros H. apply find_some in H as [_ H]. cbn in H. by apply String.eqb_eq in H. Qed.

(** What a swap on a node of the graph stores, before the rebuild. *)
Lemma swapNodeRecipe_found nodeId recipeId s node :
  Js.find (fun n => String.eqb (GraphNode.id n) nodeId) (State.graphNodes s) = Some node ->
  let P := GraphNode.product node in
  let s' := swapNodeRecipe idx nodeId recipeId s in
  let prev := default 0%Z (State.expandedByNode s !! nodeId) in
  let newId := nodeIdFor P recipeId in
  State.choicesRecipe s' = <[ P := Some recipeId ]> (State.choicesRecipe s)
  /\ State.choicesBuilding s'
     = prefer_building P
         (Recipe.building
            <$> Js.find (fun r => String.eqb (Recipe.recipeId r) recipeId)
                  (default [] (idx !! P)))
         (State.choicesBuilding s)
  /\ State.expandedByNode s'
     = delete nodeId
         (if (0 <? prev)%Z
          then <[ newId := Z.max prev (default 0%Z (State.expandedByNode s !! newId)) ]>
                 (State.expandedByNode s)
          else State.expandedByNode s).
Proof.
  intros Hfind. cbv zeta. unfold swapNodeRecipe. rewrite Hfind.
  rewrite build_choicesRecipe, build_choicesBuilding, build_expandedByNode.
  done.
Qed.

(** C10. A swap to a recipe id that names no recipe of the node's product
    is not rejected: the id becomes the product's sticky recipe choice, the
    building preference is left as it was, the budget key of the old node id
    is deleted and a positive budget moves to the key product::recipeId; in
    the rebuild the explicit choice matches nothing and resolution continues
    with the parent-building, sticky-building and catalog-order rules. *)
Theorem swapNodeRecipe_unproducible (nodeId recipeId : string) (s : State.t)
    (node : GraphNode.t) :
  Js.find (fun n => String.eqb (GraphNode.id n) nodeId) (State.graphNodes s) = Some node ->
  node_of_index idx node ->
  Js.find (fun r => String.eqb (Recipe.recipeId r) recipeId)
    (default [] (idx !! GraphNode.product node)) = None ->
  let P := GraphNode.product node in
  let s' := swapNodeRecipe idx nodeId recipeId s in
  let prev := default 0%Z (State.expandedByNode s !! nodeId) in
  let newId := nodeIdFor P recipeId in
  State.choicesRecipe s' !! P = Some (Some recipeId)
  /\ State.choicesBuilding s' = State.choicesBuilding s
  /\ State.expandedByNode s' !! nodeId = None
  /\ ((0 < prev)%Z ->
      State.expandedByNode s' !! newId
      = Some (Z.max prev (default 0%Z (State.expandedByNode s !! newId))))
  /\ (forall parentBuilding,
        resolve idx (State.choicesRecipe s') (State.choicesBuilding s') P parentBuilding
        = pickRecipeWithPrefs idx P None (State.choicesBuilding s !! P) parentBuilding).
Proof.
  intros Hfind [Hid [r [Hr Hrid]]] Hnone. cbv zeta.
  destruct (swapNodeRecipe_found nodeId recipeId s node Hfind) as (Hcr & Hcb & Hex).
  cbv zeta in Hcr, Hcb, Hex. rewrite Hnone in Hcb. cbn in Hcb.
  assert (Hne : nodeIdFor (GraphNode.product node) recipeId <> nodeId).
  { rewrite <- (find_id_some _ _ _ Hfind), Hid. intros E.
    apply nodeIdFor_inj_recipe in E. subst recipeId.
    apply find_none in Hnone. rewrite Forall_forall in Hnone.
    specialize (Hnone r Hr). cbn in Hnone. rewrite Hrid in Hnone.
    by rewrite String.eqb_refl in Hnone. }
  split; [|split; [|split; [|split]]].
  - by rewrite Hcr, lookup_insert_eq.
  - exact Hcb.
  - by rewrite Hex, lookup_delete_eq.
  - intros Hpos. rewrite Hex, lookup_delete_ne by done.
    rewrite (proj2 (Z.ltb_lt _ _) Hpos). by rewrite lookup_insert_eq.
  - intros parentBuilding. unfold resolve. rewrite Hcr, Hcb, lookup_insert_eq. cbn [from_option id].
    unfold pickRecipeWithPrefs. cbv zeta.
    replace (if Js.truthy (Some recipeId)
             then Js.find (fun x => bool_decide (Some (Recipe.recipeId x) = Some recipeId))
                    (default [] (idx !! GraphNode.product node))
             else None) with (@None Recipe.t); [reflexivity|].
    destruct (Js.truthy (Some recipeId)); [|reflexivity].
    symmetry. apply find_none. apply find_none in Hnone.
    eapply Forall_impl; [exact Hnone|]. intros x Hx. cbn in Hx.
    apply bool_decide_eq_false. intros [= E]. rewrite E, String.eqb_refl in Hx. discriminate.
Qed.

(** The budget round trip, when the second swap finds its node. *)
Lemma swap_round_trip_found (nodeId newRecipe : string) (s : State.t)
    (node node' : GraphNode.t) (b : Z) :
  let P := GraphNode.product node in
  let R0 := GraphNode.recipeId node in
  let s1 := swapNodeRecipe idx nodeId newRecipe s in
  let s2 := swapNodeRecipe idx (nodeIdFor P newRecipe) R0 s1 in
  Js.find (fun n => String.eqb (GraphNode.id n) nodeId) (State.graphNodes s) = Some node ->
  nodeId = nodeIdFor P R0 ->
  State.expandedByNode s !! nodeId = Some b ->
  (0 < b)%Z ->
  newRecipe <> R0 ->
  Js.find (fun n => String.eqb (GraphNode.id n) (nodeIdFor P newRecipe))
    (State.graphNodes s1) = Some node' ->
  GraphNode.product node' = P ->
  nodeIdFor (GraphNode.product node') R0 = nodeId
  /\ (exists b', State.expandedByNode s2 !! nodeId = Some b' /\ (b <= b')%Z)
  /\ State.expandedByNode s2 !! nodeIdFor P newRecipe = None
  /\ State.choicesRecipe s2 !! P = Some (Some R0).
Proof.
  cbv zeta. intros Hfind Hid Hb Hpos Hnew Hfind' HP.
  set (P := GraphNode.product node) in *. set (R0 := GraphNode.recipeId node) in *.
  set (newId := nodeIdFor P newRecipe) in *.
  assert (Hne : newId <> nodeId).
  { rewrite Hid. intros E. by apply nodeIdFor_inj_recipe in E. }
  destruct (swapNodeRecipe_found nodeId newRecipe s node Hfind) as (_ & _ & Hex1).
  cbv zeta in Hex1. fold P newId in Hex1. rewrite Hb in Hex1. cbn [from_option id] in Hex1.
  rewrite (proj2 (Z.ltb_lt _ _) Hpos) in Hex1.
  set (s1 := swapNodeRecipe idx nodeId newRecipe s) in *.
  set (m := Z.max b (default 0%Z (State.expandedByNode s !! newId))) in *.
  assert (H1new : State.expandedByNode s1 !! newId = Some m).
  { by rewrite Hex1, lookup_delete_ne, lookup_insert_eq. }
  assert (H1old : State.expandedByNode s1 !! nodeId = None).
  { by rewrite Hex1, lookup_delete_eq. }
  destruct (swapNodeRecipe_found newId R0 s1 node' Hfind') as (Hcr2 & _ & Hex2).
  cbv zeta in Hcr2, Hex2. rewrite HP in Hcr2, Hex2. rewrite <- Hid in Hex2.
  rewrite H1new, H1old in Hex2. cbn [from_option id] in Hex2.
  assert (Hm : (0 < m)%Z) by (unfold m; lia).
  rewrite (proj2 (Z.ltb_lt _ _) Hm) in Hex2.
  split; [by rewrite HP|]. split; [|split].
  - exists (Z.max m 0). split.
    + by rewrite Hex2, lookup_delete_ne, lookup_insert_eq.
    + unfold m. lia.
  - by rewrite Hex2, lookup_delete_eq.
  - by rewrite Hcr2, lookup_insert_eq.
Qed.

End Swap.

Lemma swapNodeRecipe_unproducible_witness :
  let s' := swapNodeRecipe Examples.gears "Gear::R1" "Nope" Examples.gear_store in
  State.choicesRecipe s' !! "Gear" = Some (Some "Nope")
  /\ State.expandedByNode s' !! "Gear::R1" = None
  /\ State.expandedByNode s' !! "Gear::Nope" = Some 2%Z
  /\ map GraphNode.id (State.graphNodes s') = ["Gear::R1"].
Proof.
  assert (Hfind : Js.find (fun n => String.eqb (GraphNode.id n) "Gear::R1")
                    (State.graphNodes Examples.gear_store)
                  = Some (makeNode Examples.R1 "Gear" 60 0)) by (vm_compute; reflexivity).
  assert (Hwf : node_of_index Examples.gears (makeNode Examples.R1 "Gear" 60 0)).
  { split; [reflexivity|]. exists Examples.R1. split; [vm_compute; left | reflexivity]. }
  assert (Hnone : Js.find (fun r => String.eqb (Recipe.recipeId r) "Nope")
                    (default [] (Examples.gears !! "Gear")) = None) by (vm_compute; reflexivity).
  destruct (swapNodeRecipe_unproducible Examples.gears "Gear::R1" "Nope" Examples.gear_store
              (makeNode Examples.R1 "Gear" 60 0) Hfind Hwf Hnone) as (H1 & _ & H3 & H4 & _).
  cbv zeta. split; [exact H1|]. split; [exact H3|]. split.
  - apply H4. vm_compute. reflexivity.
  - vm_compute. reflexivity.
Defined.

(** ** AggregationEngine: [totals.raw] *)

Section Totals.

Variable idx : ProductIndex.

Lemma r2_Qeq (x y : Q) : (x == y)%Q -> Js.r2 x = Js.r2 y.
Proof. intros E. unfold Js.r2. by rewrite E. Qed.

Lemma or0_Qeq (v : Q) : (Js.or0 (Some v) == v)%Q.
Proof.
  unfold Js.or0. destruct (Qeq_bool v 0) eqn:E; [|reflexivity].
  apply Qeq_bool_iff in E. by rewrite E.
Qed.

Lemma sum_rates_snoc (l : list NodeIO.t) (i : NodeIO.t) :
  sum_rates (l ++ [i]) = (sum_rates l + NodeIO.ratePerMin i)%Q.
Proof. unfold sum_rates. by rewrite rev_unit. Qed.

Lemma computeTotals_raw (nodes : list GraphNode.t) :
  Totals.raw (computeTotals idx nodes)
  = Js.r2 <$> fold_left (add_raw idx) (flat_map GraphNode.inputs nodes) ∅.
Proof.
  unfold computeTotals. cbn [Totals.raw]. f_equal.
  generalize (∅ : gmap string Q) at 1 3 as raw.
  generalize (∅ : gmap string Q) as byp.
  induction nodes as [|n ns IH]; intros byp raw; [reflexivity|].
  cbn [fold_left flat_map]. rewrite fold_left_app. apply IH.
Qed.

Lemma add_raw_acc (k : string) (acc : gmap string Q) (seen : list NodeIO.t) (i : NodeIO.t) :
  raw_acc_at idx k acc seen -> raw_acc_at idx k (add_raw idx acc i) (seen ++ [i]).
Proof.
  unfold raw_acc_at, add_raw, craftable. intros H.
  rewrite filter_app, filter_cons, filter_nil.
  destruct (decide (NodeIO.name i = k)) as [<-|Hne].
  - destruct (idx !! NodeIO.name i) as [rs|] eqn:Ei.
    + rewrite bool_decide_eq_true_2 by eauto.
      rewrite decide_False by (intros [_ ?]; discriminate).
      by rewrite app_nil_r.
    + rewrite bool_decide_eq_false_2 by (intros [? ?]; discriminate).
      rewrite decide_True by done.
      set (l := filter _ seen) in *.
      assert (Hv : exists v, <[NodeIO.name i :=
                     (Js.or0 (acc !! NodeIO.name i) + NodeIO.ratePerMin i)%Q]> acc
                     !! NodeIO.name i = Some v
                   /\ (v == sum_rates (l ++ [i]))%Q).
      { eexists. split; [apply lookup_insert_eq|]. rewrite sum_rates_snoc.
        destruct l as [|x l'].
        - rewrite H. reflexivity.
        - destruct H as [v [-> Hv]]. by rewrite or0_Qeq, Hv. }
      by destruct l.
  - rewrite decide_False by (intros [? _]; done). rewrite app_nil_r.
    destruct (bool_decide _); [exact H|].
    rewrite lookup_insert_ne by done. exact H.
Qed.

Lemma fold_add_raw_acc (k : string) (l : list NodeIO.t) :
  forall acc seen,
    raw_acc_at idx k acc seen -> raw_acc_at idx k (fold_left (add_raw idx) l acc) (seen ++ l).
Proof.
  induction l as [|i l IH]; intros acc seen H; cbn [fold_left].
  - by rewrite app_nil_r.
  - replace (seen ++ i :: l) with ((seen ++ [i]) ++ l) by (by rewrite <- app_assoc).
    apply IH. by apply add_raw_acc.
Qed.

Lemma computeTotals_raw_lookup (nodes : list GraphNode.t) (k : string) :
  Totals.raw (computeTotals idx nodes) !! k
  = match raw_inputs idx nodes k with
    | [] => None
    | l => Some (Js.r2 (sum_rates l))
    end.
Proof.
  rewrite computeTotals_raw, lookup_fmap.
  pose proof (fold_add_raw_acc k (flat_map GraphNode.inputs nodes) ∅ []) as H.
  unfold raw_acc_at in H. rewrite filter_nil, app_nil_l in H.
  specialize (H (lookup_empty k)). unfold raw_inputs.
  destruct (filter _ (flat_map GraphNode.inputs nodes)) as [|x l].
  - by rewrite H.
  - destruct H as [v [-> Hv]]. cbn. f_equal. by apply r2_Qeq.
Qed.

End Totals.

(** [Js.r2] gives a nearest hundredth: a whole number of hundredths that is
    no more than half a hundredth away from its argument. *)
Lemma r2_rounded (x : Q) : rounded2 x (Js.r2 x).
Proof.
  exists (Qfloor (x * 100 + (1 # 2))). split; [reflexivity|].
  pose proof (Qfloor_le (x * 100 + (1 # 2))) as Hle.
  pose proof (Qlt_floor (x * 100 + (1 # 2))) as Hlt.
  rewrite inject_Z_plus in Hlt. split; [|exact Hle].
  change (inject_Z 1) with 1%Q in Hlt. lra.
Qed.

(** Away from a tie the nearest hundredth is unique, so [rounded2] then
    fixes the value. *)
Lemma rounded2_unique (s v v' : Q) :
  rounded2 s v -> rounded2 s v' ->
  (forall z : Z, ~ (s * 100 == inject_Z z + (1 # 2))%Q) ->
  (v == v')%Q.
Proof.
  intros (z & Hv & Hlo & Hhi) (z' & Hv' & Hlo' & Hhi') Htie.
  assert (Hstep : forall a b : Z, (a < b)%Z ->
            (s * 100 - (1 # 2) <= inject_Z a)%Q -> (inject_Z b <= s * 100 + (1 # 2))%Q ->
            (s * 100 == inject_Z a + (1 # 2))%Q).
  { intros a b Hab Ha Hb.
    assert (Hq : (inject_Z a + 1 <= inject_Z b)%Q).
    { change 1%Q with (inject_Z 1). rewrite <- inject_Z_plus. rewrite <- Zle_Qle. lia. }
    lra. }
  destruct (Z.lt_trichotomy z z') as [H | [H | H]].
  - exfalso. apply (Htie z). by apply (Hstep z z').
  - subst z'. by rewrite Hv, Hv'.
  - exfalso. apply (Htie z'). by apply (Hstep z' z).
Qed.

(** C6. In the totals of a node list (hence of every built graph),
    [raw] holds an entry exactly for the product names that occur as a node
    input and are absent from the product index, and the entry of such a
    name is the sum of the rates of those inputs over all nodes, rounded to
    2 decimal places: a whole number of hundredths within half a hundredth
    of the sum.  (A sum exactly half way between two hundredths is left to
    either side: the doubles of the code decide such a tie by their own
    rounding error.)  On the catalog with the single recipe R1 (1 Gear per
    2 second cycle from 2 Iron), the target Gear at 60 per minute builds a
    root with [runsPerMin = 2] and an Iron input at rate 4, and [totals.raw]
    is [{Iron: 4}].  On the catalog with the single recipe Rkiln (3 Brick per
    minute cycle from 2 Clay), the target Brick at 1 per minute runs a third
    of a cycle, needs Clay at rate 2/3, and [totals.raw] is [{Clay: 0.67}]. *)
Theorem totals_raw_sum :
  (forall (idx : ProductIndex) (nodes : list GraphNode.t) (k : string),
     match raw_inputs idx nodes k with
     | [] => Totals.raw (computeTotals idx nodes) !! k = None
     | l => exists v, Totals.raw (computeTotals idx nodes) !! k = Some v
                      /\ rounded2 (sum_rates l) v
     end)
  /\ (exists root iron total,
        State.graphNodes Examples.gear_example = [root]
        /\ GraphNode.id root = "Gear::R1"
        /\ GraphNode.depth root = 0%nat
        /\ (GraphNode.runsPerMin root == 2)%Q
        /\ GraphNode.inputs root = [iron]
        /\ NodeIO.name iron = "Iron"
        /\ (NodeIO.ratePerMin iron == 4)%Q
        /\ PRODUCT_INDEX [Examples.R1] !! "Iron" = None
        /\ Totals.raw (State.totals Examples.gear_example) = {[ "Iron" := total ]}
        /\ (total == 4)%Q)
  /\ (exists root clay total,
        State.graphNodes Examples.brick_example = [root]
        /\ GraphNode.id root = "Brick::Rkiln"
        /\ (GraphNode.runsPerMin root == 1 # 3)%Q
        /\ GraphNode.inputs root = [clay]
        /\ NodeIO.name clay = "Clay"
        /\ (NodeIO.ratePerMin clay == 2 # 3)%Q
        /\ PRODUCT_INDEX [Examples.Rkiln] !! "Clay" = None
        /\ Totals.raw (State.totals Examples.brick_example) = {[ "Clay" := total ]}
        /\ (total == 67 # 100)%Q).
Proof.
  split; [|split].
  - intros idx nodes k. rewrite computeTotals_raw_lookup.
    destruct (raw_inputs idx nodes k) as [|i l]; [done|].
    eexists. split; [reflexivity | apply r2_rounded].
  - exists (makeNode Examples.R1 "Gear" 60 0), (NodeIO.mk "Iron" (240 # 60)), (400 # 100)%Q.
    repeat split; vm_compute; reflexivity.
  - eexists _, _, _. repeat split; vm_compute; reflexivity.
Qed.

(** ** GraphBuilder: invariants of [build] *)

Lemma pickRecipeWithPrefs_elem (idx : ProductIndex) p e b pb r :
  pickRecipeWithPrefs idx p e b pb = Some r -> r ∈ default [] (idx !! p).
Proof.
  unfold pickRecipeWithPrefs. cbv zeta. intros H.
  repeat match type of H with
         | match (if ?c then ?f else None) with Some _ => _ | None => _ end = Some _ =>
           let E := fresh "E" in
           destruct (if c then f else None) eqn:E;
           [ injection H as <-; destruct c; [by apply find_some in E as [? _] | discriminate E]
           | clear E ]
         end.
  by apply head_Some_elem_of.
Qed.

Lemma pickRecipeWithPrefs_craftable (idx : ProductIndex) p e b pb :
  index_ok idx -> craftable idx p = true ->
  exists r, pickRecipeWithPrefs idx p e b pb = Some r.
Proof.
  intros Hidx Hc. unfold craftable in Hc. apply bool_decide_eq_true in Hc as [l Hl].
  specialize (Hidx p l Hl).
  destruct (pickRecipeWithPrefs idx p e b pb) as [r|] eqn:E; [eauto|].
  exfalso. unfold pickRecipeWithPrefs in E. cbv zeta in E. rewrite Hl in E.
  repeat match type of E with
         | match ?x with Some _ => _ | None => _ end = None => destruct x; [discriminate E|]
         end.
  destruct l; [done | discriminate E].
Qed.

Section GraphInvariants.

Variable idx : ProductIndex.
Variable choicesRecipe : gmap string (option string).
Variable choicesBuilding : gmap string string.

Local Abbreviation resolve := (Store.resolve idx choicesRecipe choicesBuilding).
Local Abbreviation ensureNode := (Store.ensureNode idx choicesRecipe choicesBuilding).
Local Abbreviation baseline_input := (Store.baseline_input idx choicesRecipe choicesBuilding).
Local Abbreviation baseline_target := (Store.baseline_target idx choicesRecipe choicesBuilding).
Local Abbreviation baseline := (Store.baseline idx choicesRecipe choicesBuilding).

Lemma graph_ok_empty : graph_ok idx Graph.empty.
Proof.
  split; [reflexivity|]. split; [|split; [constructor | constructor]].
  intros k n. cbn. rewrite lookup_empty. split; [discriminate|].
  intros [H _]. by apply elem_of_nil in H.
Qed.

Lemma extends_refl g : extends g g.
Proof. split; reflexivity. Qed.

Lemma extends_trans g1 g2 g3 : extends g1 g2 -> extends g2 g3 -> extends g1 g3.
Proof. intros [? ?] [? ?]. split; etrans; eauto. Qed.

Lemma extends_node g g' n : extends g g' -> n ∈ Graph.nodes g -> n ∈ Graph.nodes g'.
Proof. intros [H _] Hn. eapply elem_of_prefix; eauto. Qed.

Lemma extends_edge g g' e : extends g g' -> e ∈ Graph.edges g -> e ∈ Graph.edges g'.
Proof. intros [_ H] He. eapply elem_of_prefix; eauto. Qed.

Lemma graph_ok_byId g k n :
  graph_ok idx g -> Graph.byId g !! k = Some n -> n ∈ Graph.nodes g /\ GraphNode.id n = k.
Proof. intros (_ & H & _) Hk. by apply H. Qed.

Lemma graph_ok_lookup g n :
  graph_ok idx g -> n ∈ Graph.nodes g -> Graph.byId g !! GraphNode.id n = Some n.
Proof. intros (_ & H & _) Hn. by apply H. Qed.

(** Two nodes of the array with the same id are the same node. *)
Lemma graph_ok_unique g n1 n2 :
  graph_ok idx g -> n1 ∈ Graph.nodes g -> n2 ∈ Graph.nodes g ->
  GraphNode.id n1 = GraphNode.id n2 -> n1 = n2.
Proof.
  intros Hok H1 H2 E.
  pose proof (graph_ok_lookup g n1 Hok H1) as L1.
  pose proof (graph_ok_lookup g n2 Hok H2) as L2.
  rewrite E in L1. congruence.
Qed.

(** Appending a node made for a recipe of the index under a fresh id. *)
Lemma graph_ok_add g r p rate d :
  graph_ok idx g ->
  r ∈ default [] (idx !! p) ->
  Graph.byId g !! nodeIdFor p (Recipe.recipeId r) = None ->
  graph_ok idx
    (Graph.mk (Graph.nodes g ++ [makeNode r p rate d]) (Graph.edges g)
       (<[ nodeIdFor p (Recipe.recipeId r) := makeNode r p rate d ]> (Graph.byKey g))
       (<[ GraphNode.id (makeNode r p rate d) := makeNode r p rate d ]> (Graph.byId g))).
Proof.
  intros (Hk & Hid & Hnd & Hall) Hr Hfresh.
  set (n := makeNode r p rate d).
  assert (Hn : GraphNode.id n = nodeIdFor p (Recipe.recipeId r)) by reflexivity.
  split; [|split; [|split]]; cbn [Graph.byKey Graph.byId Graph.nodes Graph.edges].
  - by rewrite Hn, Hk.
  - intros k m. rewrite Hn, lookup_insert. case_decide as E.
    + subst k. split.
      * intros [= <-]. split; [apply elem_of_app; right; by left | done].
      * intros [Hm Hmid]. apply elem_of_app in Hm as [Hm | Hm].
        -- assert (Graph.byId g !! nodeIdFor p (Recipe.recipeId r) = Some m)
             by (by apply Hid). congruence.
        -- apply list_elem_of_singleton in Hm. by subst.
    + rewrite Hid. split.
      * intros [? ?]. split; [apply elem_of_app; by left | done].
      * intros [Hm Hmid]. split; [|done].
        apply elem_of_app in Hm as [Hm | Hm]; [done|].
        apply list_elem_of_singleton in Hm. subst m. congruence.
  - rewrite map_app. apply NoDup_app. split; [done|]. split; [|apply NoDup_singleton].
    intros x Hx Hx'. cbn in Hx'. apply list_elem_of_singleton in Hx'. subst x.
    apply list_elem_of_fmap in Hx as [m [Hm Hin]].
    assert (Graph.byId g !! nodeIdFor p (Recipe.recipeId r) = Some m)
      by (apply Hid; split; [done | congruence]).
    congruence.
  - apply Forall_app. split; [done|]. apply Forall_singleton.
    split; [reflexivity|]. exists r. split; [exact Hr | reflexivity].
Qed.

(** The three outcomes of [ensureNode]: nothing to resolve, the node exists
    already and is returned as it is, or a new node is appended. *)
Lemma ensureNode_cases p rate d pb g :
  graph_ok idx g ->
  (resolve p pb = None /\ ensureNode p rate d pb g = (None, g))
  \/ (exists r n, resolve p pb = Some r
        /\ Graph.byId g !! nodeIdFor p (Recipe.recipeId r) = Some n
        /\ ensureNode p rate d pb g = (Some n, g))
  \/ (exists r g', resolve p pb = Some r
        /\ Graph.byId g !! nodeIdFor p (Recipe.recipeId r) = None
        /\ ensureNode p rate d pb g = (Some (makeNode r p rate d), g')
        /\ Graph.nodes g' = Graph.nodes g ++ [makeNode r p rate d]
        /\ Graph.edges g' = Graph.edges g
        /\ graph_ok idx g').
Proof.
  intros Hok. unfold Store.ensureNode.
  destruct (resolve p pb) as [r|] eqn:Er; [|left; done].
  right. pose proof Hok as (Hk & _).
  destruct (Graph.byKey g !! nodeIdFor p (Recipe.recipeId r)) as [n|] eqn:En.
  - left. exists r, n. by rewrite <- Hk.
  - right. eexists r, _. split; [done|]. split; [by rewrite <- Hk|].
    split; [reflexivity|]. split; [reflexivity|]. split; [reflexivity|].
    apply graph_ok_add; [done | by apply pickRecipeWithPrefs_elem in Er | by rewrite <- Hk].
Qed.

Lemma ensureNode_summary p rate d pb g res g' :
  graph_ok idx g ->
  ensureNode p rate d pb g = (res, g') ->
  graph_ok idx g'
  /\ extends g g'
  /\ Graph.edges g' = Graph.edges g
  /\ (forall n, n ∈ Graph.nodes g' ->
        n ∈ Graph.nodes g \/ (res = Some n /\ GraphNode.depth n = d))
  /\ (resolve p pb = None -> res = None /\ g' = g)
  /\ (forall r, resolve p pb = Some r ->
        exists n, res = Some n /\ n ∈ Graph.nodes g'
          /\ GraphNode.id n = nodeIdFor p (Recipe.recipeId r)
          /\ (Graph.nodes g = [] -> n = makeNode r p rate d)
          /\ (n ∈ Graph.nodes g -> g' = g)).
Proof.
  intros Hok He.
  destruct (ensureNode_cases p rate d pb g Hok)
    as [[Hr E] | [(r & n & Hr & Hn & E) | (r & g1 & Hr & Hn & E & Hnodes & Hedges & Hok1)]];
    rewrite E in He; injection He as <- <-.
  - split; [done|]. split; [apply extends_refl|]. split; [done|].
    split; [by left|]. split; [done|]. intros r. by rewrite Hr.
  - split; [done|]. split; [apply extends_refl|]. split; [done|].
    split; [by left|]. split; [by rewrite Hr|].
    intros r' Hr'. rewrite Hr in Hr'. injection Hr' as <-.
    apply (graph_ok_byId g _ _ Hok) in Hn as [Hin Hid].
    exists n. split; [done|]. split; [done|]. split; [done|]. split; [|done].
    intros Hnil. rewrite Hnil in Hin. by apply elem_of_nil in Hin.
  - split; [done|]. split.
    { split; [rewrite Hnodes; by apply prefix_app_r | by rewrite Hedges]. }
    split; [done|]. split.
    { intros n. rewrite Hnodes, elem_of_app, list_elem_of_singleton.
      intros [?| ->]; [by left | by right]. }
    split; [by rewrite Hr|].
    intros r' Hr'. rewrite Hr in Hr'. injection Hr' as <-.
    eexists. split; [done|]. split.
    { rewrite Hnodes. apply elem_of_app. right. by left. }
    split; [done|]. split; [done|].
    intros Hin. apply (graph_ok_lookup g _ Hok) in Hin. cbn in Hin. congruence.
Qed.

Lemma connect_ok parent child label g :
  graph_ok idx g -> graph_ok idx (connect parent child label g).
Proof. intros H. exact H. Qed.

Lemma connect_extends parent child label g : extends g (connect parent child label g).
Proof. split; cbn; [reflexivity | by apply prefix_app_r]. Qed.

Lemma connect_edge parent child label g :
  exists e, e ∈ Graph.edges (connect parent child label g)
    /\ GraphEdge.source e = GraphNode.id parent
    /\ GraphEdge.target e = GraphNode.id child
    /\ GraphEdge.label e = label.
Proof.
  eexists. split; [cbn; apply elem_of_app; right; by left|]. done.
Qed.

Lemma hop_at_extends fresh root g g' i :
  extends g g' ->
  hop_at idx choicesRecipe choicesBuilding fresh root g i ->
  hop_at idx choicesRecipe choicesBuilding fresh root g' i.
Proof.
  intros Hext H Hc. destruct (H Hc) as (rc & child & e & ? & ? & ? & ? & ?).
  exists rc, child, e. split; [done|]. split; [by eapply extends_node|].
  split; [done|]. split; [by eapply extends_edge | done].
Qed.

Lemma hop_at_weaken (P Q : Prop) root g i :
  (Q -> P) ->
  hop_at idx choicesRecipe choicesBuilding P root g i ->
  hop_at idx choicesRecipe choicesBuilding Q root g i.
Proof.
  intros HQP H Hc. destruct (H Hc) as (rc & child & e & ? & ? & ? & ? & ? & ? & ? & Hf).
  exists rc, child, e. repeat (split; [done|]). intros HQ. apply Hf, HQP, HQ.
Qed.

Lemma baseline_input_spec root g i :
  index_ok idx -> graph_ok idx g ->
  graph_ok idx (baseline_input root g i)
  /\ extends g (baseline_input root g i)
  /\ (one_hop_only root g -> one_hop_only root (baseline_input root g i))
  /\ hop_at idx choicesRecipe choicesBuilding (one_hop_only root g) root
       (baseline_input root g i) i.
Proof.
  intros Hidx Hok. unfold Store.baseline_input, hop_at.
  destruct (craftable idx (NodeIO.name i)) eqn:Hc.
  2:{ split; [done|]. split; [apply extends_refl|]. split; [done|]. discriminate. }
  destruct (ensureNode (NodeIO.name i) (NodeIO.ratePerMin i) 1
              (Some (GraphNode.building root)) g) as [res g1] eqn:E.
  destruct (ensureNode_summary _ _ _ _ _ _ _ Hok E)
    as (Hok1 & Hext1 & Hedges & Hnew & Hnone & Hsome).
  destruct (pickRecipeWithPrefs_craftable idx (NodeIO.name i)
              (default None (choicesRecipe !! NodeIO.name i))
              (choicesBuilding !! NodeIO.name i)
              (Some (GraphNode.building root)) Hidx Hc) as [rc Hrc].
  destruct (Hsome rc Hrc) as (child & -> & Hin & Hid & _).
  assert (Hone : one_hop_only root g -> one_hop_only root g1).
  { intros H1 n Hn. destruct (Hnew n Hn) as [Hg | [_ Hd]]; [by apply H1 | by right]. }
  split; [by apply connect_ok|].
  split; [eapply extends_trans; [exact Hext1 | apply connect_extends]|].
  split; [exact Hone|].
  intros _. destruct (connect_edge root child (NodeIO.name i) g1) as (e & He & Hs & Ht & Hl).
  exists rc, child, e. repeat (split; [done|]).
  intros H1. by apply Hone.
Qed.

Lemma baseline_inputs_spec root (l : list NodeIO.t) :
  index_ok idx ->
  forall g, graph_ok idx g ->
    graph_ok idx (fold_left (baseline_input root) l g)
    /\ extends g (fold_left (baseline_input root) l g)
    /\ (one_hop_only root g -> one_hop_only root (fold_left (baseline_input root) l g))
    /\ (forall i, i ∈ l ->
          hop_at idx choicesRecipe choicesBuilding (one_hop_only root g) root
            (fold_left (baseline_input root) l g) i).
Proof.
  intros Hidx. induction l as [|i l IH]; intros g Hok; cbn [fold_left].
  - split; [done|]. split; [apply extends_refl|]. split; [done|].
    intros i Hi. by apply elem_of_nil in Hi.
  - destruct (baseline_input_spec root g i Hidx Hok) as (Hok1 & Hext1 & Hone1 & Hhop1).
    destruct (IH _ Hok1) as (Hok2 & Hext2 & Hone2 & Hhop2).
    split; [done|]. split; [by eapply extends_trans|]. split; [by intros ?; apply Hone2, Hone1|].
    intros j Hj. apply elem_of_cons in Hj as [-> | Hj].
    + by eapply hop_at_extends.
    + eapply hop_at_weaken; [|by apply Hhop2]. exact Hone1.
Qed.

Lemma baseline_target_spec g t :
  index_ok idx -> graph_ok idx g ->
  graph_ok idx (baseline_target g t)
  /\ extends g (baseline_target g t)
  /\ (forall r, resolve (Target.product t) None = Some r ->
        exists root,
          root ∈ Graph.nodes (baseline_target g t)
          /\ GraphNode.id root = nodeIdFor (Target.product t) (Recipe.recipeId r)
          /\ (Graph.nodes g = [] ->
              root = makeNode r (Target.product t) (Target.ratePerMin t) 0)
          /\ first_hop idx choicesRecipe choicesBuilding (Graph.nodes g = []) root
               (baseline_target g t)).
Proof.
  intros Hidx Hok. unfold Store.baseline_target.
  destruct (ensureNode (Target.product t) (Target.ratePerMin t) 0 None g)
    as [res g1] eqn:E.
  destruct (ensureNode_summary _ _ _ _ _ _ _ Hok E)
    as (Hok1 & Hext1 & Hedges & Hnew & Hnone & Hsome).
  destruct (resolve (Target.product t) None) as [r|] eqn:Hr.
  2:{ destruct (Hnone eq_refl) as [-> ->]. split; [done|]. split; [apply extends_refl|].
      discriminate. }
  destruct (Hsome r eq_refl) as (root & -> & Hin & Hid & Hmk & _).
  destruct (baseline_inputs_spec root (GraphNode.inputs root) Hidx g1 Hok1)
    as (Hok2 & Hext2 & _ & Hhop).
  split; [done|]. split; [by eapply extends_trans|].
  intros r' [= <-]. exists root. split; [by eapply extends_node|].
  split; [done|]. split; [done|].
  intros i Hi. eapply hop_at_weaken; [|by apply Hhop].
  intros Hnil n Hn. destruct (Hnew n Hn) as [Hg | [[= ->] _]]; [|by left].
  rewrite Hnil in Hg. by apply elem_of_nil in Hg.
Qed.

Lemma baseline_targets_spec (ts : list Target.t) :
  index_ok idx ->
  forall g, graph_ok idx g ->
    graph_ok idx (fold_left baseline_target ts g)
    /\ extends g (fold_left baseline_target ts g)
    /\ (forall t r, t ∈ ts -> resolve (Target.product t) None = Some r ->
          exists root,
            root ∈ Graph.nodes (fold_left baseline_target ts g)
            /\ GraphNode.id root = nodeIdFor (Target.product t) (Recipe.recipeId r)
            /\ first_hop idx choicesRecipe choicesBuilding False root
                 (fold_left baseline_target ts g)).
Proof.
  intros Hidx. induction ts as [|t0 ts IH]; intros g Hok; cbn [fold_left].
  - split; [done|]. split; [apply extends_refl|].
    intros t r Ht. by apply elem_of_nil in Ht.
  - destruct (baseline_target_spec g t0 Hidx Hok) as (Hok1 & Hext1 & Hroot1).
    destruct (IH _ Hok1) as (Hok2 & Hext2 & Hroot2).
    split; [done|]. split; [by eapply extends_trans|].
    intros t r Ht Hr. apply elem_of_cons in Ht as [-> | Ht]; [|by eapply Hroot2].
    destruct (Hroot1 r Hr) as (root & Hin & Hid & _ & Hhop).
    exists root. split; [by eapply extends_node|]. split; [done|].
    intros i Hi. eapply hop_at_extends; [exact Hext2|].
    eapply hop_at_weaken; [|by apply Hhop]. done.
Qed.

End GraphInvariants.

(** ** GraphBuilder: the expansion loop *)

Lemma sum_list_fmap_lt {A} (f g : A -> nat) (l : list A) (x : A) :
  x ∈ l -> (f x < g x)%nat -> (forall y, (f y <= g y)%nat) ->
  (sum_list (map f l) < sum_list (map g l))%nat.
Proof.
  intros Hx Hlt Hle.
  assert (Hall : forall l', (sum_list (map f l') <= sum_list (map g l'))%nat).
  { induction l' as [|y l' IH]; cbn; [lia|]. specialize (Hle y). lia. }
  induction l as [|y l IH]; [by apply elem_of_nil in Hx|].
  cbn. apply elem_of_cons in Hx as [<- | Hx].
  - specialize (Hall l). lia.
  - specialize (IH Hx). specialize (Hle y). lia.
Qed.

Lemma improves_test (best : gmap string Z) (c : string) (a : Z) :
  (0 <? a)%Z && (default (-1)%Z (best !! c) <? a)%Z = true <-> improves best c a.
Proof.
  unfold improves. rewrite andb_true_iff, !Z.ltb_lt.
  destruct (best !! c) as [prev|]; cbn.
  - split; [intros [? ?]; split; [done|]; by intros ? [= <-] | intros [? H]; eauto].
  - split; [intros [? _]; split; [done | discriminate] | intros [? _]; lia].
Qed.

Lemma improves_best_le (best best' : gmap string Z) (c : string) (a : Z) :
  best_le best best' -> ~ improves best c a -> ~ improves best' c a.
Proof.
  intros Hle Hn [Hpos H]. apply Hn. split; [done|].
  intros prev Hprev. destruct (Hle _ _ Hprev) as (v' & Hv' & ?).
  specialize (H _ Hv'). lia.
Qed.

Section Expansion.

Variable idx : ProductIndex.
Variable choicesRecipe : gmap string (option string).
Variable choicesBuilding : gmap string string.
Variable expandedByNode : gmap string Z.

Local Abbreviation resolve := (Store.resolve idx choicesRecipe choicesBuilding).
Local Abbreviation ensureNode := (Store.ensureNode idx choicesRecipe choicesBuilding).
Local Abbreviation budget := (Store.budget expandedByNode).
Local Abbreviation M := (maxBudget expandedByNode).
Local Abbreviation relax := (Store.relax idx choicesRecipe choicesBuilding expandedByNode).
Local Abbreviation step := (Store.step idx choicesRecipe choicesBuilding expandedByNode).
Local Abbreviation loop := (Store.loop idx choicesRecipe choicesBuilding expandedByNode).
Local Abbreviation seed := (Store.seed expandedByNode).
Local Abbreviation measure := (Store.measure idx expandedByNode).
Local Abbreviation potential := (Store.potential idx expandedByNode).
Local Abbreviation settled :=
  (settled idx choicesRecipe choicesBuilding expandedByNode).
Local Abbreviation relaxed_but :=
  (relaxed_but idx choicesRecipe choicesBuilding expandedByNode).

Lemma maxBudget_nonneg : (0 <= M)%Z.
Proof.
  unfold maxBudget. induction (map_to_list expandedByNode) as [|kv l IH]; cbn; lia.
Qed.

Lemma maxBudget_ge k v : expandedByNode !! k = Some v -> (v <= M)%Z.
Proof.
  intros H. apply elem_of_map_to_list in H. unfold maxBudget.
  induction (map_to_list expandedByNode) as [|kv l IH]; [by apply elem_of_nil in H|].
  cbn. apply elem_of_cons in H as [<- | H]; [cbn; lia|]. specialize (IH H). lia.
Qed.

Lemma budget_le k : (budget k <= M)%Z.
Proof.
  unfold Store.budget. destruct (expandedByNode !! k) as [v|] eqn:E; cbn.
  - by apply maxBudget_ge in E.
  - apply maxBudget_nonneg.
Qed.

Lemma node_in_universe n : node_of_index idx n -> GraphNode.id n ∈ universe idx.
Proof.
  intros [Hid (r & Hr & Hrid)]. rewrite Hid, <- Hrid.
  destruct (idx !! GraphNode.product n) as [l|] eqn:E; [|by apply elem_of_nil in Hr].
  cbn in Hr. unfold universe. apply list_elem_of_In, in_flat_map.
  exists (GraphNode.product n, l). split.
  - apply list_elem_of_In. by apply elem_of_map_to_list.
  - cbn. apply in_map_iff. exists r. split; [done | by apply list_elem_of_In].
Qed.

Lemma potential_insert (best : gmap string Z) (k : string) (a : Z) :
  k ∈ universe idx ->
  (default 0 (best !! k) < a <= M)%Z ->
  (potential (<[ k := a ]> best) < potential best)%nat.
Proof.
  intros Hk Ha. unfold Store.potential.
  apply sum_list_fmap_lt with (x := k); [done| |].
  - unfold slack. rewrite lookup_insert_eq. cbn. lia.
  - intros y. unfold slack. destruct (decide (k = y)) as [<- | Hne].
    + rewrite lookup_insert_eq. cbn. lia.
    + by rewrite lookup_insert_ne.
Qed.

Lemma byId_extends g g' k :
  graph_ok idx g -> graph_ok idx g' -> extends g g' ->
  is_Some (Graph.byId g !! k) -> is_Some (Graph.byId g' !! k).
Proof.
  intros Hok Hok' Hext [n Hn].
  destruct (graph_ok_byId idx g k n Hok Hn) as [Hin <-].
  exists n. apply (graph_ok_lookup idx); [done | by eapply extends_node].
Qed.

Lemma best_le_refl (best : gmap string Z) : best_le best best.
Proof. intros k v H. exists v. split; [done | lia]. Qed.

Lemma best_le_trans (b1 b2 b3 : gmap string Z) :
  best_le b1 b2 -> best_le b2 b3 -> best_le b1 b3.
Proof.
  intros H12 H23 k v H. destruct (H12 _ _ H) as (v' & H' & ?).
  destruct (H23 _ _ H') as (v'' & H'' & ?). exists v''. split; [done | lia].
Qed.

Lemma best_le_insert (best : gmap string Z) (c : string) (a : Z) :
  improves best c a -> best_le best (<[ c := a ]> best).
Proof.
  intros [_ H] k v Hk. destruct (decide (c = k)) as [<- | Hne].
  - exists a. rewrite lookup_insert_eq. split; [done|]. specialize (H _ Hk). lia.
  - exists v. rewrite lookup_insert_ne by done. split; [done | lia].
Qed.

(** The body of the inner loop, for one input of the dequeued node. *)
Lemma relax_spec parent eff b i :
  index_ok idx -> bfs_ok idx expandedByNode b -> (eff <= M)%Z ->
  bfs_ok idx expandedByNode (relax parent eff b i)
  /\ extends (Bfs.graph b) (Bfs.graph (relax parent eff b i))
  /\ (measure (relax parent eff b i) <= measure b)%nat
  /\ (craftable idx (NodeIO.name i) = false -> relax parent eff b i = b)
  /\ (craftable idx (NodeIO.name i) = true ->
      exists rc child,
        resolve (NodeIO.name i) (Some (GraphNode.building parent)) = Some rc
        /\ GraphNode.id child = nodeIdFor (NodeIO.name i) (Recipe.recipeId rc)
        /\ child ∈ Graph.nodes (Bfs.graph (relax parent eff b i))
        /\ (exists e, e ∈ Graph.edges (Bfs.graph (relax parent eff b i))
              /\ GraphEdge.source e = GraphNode.id parent
              /\ GraphEdge.target e = GraphNode.id child)
        /\ let a := inherited_allowance eff (budget (GraphNode.id child)) in
           (improves (Bfs.bestRem b) (GraphNode.id child) a ->
            Bfs.bestRem (relax parent eff b i) = <[ GraphNode.id child := a ]> (Bfs.bestRem b)
            /\ Bfs.queue (relax parent eff b i)
               = Bfs.queue b ++ [QItem.mk (GraphNode.id child) a])
           /\ (~ improves (Bfs.bestRem b) (GraphNode.id child) a ->
               Bfs.bestRem (relax parent eff b i) = Bfs.bestRem b
               /\ Bfs.queue (relax parent eff b i) = Bfs.queue b)).
Proof.
  intros Hidx (Hok & Hbest & Hq) Heff. unfold Store.relax.
  destruct (craftable idx (NodeIO.name i)) eqn:Hc.
  2:{ split; [done|]. split; [apply extends_refl|]. split; [lia|]. split; [done|].
      discriminate. }
  destruct (ensureNode (NodeIO.name i) (NodeIO.ratePerMin i) (GraphNode.depth parent + 1)
              (Some (GraphNode.building parent)) (Bfs.graph b)) as [res g1] eqn:E.
  destruct (ensureNode_summary _ _ _ _ _ _ _ _ _ _ Hok E)
    as (Hok1 & Hext1 & Hedges & Hnew & Hnone & Hsome).
  destruct (pickRecipeWithPrefs_craftable idx (NodeIO.name i)
              (default None (choicesRecipe !! NodeIO.name i))
              (choicesBuilding !! NodeIO.name i)
              (Some (GraphNode.building parent)) Hidx Hc) as [rc Hrc].
  destruct (Hsome rc Hrc) as (child & -> & Hin & Hid & _).
  set (g2 := if connected parent child g1 then g1
             else connect parent child (NodeIO.name i) g1).
  assert (Hok2 : graph_ok idx g2).
  { unfold g2. destruct (connected parent child g1); [done | by apply connect_ok]. }
  assert (Hext12 : extends g1 g2).
  { unfold g2. destruct (connected parent child g1);
      [apply extends_refl | apply connect_extends]. }
  assert (Hext2 : extends (Bfs.graph b) g2) by (by eapply extends_trans).
  assert (Hin2 : child ∈ Graph.nodes g2) by exact (extends_node _ _ _ Hext12 Hin).
  assert (Hedge : exists e, e ∈ Graph.edges g2
            /\ GraphEdge.source e = GraphNode.id parent
            /\ GraphEdge.target e = GraphNode.id child).
  { unfold g2. destruct (connected parent child g1) eqn:Ec.
    - unfold connected in Ec. apply existsb_exists in Ec as (e & He & Hb).
      apply andb_true_iff in Hb as [Hs Ht].
      apply String.eqb_eq in Hs, Ht. exists e. by rewrite list_elem_of_In.
    - destruct (connect_edge parent child (NodeIO.name i) g1) as (e & ? & ? & ? & _).
      by exists e. }
  assert (Hkeep : forall k, is_Some (Graph.byId (Bfs.graph b) !! k) ->
                            is_Some (Graph.byId g2 !! k)).
  { intros k. by apply byId_extends. }
  set (a := Z.max (eff - 1) (budget (GraphNode.id child))).
  assert (Ha : (a <= M)%Z).
  { unfold a. pose proof (budget_le (GraphNode.id child)). lia. }
  destruct ((0 <? a)%Z && (default (-1)%Z (Bfs.bestRem b !! GraphNode.id child) <? a)%Z)
    eqn:Et.
  - apply improves_test in Et. pose proof Et as [Hpos Hprev].
    assert (Hpot : (potential (<[ GraphNode.id child := a ]> (Bfs.bestRem b))
                    < potential (Bfs.bestRem b))%nat).
    { apply potential_insert.
      - apply node_in_universe. destruct Hok2 as (_ & _ & _ & Hall).
        rewrite Forall_forall in Hall. by apply Hall.
      - split; [|done]. destruct (Bfs.bestRem b !! GraphNode.id child) as [prev|] eqn:Ep; cbn.
        + by apply Hprev. + done. }
    split.
    { split; [done|]. split; cbn [Bfs.graph Bfs.bestRem Bfs.queue].
      - intros k v. rewrite lookup_insert. case_decide as Ek.
        + intros [= <-]. subst k. split; [lia|]. exists child. by apply (graph_ok_lookup idx).
        + intros Hk. destruct (Hbest _ _ Hk) as [? ?]. split; [done | by apply Hkeep].
      - apply Forall_app. split.
        + eapply Forall_impl; [exact Hq|]. intros it [? ?]. split; [done | by apply Hkeep].
        + apply Forall_singleton. cbn. split; [lia|]. exists child. by apply (graph_ok_lookup idx). }
    split; [done|]. split.
    { unfold Store.measure. cbn [Bfs.bestRem Bfs.queue]. rewrite length_app. cbn. lia. }
    split; [discriminate|]. intros _. exists rc, child.
    split; [done|]. split; [done|]. split; [done|]. split; [done|].
    cbv zeta. fold a. split; [done|]. intros Hn. contradiction.
  - assert (Hn : ~ improves (Bfs.bestRem b) (GraphNode.id child) a).
    { intros H. apply improves_test in H. congruence. }
    split.
    { split; [done|]. split; cbn [Bfs.graph Bfs.bestRem Bfs.queue].
      - intros k v Hk. destruct (Hbest _ _ Hk) as [? ?]. split; [done | by apply Hkeep].
      - eapply Forall_impl; [exact Hq|]. intros it [? ?]. split; [done | by apply Hkeep]. }
    split; [done|]. split; [unfold Store.measure; cbn; lia|].
    split; [discriminate|]. intros _. exists rc, child.
    split; [done|]. split; [done|]. split; [done|]. split; [done|].
    cbv zeta. fold a. split; [intros H; contradiction | done].
Qed.

Lemma settled_best_le best best' parent rem i :
  best_le best best' -> settled best parent rem i -> settled best' parent rem i.
Proof.
  intros Hle H Hc rc Hrc. eapply improves_best_le; [exact Hle|]. by apply H.
Qed.

(** A node of the later graph whose allowance is recorded was already a node
    of the earlier one. *)
Lemma recorded_node b g' n v :
  bfs_ok idx expandedByNode b -> graph_ok idx g' -> extends (Bfs.graph b) g' ->
  n ∈ Graph.nodes g' -> Bfs.bestRem b !! GraphNode.id n = Some v ->
  n ∈ Graph.nodes (Bfs.graph b).
Proof.
  intros (Hok & Hbest & _) Hok' Hext Hn Hv.
  destruct (Hbest _ _ Hv) as [_ [m Hm]].
  destruct (graph_ok_byId idx _ _ _ Hok Hm) as [Hin Hid].
  assert (m = n) as <-; [|done].
  eapply (graph_ok_unique idx g'); [done | by eapply extends_node | done | done].
Qed.

Lemma relax_relaxed parent rem b i skip :
  index_ok idx -> bfs_ok idx expandedByNode b ->
  (effective_remaining rem (budget (GraphNode.id parent)) <= M)%Z ->
  relaxed_but skip b ->
  let b' := relax parent (effective_remaining rem (budget (GraphNode.id parent))) b i in
  relaxed_but skip b'
  /\ best_le (Bfs.bestRem b) (Bfs.bestRem b')
  /\ settled (Bfs.bestRem b') parent rem i.
Proof.
  intros Hidx Hbfs Heff Hrel. cbv zeta.
  set (eff := effective_remaining rem (budget (GraphNode.id parent))) in *.
  destruct (relax_spec parent eff b i Hidx Hbfs Heff)
    as (Hbfs' & Hext & _ & Hraw & Hcraft).
  destruct (craftable idx (NodeIO.name i)) eqn:Hc.
  2:{ rewrite (Hraw eq_refl). split; [done|]. split; [apply best_le_refl|].
      intros Hc'. unfold craftable in *. congruence. }
  destruct (Hcraft eq_refl) as (rc & child & Hrc & Hid & Hin & _ & Himp & Hnot).
  set (a := inherited_allowance eff (budget (GraphNode.id child))) in *.
  set (b' := relax parent eff b i) in *.
  assert (Hcases : (improves (Bfs.bestRem b) (GraphNode.id child) a
                    /\ Bfs.bestRem b' = <[ GraphNode.id child := a ]> (Bfs.bestRem b)
                    /\ Bfs.queue b' = Bfs.queue b ++ [QItem.mk (GraphNode.id child) a])
                   \/ (~ improves (Bfs.bestRem b) (GraphNode.id child) a
                       /\ Bfs.bestRem b' = Bfs.bestRem b /\ Bfs.queue b' = Bfs.queue b)).
  { destruct (decide ((0 <? a)%Z
                      && (default (-1)%Z (Bfs.bestRem b !! GraphNode.id child) <? a)%Z = true))
      as [Ht | Ht].
    - apply improves_test in Ht. left. split; [done|]. by apply Himp.
    - right. assert (Hn : ~ improves (Bfs.bestRem b) (GraphNode.id child) a).
      { intros H. by apply improves_test in H. }
      split; [done|]. by apply Hnot. }
  assert (Hle : best_le (Bfs.bestRem b) (Bfs.bestRem b')).
  { destruct Hcases as [(Hi & -> & _) | (_ & -> & _)];
      [by apply best_le_insert | apply best_le_refl]. }
  assert (Hold : forall p r, p ∈ Graph.nodes (Bfs.graph b') ->
            Bfs.bestRem b !! GraphNode.id p = Some r ->
            Some (QItem.mk (GraphNode.id p) r) = skip
            \/ QItem.mk (GraphNode.id p) r ∈ Bfs.queue b'
            \/ forall j, j ∈ GraphNode.inputs p -> settled (Bfs.bestRem b') p r j).
  { intros p r Hp Hr.
    assert (Hp0 : p ∈ Graph.nodes (Bfs.graph b)).
    { eapply recorded_node; [exact Hbfs | by destruct Hbfs' | exact Hext | exact Hp | exact Hr]. }
    destruct (Hrel p r Hp0 Hr) as [Hs | [Hq | Hset]]; [by left | |].
    - right. left. destruct Hcases as [(_ & _ & ->) | (_ & _ & ->)];
        [apply elem_of_app; by left | done].
    - right. right. intros j Hj. eapply settled_best_le; [exact Hle | by apply Hset]. }
  split; [|split; [exact Hle|]].
  - intros p r Hp Hr. destruct Hcases as [(Hi & Hb & Hq) | (Hn & Hb & Hq)].
    + rewrite Hb in Hr. destruct (decide (GraphNode.id child = GraphNode.id p)) as [Ee | Ene].
      * rewrite <- Ee, lookup_insert_eq in Hr. injection Hr as <-.
        right. left. rewrite Hq, <- Ee. apply elem_of_app. right. by left.
      * rewrite lookup_insert_ne in Hr by done. by apply Hold.
    + rewrite Hb in Hr. by apply Hold.
  - intros _ rc' Hrc'. rewrite Hrc in Hrc'. injection Hrc' as <-. rewrite <- Hid. fold eff a.
    destruct Hcases as [(Hi & Hb & _) | (Hn & Hb & _)]; rewrite Hb; [|done].
    intros [_ H]. specialize (H a (lookup_insert_eq _ _ _)). lia.
Qed.

Lemma relax_fold parent rem skip (l : list NodeIO.t) :
  index_ok idx ->
  (effective_remaining rem (budget (GraphNode.id parent)) <= M)%Z ->
  forall b done,
    bfs_ok idx expandedByNode b ->
    relaxed_but skip b ->
    (forall i, i ∈ done -> settled (Bfs.bestRem b) parent rem i) ->
    let b' := fold_left (relax parent (effective_remaining rem (budget (GraphNode.id parent))))
                l b in
    bfs_ok idx expandedByNode b'
    /\ extends (Bfs.graph b) (Bfs.graph b')
    /\ (measure b' <= measure b)%nat
    /\ relaxed_but skip b'
    /\ (forall i, i ∈ done ++ l -> settled (Bfs.bestRem b') parent rem i).
Proof.
  intros Hidx Heff. induction l as [|i l IH]; intros b done Hbfs Hrel Hdone; cbn [fold_left].
  - split; [done|]. split; [apply extends_refl|]. split; [lia|]. split; [done|].
    by rewrite app_nil_r.
  - destruct (relax_spec parent _ b i Hidx Hbfs Heff) as (Hbfs1 & Hext1 & Hm1 & _).
    destruct (relax_relaxed parent rem b i skip Hidx Hbfs Heff Hrel) as (Hrel1 & Hle1 & Hset1).
    cbv zeta in Hrel1, Hle1, Hset1.
    destruct (IH _ (done ++ [i]) Hbfs1 Hrel1) as (Hbfs2 & Hext2 & Hm2 & Hrel2 & Hset2).
    { intros j Hj. apply elem_of_app in Hj as [Hj | Hj].
      - eapply settled_best_le; [exact Hle1 | by apply Hdone].
      - apply list_elem_of_singleton in Hj. by subst. }
    split; [done|]. split; [by eapply extends_trans|]. split; [lia|]. split; [done|].
    intros j Hj. apply Hset2. by rewrite <- app_assoc.
Qed.

(** One iteration of the loop on a non-empty queue. *)
Lemma step_spec b item rest :
  index_ok idx -> bfs_ok idx expandedByNode b -> relaxed_but None b ->
  Bfs.queue b = item :: rest ->
  bfs_ok idx expandedByNode (step b)
  /\ extends (Bfs.graph b) (Bfs.graph (step b))
  /\ (measure (step b) < measure b)%nat
  /\ relaxed_but None (step b)
  /\ exists parent,
       Graph.byId (Bfs.graph b) !! QItem.id item = Some parent
       /\ step b
          = fold_left
              (relax parent
                 (effective_remaining (QItem.rem item) (budget (GraphNode.id parent))))
              (GraphNode.inputs parent)
              (Bfs.mk (Bfs.graph b) (Bfs.bestRem b) rest).
Proof.
  intros Hidx Hbfs Hrel Hq. pose proof Hbfs as (Hok & Hbest & Hqueue).
  rewrite Hq in Hqueue. apply Forall_cons in Hqueue as [[Hrem [parent Hparent]] Hrest].
  unfold Store.step. rewrite Hq.
  rewrite (proj2 (Z.leb_gt _ _)) by lia. rewrite Hparent.
  set (b0 := Bfs.mk (Bfs.graph b) (Bfs.bestRem b) rest).
  destruct (graph_ok_byId idx _ _ _ Hok Hparent) as [Hpin Hpid].
  assert (Hbfs0 : bfs_ok idx expandedByNode b0) by (by split).
  assert (Hrel0 : relaxed_but (Some item) b0).
  { intros p r Hp Hr. destruct (Hrel p r Hp Hr) as [Hs | [Hin | Hset]]; [done | |].
    - rewrite Hq in Hin. apply elem_of_cons in Hin as [-> | Hin]; [by left | right; by left].
    - right. by right. }
  assert (Heff : (effective_remaining (QItem.rem item) (budget (GraphNode.id parent)) <= M)%Z).
  { unfold effective_remaining. pose proof (budget_le (GraphNode.id parent)). lia. }
  destruct (relax_fold parent (QItem.rem item) (Some item) (GraphNode.inputs parent)
              Hidx Heff b0 [] Hbfs0 Hrel0) as (Hbfs1 & Hext1 & Hm1 & Hrel1 & Hset1).
  { intros i Hi. by apply elem_of_nil in Hi. }
  cbv zeta in *.
  set (b1 := fold_left _ (GraphNode.inputs parent) b0) in *.
  split; [done|]. split; [done|]. split.
  { unfold Store.measure in *. rewrite Hq. cbn [Bfs.queue Bfs.bestRem b0 length] in *. lia. }
  split; [|by exists parent].
  intros p r Hp Hr. destruct (Hrel1 p r Hp Hr) as [Hs | [Hin | Hset]];
    [|right; by left | right; by right].
  right. right. injection Hs as Hs. destruct item as [iid irem]. cbn in *.
  injection Hs as Hsid <-.
  assert (p = parent) as ->; [|by apply Hset1].
  destruct Hbfs1 as (Hok1 & _).
  eapply (graph_ok_unique idx (Bfs.graph b1)); [done | done | by eapply extends_node | congruence].
Qed.

Lemma loop_spec (n : nat) :
  index_ok idx ->
  forall b, bfs_ok idx expandedByNode b -> relaxed_but None b ->
    bfs_ok idx expandedByNode (loop n b)
    /\ extends (Bfs.graph b) (Bfs.graph (loop n b))
    /\ relaxed_but None (loop n b)
    /\ ((measure b <= n)%nat -> Bfs.queue (loop n b) = []).
Proof.
  intros Hidx. induction n as [|n IH]; intros b Hbfs Hrel; cbn [Store.loop].
  - split; [done|]. split; [apply extends_refl|]. split; [done|].
    unfold Store.measure. intros H. destruct (Bfs.queue b); [done | cbn in H; lia].
  - destruct (Bfs.queue b) as [|item rest] eqn:Hq.
    + split; [done|]. split; [apply extends_refl|]. by split.
    + destruct (step_spec b item rest Hidx Hbfs Hrel Hq) as (Hbfs1 & Hext1 & Hm1 & Hrel1 & _).
      destruct (IH _ Hbfs1 Hrel1) as (Hbfs2 & Hext2 & Hrel2 & Hdone).
      split; [done|]. split; [by eapply extends_trans|]. split; [done|].
      intros Hn. apply Hdone. lia.
Qed.

(** Once the queue is empty, further fuel changes nothing. *)
Lemma loop_stable (n : nat) b : Bfs.queue b = [] -> loop n b = b.
Proof. intros H. destruct n; cbn; [done | by rewrite H]. Qed.

Lemma loop_more (n m : nat) :
  forall b, Bfs.queue (loop n b) = [] -> loop (n + m) b = loop n b.
Proof.
  induction n as [|n IH]; intros b H; cbn [Store.loop Nat.add] in *.
  - by apply loop_stable.
  - destruct (Bfs.queue b) eqn:Hq; [done | by apply IH].
Qed.

Lemma seed_spec g :
  graph_ok idx g ->
  bfs_ok idx expandedByNode (seed g)
  /\ Bfs.graph (seed g) = g
  /\ relaxed_but None (seed g).
Proof.
  intros Hok. unfold Store.seed.
  enough (H : forall l b,
    l ⊆ Graph.nodes g -> Bfs.graph b = g ->
    bfs_ok idx expandedByNode b ->
    (forall k v, Bfs.bestRem b !! k = Some v -> QItem.mk k v ∈ Bfs.queue b) ->
    let b' := fold_left (Store.seed_node expandedByNode) l b in
    bfs_ok idx expandedByNode b' /\ Bfs.graph b' = g
    /\ (forall k v, Bfs.bestRem b' !! k = Some v -> QItem.mk k v ∈ Bfs.queue b')).
  { destruct (H (Graph.nodes g) (Bfs.mk g ∅ [])) as (H1 & H2 & H3); [done | done | | |].
    - split; [done|]. split; [|constructor]. cbn. intros k v. by rewrite lookup_empty.
    - cbn. intros k v. by rewrite lookup_empty.
    - split; [done|]. split; [done|]. intros p r _ Hr. right. left. by apply H3. }
  induction l as [|n l IH]; intros b Hsub Hg Hbfs Hq; cbn [fold_left]; [done|].
  apply IH.
  - intros x Hx. apply Hsub. by right.
  - unfold Store.seed_node. by destruct (0 <? _)%Z.
  - unfold Store.seed_node. destruct (0 <? _)%Z eqn:Epos; [|done].
    apply Z.ltb_lt in Epos. destruct Hbfs as (Hok' & Hbest & Hqueue).
    assert (Hn : is_Some (Graph.byId (Bfs.graph b) !! GraphNode.id n)).
    { exists n. rewrite Hg. apply (graph_ok_lookup idx); [done|]. apply Hsub. by left. }
    pose proof (budget_le (GraphNode.id n)).
    split; [done|]. split; cbn [Bfs.graph Bfs.bestRem Bfs.queue].
    + intros k v. rewrite lookup_insert. case_decide as Ek.
      * intros [= <-]. subst k. split; [lia | done].
      * apply Hbest.
    + apply Forall_app. split; [done|]. apply Forall_singleton. cbn. split; [lia | done].
  - unfold Store.seed_node. destruct (0 <? _)%Z eqn:Epos; [|done].
    cbn [Bfs.bestRem Bfs.queue]. intros k v. rewrite lookup_insert. case_decide as Ek.
    + intros [= <-]. subst k. apply elem_of_app. right. by left.
    + intros Hk. apply elem_of_app. left. by apply Hq.
Qed.

(** The expansion phase ends with an empty queue, on the invariants. *)
Lemma expand_spec g :
  index_ok idx -> graph_ok idx g ->
  let b := Store.expand idx choicesRecipe choicesBuilding expandedByNode g in
  Bfs.queue b = []
  /\ bfs_ok idx expandedByNode b
  /\ extends g (Bfs.graph b)
  /\ relaxed_but None b.
Proof.
  intros Hidx Hok. cbv zeta. unfold Store.expand.
  destruct (seed_spec g Hok) as (Hbfs & Hg & Hrel).
  destruct (loop_spec (measure (seed g)) Hidx _ Hbfs Hrel) as (Hbfs' & Hext & Hrel' & Hdone).
  split; [by apply Hdone|]. split; [done|]. split; [by rewrite Hg in Hext | done].
Qed.

End Expansion.

(** ** GraphBuilder: what [build] publishes *)

Lemma PRODUCT_INDEX_ok (RECIPES : list Recipe.t) : index_ok (PRODUCT_INDEX RECIPES).
Proof. intros k l. apply PRODUCT_INDEX_nonempty. Qed.

Section Built.

Variable idx : ProductIndex.
Hypothesis Hidx : index_ok idx.

Lemma build_nonempty s :
  State.targets s <> [] ->
  State.graphNodes (build idx s) = Graph.nodes (Bfs.graph (built idx s))
  /\ State.graphEdges (build idx s) = Graph.edges (Bfs.graph (built idx s))
  /\ State.totals (build idx s) = computeTotals idx (Graph.nodes (Bfs.graph (built idx s))).
Proof. intros H. unfold build, built. by destruct (State.targets s). Qed.

Lemma build_empty s :
  State.targets s = [] ->
  State.graphNodes (build idx s) = [] /\ State.graphEdges (build idx s) = [].
Proof. intros H. unfold build. by rewrite H. Qed.

Lemma baseline_ok s :
  graph_ok idx
    (baseline idx (State.choicesRecipe s) (State.choicesBuilding s) (State.targets s)).
Proof.
  unfold baseline.
  by destruct (baseline_targets_spec idx (State.choicesRecipe s) (State.choicesBuilding s)
                 (State.targets s) Hidx Graph.empty (graph_ok_empty idx)) as (H & _).
Qed.

Lemma built_spec s :
  Bfs.queue (built idx s) = []
  /\ bfs_ok idx (State.expandedByNode s) (built idx s)
  /\ extends
       (baseline idx (State.choicesRecipe s) (State.choicesBuilding s) (State.targets s))
       (Bfs.graph (built idx s))
  /\ relaxed_but idx (State.choicesRecipe s) (State.choicesBuilding s)
       (State.expandedByNode s) None (built idx s).
Proof. apply expand_spec; [exact Hidx | apply baseline_ok]. Qed.

Lemma built_unique s n1 n2 :
  n1 ∈ State.graphNodes (build idx s) -> n2 ∈ State.graphNodes (build idx s) ->
  GraphNode.product n1 = GraphNode.product n2 ->
  GraphNode.recipeId n1 = GraphNode.recipeId n2 ->
  n1 = n2.
Proof.
  destruct (State.targets s) as [|t ts] eqn:Et.
  - destruct (build_empty s Et) as [-> _]. intros H. by apply elem_of_nil in H.
  - destruct (build_nonempty s) as (-> & _); [by rewrite Et|].
    destruct (built_spec s) as (_ & (Hok & _) & _).
    intros H1 H2 Hp Hr. eapply (graph_ok_unique idx); [exact Hok | done | done |].
    destruct Hok as (_ & _ & _ & Hall). rewrite Forall_forall in Hall.
    destruct (Hall _ H1) as [-> _]. destruct (Hall _ H2) as [-> _]. congruence.
Qed.

End Built.

(** C4. A graph kept by [build] holds at most one node per
    (product, recipeId) pair, and so does the graph that [build] publishes.
    When a path has materialized the node for a product and a second path
    demands the same product through the same recipe, with whatever rate,
    depth and parent, [ensureNode] returns the node of the first path and
    leaves the graph as it is: the node keeps the runs and rates that
    [makeNode] computed from the first demand, and the second demand is not
    added. *)
Theorem ensureNode_shared (RECIPES : list Recipe.t) (s : State.t)
    (g g1 : Graph.t) (p : string) (rate : Q) (d : nat) (pb : option string) (n : GraphNode.t)
    (rate' : Q) (d' : nat) (pb' : option string) :
  let idx := PRODUCT_INDEX RECIPES in
  let cr := State.choicesRecipe s in
  let cb := State.choicesBuilding s in
  graph_ok idx g ->
  ensureNode idx cr cb p rate d pb g = (Some n, g1) ->
  resolve idx cr cb p pb' = resolve idx cr cb p pb ->
  (forall n1 n2,
     n1 ∈ Graph.nodes g1 -> n2 ∈ Graph.nodes g1 ->
     GraphNode.product n1 = GraphNode.product n2 ->
     GraphNode.recipeId n1 = GraphNode.recipeId n2 -> n1 = n2)
  /\ (forall n1 n2,
        n1 ∈ State.graphNodes (build idx s) -> n2 ∈ State.graphNodes (build idx s) ->
        GraphNode.product n1 = GraphNode.product n2 ->
        GraphNode.recipeId n1 = GraphNode.recipeId n2 -> n1 = n2)
  /\ ensureNode idx cr cb p rate' d' pb' g1 = (Some n, g1)
  /\ (n ∉ Graph.nodes g ->
      exists r, resolve idx cr cb p pb = Some r /\ n = makeNode r p rate d).
Proof.
  cbv zeta. intros Hok He Hres.
  set (idx := PRODUCT_INDEX RECIPES) in *.
  destruct (ensureNode_summary _ _ _ _ _ _ _ _ _ _ Hok He)
    as (Hok1 & Hext & _ & Hnew & Hnone & Hsome).
  destruct (resolve idx (State.choicesRecipe s) (State.choicesBuilding s) p pb)
    as [r|] eqn:Hr; [|by destruct (Hnone eq_refl)].
  destruct (Hsome r eq_refl) as (n' & [= <-] & Hin & Hid & _).
  split; [|split; [|split]].
  - intros n1 n2 H1 H2 Hp Hrid. eapply (graph_ok_unique idx); [exact Hok1 | done | done |].
    destruct Hok1 as (_ & _ & _ & Hall). rewrite Forall_forall in Hall.
    destruct (Hall _ H1) as [-> _]. destruct (Hall _ H2) as [-> _]. congruence.
  - intros n1 n2. apply built_unique. apply PRODUCT_INDEX_ok.
  - destruct (ensureNode_cases idx (State.choicesRecipe s) (State.choicesBuilding s)
                p rate' d' pb' g1 Hok1)
      as [[Hr' _] | [(r' & m & Hr' & Hm & E) | (r' & g2 & Hr' & Hm & _)]];
      rewrite Hres in Hr'; [discriminate Hr' | |]; injection Hr' as <-.
    + rewrite E. f_equal. f_equal.
      destruct (graph_ok_byId idx _ _ _ Hok1 Hm) as [Hmin Hmid].
      eapply (graph_ok_unique idx); [exact Hok1 | done | done | congruence].
    + apply (graph_ok_lookup idx _ _ Hok1) in Hin. congruence.
  - intros Hnot. exists r. split; [done|].
    destruct (Hnew n Hin) as [? | _]; [done|].
    destruct (ensureNode_cases idx (State.choicesRecipe s) (State.choicesBuilding s)
                p rate d pb g Hok)
      as [[Hr' _] | [(r' & m & Hr' & Hm & E) | (r' & g2 & Hr' & Hm & E & _)]];
      rewrite Hr in Hr'; [discriminate Hr' | |]; injection Hr' as <-.
    + rewrite E in He. injection He as -> ->.
      by destruct (graph_ok_byId idx _ _ _ Hok Hm) as [? _].
    + rewrite E in He. by injection He as -> _.
Qed.

Lemma ensureNode_shared_witness :
  let idx := PRODUCT_INDEX Examples.chain in
  let first := makeNode Examples.R2 "Iron" 4 1 in
  exists g1,
    ensureNode idx ∅ ∅ "Iron" 4 1 (Some "Assembler") Graph.empty = (Some first, g1)
    /\ ensureNode idx ∅ ∅ "Iron" 30 0 None g1 = (Some first, g1).
Proof.
  cbv zeta. eexists. split; [vm_compute; reflexivity|].
  refine (proj1 (proj2 (proj2
    (ensureNode_shared Examples.chain Examples.two_targets Graph.empty _ "Iron" 4 1
       (Some "Assembler") (makeNode Examples.R2 "Iron" 4 1) 30 0 None _ _ _)))).
  - apply graph_ok_empty.
  - vm_compute. reflexivity.
  - vm_compute. reflexivity.
Defined.

(** The claim of C3 fails with two targets when the second target is an
    input of the first (its node is the depth-1 child of the first root and
    keeps the rate of that demand), and with a single target whose recipe
    consumes its own product (the child of the root is the root itself, at
    depth 0). *)
Lemma build_baseline_counterexample :
  ~ baseline_as_stated (PRODUCT_INDEX Examples.chain) Examples.two_targets
  /\ ~ baseline_as_stated (PRODUCT_INDEX [Examples.Ryeast]) Examples.yeast_target.
Proof.
  split; intros H.
  - destruct (H (Target.mk "Iron" 30 None) Examples.R2) as (root & Hin & Hid & Hd & _).
    + vm_compute. right. left.
    + vm_compute. reflexivity.
    + vm_compute in Hin.
      repeat (apply elem_of_cons in Hin as [-> | Hin]; [by vm_compute in Hid, Hd|]).
      by apply elem_of_nil in Hin.
  - destruct (H (Target.mk "Yeast" 10 None) Examples.Ryeast) as (root & Hin & Hid & _ & _ & Hhop).
    + vm_compute. left.
    + vm_compute. reflexivity.
    + vm_compute in Hin. apply elem_of_cons in Hin as [-> | Hin];
        [|by apply elem_of_nil in Hin].
      destruct (Hhop (NodeIO.mk "Yeast" (60 # 180))) as (rc & child & e & _ & Hc & Hcid & Hcd & _).
      * vm_compute. left.
      * vm_compute. reflexivity.
      * vm_compute in Hc. apply elem_of_cons in Hc as [-> | Hc];
          [by vm_compute in Hcd | by apply elem_of_nil in Hc].
Qed.

Lemma built_first_hop (idx : ProductIndex) (s : State.t) (t : Target.t) (r : Recipe.t) :
  index_ok idx ->
  t ∈ State.targets s ->
  resolve idx (State.choicesRecipe s) (State.choicesBuilding s) (Target.product t) None
  = Some r ->
  exists root,
    root ∈ Graph.nodes (Bfs.graph (built idx s))
    /\ GraphNode.id root = nodeIdFor (Target.product t) (Recipe.recipeId r)
    /\ (head (State.targets s) = Some t ->
        root = makeNode r (Target.product t) (Target.ratePerMin t) 0)
    /\ first_hop idx (State.choicesRecipe s) (State.choicesBuilding s)
         (head (State.targets s) = Some t) root (Bfs.graph (built idx s)).
Proof.
  intros Hidx Ht Hr.
  destruct (built_spec idx Hidx s) as (_ & _ & Hext & _).
  revert Hext. unfold baseline. generalize (Bfs.graph (built idx s)) as G.
  destruct (State.targets s) as [|t0 ts]; [by apply elem_of_nil in Ht|].
  cbn [fold_left head]. intros G Hext.
  destruct (baseline_target_spec idx (State.choicesRecipe s) (State.choicesBuilding s)
              Graph.empty t0 Hidx (graph_ok_empty idx)) as (Hok1 & Hext1 & Hroot1).
  destruct (baseline_targets_spec idx (State.choicesRecipe s) (State.choicesBuilding s)
              ts Hidx _ Hok1) as (Hok2 & Hext2 & Hroot2).
  destruct (decide (t = t0)) as [-> | Hne].
  - destruct (Hroot1 r Hr) as (root & Hin & Hid & Hmk & Hhop).
    exists root. split; [eapply extends_node; [exact Hext|]; by eapply extends_node|].
    split; [done|]. split; [intros _; by apply Hmk|].
    intros i Hi. eapply hop_at_extends; [exact Hext|].
    eapply hop_at_extends; [exact Hext2|].
    eapply hop_at_weaken; [|by apply Hhop]. done.
  - apply elem_of_cons in Ht as [-> | Ht]; [done|].
    destruct (Hroot2 t r Ht Hr) as (root & Hin & Hid & Hhop).
    exists root. split; [by eapply extends_node|]. split; [done|].
    split; [intros [= ->]; done|].
    intros i Hi. eapply hop_at_extends; [exact Hext|].
    eapply hop_at_weaken; [|by apply Hhop]. intros [= ->]. done.
Qed.

(** The baseline, demand by demand: what the graph held when a target, or
    an input of its root, was reached decides whether the demand makes a
    node or finds one. *)

Section BaselineHistory.

Variable idx : ProductIndex.
Variable cr : gmap string (option string).
Variable cb : gmap string string.
Hypothesis Hidx : index_ok idx.

Lemma ensureNode_reused_or_made p rate d pb g n g' r :
  graph_ok idx g ->
  ensureNode idx cr cb p rate d pb g = (Some n, g') ->
  resolve idx cr cb p pb = Some r ->
  reused_or_made g n (makeNode r p rate d).
Proof.
  intros Hok He Hr.
  destruct (ensureNode_cases idx cr cb p rate d pb g Hok)
    as [[Hr' _] | [(r' & m & Hr' & Hm & E) | (r' & g1 & Hr' & Hm & E & _)]];
    rewrite Hr in Hr'; [discriminate Hr' | |]; injection Hr' as <-;
    rewrite E in He; injection He as <- <-.
  - left. by apply (graph_ok_byId idx) in Hm.
  - right. split; [done|]. intros m Hin Hid.
    apply (graph_ok_lookup idx g m Hok) in Hin. rewrite Hid in Hin. cbn in Hin. congruence.
Qed.

Lemma baseline_input_new root g i n :
  graph_ok idx g ->
  n ∈ Graph.nodes (baseline_input idx cr cb root g i) ->
  n ∈ Graph.nodes g \/ GraphNode.depth n = 1%nat.
Proof.
  intros Hok. unfold baseline_input.
  destruct (craftable idx (NodeIO.name i)); [|by left].
  destruct (ensureNode idx cr cb (NodeIO.name i) (NodeIO.ratePerMin i) 1
              (Some (GraphNode.building root)) g) as [res g1] eqn:E.
  destruct (ensureNode_summary idx cr cb _ _ _ _ _ _ _ Hok E) as (_ & _ & _ & Hnew & _).
  intros Hn. assert (Hn1 : n ∈ Graph.nodes g1) by (by destruct res).
  destruct (Hnew n Hn1) as [? | [_ ?]]; [by left | by right].
Qed.

Lemma baseline_inputs_new root (l : list NodeIO.t) :
  forall g n, graph_ok idx g ->
    n ∈ Graph.nodes (fold_left (baseline_input idx cr cb root) l g) ->
    n ∈ Graph.nodes g \/ GraphNode.depth n = 1%nat.
Proof.
  induction l as [|i l IH]; intros g n Hok Hn; cbn [fold_left] in Hn; [by left|].
  destruct (baseline_input_spec idx cr cb root g i Hidx Hok) as (Hok1 & _).
  destruct (IH _ n Hok1 Hn) as [H | H]; [|by right].
  by apply (baseline_input_new root g i n Hok).
Qed.

Lemma baseline_target_new g t n :
  graph_ok idx g ->
  n ∈ Graph.nodes (baseline_target idx cr cb g t) ->
  n ∈ Graph.nodes g \/ GraphNode.depth n = 1%nat \/ made_as_root idx cr cb [t] n.
Proof.
  intros Hok. unfold baseline_target.
  destruct (ensureNode_cases idx cr cb (Target.product t) (Target.ratePerMin t) 0 None g Hok)
    as [[Hr E] | [(r & m & Hr & Hm & E) | (r & g1 & Hr & Hm & E & Hnodes & _ & Hok1)]];
    rewrite E.
  - by left.
  - intros Hn. destruct (baseline_inputs_new m _ g n Hok Hn) as [? | ?]; [by left | right; by left].
  - intros Hn. destruct (baseline_inputs_new _ _ g1 n Hok1 Hn) as [H | ?]; [|right; by left].
    rewrite Hnodes in H. apply elem_of_app in H as [? | H]; [by left|].
    apply list_elem_of_singleton in H. right. right. exists t, r.
    split; [by left | done].
Qed.

Lemma made_as_root_mono ts ts' n :
  ts ⊆ ts' -> made_as_root idx cr cb ts n -> made_as_root idx cr cb ts' n.
Proof. intros Hsub (t & r & Ht & H). exists t, r. split; [by apply Hsub | done]. Qed.

Lemma baseline_targets_new (ts : list Target.t) :
  forall g n, graph_ok idx g ->
    n ∈ Graph.nodes (fold_left (baseline_target idx cr cb) ts g) ->
    n ∈ Graph.nodes g \/ GraphNode.depth n = 1%nat \/ made_as_root idx cr cb ts n.
Proof.
  induction ts as [|t ts IH]; intros g n Hok Hn; cbn [fold_left] in Hn; [by left|].
  destruct (baseline_target_spec idx cr cb g t Hidx Hok) as (Hok1 & _).
  destruct (IH _ n Hok1 Hn) as [H | [H | H]].
  - destruct (baseline_target_new g t n Hok H) as [? | [? | Hr]];
      [by left | right; by left | right; right].
    eapply made_as_root_mono; [|exact Hr]. intros x Hx. apply elem_of_cons.
    left. by apply list_elem_of_singleton in Hx.
  - right. by left.
  - right. right. eapply made_as_root_mono; [|exact H]. intros x Hx. by right.
Qed.

Lemma baseline_history (pre post : list Target.t) (t : Target.t) (r : Recipe.t) :
  let before := baseline idx cr cb pre in
  let at_root :=
    (ensureNode idx cr cb (Target.product t) (Target.ratePerMin t) 0 None before).2 in
  let G := baseline idx cr cb (pre ++ t :: post) in
  resolve idx cr cb (Target.product t) None = Some r ->
  exists root,
    root ∈ Graph.nodes G
    /\ GraphNode.id root = nodeIdFor (Target.product t) (Recipe.recipeId r)
    /\ reused_or_made before root (makeNode r (Target.product t) (Target.ratePerMin t) 0)
    /\ (root ∈ Graph.nodes before ->
        GraphNode.depth root = 1%nat \/ made_as_root idx cr cb pre root)
    /\ forall ins i rest,
         GraphNode.inputs root = ins ++ i :: rest ->
         craftable idx (NodeIO.name i) = true ->
         let sofar := fold_left (baseline_input idx cr cb root) ins at_root in
         exists rc child e,
           resolve idx cr cb (NodeIO.name i) (Some (GraphNode.building root)) = Some rc
           /\ child ∈ Graph.nodes G
           /\ GraphNode.id child = nodeIdFor (NodeIO.name i) (Recipe.recipeId rc)
           /\ e ∈ Graph.edges G
           /\ GraphEdge.source e = GraphNode.id root
           /\ GraphEdge.target e = GraphNode.id child
           /\ GraphEdge.label e = NodeIO.name i
           /\ reused_or_made sofar child
                (makeNode rc (NodeIO.name i) (NodeIO.ratePerMin i) 1)
           /\ (GraphNode.depth child = 1%nat
               \/ made_as_root idx cr cb (pre ++ [t]) child).
Proof.
  cbv zeta. intros Hr. unfold baseline. rewrite fold_left_app. cbn [fold_left].
  set (before := fold_left (baseline_target idx cr cb) pre Graph.empty).
  destruct (baseline_targets_spec idx cr cb pre Hidx Graph.empty (graph_ok_empty idx))
    as (Hok0 & _). fold before in Hok0.
  assert (Hpre : forall n, n ∈ Graph.nodes before ->
            GraphNode.depth n = 1%nat \/ made_as_root idx cr cb pre n).
  { intros n Hn.
    destruct (baseline_targets_new pre Graph.empty n (graph_ok_empty idx) Hn) as [H | [H | H]].
    - by apply elem_of_nil in H.
    - by left.
    - by right. }
  assert (Hinv0 : forall n, n ∈ Graph.nodes before ->
            GraphNode.depth n = 1%nat \/ made_as_root idx cr cb (pre ++ [t]) n).
  { intros n Hn. destruct (Hpre n Hn) as [H | H]; [by left | right].
    eapply made_as_root_mono; [|exact H]. intros x Hx. apply elem_of_app. by left. }
  destruct (baseline_target_spec idx cr cb before t Hidx Hok0) as (Hokt & _).
  destruct (baseline_targets_spec idx cr cb post Hidx _ Hokt) as (_ & Hextp & _).
  revert Hextp. generalize (fold_left (baseline_target idx cr cb) post
                              (baseline_target idx cr cb before t)) as G.
  unfold baseline_target at 1.
  destruct (ensureNode idx cr cb (Target.product t) (Target.ratePerMin t) 0 None before)
    as [res g1] eqn:E. cbn [snd].
  destruct (ensureNode_summary idx cr cb _ _ _ _ _ _ _ Hok0 E)
    as (Hok1 & Hext1 & _ & Hnew1 & _ & Hsome).
  destruct (Hsome r Hr) as (root & -> & Hin & Hid & _).
  pose proof (ensureNode_reused_or_made _ _ _ _ _ _ _ _ Hok0 E Hr) as Hroot.
  assert (Hinv1 : forall n, n ∈ Graph.nodes g1 ->
            GraphNode.depth n = 1%nat \/ made_as_root idx cr cb (pre ++ [t]) n).
  { intros n Hn. destruct (Hnew1 n Hn) as [Hg | [[= ->] _]]; [by apply Hinv0|].
    destruct Hroot as [[Hb _] | [-> _]]; [by apply Hinv0|].
    right. exists t, r. split; [|done]. apply elem_of_app. right. by left. }
  intros G Hextp.
  destruct (baseline_inputs_spec idx cr cb root (GraphNode.inputs root) Hidx g1 Hok1)
    as (_ & Hextall & _).
  exists root. split; [eapply extends_node; [exact Hextp|]; by eapply extends_node|].
  split; [done|]. split; [done|]. split; [exact (Hpre root)|].
  intros ins i rest Hins Hc.
  set (sofar := fold_left (baseline_input idx cr cb root) ins g1).
  destruct (baseline_inputs_spec idx cr cb root ins Hidx g1 Hok1) as (Hoks & _).
  fold sofar in Hoks.
  assert (Hinvs : forall n, n ∈ Graph.nodes sofar ->
            GraphNode.depth n = 1%nat \/ made_as_root idx cr cb (pre ++ [t]) n).
  { intros n Hn. destruct (baseline_inputs_new root ins g1 n Hok1 Hn) as [? | ?];
      [by apply Hinv1 | by left]. }
  assert (Hext' : extends (baseline_input idx cr cb root sofar i) G).
  { eapply extends_trans; [|exact Hextp]. rewrite Hins, fold_left_app. cbn [fold_left].
    fold sofar.
    destruct (baseline_input_spec idx cr cb root sofar i Hidx Hoks) as (Hoki & _).
    by destruct (baseline_inputs_spec idx cr cb root rest Hidx _ Hoki) as (_ & ? & _). }
  revert Hext'. unfold baseline_input at 1. rewrite Hc.
  destruct (ensureNode idx cr cb (NodeIO.name i) (NodeIO.ratePerMin i) 1
              (Some (GraphNode.building root)) sofar) as [res g2] eqn:E2.
  destruct (ensureNode_summary idx cr cb _ _ _ _ _ _ _ Hoks E2)
    as (Hok2 & Hext2 & _ & Hnew2 & _ & Hsome2).
  destruct (pickRecipeWithPrefs_craftable idx (NodeIO.name i)
              (default None (cr !! NodeIO.name i)) (cb !! NodeIO.name i)
              (Some (GraphNode.building root)) Hidx Hc) as [rc Hrc].
  destruct (Hsome2 rc Hrc) as (child & -> & Hcin & Hcid & _).
  pose proof (ensureNode_reused_or_made _ _ _ _ _ _ _ _ Hoks E2 Hrc) as Hchild.
  intros Hext'.
  destruct (connect_edge root child (NodeIO.name i) g2) as (e & He & Hs & Ht & Hl).
  exists rc, child, e. split; [done|].
  split; [eapply extends_node; [exact Hext'|]; exact Hcin|].
  split; [done|]. split; [by eapply extends_edge|].
  split; [done|]. split; [done|]. split; [done|]. split; [done|].
  destruct Hchild as [[Hb _] | [-> _]]; [by apply Hinvs | by left].
Qed.

End BaselineHistory.

(** C3 (amended). For a non-empty target list and any budgets, [build]
    publishes, for each target whose product resolves to a recipe, the node
    product::recipeId of that recipe, and for every craftable input of that
    node a child node, resolved with the node's building as parent hint, and
    an edge from the node to the child that is labelled with the input: the
    first upstream hop is visible whatever the budgets.

    When the graph held no node with the id at the target's turn ([before]:
    the graph after the targets that precede it in the list), the node is
    the root made for the target: depth 0, with
    [runsPerMin = ratePerMin / outputRatePerMin] (0 when that rate is 0).
    Otherwise it is the node that [before] already held under the id, as it
    is: a first-hop child, at depth 1 and with the rates of that demand, or
    the root made for an earlier target.

    Likewise for each craftable input: when the graph held no node with the
    child's id as the input was reached ([sofar]: the graph after the root
    and the inputs that precede it), the child is the node made for the
    input, at depth 1 and for the rate of the input.  Otherwise it is the
    node that [sofar] already held under the id, as it is, which is at depth
    1 or is the root made for this target or for an earlier one. *)
Theorem build_baseline_visible (RECIPES : list Recipe.t) (s : State.t)
    (pre post : list Target.t) (t : Target.t) (r : Recipe.t) :
  let idx := PRODUCT_INDEX RECIPES in
  let cr := State.choicesRecipe s in
  let cb := State.choicesBuilding s in
  let before := baseline idx cr cb pre in
  let at_root :=
    (ensureNode idx cr cb (Target.product t) (Target.ratePerMin t) 0 None before).2 in
  State.targets s = pre ++ t :: post ->
  resolve idx cr cb (Target.product t) None = Some r ->
  exists root,
    root ∈ State.graphNodes (build idx s)
    /\ GraphNode.id root = nodeIdFor (Target.product t) (Recipe.recipeId r)
    /\ reused_or_made before root (makeNode r (Target.product t) (Target.ratePerMin t) 0)
    /\ ((forall m, m ∈ Graph.nodes before ->
           GraphNode.id m <> nodeIdFor (Target.product t) (Recipe.recipeId r)) ->
        root = makeNode r (Target.product t) (Target.ratePerMin t) 0
        /\ GraphNode.depth root = 0%nat
        /\ GraphNode.runsPerMin root
           = (if Qeq_bool (outputRatePerMin r (Target.product t)) 0 then 0
              else Target.ratePerMin t / outputRatePerMin r (Target.product t))%Q)
    /\ (root ∈ Graph.nodes before ->
        GraphNode.depth root = 1%nat \/ made_as_root idx cr cb pre root)
    /\ forall ins i rest,
         GraphNode.inputs root = ins ++ i :: rest ->
         craftable idx (NodeIO.name i) = true ->
         let sofar := fold_left (baseline_input idx cr cb root) ins at_root in
         exists rc child e,
           resolve idx cr cb (NodeIO.name i) (Some (GraphNode.building root)) = Some rc
           /\ child ∈ State.graphNodes (build idx s)
           /\ GraphNode.id child = nodeIdFor (NodeIO.name i) (Recipe.recipeId rc)
           /\ e ∈ State.graphEdges (build idx s)
           /\ GraphEdge.source e = GraphNode.id root
           /\ GraphEdge.target e = GraphNode.id child
           /\ GraphEdge.label e = NodeIO.name i
           /\ reused_or_made sofar child
                (makeNode rc (NodeIO.name i) (NodeIO.ratePerMin i) 1)
           /\ (GraphNode.depth child = 1%nat
               \/ made_as_root idx cr cb (pre ++ [t]) child).
Proof.
  cbv zeta. intros Hts Hr.
  pose proof (PRODUCT_INDEX_ok RECIPES) as Hidx.
  set (idx := PRODUCT_INDEX RECIPES) in *.
  destruct (build_nonempty idx s) as (-> & -> & _).
  { rewrite Hts. by destruct pre. }
  destruct (built_spec idx Hidx s) as (_ & _ & Hext & _). rewrite Hts in Hext.
  destruct (baseline_history idx (State.choicesRecipe s) (State.choicesBuilding s) Hidx
              pre post t r Hr) as (root & Hin & Hid & Hroot & Hd & Hhop).
  exists root. split; [by eapply extends_node|]. split; [done|]. split; [done|].
  split.
  { intros Hfresh. destruct Hroot as [[Hb Hbid] | [-> _]].
    - exfalso. by apply (Hfresh root Hb).
    - done. }
  split; [done|].
  intros ins i rest Hins Hc.
  destruct (Hhop ins i rest Hins Hc) as (rc & child & e & H1 & H2 & H3 & H4 & H5).
  exists rc, child, e. split; [done|]. split; [by eapply extends_node|].
  split; [done|]. split; [by eapply extends_edge | done].
Qed.

Lemma build_baseline_visible_witness :
  let idx := PRODUCT_INDEX Examples.chain in
  exists root child,
    root ∈ State.graphNodes (build idx Examples.gear_after_iron)
    /\ root = makeNode Examples.R1 "Gear" 60 0
    /\ child ∈ State.graphNodes (build idx Examples.gear_after_iron)
    /\ GraphNode.id child = "Iron::R2"
    /\ child = makeNode Examples.R2 "Iron" 30 0.
Proof.
  cbv zeta.
  destruct (build_baseline_visible Examples.chain Examples.gear_after_iron
              [Target.mk "Iron" 30 None] [] (Target.mk "Gear" 60 None) Examples.R1)
    as (root & Hin & _ & _ & Hfresh & _ & Hhop).
  - reflexivity.
  - vm_compute. reflexivity.
  - destruct Hfresh as (-> & _).
    { intros m Hm. vm_compute in Hm.
      repeat (apply elem_of_cons in Hm as [-> | Hm]; [discriminate|]).
      by apply elem_of_nil in Hm. }
    destruct (Hhop [] (NodeIO.mk "Iron" (240 # 60)) [])
      as (rc & child & e & Hrc & Hc & _ & _ & _ & _ & _ & Hre & _).
    + vm_compute. reflexivity.
    + vm_compute. reflexivity.
    + assert (Erc : rc = Examples.R2) by (vm_compute in Hrc; injection Hrc as <-; reflexivity).
      subst rc.
      exists (makeNode Examples.R1 "Gear" 60 0), child.
      split; [exact Hin|]. split; [reflexivity|]. split; [exact Hc|].
      destruct Hre as [[Hb Hbid] | [_ Hnone]].
      * vm_compute in Hb.
        repeat (apply elem_of_cons in Hb as [-> | Hb];
                [first [split; vm_compute; reflexivity | discriminate Hbid]|]).
        by apply elem_of_nil in Hb.
      * exfalso. apply (Hnone (makeNode Examples.R2 "Iron" 30 0)).
        -- vm_compute. left.
        -- vm_compute. reflexivity.
Defined.

(** ** GraphBuilder: the budget-driven expansion *)

Lemma step_dequeue idx cr cb e (b : Bfs.t) item rest parent :
  Bfs.queue b = item :: rest ->
  (0 < QItem.rem item)%Z ->
  Graph.byId (Bfs.graph b) !! QItem.id item = Some parent ->
  step idx cr cb e b
  = fold_left
      (relax idx cr cb e parent
         (effective_remaining (QItem.rem item) (budget e (GraphNode.id parent))))
      (GraphNode.inputs parent)
      (Bfs.mk (Bfs.graph b) (Bfs.bestRem b) rest).
Proof.
  intros Hq Hrem Hp. unfold step. rewrite Hq.
  rewrite (proj2 (Z.leb_gt _ _)) by lia. by rewrite Hp.
Qed.

Lemma relax_allowance idx cr cb e parent eff (b : Bfs.t) i child g1 :
  craftable idx (NodeIO.name i) = true ->
  ensureNode idx cr cb (NodeIO.name i) (NodeIO.ratePerMin i) (GraphNode.depth parent + 1)
    (Some (GraphNode.building parent)) (Bfs.graph b) = (Some child, g1) ->
  let a := inherited_allowance eff (budget e (GraphNode.id child)) in
  let b' := relax idx cr cb e parent eff b i in
  (improves (Bfs.bestRem b) (GraphNode.id child) a ->
   Bfs.bestRem b' = <[ GraphNode.id child := a ]> (Bfs.bestRem b)
   /\ Bfs.queue b' = Bfs.queue b ++ [QItem.mk (GraphNode.id child) a])
  /\ (~ improves (Bfs.bestRem b) (GraphNode.id child) a ->
      Bfs.bestRem b' = Bfs.bestRem b /\ Bfs.queue b' = Bfs.queue b).
Proof.
  intros Hc He. cbv zeta. unfold relax. rewrite Hc, He.
  fold (inherited_allowance eff (budget e (GraphNode.id child))).
  set (a := inherited_allowance eff (budget e (GraphNode.id child))).
  destruct ((0 <? a)%Z && (default (-1)%Z (Bfs.bestRem b !! GraphNode.id child) <? a)%Z)
    eqn:Et.
  - split; [done|]. intros Hn. apply improves_test in Et. contradiction.
  - split; [|done]. intros Hi. apply improves_test in Hi. congruence.
Qed.

(** C2. In the expansion loop of [build]: a dequeued item
    (nodeId, remaining) with [remaining > 0] is processed with the effective
    remaining [max(remaining, stored budget of that node)]; for a craftable
    input the child's allowance is
    [max(effectiveRemaining - 1, stored budget of the child)], and the child
    is recorded and enqueued exactly when that allowance is positive and
    strictly greater than any allowance recorded for the child before; the
    loop ends with an empty queue, and then no recorded allowance can improve
    the allowance of a child. *)
Theorem expansion_max_relaxation (RECIPES : list Recipe.t) (s : State.t) :
  let idx := PRODUCT_INDEX RECIPES in
  let cr := State.choicesRecipe s in
  let cb := State.choicesBuilding s in
  let e := State.expandedByNode s in
  (forall (b : Bfs.t) item rest parent,
     Bfs.queue b = item :: rest ->
     (0 < QItem.rem item)%Z ->
     Graph.byId (Bfs.graph b) !! QItem.id item = Some parent ->
     step idx cr cb e b
     = fold_left
         (relax idx cr cb e parent
            (effective_remaining (QItem.rem item) (budget e (GraphNode.id parent))))
         (GraphNode.inputs parent)
         (Bfs.mk (Bfs.graph b) (Bfs.bestRem b) rest))
  /\ (forall parent eff (b : Bfs.t) i child g1,
        craftable idx (NodeIO.name i) = true ->
        ensureNode idx cr cb (NodeIO.name i) (NodeIO.ratePerMin i) (GraphNode.depth parent + 1)
          (Some (GraphNode.building parent)) (Bfs.graph b) = (Some child, g1) ->
        let a := inherited_allowance eff (budget e (GraphNode.id child)) in
        let b' := relax idx cr cb e parent eff b i in
        (improves (Bfs.bestRem b) (GraphNode.id child) a ->
         Bfs.bestRem b' = <[ GraphNode.id child := a ]> (Bfs.bestRem b)
         /\ Bfs.queue b' = Bfs.queue b ++ [QItem.mk (GraphNode.id child) a])
        /\ (~ improves (Bfs.bestRem b) (GraphNode.id child) a ->
            Bfs.bestRem b' = Bfs.bestRem b /\ Bfs.queue b' = Bfs.queue b))
  /\ (Bfs.queue (built idx s) = []
      /\ forall parent rem i,
           parent ∈ Graph.nodes (Bfs.graph (built idx s)) ->
           Bfs.bestRem (built idx s) !! GraphNode.id parent = Some rem ->
           i ∈ GraphNode.inputs parent ->
           settled idx cr cb e (Bfs.bestRem (built idx s)) parent rem i).
Proof.
  cbv zeta. split; [|split].
  - intros b item rest parent. apply step_dequeue.
  - intros parent eff b i child g1. apply relax_allowance.
  - destruct (built_spec _ (PRODUCT_INDEX_ok RECIPES) s) as (Hq & _ & _ & Hrel).
    split; [exact Hq|]. intros parent rem i Hp Hr Hi.
    destruct (Hrel parent rem Hp Hr) as [Hs | [Hin | Hset]]; [discriminate Hs | | by apply Hset].
    rewrite Hq in Hin. by apply elem_of_nil in Hin.
Qed.

Lemma expansion_max_relaxation_witness :
  let idx := PRODUCT_INDEX Examples.chain in
  let iron := makeNode Examples.R2 "Iron" (240 # 60) 1 in
  step idx ∅ ∅ Examples.iron_budget Examples.chain_seeded
  = fold_left
      (relax idx ∅ ∅ Examples.iron_budget iron
         (effective_remaining 1 (budget Examples.iron_budget "Iron::R2")))
      (GraphNode.inputs iron)
      (Bfs.mk (Bfs.graph Examples.chain_seeded) (Bfs.bestRem Examples.chain_seeded) [])
  /\ Bfs.queue (built idx Examples.chain_store) = []
  /\ map GraphNode.id (Graph.nodes (Bfs.graph (built idx Examples.chain_store)))
     = ["Gear::R1"; "Iron::R2"; "Ore::R3"].
Proof.
  cbv zeta.
  destruct (expansion_max_relaxation Examples.chain Examples.chain_store) as (H1 & _ & H3 & _).
  split; [|split; [exact H3 | vm_compute; reflexivity]].
  apply (H1 Examples.chain_seeded (QItem.mk "Iron::R2" 1) []).
  - vm_compute. reflexivity.
  - reflexivity.
  - vm_compute. reflexivity.
Defined.

(** ** GraphBuilder: budgets of ids outside the graph are never read *)

Section Locality.

Variable idx : ProductIndex.
Variable choicesRecipe : gmap string (option string).
Variable choicesBuilding : gmap string string.
Variables e e' : gmap string Z.
Hypothesis Hidx : index_ok idx.

Local Abbreviation ensureNode := (Store.ensureNode idx choicesRecipe choicesBuilding).
Local Abbreviation relax := (Store.relax idx choicesRecipe choicesBuilding).
Local Abbreviation step := (Store.step idx choicesRecipe choicesBuilding).
Local Abbreviation loop := (Store.loop idx choicesRecipe choicesBuilding).
Local Abbreviation expand := (Store.expand idx choicesRecipe choicesBuilding).
Local Abbreviation relaxed := (relaxed_but idx choicesRecipe choicesBuilding e None).

Lemma agree_extends g g' : extends g g' -> agree e e' g' -> agree e e' g.
Proof. intros Hext H n Hn. apply H. by eapply extends_node. Qed.

Lemma relax_local parent eff b i :
  bfs_ok idx e b -> (eff <= maxBudget e)%Z ->
  agree e e' (Bfs.graph (relax e parent eff b i)) ->
  relax e' parent eff b i = relax e parent eff b i.
Proof.
  intros Hbfs Heff Hag.
  destruct (relax_spec idx choicesRecipe choicesBuilding e parent eff b i Hidx Hbfs Heff)
    as (_ & _ & _ & _ & Hcraft).
  unfold Store.relax in *. destruct (craftable idx (NodeIO.name i)); [|done].
  destruct (Hcraft eq_refl) as (rc & child' & _ & Hid' & Hin' & _). clear Hcraft.
  destruct (ensureNode (NodeIO.name i) (NodeIO.ratePerMin i) (GraphNode.depth parent + 1)
              (Some (GraphNode.building parent)) (Bfs.graph b)) as [[child|] g1] eqn:E;
    [|done].
  destruct Hbfs as (Hok & _).
  destruct (ensureNode_summary _ _ _ _ _ _ _ _ _ _ Hok E) as (_ & _ & _ & _ & _ & Hsome).
  assert (Hchild : budget e (GraphNode.id child) = budget e' (GraphNode.id child)).
  { apply Hag. set (g2 := if connected parent child g1 then g1 else _) in *.
    assert (child ∈ Graph.nodes g1).
    { destruct (resolve idx choicesRecipe choicesBuilding (NodeIO.name i)
                  (Some (GraphNode.building parent))) as [r|] eqn:Hr.
      - by destruct (Hsome r eq_refl) as (n & [= <-] & ? & _).
      - destruct (ensureNode_cases idx choicesRecipe choicesBuilding (NodeIO.name i)
                    (NodeIO.ratePerMin i) (GraphNode.depth parent + 1)
                    (Some (GraphNode.building parent)) (Bfs.graph b) Hok)
          as [[_ E'] | [(r & ? & Hr' & _) | (r & ? & Hr' & _)]]; congruence. }
    assert (Hg2 : child ∈ Graph.nodes g2).
    { unfold g2. by destruct (connected parent child g1). }
    by destruct ((0 <? _)%Z && _). }
  by rewrite Hchild.
Qed.

Lemma relax_fold_ok parent eff (l : list NodeIO.t) :
  (eff <= maxBudget e)%Z ->
  forall b, bfs_ok idx e b ->
    bfs_ok idx e (fold_left (relax e parent eff) l b)
    /\ extends (Bfs.graph b) (Bfs.graph (fold_left (relax e parent eff) l b)).
Proof.
  intros Heff. induction l as [|i l IH]; intros b Hbfs; cbn [fold_left].
  - split; [done | apply extends_refl].
  - destruct (relax_spec idx choicesRecipe choicesBuilding e parent eff b i Hidx Hbfs Heff)
      as (Hbfs1 & Hext1 & _).
    destruct (IH _ Hbfs1) as (Hbfs2 & Hext2).
    split; [done | by eapply extends_trans].
Qed.

Lemma relax_fold_local parent eff (l : list NodeIO.t) :
  (eff <= maxBudget e)%Z ->
  forall b, bfs_ok idx e b ->
    agree e e' (Bfs.graph (fold_left (relax e parent eff) l b)) ->
    fold_left (relax e' parent eff) l b = fold_left (relax e parent eff) l b.
Proof.
  intros Heff. induction l as [|i l IH]; intros b Hbfs Hag; cbn [fold_left] in *; [done|].
  destruct (relax_spec idx choicesRecipe choicesBuilding e parent eff b i Hidx Hbfs Heff)
    as (Hbfs1 & _).
  destruct (relax_fold_ok parent eff l Heff _ Hbfs1) as (_ & Hext).
  rewrite (relax_local parent eff b i Hbfs Heff); [by apply IH|].
  by eapply agree_extends.
Qed.

Lemma step_local b :
  bfs_ok idx e b -> relaxed b ->
  agree e e' (Bfs.graph (step e b)) ->
  step e' b = step e b.
Proof.
  intros Hbfs Hrel Hag. destruct (Bfs.queue b) as [|item rest] eqn:Hq.
  { unfold Store.step. by rewrite Hq. }
  destruct (step_spec idx choicesRecipe choicesBuilding e b item rest Hidx Hbfs Hrel Hq)
    as (_ & Hext & _ & _ & parent & Hp & Hstep).
  pose proof Hbfs as (Hok & Hbest & Hqueue).
  rewrite Hq in Hqueue. apply Forall_cons in Hqueue as [[Hrem _] Hrest].
  destruct (graph_ok_byId idx _ _ _ Hok Hp) as [Hpin _].
  assert (Hpb : budget e (GraphNode.id parent) = budget e' (GraphNode.id parent)).
  { apply Hag. by eapply extends_node. }
  rewrite (step_dequeue idx choicesRecipe choicesBuilding e' b item rest parent Hq) by (done || lia).
  rewrite Hstep in *. rewrite <- Hpb.
  apply relax_fold_local; [|exact (conj Hok (conj Hbest Hrest))|done].
  unfold effective_remaining. pose proof (budget_le e (GraphNode.id parent)). lia.
Qed.

Lemma loop_local (n : nat) :
  forall b, bfs_ok idx e b -> relaxed b ->
    agree e e' (Bfs.graph (loop e n b)) ->
    loop e' n b = loop e n b.
Proof.
  induction n as [|n IH]; intros b Hbfs Hrel Hag; cbn [Store.loop] in *; [done|].
  destruct (Bfs.queue b) as [|item rest] eqn:Hq; [done|].
  destruct (step_spec idx choicesRecipe choicesBuilding e b item rest Hidx Hbfs Hrel Hq)
    as (Hbfs1 & _ & _ & Hrel1 & _).
  destruct (loop_spec idx choicesRecipe choicesBuilding e n Hidx _ Hbfs1 Hrel1)
    as (_ & Hext & _).
  rewrite (step_local b Hbfs Hrel); [by apply IH|].
  by eapply agree_extends.
Qed.

Lemma seed_local g : agree e e' g -> Store.seed e' g = Store.seed e g.
Proof.
  intros Hag. unfold Store.seed.
  enough (H : forall l b, l ⊆ Graph.nodes g ->
            fold_left (Store.seed_node e') l b = fold_left (Store.seed_node e) l b)
    by (by apply H).
  induction l as [|n l IH]; intros b Hsub; cbn [fold_left]; [done|].
  rewrite IH by (intros x Hx; apply Hsub; by right).
  f_equal. unfold Store.seed_node. rewrite (Hag n) by (apply Hsub; by left). done.
Qed.

End Locality.

Lemma expand_local idx cr cb (e e' : gmap string Z) g :
  index_ok idx -> graph_ok idx g ->
  agree e e' (Bfs.graph (expand idx cr cb e g)) ->
  expand idx cr cb e' g = expand idx cr cb e g.
Proof.
  intros Hidx Hok Hag.
  destruct (expand_spec idx cr cb e g Hidx Hok) as (Hq & _ & Hext & _).
  destruct (expand_spec idx cr cb e' g Hidx Hok) as (Hq' & _).
  cbv zeta in *. unfold expand in *.
  destruct (seed_spec idx cr cb e g Hok) as (Hbfs & Hg & Hrel).
  rewrite (seed_local e e' g) in * by (by eapply agree_extends).
  set (b := seed e g) in *.
  set (m := measure idx e b) in *. set (m' := measure idx e' b) in *.
  rewrite <- (loop_more idx cr cb e' m' m b Hq').
  rewrite <- (loop_more idx cr cb e m m' b Hq).
  rewrite (Nat.add_comm m' m).
  apply loop_local; [done | done | done |].
  by rewrite (loop_more idx cr cb e m m' b Hq).
Qed.

(** ** ExpansionController: operations on a stale node id *)

Lemma find_id_none (nodes : list GraphNode.t) (nodeId : string) :
  Js.find (fun n => String.eqb (GraphNode.id n) nodeId) nodes = None ->
  forall n, n ∈ nodes -> GraphNode.id n <> nodeId.
Proof.
  intros H n Hn E. apply find_none in H. rewrite Forall_forall in H.
  specialize (H n Hn). cbn in H. by rewrite E, String.eqb_refl in H.
Qed.

Lemma build_budget_local (idx : ProductIndex) (s : State.t) (e' : gmap string Z) :
  index_ok idx ->
  (forall n, n ∈ State.graphNodes (build idx s) ->
     budget (State.expandedByNode s) (GraphNode.id n) = budget e' (GraphNode.id n)) ->
  build idx (State.set_expanded s e') = State.set_expanded (build idx s) e'.
Proof.
  intros Hidx Hag. unfold build in *. cbn [State.set_expanded State.targets
    State.choicesRecipe State.choicesBuilding State.expandedByNode] in *.
  destruct (State.targets s) as [|t ts] eqn:Et; [done|].
  cbn [State.set_graph State.graphNodes] in Hag.
  rewrite (expand_local idx (State.choicesRecipe s) (State.choicesBuilding s)
             (State.expandedByNode s) e'); [done | done | | exact Hag].
  pose proof (baseline_ok idx Hidx s) as H. by rewrite Et in H.
Qed.

Lemma stale_walk (nodes : list GraphNode.t) (edges : list GraphEdge.t) (nodeId : string)
    (fuel : nat) :
  Js.find (fun n => String.eqb (GraphNode.id n) nodeId) nodes = None ->
  (0 < fuel)%nat ->
  PerProduct.walk fuel nodes edges (PerProduct.Walk.mk ∅ ∅ [nodeId])
  = PerProduct.Walk.mk ∅ ({[ nodeId ]} ∪ ∅) [].
Proof.
  intros Hfind Hfuel. destruct fuel as [|fuel]; [lia|].
  cbn [PerProduct.walk PerProduct.Walk.q].
  assert (Hstep : PerProduct.walk_step nodes edges (PerProduct.Walk.mk ∅ ∅ [nodeId])
                  = PerProduct.Walk.mk ∅ ({[ nodeId ]} ∪ ∅) []).
  { unfold PerProduct.walk_step. cbn [PerProduct.Walk.q PerProduct.Walk.seen
      PerProduct.Walk.toZero].
    rewrite decide_False by set_solver.
    assert (Hnone : PerProduct.nodeById nodes nodeId = None).
    { unfold PerProduct.nodeById. apply find_none. apply Forall_forall.
      intros n Hn. apply list_elem_of_In, in_rev, list_elem_of_In in Hn.
      apply find_none in Hfind. rewrite Forall_forall in Hfind. by apply Hfind. }
    by rewrite Hnone. }
  rewrite Hstep. by destruct fuel.
Qed.

(** The claim of C9 fails for [expandNodeOnce]: on the built example store,
    whose graph is current and has no node with the id, the action stores a
    budget of 1 under that id. *)
Lemma stale_node_id_counterexample :
  let idx := PRODUCT_INDEX [Examples.R1] in
  let s := Examples.gear_example in
  Js.find (fun n => String.eqb (GraphNode.id n) Examples.ghost) (State.graphNodes s) = None
  /\ build idx s = s
  /\ State.expandedByNode s !! Examples.ghost = None
  /\ State.expandedByNode (expandNodeOnce idx Examples.ghost s) !! Examples.ghost = Some 1%Z
  /\ expandNodeOnce idx Examples.ghost s <> s.
Proof.
  cbv zeta.
  assert (H1 : State.expandedByNode Examples.gear_example !! Examples.ghost = None)
    by (vm_compute; reflexivity).
  assert (H2 : State.expandedByNode
                 (expandNodeOnce (PRODUCT_INDEX [Examples.R1]) Examples.ghost
                    Examples.gear_example) !! Examples.ghost = Some 1%Z)
    by (vm_compute; reflexivity).
  split; [vm_compute; reflexivity|]. split; [vm_compute; reflexivity|].
  split; [exact H1|]. split; [exact H2|].
  intros E. rewrite E, H1 in H2. discriminate H2.
Qed.

(** C9 (amended). On a store whose graph is current, for a node id that
    names no node of the graph: [swapNodeRecipe] is a no-op; [collapseBranch]
    of the per-product store ends its walk at once and zeroes no budget;
    [expandNodeOnce] and [expandBranchBy] are total and leave the targets,
    the preferences and the published graph as they are, but they do store
    the budget raised by 1, or by [max(1, hops)], under that id. *)
Theorem stale_node_id (RECIPES : list Recipe.t) (s : State.t) (nodeId : string) :
  let idx := PRODUCT_INDEX RECIPES in
  let e := State.expandedByNode s in
  build idx s = s ->
  Js.find (fun n => String.eqb (GraphNode.id n) nodeId) (State.graphNodes s) = None ->
  (forall recipeId, swapNodeRecipe idx nodeId recipeId s = s)
  /\ expandNodeOnce idx nodeId s
     = State.set_expanded s (<[ nodeId := (budget e nodeId + 1)%Z ]> e)
  /\ (forall hops,
        expandBranchBy idx nodeId hops s
        = State.set_expanded s (<[ nodeId := (budget e nodeId + Z.max 1 hops)%Z ]> e))
  /\ (forall fuel expandedByProduct,
        (0 < fuel)%nat ->
        PerProduct.Walk.q
          (PerProduct.walk fuel (State.graphNodes s) (State.graphEdges s)
             (PerProduct.Walk.mk ∅ ∅ [nodeId])) = []
        /\ PerProduct.collapseBranch fuel (State.graphNodes s) (State.graphEdges s)
             expandedByProduct nodeId = expandedByProduct).
Proof.
  cbv zeta. intros Hcur Hstale.
  assert (Hlocal : forall v,
    build (PRODUCT_INDEX RECIPES)
      (State.set_expanded s (<[ nodeId := v ]> (State.expandedByNode s)))
    = State.set_expanded s (<[ nodeId := v ]> (State.expandedByNode s))).
  { intros v. rewrite build_budget_local; [by rewrite Hcur | apply PRODUCT_INDEX_ok |].
    rewrite Hcur. intros n Hn. unfold budget. rewrite lookup_insert_ne; [done|].
    intros E. by apply (find_id_none _ _ Hstale n Hn). }
  split; [|split; [|split]].
  - intros recipeId. unfold swapNodeRecipe. by rewrite Hstale.
  - unfold expandNodeOnce. apply Hlocal.
  - intros hops. unfold expandBranchBy. apply Hlocal.
  - intros fuel ep Hfuel. unfold PerProduct.collapseBranch.
    rewrite (stale_walk _ _ _ _ Hstale Hfuel). cbn. split; [done|].
    apply set_fold_empty.
Qed.

Lemma stale_node_id_witness :
  let idx := PRODUCT_INDEX [Examples.R1] in
  let s := Examples.gear_example in
  swapNodeRecipe idx Examples.ghost "R1" s = s
  /\ expandNodeOnce idx Examples.ghost s = State.set_expanded s {[ Examples.ghost := 1%Z ]}.
Proof.
  cbv zeta.
  destruct (stale_node_id [Examples.R1] Examples.gear_example Examples.ghost)
    as (H1 & H2 & _).
  - vm_compute. reflexivity.
  - vm_compute. reflexivity.
  - split; [apply H1|]. rewrite H2. vm_compute. reflexivity.
Defined.

(** ** GraphBuilder: the graph after a recipe swap *)

Lemma in_step_fold {S I : Type} (fA fB : S -> I -> S) (okA okB hasA hasB : S -> Prop) :
  (forall x i, okA x -> okA (fA x i)) ->
  (forall y i, okB y -> okB (fB y i)) ->
  (forall x i, okA x -> hasA x -> hasA (fA x i)) ->
  (forall y i, okB y -> hasB y -> hasB (fB y i)) ->
  (forall x i, okA x -> okB x -> ~ hasA x ->
     (fA x i = fB x i /\ ~ hasA (fA x i)) \/ (hasA (fA x i) /\ hasB (fB x i))) ->
  forall (l : list I) a b,
    okA a -> okB b ->
    (a = b /\ ~ hasA a) \/ (hasA a /\ hasB b) ->
    (fold_left fA l a = fold_left fB l b /\ ~ hasA (fold_left fA l a))
    \/ (hasA (fold_left fA l a) /\ hasB (fold_left fB l b)).
Proof.
  intros HokA HokB HmonoA HmonoB Hstep.
  induction l as [|i l IH]; intros a b Ha Hb Hsim; cbn [fold_left]; [done|].
  apply IH; [by apply HokA | by apply HokB |].
  destruct Hsim as [[<- Hno] | [HA HB]].
  - by apply Hstep.
  - right. split; [by apply HmonoA | by apply HmonoB].
Qed.

Lemma ensureNode_none idx cr cb p rate d pb g g' :
  ensureNode idx cr cb p rate d pb g = (None, g') -> g' = g.
Proof.
  unfold ensureNode. destruct (resolve idx cr cb p pb); [|by intros [= <-]].
  by destruct (Graph.byKey g !! _).
Qed.

Lemma ensureNode_some idx cr cb p rate d pb g child g' :
  graph_ok idx g ->
  ensureNode idx cr cb p rate d pb g = (Some child, g') ->
  graph_ok idx g' /\ extends g g' /\ child ∈ Graph.nodes g'.
Proof.
  intros Hok E.
  destruct (ensureNode_summary idx cr cb _ _ _ _ _ _ _ Hok E) as (Hok' & Hext & _ & _ & Hnone & Hsome).
  split; [done|]. split; [done|].
  destruct (resolve idx cr cb p pb) as [r|] eqn:Hr.
  - by destruct (Hsome r eq_refl) as (n & [= <-] & ? & _).
  - by destruct (Hnone eq_refl).
Qed.

Lemma relax_graph idx cr cb e parent eff (b : Bfs.t) i child g1 :
  craftable idx (NodeIO.name i) = true ->
  ensureNode idx cr cb (NodeIO.name i) (NodeIO.ratePerMin i) (GraphNode.depth parent + 1)
    (Some (GraphNode.building parent)) (Bfs.graph b) = (Some child, g1) ->
  Graph.nodes (Bfs.graph (relax idx cr cb e parent eff b i)) = Graph.nodes g1.
Proof.
  intros Hc E. unfold relax. rewrite Hc, E.
  by destruct (_ && _); cbn [Bfs.graph]; destruct (connected parent child g1).
Qed.

Section Swapped.

Variable idx : ProductIndex.
Variables cr cr' : gmap string (option string).
Variables cb cb' : gmap string string.
Variables e e' : gmap string Z.
Variables P R : string.

Hypothesis Hidx : index_ok idx.
Hypothesis Hdist : ids_distinct idx.
Hypothesis Hcr : forall p, p <> P -> cr' !! p = cr !! p.
Hypothesis Hcb : forall p, p <> P -> cb' !! p = cb !! p.
Hypothesis He :
  forall n, node_of_index idx n -> GraphNode.product n <> P ->
    budget e (GraphNode.id n) = budget e' (GraphNode.id n).
Hypothesis HresA : forall pb, exists r, resolve idx cr cb P pb = Some r.
Hypothesis HresB :
  forall pb, exists r, resolve idx cr' cb' P pb = Some r /\ Recipe.recipeId r = R.

Local Abbreviation hasP := (has_product P).
Local Abbreviation hasR := (has_node P R).

Lemma has_product_extends g g' : extends g g' -> hasP g -> hasP g'.
Proof. intros Hext (n & Hn & Hp). exists n. split; [by eapply extends_node | done]. Qed.

Lemma has_node_extends g g' : extends g g' -> hasR g -> hasR g'.
Proof. intros Hext (n & Hn & Hp). exists n. split; [by eapply extends_node | done]. Qed.

Lemma resolve_same p pb : p <> P -> resolve idx cr' cb' p pb = resolve idx cr cb p pb.
Proof. intros Hp. unfold resolve. by rewrite Hcr, Hcb. Qed.

Lemma no_key_of_product g r :
  graph_ok idx g -> ~ hasP g -> r ∈ default [] (idx !! P) ->
  Graph.byId g !! nodeIdFor P (Recipe.recipeId r) = None.
Proof.
  intros Hok Hno Hr.
  destruct (Graph.byId g !! nodeIdFor P (Recipe.recipeId r)) as [n|] eqn:E; [|done].
  exfalso. apply Hno. destruct (graph_ok_byId idx _ _ _ Hok E) as [Hin Hid].
  exists n. split; [done|].
  destruct Hok as (_ & _ & _ & Hall). rewrite Forall_forall in Hall.
  destruct (Hall n Hin) as [Hnid (r' & Hr' & Hrid)].
  apply (Hdist (GraphNode.product n) r' P r Hr' Hr). congruence.
Qed.

Lemma budget_same g n : graph_ok idx g -> ~ hasP g -> n ∈ Graph.nodes g ->
  budget e (GraphNode.id n) = budget e' (GraphNode.id n).
Proof.
  intros Hok Hno Hn. apply He.
  - destruct Hok as (_ & _ & _ & Hall). rewrite Forall_forall in Hall. by apply Hall.
  - intros Hp. apply Hno. by exists n.
Qed.

Lemma ensureNode_in_step p rate d pb g :
  graph_ok idx g -> ~ hasP g ->
  (ensureNode idx cr cb p rate d pb g = ensureNode idx cr' cb' p rate d pb g
   /\ ~ hasP (ensureNode idx cr cb p rate d pb g).2)
  \/ (hasP (ensureNode idx cr cb p rate d pb g).2
      /\ hasR (ensureNode idx cr' cb' p rate d pb g).2).
Proof.
  intros Hok Hno. destruct (decide (p = P)) as [-> | Hne].
  - right. destruct (HresA pb) as [ra Hra]. destruct (HresB pb) as (rb & Hrb & Hrbid).
    pose proof (pickRecipeWithPrefs_elem _ _ _ _ _ _ Hra) as Hina.
    pose proof (pickRecipeWithPrefs_elem _ _ _ _ _ _ Hrb) as Hinb.
    split.
    + destruct (ensureNode_cases idx cr cb P rate d pb g Hok)
        as [[Hr _] | [(r & n & Hr & Hn & _) | (r & g1 & Hr & _ & -> & Hnodes & _)]];
        rewrite Hra in Hr; [discriminate Hr | |]; injection Hr as <-.
      * by rewrite (no_key_of_product g ra Hok Hno Hina) in Hn.
      * exists (makeNode ra P rate d). cbn [snd]. rewrite Hnodes.
        split; [apply elem_of_app; right; by left | done].
    + destruct (ensureNode_cases idx cr' cb' P rate d pb g Hok)
        as [[Hr _] | [(r & n & Hr & Hn & _) | (r & g1 & Hr & _ & -> & Hnodes & _)]];
        rewrite Hrb in Hr; [discriminate Hr | |]; injection Hr as <-.
      * by rewrite (no_key_of_product g rb Hok Hno Hinb) in Hn.
      * exists (makeNode rb P rate d). cbn [snd]. rewrite Hnodes.
        split; [apply elem_of_app; right; by left|]. split; [|done].
        cbn. by rewrite Hrbid.
  - left. assert (Heq : ensureNode idx cr cb p rate d pb g
                        = ensureNode idx cr' cb' p rate d pb g).
    { unfold ensureNode. by rewrite (resolve_same p pb Hne). }
    split; [done|].
    destruct (ensureNode idx cr cb p rate d pb g) as [res g1] eqn:E. cbn [snd].
    destruct (ensureNode_cases idx cr cb p rate d pb g Hok)
      as [[_ E'] | [(r & n & _ & _ & E') | (r & g2 & _ & _ & E' & Hnodes & _)]];
      rewrite E in E'; injection E' as -> ->; [done | done |].
    intros (n & Hn & Hp). rewrite Hnodes in Hn. apply elem_of_app in Hn as [Hn | Hn].
    + apply Hno. by exists n.
    + apply list_elem_of_singleton in Hn. subst n. by cbn in Hp.
Qed.

Lemma baseline_input_in_step root g i :
  graph_ok idx g -> ~ hasP g ->
  in_step P R (baseline_input idx cr cb root g i) (baseline_input idx cr' cb' root g i).
Proof.
  intros Hok Hno. unfold baseline_input.
  destruct (craftable idx (NodeIO.name i)); [|left; done].
  destruct (ensureNode_in_step (NodeIO.name i) (NodeIO.ratePerMin i) 1
              (Some (GraphNode.building root)) g Hok Hno) as [[<- Hno1] | [HA HB]].
  - left. destruct (ensureNode idx cr cb _ _ _ _ g) as [[child|] g1]; [|done].
    split; [done|]. intros (n & Hn & Hp). apply Hno1. by exists n.
  - right. split.
    + destruct (ensureNode idx cr cb _ _ _ _ g) as [[child|] g1]; [|done].
      destruct HA as (n & Hn & Hp). by exists n.
    + destruct (ensureNode idx cr' cb' _ _ _ _ g) as [[child|] g1]; [|done].
      destruct HB as (n & Hn & Hp). by exists n.
Qed.

Lemma baseline_inputs_in_step root (l : list NodeIO.t) g :
  graph_ok idx g -> ~ hasP g ->
  in_step P R (fold_left (baseline_input idx cr cb root) l g)
    (fold_left (baseline_input idx cr' cb' root) l g).
Proof.
  intros Hok Hno.
  apply (in_step_fold (baseline_input idx cr cb root) (baseline_input idx cr' cb' root)
           (graph_ok idx) (graph_ok idx) hasP hasR); [| | | | |done|done|by left].
  - intros x i Hx. by destruct (baseline_input_spec idx cr cb root x i Hidx Hx).
  - intros x i Hx. by destruct (baseline_input_spec idx cr' cb' root x i Hidx Hx).
  - intros x i Hx. apply has_product_extends.
    by destruct (baseline_input_spec idx cr cb root x i Hidx Hx) as (_ & ? & _).
  - intros x i Hx. apply has_node_extends.
    by destruct (baseline_input_spec idx cr' cb' root x i Hidx Hx) as (_ & ? & _).
  - intros x i Hx _ Hnox. by apply baseline_input_in_step.
Qed.

Lemma baseline_target_in_step g t :
  graph_ok idx g -> ~ hasP g ->
  in_step P R (baseline_target idx cr cb g t) (baseline_target idx cr' cb' g t).
Proof.
  intros Hok Hno. unfold baseline_target.
  destruct (ensureNode idx cr cb (Target.product t) (Target.ratePerMin t) 0 None g)
    as [resA gA] eqn:EA.
  destruct (ensureNode idx cr' cb' (Target.product t) (Target.ratePerMin t) 0 None g)
    as [resB gB] eqn:EB.
  destruct (ensureNode_summary idx cr cb _ _ _ _ _ _ _ Hok EA) as (HokA & _).
  destruct (ensureNode_summary idx cr' cb' _ _ _ _ _ _ _ Hok EB) as (HokB & _).
  destruct (ensureNode_in_step (Target.product t) (Target.ratePerMin t) 0 None g Hok Hno)
    as [[Heq Hno1] | [HA HB]]; rewrite EA, ?EB in *; cbn [snd] in *.
  - injection Heq as <- <-. destruct resA as [root|]; [|by left].
    by apply baseline_inputs_in_step.
  - right. split.
    + destruct resA as [root|]; [|done]. eapply has_product_extends; [|exact HA].
      by destruct (baseline_inputs_spec idx cr cb root (GraphNode.inputs root) Hidx gA HokA)
        as (_ & ? & _).
    + destruct resB as [root|]; [|done]. eapply has_node_extends; [|exact HB].
      by destruct (baseline_inputs_spec idx cr' cb' root (GraphNode.inputs root) Hidx gB HokB)
        as (_ & ? & _).
Qed.

Lemma baseline_in_step (ts : list Target.t) :
  in_step P R (baseline idx cr cb ts) (baseline idx cr' cb' ts).
Proof.
  unfold baseline.
  apply (in_step_fold (baseline_target idx cr cb) (baseline_target idx cr' cb')
           (graph_ok idx) (graph_ok idx) hasP hasR).
  - intros x t Hx. by destruct (baseline_target_spec idx cr cb x t Hidx Hx).
  - intros x t Hx. by destruct (baseline_target_spec idx cr' cb' x t Hidx Hx).
  - intros x t Hx. apply has_product_extends.
    by destruct (baseline_target_spec idx cr cb x t Hidx Hx) as (_ & ? & _).
  - intros x t Hx. apply has_node_extends.
    by destruct (baseline_target_spec idx cr' cb' x t Hidx Hx) as (_ & ? & _).
  - intros x t Hx _ Hnox. by apply baseline_target_in_step.
  - apply graph_ok_empty.
  - apply graph_ok_empty.
  - left. split; [done|]. intros (n & Hn & _). by apply elem_of_nil in Hn.
Qed.

Lemma relax_in_step parent eff x i :
  bfs_ok idx e x -> ~ hasP (Bfs.graph x) ->
  in_step_bfs P R (relax idx cr cb e parent eff x i) (relax idx cr' cb' e' parent eff x i).
Proof.
  intros (Hok & _) Hno.
  destruct (craftable idx (NodeIO.name i)) eqn:Hc.
  2:{ left. unfold relax. by rewrite Hc. }
  destruct (ensureNode idx cr cb (NodeIO.name i) (NodeIO.ratePerMin i)
              (GraphNode.depth parent + 1) (Some (GraphNode.building parent)) (Bfs.graph x))
    as [resA gA] eqn:EA.
  destruct (ensureNode idx cr' cb' (NodeIO.name i) (NodeIO.ratePerMin i)
              (GraphNode.depth parent + 1) (Some (GraphNode.building parent)) (Bfs.graph x))
    as [resB gB] eqn:EB.
  destruct (ensureNode_in_step (NodeIO.name i) (NodeIO.ratePerMin i)
              (GraphNode.depth parent + 1) (Some (GraphNode.building parent))
              (Bfs.graph x) Hok Hno) as [[Heq Hno1] | [HA HB]];
    rewrite EA, ?EB in *; cbn [snd] in *.
  - injection Heq as Hres Hg. subst resB gB. left. destruct resA as [child|].
    + destruct (ensureNode_some _ _ _ _ _ _ _ _ _ _ Hok EA) as (HokA & _ & Hin).
      pose proof (budget_same gA child HokA Hno1 Hin) as Hb.
      split.
      * unfold relax. rewrite Hc, EA, EB. by rewrite Hb.
      * intros (n & Hn & Hp). rewrite (relax_graph _ _ _ _ _ _ _ _ _ _ Hc EA) in Hn.
        apply Hno1. by exists n.
    + split; [|unfold relax; by rewrite Hc, EA]. unfold relax. by rewrite Hc, EA, EB.
  - right. split.
    + destruct resA as [child|].
      * destruct HA as (n & Hn & Hp). exists n.
        by rewrite (relax_graph _ _ _ _ _ _ _ _ _ _ Hc EA).
      * pose proof (ensureNode_none _ _ _ _ _ _ _ _ _ EA) as Hg. subst gA.
        unfold relax. by rewrite Hc, EA.
    + destruct resB as [child|].
      * destruct HB as (n & Hn & Hp). exists n.
        by rewrite (relax_graph _ _ _ _ _ _ _ _ _ _ Hc EB).
      * pose proof (ensureNode_none _ _ _ _ _ _ _ _ _ EB) as Hg. subst gB.
        unfold relax. by rewrite Hc, EB.
Qed.

Lemma step_in_step x :
  bfs_ok idx e x -> bfs_ok idx e' x -> ~ hasP (Bfs.graph x) ->
  in_step_bfs P R (step idx cr cb e x) (step idx cr' cb' e' x).
Proof.
  intros Hbfs Hbfs' Hno. destruct (Bfs.queue x) as [|item rest] eqn:Hq.
  { left. unfold step. by rewrite Hq. }
  pose proof Hbfs as (Hok & Hbest & Hqueue). pose proof Hbfs' as (_ & Hbest' & Hqueue').
  rewrite Hq in Hqueue, Hqueue'.
  apply Forall_cons in Hqueue as [[Hrem [parent Hparent]] Hrest].
  apply Forall_cons in Hqueue' as [[Hrem' _] Hrest'].
  destruct (graph_ok_byId idx _ _ _ Hok Hparent) as [Hpin _].
  rewrite (step_dequeue idx cr cb e x item rest parent Hq) by (done || lia).
  rewrite (step_dequeue idx cr' cb' e' x item rest parent Hq) by (done || lia).
  rewrite <- (budget_same (Bfs.graph x) parent Hok Hno Hpin).
  set (eff := effective_remaining (QItem.rem item) (budget e (GraphNode.id parent))).
  assert (Heff : (eff <= maxBudget e)%Z).
  { unfold eff, effective_remaining. pose proof (budget_le e (GraphNode.id parent)). lia. }
  assert (Heff' : (eff <= maxBudget e')%Z).
  { unfold eff, effective_remaining.
    rewrite (budget_same (Bfs.graph x) parent Hok Hno Hpin).
    pose proof (budget_le e' (GraphNode.id parent)). lia. }
  apply (in_step_fold (relax idx cr cb e parent eff) (relax idx cr' cb' e' parent eff)
           (bfs_ok idx e) (bfs_ok idx e')
           (fun b => hasP (Bfs.graph b)) (fun b => hasR (Bfs.graph b))).
  - intros y i Hy. by destruct (relax_spec idx cr cb e parent eff y i Hidx Hy Heff).
  - intros y i Hy. by destruct (relax_spec idx cr' cb' e' parent eff y i Hidx Hy Heff').
  - intros y i Hy. apply has_product_extends.
    by destruct (relax_spec idx cr cb e parent eff y i Hidx Hy Heff) as (_ & ? & _).
  - intros y i Hy. apply has_node_extends.
    by destruct (relax_spec idx cr' cb' e' parent eff y i Hidx Hy Heff') as (_ & ? & _).
  - intros y i Hy _ Hnoy. by apply relax_in_step.
  - exact (conj Hok (conj Hbest Hrest)).
  - exact (conj Hok (conj Hbest' Hrest')).
  - left. done.
Qed.

Lemma loop_in_step (n : nat) :
  forall a b,
    bfs_ok idx e a -> relaxed_but idx cr cb e None a ->
    bfs_ok idx e' b -> relaxed_but idx cr' cb' e' None b ->
    in_step_bfs P R a b ->
    in_step_bfs P R (loop idx cr cb e n a) (loop idx cr' cb' e' n b).
Proof.
  induction n as [|n IH]; intros a b Ha Hra Hb Hrb Hsim; cbn [loop]; [done|].
  destruct Hsim as [[<- Hno] | [HA HB]].
  - destruct (Bfs.queue a) as [|item rest] eqn:Hq; [by left|].
    destruct (step_spec idx cr cb e a item rest Hidx Ha Hra Hq) as (Ha1 & _ & _ & Hra1 & _).
    destruct (step_spec idx cr' cb' e' a item rest Hidx Hb Hrb Hq) as (Hb1 & _ & _ & Hrb1 & _).
    apply IH; [done | done | done | done |]. by apply step_in_step.
  - right. split.
    + eapply has_product_extends; [|exact HA].
      by destruct (loop_spec idx cr cb e (S n) Hidx a Ha Hra) as (_ & ? & _).
    + eapply has_node_extends; [|exact HB].
      by destruct (loop_spec idx cr' cb' e' (S n) Hidx b Hb Hrb) as (_ & ? & _).
Qed.

(** When the first run ends with a node for [P], the second ends with the
    node of [P] under [R]. *)
Lemma expand_has_node (ts : list Target.t) :
  hasP (Bfs.graph (expand idx cr cb e (baseline idx cr cb ts))) ->
  hasR (Bfs.graph (expand idx cr' cb' e' (baseline idx cr' cb' ts))).
Proof.
  intros HP.
  assert (HokA : graph_ok idx (baseline idx cr cb ts)).
  { unfold baseline.
    by destruct (baseline_targets_spec idx cr cb ts Hidx _ (graph_ok_empty idx)). }
  assert (HokB : graph_ok idx (baseline idx cr' cb' ts)).
  { unfold baseline.
    by destruct (baseline_targets_spec idx cr' cb' ts Hidx _ (graph_ok_empty idx)). }
  destruct (expand_spec idx cr cb e _ Hidx HokA) as (HqA & _ & HextA & _).
  destruct (expand_spec idx cr' cb' e' _ Hidx HokB) as (HqB & _ & HextB & _).
  cbv zeta in *.
  destruct (baseline_in_step ts) as [[Heq Hno] | [_ HB]];
    [|by eapply has_node_extends].
  rewrite <- Heq in *. set (g := baseline idx cr cb ts) in *.
  unfold expand in *.
  destruct (seed_spec idx cr cb e g HokA) as (HbA & HgA & HrA).
  destruct (seed_spec idx cr' cb' e' g HokB) as (HbB & HgB & HrB).
  assert (Hseed : seed e' g = seed e g).
  { apply seed_local. intros n Hn. by apply (budget_same g). }
  rewrite Hseed in *. set (b0 := seed e g) in *.
  set (mA := measure idx e b0) in *. set (mB := measure idx e' b0) in *.
  rewrite <- (loop_more idx cr cb e mA mB b0 HqA) in HP.
  rewrite <- (loop_more idx cr' cb' e' mB mA b0 HqB).
  rewrite (Nat.add_comm mB mA).
  destruct (loop_in_step (mA + mB) b0 b0 HbA HrA HbB HrB) as [[_ Hno'] | [_ HB]];
    [left; split; [done | by rewrite HgA] | contradiction | done].
Qed.

End Swapped.

(** ** ExpansionController: a swap and back *)

Lemma build_idem (idx : ProductIndex) (s : State.t) : build idx (build idx s) = build idx s.
Proof.
  unfold build. destruct (State.targets s) eqn:E; cbn [State.set_graph State.targets];
    by rewrite E.
Qed.

Lemma find_by_id (idx : ProductIndex) (g : Graph.t) (n : GraphNode.t) :
  graph_ok idx g -> n ∈ Graph.nodes g ->
  Js.find (fun m => String.eqb (GraphNode.id m) (GraphNode.id n)) (Graph.nodes g) = Some n.
Proof.
  intros Hok Hn.
  destruct (Js.find (fun m => String.eqb (GraphNode.id m) (GraphNode.id n)) (Graph.nodes g))
    as [m|] eqn:E.
  - f_equal. pose proof (find_id_some _ _ _ E) as Hid. apply find_some in E as [Hm _].
    by eapply (graph_ok_unique idx g).
  - exfalso. by apply (find_id_none _ _ E n Hn).
Qed.

Lemma find_recipe_id (l : list Recipe.t) (r : Recipe.t) :
  r ∈ l ->
  exists r', Js.find (fun x => bool_decide (Some (Recipe.recipeId x) = Some (Recipe.recipeId r))) l
             = Some r'
             /\ Recipe.recipeId r' = Recipe.recipeId r.
Proof.
  intros Hr.
  destruct (Js.find (fun x => bool_decide (Some (Recipe.recipeId x) = Some (Recipe.recipeId r))) l)
    as [r'|] eqn:E.
  - exists r'. split; [done|]. apply find_some in E as [_ E]. cbn in E.
    apply bool_decide_eq_true in E. congruence.
  - exfalso. apply find_none in E. rewrite Forall_forall in E. specialize (E r Hr).
    cbn in E. by apply bool_decide_eq_false in E.
Qed.

Lemma resolve_explicit (idx : ProductIndex) (cr : gmap string (option string))
    (cb : gmap string string) (P : string) (r : Recipe.t) (pb : option string) :
  r ∈ default [] (idx !! P) -> Recipe.recipeId r <> "" ->
  cr !! P = Some (Some (Recipe.recipeId r)) ->
  exists r', resolve idx cr cb P pb = Some r' /\ Recipe.recipeId r' = Recipe.recipeId r.
Proof.
  intros Hr Hne Hcr. unfold resolve, pickRecipeWithPrefs. rewrite Hcr. cbn [from_option id].
  assert (Ht : Js.truthy (Some (Recipe.recipeId r)) = true).
  { cbn. apply negb_true_iff. by apply String.eqb_neq. }
  rewrite Ht. destruct (find_recipe_id _ r Hr) as (r' & -> & Hid). by exists r'.
Qed.

Lemma prefer_building_other (P p : string) (building : option string)
    (cb : gmap string string) :
  p <> P -> prefer_building P building cb !! p = cb !! p.
Proof.
  intros Hne. unfold prefer_building. destruct building as [b|]; [|done].
  destruct (Js.truthy (Some b)); [|done]. by rewrite lookup_insert_ne.
Qed.

(** After a swap to a recipe of the product, on a store whose graph is
    current, the rebuilt graph holds the node of the product under the new
    recipe id. *)
Lemma swapNodeRecipe_materializes (idx : ProductIndex) (s : State.t)
    (nodeId : string) (node : GraphNode.t) (r1 : Recipe.t) :
  index_ok idx -> ids_distinct idx ->
  State.graphNodes (build idx s) = State.graphNodes s ->
  Js.find (fun n => String.eqb (GraphNode.id n) nodeId) (State.graphNodes s) = Some node ->
  r1 ∈ default [] (idx !! GraphNode.product node) ->
  Recipe.recipeId r1 <> "" ->
  let s1 := swapNodeRecipe idx nodeId (Recipe.recipeId r1) s in
  nodeId = nodeIdFor (GraphNode.product node) (GraphNode.recipeId node)
  /\ (exists r0, r0 ∈ default [] (idx !! GraphNode.product node)
                 /\ Recipe.recipeId r0 = GraphNode.recipeId node)
  /\ State.graphNodes (build idx s1) = State.graphNodes s1
  /\ exists node',
       Js.find (fun n => String.eqb (GraphNode.id n)
                           (nodeIdFor (GraphNode.product node) (Recipe.recipeId r1)))
         (State.graphNodes s1) = Some node'
       /\ GraphNode.product node' = GraphNode.product node.
Proof.
  intros Hidx Hdist Hcur Hfind Hr1 Hne. cbv zeta.
  set (P := GraphNode.product node). set (R1 := Recipe.recipeId r1).
  pose proof (find_id_some _ _ _ Hfind) as Hnid.
  pose proof (find_some _ _ _ Hfind) as [Hnode _].
  destruct (State.targets s) as [|t ts] eqn:Et.
  { destruct (build_empty idx s Et) as [Hnil _]. rewrite Hcur in Hnil.
    rewrite Hnil in Hnode. by apply elem_of_nil in Hnode. }
  assert (Hts : State.targets s <> []) by (by rewrite Et).
  destruct (build_nonempty idx s Hts) as (Hnodes & _). rewrite Hcur in Hnodes.
  destruct (built_spec idx Hidx s) as (_ & (Hok & _) & _).
  assert (Hwf : node_of_index idx node).
  { destruct Hok as (_ & _ & _ & Hall). rewrite Forall_forall in Hall.
    apply Hall. by rewrite <- Hnodes. }
  destruct Hwf as [Hid0 (r0 & Hr0 & Hr0id)]. fold P in Hid0, Hr0.
  split; [by rewrite <- Hnid|]. split; [by exists r0|].
  unfold swapNodeRecipe. rewrite Hfind. fold P R1.
  split; [by rewrite build_idem|].
  set (cr' := <[ P := Some R1 ]> (State.choicesRecipe s)).
  set (cb' := prefer_building P _ (State.choicesBuilding s)).
  set (e' := delete nodeId _).
  set (mid := State.mk (State.targets s) cr' cb' e' _ _ _).
  destruct (build_nonempty idx mid) as (Hnodes1 & _); [exact Hts|].
  rewrite Hnodes1.
  assert (HR : has_node P R1 (Bfs.graph (built idx mid))).
  { unfold built. cbn [State.choicesRecipe State.choicesBuilding State.expandedByNode
      State.targets mid].
    apply (expand_has_node idx (State.choicesRecipe s) cr' (State.choicesBuilding s) cb'
             (State.expandedByNode s) e' P R1 Hidx Hdist).
    - intros p Hp. unfold cr'. by rewrite lookup_insert_ne.
    - intros p Hp. unfold cb'. by apply prefer_building_other.
    - intros n [Hnid' (r & Hr & Hrid)] Hp. unfold budget, e'.
      assert (Hk : forall r', r' ∈ default [] (idx !! P) ->
                GraphNode.id n <> nodeIdFor P (Recipe.recipeId r')).
      { intros r' Hr' E. apply Hp. rewrite Hnid', <- Hrid in E.
        by apply (Hdist _ _ _ _ Hr Hr'). }
      rewrite lookup_delete_ne by (rewrite <- Hnid, Hid0, <- Hr0id; intros E; by apply (Hk r0)).
      destruct (0 <? _)%Z; [|done].
      rewrite lookup_insert_ne; [done|]. intros E. by apply (Hk r1).
    - intros pb. apply pickRecipeWithPrefs_craftable; [done|].
      unfold craftable. apply bool_decide_eq_true.
      change (is_Some (idx !! GraphNode.product node)).
      destruct (idx !! GraphNode.product node) as [l|] eqn:El; [by exists l|].
      by apply elem_of_nil in Hr1.
    - intros pb. apply (resolve_explicit idx cr' cb' P r1 pb Hr1 Hne).
      unfold cr'. by rewrite lookup_insert_eq.
    - exists node. split; [|done]. unfold built in Hnodes. by rewrite <- Hnodes. }
  destruct HR as (n1 & Hn1 & Hn1id & Hn1p).
  destruct (built_spec idx Hidx mid) as (_ & (Hok1 & _) & _).
  exists n1. split; [|done]. rewrite <- Hn1id. by apply (find_by_id idx).
Qed.

(** The claim of C7 fails for a recipe of the product whose id is the empty
    string.  The store is built, the root Gear::R1 carries a budget of 2, and
    the catalog lists a second recipe for Gear whose id is empty.  The swap
    stores the empty id as the explicit choice, which resolution skips as
    falsy, so the rebuilt graph still holds Gear::R1 while the budget has
    moved to the key Gear:: of the new id.  The swap back finds no node
    under that id and does nothing: the original id is left without
    budget.  The claim fails in the same way on the gear store for a new
    id that names no recipe. *)
Lemma swapNodeRecipe_back_counterexample :
  let idx := PRODUCT_INDEX [Examples.R1; Examples.Rnoid] in
  let s := Examples.noid_store in
  let s1 := swapNodeRecipe idx "Gear::R1" "" s in
  let s2 := swapNodeRecipe idx (nodeIdFor "Gear" "") "R1" s1 in
  build idx s = s
  /\ Js.find (fun n => String.eqb (GraphNode.id n) "Gear::R1") (State.graphNodes s)
     = Some (makeNode Examples.R1 "Gear" 60 0)
  /\ State.expandedByNode s !! "Gear::R1" = Some 2%Z
  /\ Examples.Rnoid ∈ default [] (idx !! "Gear")
  /\ map GraphNode.id (State.graphNodes s1) = ["Gear::R1"]
  /\ State.expandedByNode s1 !! "Gear::" = Some 2%Z
  /\ s2 = s1
  /\ State.expandedByNode s2 !! "Gear::R1" = None
  /\ ~ swap_back_as_stated idx s
  /\ ~ swap_back_as_stated Examples.gears Examples.gear_store.
Proof.
  cbv zeta.
  assert (Hfind : Js.find (fun n => String.eqb (GraphNode.id n) "Gear::R1")
                    (State.graphNodes Examples.noid_store)
                  = Some (makeNode Examples.R1 "Gear" 60 0)) by (vm_compute; reflexivity).
  assert (Hb : State.expandedByNode Examples.noid_store !! "Gear::R1" = Some 2%Z)
    by (vm_compute; reflexivity).
  assert (Hend : State.expandedByNode
                   (swapNodeRecipe (PRODUCT_INDEX [Examples.R1; Examples.Rnoid]) (nodeIdFor "Gear" "") "R1"
                      (swapNodeRecipe (PRODUCT_INDEX [Examples.R1; Examples.Rnoid]) "Gear::R1" ""
                         Examples.noid_store)) !! "Gear::R1" = None) by (vm_compute; reflexivity).
  split; [apply build_idem|]. split; [exact Hfind|]. split; [exact Hb|].
  split; [vm_compute; right; left|]. split; [vm_compute; reflexivity|].
  split; [vm_compute; reflexivity|]. split; [vm_compute; reflexivity|].
  split; [exact Hend|]. split; intros H.
  - destruct (H "Gear::R1" _ "" 2%Z Hfind Hb ltac:(lia) ltac:(discriminate))
      as (_ & b' & Hb' & _).
    change (GraphNode.product (makeNode Examples.R1 "Gear" 60 0)) with "Gear" in Hb'.
    change (GraphNode.recipeId (makeNode Examples.R1 "Gear" 60 0)) with "R1" in Hb'.
    rewrite Hend in Hb'. discriminate Hb'.
  - assert (Hfind' : Js.find (fun n => String.eqb (GraphNode.id n) "Gear::R1")
                       (State.graphNodes Examples.gear_store)
                     = Some (makeNode Examples.R1 "Gear" 60 0)) by (vm_compute; reflexivity).
    assert (Hb0 : State.expandedByNode Examples.gear_store !! "Gear::R1" = Some 2%Z)
      by (vm_compute; reflexivity).
    destruct (H "Gear::R1" _ "Nope" 2%Z Hfind' Hb0 ltac:(lia) ltac:(discriminate))
      as (_ & b' & Hb' & _).
    change (GraphNode.product (makeNode Examples.R1 "Gear" 60 0)) with "Gear" in Hb'.
    change (GraphNode.recipeId (makeNode Examples.R1 "Gear" 60 0)) with "R1" in Hb'.
    assert (Hend' : State.expandedByNode
                      (swapNodeRecipe Examples.gears (nodeIdFor "Gear" "Nope") "R1"
                         (swapNodeRecipe Examples.gears "Gear::R1" "Nope" Examples.gear_store))
                    !! "Gear::R1" = None) by (vm_compute; reflexivity).
    rewrite Hend' in Hb'. discriminate Hb'.
Qed.

(** The swap to an id that names no recipe of the product, step by step:
    the graph keeps the old node, the budget sits under the new key, and the
    swap back changes nothing. *)
Lemma swapNodeRecipe_back_unknown_id :
  let idx := Examples.gears in
  let s := Examples.gear_store in
  let s1 := swapNodeRecipe idx "Gear::R1" "Nope" s in
  let s2 := swapNodeRecipe idx (nodeIdFor "Gear" "Nope") "R1" s1 in
  build idx s = s
  /\ State.expandedByNode s !! "Gear::R1" = Some 2%Z
  /\ map GraphNode.id (State.graphNodes s1) = ["Gear::R1"]
  /\ s2 = s1
  /\ State.expandedByNode s2 !! "Gear::R1" = None
  /\ State.expandedByNode s2 !! "Gear::Nope" = Some 2%Z.
Proof.
  cbv zeta. split; [apply build_idem|]. repeat split; vm_compute; reflexivity.
Qed.

(** When the original recipe has the empty id, the swap back stores it as
    the explicit choice, which resolution skips: the node stays under the
    new id and the original id is not restored. *)
Lemma swapNodeRecipe_back_empty_original :
  let idx := PRODUCT_INDEX [Examples.Rnoid0; Examples.R1b] in
  let s := Examples.noid0_store in
  let s1 := swapNodeRecipe idx "Gear::" "R1b" s in
  let s2 := swapNodeRecipe idx (nodeIdFor "Gear" "R1b") "" s1 in
  build idx s = s
  /\ map GraphNode.id (State.graphNodes s) = ["Gear::"]
  /\ State.expandedByNode s !! "Gear::" = Some 2%Z
  /\ Examples.R1b ∈ default [] (idx !! "Gear")
  /\ map GraphNode.id (State.graphNodes s1) = ["Gear::R1b"]
  /\ map GraphNode.id (State.graphNodes s2) = ["Gear::R1b"]
  /\ State.choicesRecipe s2 !! "Gear" = Some (Some "").
Proof.
  cbv zeta. split; [apply build_idem|].
  split; [vm_compute; reflexivity|]. split; [vm_compute; reflexivity|].
  split; [vm_compute; right; left|]. repeat split; vm_compute; reflexivity.
Qed.

(** When the new node id is also the id of a node of another product, the
    rebuild reuses that node for the swapped product, the swap back acts on
    the other product, and the original id gets neither node nor budget. *)
Lemma swapNodeRecipe_back_colliding_ids :
  let idx := PRODUCT_INDEX [Examples.Rpitch; Examples.Rtar; Examples.Rtar2] in
  let s := Examples.tar_store in
  let s1 := swapNodeRecipe idx "Tar::R0" "Pitch::R" s in
  let s2 := swapNodeRecipe idx (nodeIdFor "Tar" "Pitch::R") "R0" s1 in
  build idx s = s
  /\ map GraphNode.id (State.graphNodes s) = ["Tar::Pitch::R"; "Tar::R0"]
  /\ State.expandedByNode s !! "Tar::R0" = Some 2%Z
  /\ Examples.Rtar2 ∈ default [] (idx !! "Tar")
  /\ nodeIdFor "Tar" (Recipe.recipeId Examples.Rtar2) = nodeIdFor "Tar::Pitch" (Recipe.recipeId Examples.Rpitch)
  /\ map GraphNode.product (State.graphNodes s1) = ["Tar::Pitch"]
  /\ map GraphNode.id (State.graphNodes s2) = ["Tar::Pitch::R"]
  /\ State.expandedByNode s2 !! "Tar::R0" = None.
Proof.
  cbv zeta. split; [apply build_idem|].
  split; [vm_compute; reflexivity|]. split; [vm_compute; reflexivity|].
  split; [vm_compute; right; left|]. repeat split; vm_compute; reflexivity.
Qed.

(** When the graph is not the one of the current targets, the rebuild of
    the first swap drops the node, and the swap back finds nothing. *)
Lemma swapNodeRecipe_back_stale_graph :
  let idx := PRODUCT_INDEX Examples.steel_catalog in
  let s := Examples.stale_store in
  let s1 := swapNodeRecipe idx "Gear::R1" "R1b" s in
  let s2 := swapNodeRecipe idx (nodeIdFor "Gear" "R1b") "R1" s1 in
  map GraphNode.id (State.graphNodes s) = ["Gear::R1"]
  /\ map GraphNode.id (State.graphNodes (build idx s)) = ["Steel::Ra"]
  /\ State.expandedByNode s !! "Gear::R1" = Some 2%Z
  /\ Examples.R1b ∈ default [] (idx !! "Gear")
  /\ map GraphNode.id (State.graphNodes s1) = ["Steel::Ra"]
  /\ s2 = s1
  /\ State.expandedByNode s2 !! "Gear::R1" = None.
Proof.
  cbv zeta.
  split; [vm_compute; reflexivity|]. split; [vm_compute; reflexivity|].
  split; [vm_compute; reflexivity|].
  split; [vm_compute; right; left|]. repeat split; vm_compute; reflexivity.
Qed.

(** C7 (amended). On a built store (its graph is the one [build] publishes
    for its targets, choices and budgets) over a catalog in which no two
    (product, recipe) pairs share a node id: swapping the recipe of a node
    that carries a positive budget to another recipe of its product, and then
    swapping the node of the new id back to the original recipe, both recipe
    ids being non-empty, puts the node back in the graph under its original
    id product::originalRecipeId and leaves under that id a budget at least
    as large as before.  Each swap moves the budget of the old id to the new
    id with a max-merge and deletes the old key. *)
Theorem swapNodeRecipe_back (RECIPES : list Recipe.t) (s : State.t)
    (nodeId : string) (node : GraphNode.t) (r1 : Recipe.t) (b : Z) :
  let idx := PRODUCT_INDEX RECIPES in
  let P := GraphNode.product node in
  let R0 := GraphNode.recipeId node in
  let R1 := Recipe.recipeId r1 in
  let s1 := swapNodeRecipe idx nodeId R1 s in
  let s2 := swapNodeRecipe idx (nodeIdFor P R1) R0 s1 in
  ids_distinct idx ->
  State.graphNodes (build idx s) = State.graphNodes s ->
  Js.find (fun n => String.eqb (GraphNode.id n) nodeId) (State.graphNodes s) = Some node ->
  State.expandedByNode s !! nodeId = Some b ->
  (0 < b)%Z ->
  r1 ∈ default [] (idx !! P) ->
  R1 <> R0 -> R1 <> "" -> R0 <> "" ->
  nodeId = nodeIdFor P R0
  /\ (exists node1,
        Js.find (fun n => String.eqb (GraphNode.id n) (nodeIdFor P R1)) (State.graphNodes s1)
        = Some node1
        /\ GraphNode.product node1 = P)
  /\ (exists node2,
        Js.find (fun n => String.eqb (GraphNode.id n) nodeId) (State.graphNodes s2)
        = Some node2
        /\ GraphNode.product node2 = P)
  /\ (exists b', State.expandedByNode s2 !! nodeId = Some b' /\ (b <= b')%Z)
  /\ State.expandedByNode s2 !! nodeIdFor P R1 = None
  /\ State.choicesRecipe s2 !! P = Some (Some R0).
Proof.
  cbv zeta. intros Hdist Hcur Hfind Hb Hpos Hr1 Hnew Hne1 Hne0.
  pose proof (PRODUCT_INDEX_ok RECIPES) as Hidx.
  set (idx := PRODUCT_INDEX RECIPES) in *.
  destruct (swapNodeRecipe_materializes idx s nodeId node r1 Hidx Hdist Hcur Hfind Hr1 Hne1)
    as (Hid & (r0 & Hr0 & Hr0id) & Hcur1 & node1 & Hfind1 & HP1).
  cbv zeta in Hcur1, Hfind1.
  set (s1 := swapNodeRecipe idx nodeId (Recipe.recipeId r1) s) in *.
  rewrite <- HP1 in Hr0.
  destruct (swapNodeRecipe_materializes idx s1 _ node1 r0 Hidx Hdist Hcur1 Hfind1 Hr0)
    as (_ & _ & _ & node2 & Hfind2 & HP2); [by rewrite Hr0id|].
  cbv zeta in Hfind2. rewrite Hr0id, HP1, <- Hid in Hfind2.
  destruct (swap_round_trip_found idx nodeId (Recipe.recipeId r1) s node node1 b
              Hfind Hid Hb Hpos Hnew Hfind1 HP1) as (_ & Hbud & Hgone & Hcr).
  split; [done|]. split; [by exists node1|]. split; [|done].
  exists node2. split; [done | congruence].
Qed.

Lemma swapNodeRecipe_back_witness :
  let s1 := swapNodeRecipe Examples.gears "Gear::R1" "R1b" Examples.gear_store in
  let s2 := swapNodeRecipe Examples.gears "Gear::R1b" "R1" s1 in
  (exists b', State.expandedByNode s2 !! "Gear::R1" = Some b' /\ (2 <= b')%Z)
  /\ map GraphNode.id (State.graphNodes s1) = ["Gear::R1b"]
  /\ map GraphNode.id (State.graphNodes s2) = ["Gear::R1"].
Proof.
  cbv zeta. split; [|split; vm_compute; reflexivity].
  refine (proj1 (proj2 (proj2 (proj2
    (swapNodeRecipe_back [Examples.R1; Examples.R1b] Examples.gear_store "Gear::R1"
       (makeNode Examples.R1 "Gear" 60 0) Examples.R1b 2 _ _ _ _ _ _ _ _ _)))));
    try (vm_compute; reflexivity); try (intros [=]).
  - intros p1 r1 p2 r2 H1 H2 E.
    assert (Hp : forall p r, r ∈ default [] (Examples.gears !! p) -> p = "Gear").
    { intros p r Hr. destruct (decide (p = "Gear")) as [-> | Hne]; [done|].
      exfalso. unfold Examples.gears in Hr. rewrite PRODUCT_INDEX_lookup in Hr.
      cbn in Hr. rewrite !decide_False in Hr by (intros E'; by rewrite <- E' in Hne).
      by apply elem_of_nil in Hr. }
    by rewrite (Hp _ _ H1), (Hp _ _ H2).
  - vm_compute. right. left.
Defined.

(** ** Sorting and distinct elements *)

Lemma sort_insert_perm {A} (le : A -> A -> bool) (x : A) (l : list A) :
  Js.sort_insert le x l ≡ₚ x :: l.
Proof.
  induction l as [|y l IH]; cbn; [done|].
  destruct (le x y); [done|]. rewrite IH. apply Permutation_swap.
Qed.

Lemma sort_perm {A} (le : A -> A -> bool) (l : list A) : Js.sort le l ≡ₚ l.
Proof.
  induction l as [|x l IH]; cbn; [done|].
  unfold Js.sort in IH. by rewrite sort_insert_perm, IH.
Qed.

Section Sorted.

Context {A : Type} (le : A -> A -> bool).
Hypothesis le_total : forall a b, le a b = false -> le b a = true.
Hypothesis le_trans : forall a b c, le a b = true -> le b c = true -> le a c = true.

Lemma sort_insert_sorted (x : A) (l : list A) :
  StronglySorted (fun a b => le a b = true) l ->
  StronglySorted (fun a b => le a b = true) (Js.sort_insert le x l).
Proof.
  induction 1 as [|y l Hs IH Hy]; cbn.
  - repeat constructor.
  - destruct (le x y) eqn:E.
    + constructor; [by constructor|].
      constructor; [done|]. eapply Forall_impl; [exact Hy|].
      intros z Hz. by eapply le_trans.
    + constructor; [done|].
      rewrite sort_insert_perm. constructor; [by apply le_total|done].
Qed.

Lemma sort_sorted (l : list A) :
  StronglySorted (fun a b => le a b = true) (Js.sort le l).
Proof.
  induction l as [|x l IH]; cbn; [constructor|].
  by apply sort_insert_sorted.
Qed.

End Sorted.

Lemma StronglySorted_weaken {A} (R S : A -> A -> Prop) (l : list A) :
  (forall a b, R a b -> S a b) -> StronglySorted R l -> StronglySorted S l.
Proof.
  intros H. induction 1 as [|x l Hs IH Hx]; constructor; [done|].
  eapply Forall_impl; [exact Hx|]. intros y. apply H.
Qed.

(** The sort is stable: elements that compare as equal keep their order. *)
Lemma sort_insert_filter {A} (le : A -> A -> bool) (p : A -> bool) (x : A) (l : list A) :
  (forall y, p x = true -> p y = true -> le x y = true) ->
  List.filter p (Js.sort_insert le x l) = List.filter p (x :: l).
Proof.
  intros Hp. induction l as [|y l IH]; [done|].
  cbn [Js.sort_insert]. destruct (le x y) eqn:E; [done|].
  cbn [List.filter] in *. rewrite IH.
  destruct (p x) eqn:Ex; [|done].
  destruct (p y) eqn:Ey; [|done].
  rewrite (Hp y eq_refl Ey) in E. discriminate.
Qed.

Lemma sort_filter {A} (le : A -> A -> bool) (p : A -> bool) (l : list A) :
  (forall x y, p x = true -> p y = true -> le x y = true) ->
  List.filter p (Js.sort le l) = List.filter p l.
Proof.
  intros Hp. induction l as [|x l IH]; [done|].
  cbn [Js.sort foldr]. rewrite sort_insert_filter by (intros; by apply Hp).
  cbn [List.filter]. unfold Js.sort in IH. by rewrite IH.
Qed.

Lemma distinct_spec `{EqDecision A} (l acc : list A) :
  NoDup acc ->
  let r := fold_left (fun acc x => if decide (x ∈ acc) then acc else acc ++ [x]) l acc in
  NoDup r /\ forall x, x ∈ r <-> x ∈ acc \/ x ∈ l.
Proof.
  revert acc. induction l as [|y l IH]; intros acc Hnd; cbn.
  - split; [done|]. intros x. rewrite elem_of_nil. tauto.
  - destruct (decide (y ∈ acc)) as [Hin|Hnin].
    + destruct (IH acc Hnd) as [H1 H2]. split; [done|].
      intros x. rewrite H2, elem_of_cons. split; [tauto|].
      intros [?|[->|?]]; tauto.
    + assert (Hnd' : NoDup (acc ++ [y])).
      { apply NoDup_app. split_and!; [done| |apply NoDup_singleton].
        intros x Hx ->%list_elem_of_singleton. done. }
      destruct (IH _ Hnd') as [H1 H2]. split; [done|].
      intros x. rewrite H2, elem_of_app, !elem_of_cons, elem_of_nil. tauto.
Qed.

Lemma distinct_NoDup `{EqDecision A} (l : list A) : NoDup (Js.distinct l).
Proof. apply (distinct_spec l []). constructor. Qed.

Lemma distinct_elem `{EqDecision A} (l : list A) (x : A) : x ∈ Js.distinct l <-> x ∈ l.
Proof.
  destruct (distinct_spec l [] (NoDup_nil_2)) as [_ H]. unfold Js.distinct.
  rewrite H, elem_of_nil. tauto.
Qed.

(** ** [trim] is idempotent *)

Lemma rev_app_rev (s1 s2 : string) :
  String.rev (String.rev_app s1 s2) = String.rev_app s2 s1.
Proof.
  revert s2. induction s1 as [|a s1 IH]; intros s2; [done|].
  cbn [String.rev_app]. by rewrite IH.
Qed.

Lemma rev_involutive (s : string) : String.rev (String.rev s) = s.
Proof. unfold String.rev at 2. by rewrite rev_app_rev. Qed.

Lemma append_assoc (s1 s2 s3 : string) : (s1 +:+ s2) +:+ s3 = s1 +:+ (s2 +:+ s3).
Proof.
  induction s1 as [|a s1 IH]; [done|].
  change (String a ((s1 +:+ s2) +:+ s3) = String a (s1 +:+ (s2 +:+ s3))).
  by rewrite IH.
Qed.

Lemma rev_app_append (s1 s2 : string) :
  String.rev_app s1 s2 = String.rev s1 +:+ s2.
Proof.
  unfold String.rev. revert s2. induction s1 as [|a s1 IH]; intros s2; [done|].
  cbn [String.rev_app]. rewrite IH, (IH (String a "")).
  by rewrite append_assoc.
Qed.

Lemma trimStart_clean (s : string) : clean_start_b (Js.trimStart s) = true.
Proof.
  induction s as [|c s IH]; [done|]. cbn [Js.trimStart].
  destruct (Js.is_space c) eqn:E; [done|]. cbn. by rewrite E.
Qed.

Lemma clean_trimStart (s : string) : clean_start_b s = true -> Js.trimStart s = s.
Proof. destruct s as [|c s]; [done|]. cbn. by destruct (Js.is_space c). Qed.

Lemma clean_rev_cons (c : ascii) (s : string) :
  s <> "" -> clean_start_b (String.rev (String c s)) = clean_start_b (String.rev s).
Proof.
  intros Hs. unfold String.rev at 1. cbn [String.rev_app].
  rewrite rev_app_append.
  destruct (String.rev s) as [|d t] eqn:E; [|done].
  apply (f_equal String.rev) in E. rewrite rev_involutive in E. done.
Qed.

Lemma trimStart_clean_end (s : string) :
  clean_start_b (String.rev s) = true ->
  clean_start_b (String.rev (Js.trimStart s)) = true.
Proof.
  induction s as [|c s IH]; [done|]. cbn [Js.trimStart].
  destruct (Js.is_space c) eqn:E; [|done].
  destruct s as [|d s]; [done|].
  rewrite clean_rev_cons by done. exact IH.
Qed.

Lemma trim_idem (s : string) : Js.trim (Js.trim s) = Js.trim s.
Proof.
  unfold Js.trim, Js.trimEnd.
  set (u := Js.trimStart (String.rev (Js.trimStart s))).
  assert (Hu : clean_start_b u = true) by apply trimStart_clean.
  assert (Hr : clean_start_b (String.rev u) = true).
  { apply trimStart_clean_end. rewrite rev_involutive. apply trimStart_clean. }
  rewrite (clean_trimStart _ Hr), rev_involutive. by rewrite (clean_trimStart _ Hu).
Qed.

(** ** lib/buildIndex: the index, the product list and the lookups *)

Lemma producers_elem (RECIPES : list Recipe.t) (k : string) (r : Recipe.t) :
  r ∈ producers RECIPES k <->
  r ∈ RECIPES /\ exists o, o ∈ Recipe.outputs r /\ Js.trim (IO.name o) = k.
Proof.
  unfold producers. rewrite list_elem_of_In, in_flat_map. split.
  - intros (r' & Hr' & Hin). apply in_flat_map in Hin as (o & Ho & Hin).
    case_decide as E; [|done]. destruct Hin as [<-|[]].
    split; [by apply list_elem_of_In|]. exists o. split; [by apply list_elem_of_In|done].
  - intros (Hr & o & Ho & E). exists r. split; [by apply list_elem_of_In|].
    apply in_flat_map. exists o. split; [by apply list_elem_of_In|].
    rewrite decide_True by done. by left.
Qed.

Lemma PRODUCT_INDEX_trimmed (RECIPES : list Recipe.t) (k : string) :
  is_Some (PRODUCT_INDEX RECIPES !! k) -> Js.trim k = k.
Proof.
  intros [l Hl]. pose proof (PRODUCT_INDEX_nonempty _ _ _ Hl) as Hne.
  pose proof (PRODUCT_INDEX_lookup RECIPES k) as Hp. rewrite Hl in Hp. cbn in Hp.
  destruct l as [|r l]; [done|].
  assert (Hr : r ∈ producers RECIPES k) by (rewrite <- Hp; left).
  apply producers_elem in Hr as (_ & o & _ & <-). apply trim_idem.
Qed.

(** X1. [PRODUCT_INDEX] maps a name to the recipes with an output of that
    trimmed name, in catalog order and once per such output; a name that no
    output carries is absent (never an empty list), and every key is a
    trimmed name. *)
Theorem PRODUCT_INDEX_spec (RECIPES : list Recipe.t) (k : string) :
  PRODUCT_INDEX RECIPES !! k
  = match producers RECIPES k with [] => None | l => Some l end
  /\ (forall r, r ∈ producers RECIPES k <->
        r ∈ RECIPES /\ exists o, o ∈ Recipe.outputs r /\ Js.trim (IO.name o) = k)
  /\ (is_Some (PRODUCT_INDEX RECIPES !! k) -> Js.trim k = k).
Proof.
  split_and!.
  - pose proof (PRODUCT_INDEX_lookup RECIPES k) as Hp.
    destruct (PRODUCT_INDEX RECIPES !! k) as [l|] eqn:E; cbn in Hp.
    + rewrite <- Hp. apply PRODUCT_INDEX_nonempty in E. by destruct l.
    + by rewrite <- Hp.
  - apply producers_elem.
  - apply PRODUCT_INDEX_trimmed.
Qed.

Lemma leb_trans (a b c : string) :
  String.leb a b = true -> String.leb b c = true -> String.leb a c = true.
Proof.
  intros H1 H2. apply Is_true_true. apply Is_true_true in H1, H2.
  change (String.le a c). by etrans.
Qed.

Lemma leb_false (a b : string) : String.leb a b = false -> String.leb b a = true.
Proof. intros H. destruct (String.leb_total a b) as [E|E]; congruence. Qed.

Lemma sorted_NoDup_strict {A} (R : A -> A -> Prop) (l : list A) :
  StronglySorted R l -> NoDup l -> StronglySorted (fun a b => R a b /\ a <> b) l.
Proof.
  induction 1 as [|x l Hs IH Hx]; intros Hnd; [constructor|].
  apply NoDup_cons in Hnd as [Hx' Hnd]. constructor; [by apply IH|].
  rewrite Forall_forall in Hx |- *. intros y Hy. split; [by apply Hx|].
  intros ->. done.
Qed.

(** X2. [ALL_PRODUCTS] lists exactly the trimmed input and output names of
    the catalog, each once, in strictly ascending order; every key of
    [PRODUCT_INDEX] is among them. *)
Theorem ALL_PRODUCTS_spec (RECIPES : list Recipe.t) :
  StronglySorted (fun a b => String.leb a b = true /\ a <> b) (ALL_PRODUCTS RECIPES)
  /\ (forall k, k ∈ ALL_PRODUCTS RECIPES <->
        exists r io, r ∈ RECIPES
                     /\ (io ∈ Recipe.inputs r \/ io ∈ Recipe.outputs r)
                     /\ Js.trim (IO.name io) = k)
  /\ (forall k, is_Some (PRODUCT_INDEX RECIPES !! k) -> k ∈ ALL_PRODUCTS RECIPES).
Proof.
  assert (Hel : forall k, k ∈ ALL_PRODUCTS RECIPES <->
        exists r io, r ∈ RECIPES
                     /\ (io ∈ Recipe.inputs r \/ io ∈ Recipe.outputs r)
                     /\ Js.trim (IO.name io) = k).
  { intros k. unfold ALL_PRODUCTS. rewrite sort_perm, distinct_elem.
    rewrite list_elem_of_In, in_flat_map. split.
    - intros (r & Hr & Hin). apply in_app_or in Hin.
      destruct Hin as [Hin|Hin]; apply in_map_iff in Hin as (io & <- & Hio);
        exists r, io; rewrite !list_elem_of_In; tauto.
    - intros (r & io & Hr & Hio & <-). exists r. rewrite <- list_elem_of_In.
      split; [done|]. apply in_or_app. rewrite !in_map_iff.
      destruct Hio as [Hio|Hio]; [left|right]; exists io; by rewrite <- list_elem_of_In. }
  split_and!; [|exact Hel|].
  - apply sorted_NoDup_strict.
    + apply sort_sorted; [apply leb_false | apply leb_trans].
    + unfold ALL_PRODUCTS. rewrite sort_perm. apply distinct_NoDup.
  - intros k [l Hl]. apply Hel.
    pose proof (PRODUCT_INDEX_nonempty _ _ _ Hl) as Hne.
    pose proof (PRODUCT_INDEX_lookup RECIPES k) as Hp. rewrite Hl in Hp. cbn in Hp.
    destruct l as [|r l]; [done|].
    assert (Hr : r ∈ producers RECIPES k) by (rewrite <- Hp; left).
    apply producers_elem in Hr as (Hr & o & Ho & E). exists r, o. tauto.
Qed.

Lemma same_name_trimmed (a : string) : same_name a (Js.trim a) = true.
Proof. unfold same_name. rewrite trim_idem. apply String.eqb_refl. Qed.

Lemma same_name_trans (a b c : string) :
  same_name a b = true -> same_name b c = true -> same_name a c = true.
Proof. unfold same_name. rewrite !String.eqb_eq. congruence. Qed.

Lemma same_name_find (r : Recipe.t) (p p' : string) :
  same_name p p' = true ->
  Js.find (fun o => same_name (IO.name o) p) (Recipe.outputs r)
  = Js.find (fun o => same_name (IO.name o) p') (Recipe.outputs r).
Proof.
  intros H. induction (Recipe.outputs r) as [|o l IH]; [done|]. cbn [Js.find].
  rewrite IH. enough (same_name (IO.name o) p = same_name (IO.name o) p') as -> by done.
  unfold same_name in *. apply String.eqb_eq in H. by rewrite H.
Qed.

(** X3. The rate lookup reads the product name up to surrounding white
    space and letter case; and a recipe that [PRODUCT_INDEX] lists under a
    name always has a matching output, the first of which gives the rate
    (the no-match branch is not taken). *)
Theorem outputRatePerMin_indexed (RECIPES : list Recipe.t) (k p : string)
    (l : list Recipe.t) (r : Recipe.t) :
  PRODUCT_INDEX RECIPES !! k = Some l -> r ∈ l ->
  same_name k p = true ->
  outputRatePerMin r p = outputRatePerMin r k
  /\ exists out,
       Js.find (fun o => same_name (IO.name o) k) (Recipe.outputs r) = Some out
       /\ out ∈ Recipe.outputs r
       /\ outputRatePerMin r p = ((IO.qtyPerCycle out / Recipe.timeSec r) * 60)%Q.
Proof.
  intros Hl Hr Hp.
  assert (E : outputRatePerMin r p = outputRatePerMin r k).
  { unfold outputRatePerMin. by rewrite (same_name_find r k p Hp). }
  split; [exact E|]. rewrite E.
  pose proof (PRODUCT_INDEX_lookup RECIPES k) as Hk. rewrite Hl in Hk. cbn in Hk.
  rewrite Hk in Hr. apply producers_elem in Hr as (_ & o & Ho & Eo).
  unfold outputRatePerMin.
  destruct (Js.find (fun o => same_name (IO.name o) k) (Recipe.outputs r)) as [out|] eqn:F.
  - exists out. split; [done|]. apply find_some in F as [F _]. done.
  - apply find_none in F. rewrite Forall_forall in F. specialize (F o Ho). cbn in F.
    rewrite <- Eo, same_name_trimmed in F. discriminate.
Qed.

Lemma outputRatePerMin_indexed_witness :
  outputRatePerMin Examples.R3 " ore"
  = outputRatePerMin Examples.R3 "Ore"
  /\ exists out,
       Js.find (fun o => same_name (IO.name o) "Ore") (Recipe.outputs Examples.R3) = Some out
       /\ out ∈ Recipe.outputs Examples.R3
       /\ outputRatePerMin Examples.R3 " ore"
          = ((IO.qtyPerCycle out / Recipe.timeSec Examples.R3) * 60)%Q.
Proof.
  apply (outputRatePerMin_indexed Examples.chain "Ore" " ore" [Examples.R3] Examples.R3).
  - vm_compute. reflexivity.
  - left.
  - vm_compute. reflexivity.
Defined.

Lemma pick_no_hints (idx : ProductIndex) (k : string) (preferredId : option string) :
  pickRecipeWithPrefs idx k preferredId None None
  = match idx !! k with
    | None => None
    | Some list =>
      match (if Js.truthy preferredId
             then Js.find (fun r => bool_decide (Some (Recipe.recipeId r) = preferredId)) list
             else None) with
      | Some r => Some r
      | None => head list
      end
    end.
Proof.
  unfold pickRecipeWithPrefs. cbn [Js.truthy].
  destruct (idx !! k) as [list|]; cbn [from_option id]; [done|].
  by destruct (Js.truthy preferredId).
Qed.

(** X4. On the built index [pickRecipeForProduct] is the store's resolver
    without building hints, applied to the trimmed name or else to the
    trimmed name with its inner white space collapsed; in particular it
    ignores white space around the product name. *)
Theorem pickRecipeForProduct_spec (RECIPES : list Recipe.t) (product : string)
    (preferredId : option string) :
  pickRecipeForProduct (PRODUCT_INDEX RECIPES) product preferredId
  = (if craftable (PRODUCT_INDEX RECIPES) (Js.trim product)
     then pickRecipeWithPrefs (PRODUCT_INDEX RECIPES) (Js.trim product) preferredId None None
     else pickRecipeWithPrefs (PRODUCT_INDEX RECIPES)
            (Js.collapseSpaces (Js.trim product)) preferredId None None)
  /\ pickRecipeForProduct (PRODUCT_INDEX RECIPES) (Js.trim product) preferredId
     = pickRecipeForProduct (PRODUCT_INDEX RECIPES) product preferredId.
Proof.
  set (idx := PRODUCT_INDEX RECIPES).
  assert (Hmain : forall p,
    pickRecipeForProduct idx p preferredId
    = (if craftable idx (Js.trim p)
       then pickRecipeWithPrefs idx (Js.trim p) preferredId None None
       else pickRecipeWithPrefs idx (Js.collapseSpaces (Js.trim p)) preferredId None None)).
  { intros p. unfold pickRecipeForProduct, craftable. rewrite !pick_no_hints.
    assert (Hp : Js.or_else (idx !! p)
               (Js.or_else (idx !! Js.trim p) (idx !! Js.collapseSpaces (Js.trim p)))
             = Js.or_else (idx !! Js.trim p) (idx !! Js.collapseSpaces (Js.trim p))).
    { destruct (idx !! p) as [l|] eqn:E; [|done].
      rewrite (PRODUCT_INDEX_trimmed RECIPES p) by (exists l; exact E).
      by rewrite E. }
    rewrite Hp.
    destruct (idx !! Js.trim p) as [l|] eqn:E; cbn [Js.or_else].
    - rewrite bool_decide_true by done.
      apply PRODUCT_INDEX_nonempty in E. by destruct l.
    - rewrite bool_decide_false by (by intros [? ?]).
      destruct (idx !! Js.collapseSpaces (Js.trim p)) as [l|] eqn:E'; [|done].
      apply PRODUCT_INDEX_nonempty in E'. by destruct l. }
  split; [apply Hmain|]. by rewrite !Hmain, trim_idem.
Qed.

Lemma groups_lookup (l : list Recipe.t) (g0 : gmap string (list Recipe.t)) (b : string) :
  default [] (fold_left (fun groups r => push groups (building_key r) r) l g0 !! b)
  = default [] (g0 !! b) ++ List.filter (fun r => String.eqb (building_key r) b) l.
Proof.
  revert g0. induction l as [|r l IH]; intros g0; cbn [fold_left List.filter].
  - by rewrite app_nil_r.
  - rewrite IH, push_lookup. rewrite <- app_assoc. f_equal.
    case_decide as E.
    + by rewrite (proj2 (String.eqb_eq _ _) E).
    + by rewrite (proj2 (String.eqb_neq _ _) E).
Qed.

Lemma groups_nonempty (l : list Recipe.t) (g0 : gmap string (list Recipe.t)) :
  (forall k rs, g0 !! k = Some rs -> rs <> []) ->
  forall k rs,
    fold_left (fun groups r => push groups (building_key r) r) l g0 !! k = Some rs ->
    rs <> [].
Proof.
  revert g0. induction l as [|r l IH]; intros g0 H0; cbn [fold_left]; [done|].
  apply IH. by apply push_nonempty.
Qed.

Lemma building_key_nonempty (r : Recipe.t) : building_key r <> "".
Proof.
  unfold building_key. destruct (String.eqb_spec (Js.trim (Recipe.building r)) ""); done.
Qed.

Lemma faster_total (a b : Recipe.t) : faster a b = false -> faster b a = true.
Proof.
  unfold faster. intros H. apply Qle_bool_iff.
  destruct (Qlt_le_dec (Recipe.timeSec b) (Recipe.timeSec a)) as [Hlt|Hle].
  - by apply Qlt_le_weak.
  - apply Qle_bool_iff in Hle. congruence.
Qed.

Lemma faster_trans (a b c : Recipe.t) :
  faster a b = true -> faster b c = true -> faster a c = true.
Proof. unfold faster. rewrite !Qle_bool_iff. apply Qle_trans. Qed.

(** X5. [recipesByBuildingForProduct] has one group per building name that
    occurs among the recipes of the product, trimmed, with [Unknown] for
    recipes without a building name and never a group under the empty name.
    A group holds exactly the product's recipes of that building, by
    ascending time, recipes of equal time in catalog order. *)
Theorem recipesByBuildingForProduct_spec (idx : ProductIndex) (product b : string) :
  let rs := List.filter (fun r => String.eqb (building_key r) b)
              (default [] (idx !! product)) in
  recipesByBuildingForProduct idx product !! b
  = match rs with [] => None | _ => Some (Js.sort faster rs) end
  /\ Js.sort faster rs ≡ₚ rs
  /\ StronglySorted (fun a c => (Recipe.timeSec a <= Recipe.timeSec c)%Q)
       (Js.sort faster rs)
  /\ (forall t,
        List.filter (fun r => Qeq_bool (Recipe.timeSec r) t) (Js.sort faster rs)
        = List.filter (fun r => Qeq_bool (Recipe.timeSec r) t) rs)
  /\ recipesByBuildingForProduct idx product !! "" = None.
Proof.
  intros rs.
  assert (Hlook : forall b',
    recipesByBuildingForProduct idx product !! b'
    = match List.filter (fun r => String.eqb (building_key r) b')
              (default [] (idx !! product)) with
      | [] => None
      | l => Some (Js.sort faster l)
      end).
  { intros b'. unfold recipesByBuildingForProduct. rewrite lookup_fmap.
    pose proof (groups_lookup (default [] (idx !! product)) ∅ b') as Hg.
    pose proof (groups_nonempty (default [] (idx !! product)) ∅) as Hne.
    rewrite lookup_empty in Hg. cbn [from_option id app] in Hg.
    destruct (fold_left _ _ _ !! b') as [l|] eqn:E; cbn in Hg |- *.
    - rewrite <- Hg. apply Hne in E; [|by intros ? ?; rewrite lookup_empty].
      by destruct l.
    - by rewrite <- Hg. }
  split_and!.
  - rewrite Hlook. fold rs. by destruct rs.
  - apply sort_perm.
  - eapply StronglySorted_weaken; [|apply sort_sorted; [apply faster_total|apply faster_trans]].
    intros a c. apply Qle_bool_iff.
  - intros t. apply sort_filter. intros x y Hx Hy. unfold faster.
    apply Qeq_bool_iff in Hx, Hy. apply Qle_bool_iff. rewrite Hx, Hy. apply Qle_refl.
  - rewrite Hlook. clear rs.
    destruct (List.filter _ (default [] (idx !! product))) as [|r l] eqn:E; [done|].
    assert (Hr : In r (List.filter (fun r => String.eqb (building_key r) "")
                         (default [] (idx !! product)))) by (rewrite E; left; done).
    apply filter_In in Hr as [_ Hr]. apply String.eqb_eq in Hr.
    by apply building_key_nonempty in Hr.
Qed.

(** ** Tallies: byproducts and frontier needs *)

Lemma sumQ_snoc (l : list Q) (x : Q) : sumQ (l ++ [x]) = (sumQ l + x)%Q.
Proof. unfold sumQ. by rewrite fold_left_app. Qed.

Lemma tally_lookup (k : string) (l : list (string * Q)) :
  exists v,
    (v == sumQ (tallied k l))%Q
    /\ fold_left tally l ∅ !! k
       = match tallied k l with [] => None | _ => Some v end.
Proof.
  induction l as [|[k' x] l IH] using rev_ind.
  - exists 0%Q. split; [reflexivity|]. cbn. apply lookup_empty.
  - destruct IH as (v & Hv & Hl). rewrite fold_left_app. cbn [fold_left].
    unfold tally at 1. cbn [fst snd]. unfold tallied in *.
    rewrite List.filter_app, map_app. cbn [List.filter fst].
    destruct (String.eqb_spec k' k) as [->|Hne].
    + cbn [map snd]. rewrite lookup_insert_eq. eexists. split.
      2:{ destruct (map snd _ ++ [x]) eqn:E; [by destruct (map snd _)|reflexivity]. }
      rewrite sumQ_snoc, <- Hv. rewrite Hl.
      destruct (map snd _) as [|y t] eqn:E.
      * cbn. rewrite Hv. reflexivity.
      * by rewrite or0_Qeq.
    + cbn [map]. rewrite app_nil_r, lookup_insert_ne by done. by exists v.
Qed.

Lemma tally_r2 (k : string) (l : list (string * Q)) :
  (Js.r2 <$> fold_left tally l ∅) !! k
  = match tallied k l with [] => None | rates => Some (Js.r2 (sumQ rates)) end.
Proof.
  rewrite lookup_fmap. destruct (tally_lookup k l) as (v & Hv & ->).
  destruct (tallied k l); [done|]. cbn. f_equal. by apply r2_Qeq.
Qed.

Lemma fold_add_byproduct (outs : list NodeOut.t) (acc : gmap string Q) :
  fold_left add_byproduct outs acc
  = fold_left tally
      (map (fun o => (NodeOut.name o, NodeOut.ratePerMin o))
         (List.filter (fun o => negb (NodeOut.isTarget o)) outs))
      acc.
Proof.
  revert acc. induction outs as [|o outs IH]; intros acc; [done|].
  cbn [fold_left List.filter]. rewrite IH. unfold add_byproduct.
  by destruct (NodeOut.isTarget o).
Qed.

Lemma computeTotals_byproducts (idx : ProductIndex) (nodes : list GraphNode.t) :
  Totals.byproducts (computeTotals idx nodes)
  = Js.r2 <$> fold_left add_byproduct (flat_map GraphNode.outputs nodes) ∅.
Proof.
  unfold computeTotals. cbn [Totals.byproducts]. f_equal.
  generalize (∅ : gmap string Q) at 2 3 as byp.
  generalize (∅ : gmap string Q) as raw.
  induction nodes as [|n ns IH]; intros raw byp; [reflexivity|].
  cbn [fold_left flat_map]. rewrite fold_left_app. apply IH.
Qed.

Lemma computeTotals_byproducts_lookup (idx : ProductIndex) (nodes : list GraphNode.t)
    (k : string) :
  Totals.byproducts (computeTotals idx nodes) !! k
  = match byproduct_rates nodes k with
    | [] => None
    | rates => Some (Js.r2 (sumQ rates))
    end.
Proof.
  rewrite computeTotals_byproducts, fold_add_byproduct, tally_r2.
  unfold tallied, byproduct_rates.
  enough (E : forall l : list NodeOut.t,
    map snd (List.filter (fun kv : string * Q => String.eqb kv.1 k)
        (map (fun o => (NodeOut.name o, NodeOut.ratePerMin o))
           (List.filter (fun o => negb (NodeOut.isTarget o)) l)))
    = map NodeOut.ratePerMin
        (List.filter (fun o => negb (NodeOut.isTarget o) && String.eqb (NodeOut.name o) k) l))
    by (by rewrite E).
  induction l as [|o l IH]; [done|]. cbn [List.filter].
  destruct (NodeOut.isTarget o); cbn [negb andb map List.filter fst]; [exact IH|].
  destruct (String.eqb (NodeOut.name o) k); cbn [map snd]; by rewrite IH.
Qed.

(** X6. In the totals of a node list, [byproducts] holds an entry exactly
    for the names carried by an output that is not flagged as target, and
    the entry of such a name is the sum of the rates of those outputs over
    all nodes, rounded to 2 decimal places: a whole number of hundredths
    within half a hundredth of the sum (a sum exactly half way is left to
    either side).  It does not depend on the product index.  In the brick
    example the Ash output runs at 2/3 and [totals.byproducts] is
    [{Ash: 0.67}]. *)
Theorem totals_byproducts_sum (idx : ProductIndex) (nodes : list GraphNode.t) (k : string) :
  match byproduct_rates nodes k with
  | [] => Totals.byproducts (computeTotals idx nodes) !! k = None
  | rates => exists v, Totals.byproducts (computeTotals idx nodes) !! k = Some v
                       /\ rounded2 (sumQ rates) v
  end
  /\ exists ash total,
       byproduct_rates (State.graphNodes Examples.brick_example) "Ash" = [ash]
       /\ (ash == 2 # 3)%Q
       /\ Totals.byproducts (State.totals Examples.brick_example) = {[ "Ash" := total ]}
       /\ (total == 67 # 100)%Q.
Proof.
  split.
  - rewrite computeTotals_byproducts_lookup.
    destruct (byproduct_rates nodes k) as [|x l]; [done|].
    eexists. split; [reflexivity | apply r2_rounded].
  - eexists _, _. repeat split; vm_compute; reflexivity.
Qed.

Lemma is_leaf_spec (edges : list GraphEdge.t) (n : GraphNode.t) :
  PerProduct.is_leaf edges n
  = bool_decide (Forall (fun e => GraphEdge.source e <> GraphNode.id n) edges).
Proof.
  unfold PerProduct.is_leaf. induction edges as [|e edges IH]; [done|].
  cbn [existsb]. rewrite negb_orb, IH.
  destruct (String.eqb_spec (GraphEdge.source e) (GraphNode.id n)) as [E|E]; cbn.
  - symmetry. apply bool_decide_eq_false. intros H. by inversion H.
  - apply bool_decide_ext. split; [by constructor | by inversion 1].
Qed.

Lemma fold_add_need (ins : list NodeIO.t) (acc : gmap string Q) :
  fold_left PerProduct.add_need ins acc
  = fold_left tally (map (fun i => (NodeIO.name i, NodeIO.ratePerMin i)) ins) acc.
Proof. revert acc. induction ins as [|i ins IH]; intros acc; [done|]. cbn. by rewrite IH. Qed.

Lemma computeFrontierNeeds_lookup (nodes : list GraphNode.t) (edges : list GraphEdge.t)
    (k : string) :
  PerProduct.computeFrontierNeeds nodes edges !! k
  = match frontier_rates nodes edges k with
    | [] => None
    | rates => Some (Js.r2 (sumQ rates))
    end.
Proof.
  unfold PerProduct.computeFrontierNeeds, frontier_rates.
  rewrite (List.filter_ext _ _ (is_leaf_spec edges)).
  set (leaves := List.filter _ nodes).
  assert (E : forall acc,
    fold_left (fun needs leaf => fold_left PerProduct.add_need (GraphNode.inputs leaf) needs)
      leaves acc
    = fold_left tally
        (map (fun i => (NodeIO.name i, NodeIO.ratePerMin i))
           (flat_map GraphNode.inputs leaves)) acc).
  { induction leaves as [|n ns IH]; intros acc; [done|].
    cbn [fold_left flat_map]. rewrite IH, fold_add_need, map_app, fold_left_app. done. }
  rewrite E, tally_r2. unfold tallied, rates_named.
  enough (E' : forall l : list NodeIO.t,
    map snd (List.filter (fun kv : string * Q => String.eqb kv.1 k)
        (map (fun i => (NodeIO.name i, NodeIO.ratePerMin i)) l))
    = map NodeIO.ratePerMin (List.filter (fun i => String.eqb (NodeIO.name i) k) l))
    by (by rewrite E').
  induction l as [|i l IH]; [done|]. cbn [map List.filter fst].
  destruct (String.eqb (NodeIO.name i) k); cbn [map snd]; by rewrite IH.
Qed.

(** X7. [computeFrontierNeeds] holds an entry exactly for the names carried
    by an input of a leaf (a node that is the source of no edge), and the
    entry of such a name is the sum of the rates of those inputs over all
    leaves, rounded to 2 decimal places: a whole number of hundredths within
    half a hundredth of the sum (a sum exactly half way is left to either
    side).  Inputs of nodes that have a child are not counted, also when the
    child covers another input.  In the brick example the only node is a
    leaf that needs Clay at rate 2/3, and the frontier needs are
    [{Clay: 0.67}]. *)
Theorem computeFrontierNeeds_sum (nodes : list GraphNode.t) (edges : list GraphEdge.t)
    (k : string) :
  match frontier_rates nodes edges k with
  | [] => PerProduct.computeFrontierNeeds nodes edges !! k = None
  | rates => exists v, PerProduct.computeFrontierNeeds nodes edges !! k = Some v
                       /\ rounded2 (sumQ rates) v
  end
  /\ exists clay total,
       frontier_rates (State.graphNodes Examples.brick_example)
         (State.graphEdges Examples.brick_example) "Clay" = [clay]
       /\ (clay == 2 # 3)%Q
       /\ PerProduct.computeFrontierNeeds (State.graphNodes Examples.brick_example)
            (State.graphEdges Examples.brick_example)
          = {[ "Clay" := total ]}
       /\ (total == 67 # 100)%Q.
Proof.
  split.
  - rewrite computeFrontierNeeds_lookup.
    destruct (frontier_rates nodes edges k) as [|x l]; [done|].
    eexists. split; [reflexivity | apply r2_rounded].
  - eexists _, _. repeat split; vm_compute; reflexivity.
Qed.

(** ** An induction principle for the graphs of [build]

    [build] changes its graph in two ways: it makes a root for a target, and
    it takes a hop from a node through one of its craftable inputs, which
    makes or finds the child and connects it (in the expansion loop, only
    when no edge joins the two yet).  Whatever holds of the empty graph and
    is kept by both holds of every graph that [build] publishes. *)

Section BuildInduction.

Variable idx : ProductIndex.
Variable cr : gmap string (option string).
Variable cb : gmap string string.
Variable e : gmap string Z.
Variable targets : list Target.t.
Variable P : Graph.t -> Prop.

Hypothesis P_empty : P Graph.empty.

Hypothesis P_root : forall g t res g',
  P g -> graph_ok idx g -> t ∈ targets ->
  ensureNode idx cr cb (Target.product t) (Target.ratePerMin t) 0 None g = (res, g') ->
  P g'.

Hypothesis P_hop : forall g parent i d res g',
  P g -> graph_ok idx g -> parent ∈ Graph.nodes g -> i ∈ GraphNode.inputs parent ->
  craftable idx (NodeIO.name i) = true ->
  d = 1%nat \/ d = (GraphNode.depth parent + 1)%nat ->
  ensureNode idx cr cb (NodeIO.name i) (NodeIO.ratePerMin i) d
    (Some (GraphNode.building parent)) g = (res, g') ->
  match res with
  | None => P g'
  | Some child =>
    P (connect parent child (NodeIO.name i) g')
    /\ (connected parent child g' = true -> P g')
  end.

Local Abbreviation good g := (P g /\ graph_ok idx g).

Lemma fold_good {I : Type} (f : Graph.t -> I -> Graph.t) (Q : I -> Prop) (l : list I) :
  (forall g i, Q i -> good g -> good (f g i) /\ extends g (f g i)) ->
  Forall Q l ->
  forall g, good g -> good (fold_left f l g) /\ extends g (fold_left f l g).
Proof.
  intros Hf. induction 1 as [|i l Hi Hl IH]; intros g Hg; cbn [fold_left].
  - split; [done | apply extends_refl].
  - destruct (Hf g i Hi Hg) as [Hg1 Hext1]. destruct (IH _ Hg1) as [Hg2 Hext2].
    split; [done | by eapply extends_trans].
Qed.

Lemma baseline_input_good root g i :
  i ∈ GraphNode.inputs root -> root ∈ Graph.nodes g -> good g ->
  good (baseline_input idx cr cb root g i) /\ extends g (baseline_input idx cr cb root g i).
Proof.
  intros Hi Hroot [HP Hok]. unfold baseline_input.
  destruct (craftable idx (NodeIO.name i)) eqn:Hc; [|split; [done | apply extends_refl]].
  destruct (ensureNode idx cr cb (NodeIO.name i) (NodeIO.ratePerMin i) 1
              (Some (GraphNode.building root)) g) as [res g1] eqn:E.
  pose proof (P_hop g root i 1 res g1 HP Hok Hroot Hi Hc (or_introl eq_refl) E) as Hhop.
  destruct (ensureNode_summary idx cr cb _ _ _ _ _ _ _ Hok E) as (Hok1 & Hext1 & _).
  destruct res as [child|]; [|done]. destruct Hhop as [Hconn _].
  split; [split; [done | by apply connect_ok]|].
  eapply extends_trans; [exact Hext1 | apply connect_extends].
Qed.

Lemma baseline_target_good g t :
  t ∈ targets -> good g ->
  good (baseline_target idx cr cb g t) /\ extends g (baseline_target idx cr cb g t).
Proof.
  intros Ht [HP Hok]. unfold baseline_target.
  destruct (ensureNode idx cr cb (Target.product t) (Target.ratePerMin t) 0 None g)
    as [res g1] eqn:E.
  destruct (ensureNode_summary idx cr cb _ _ _ _ _ _ _ Hok E)
    as (Hok1 & Hext1 & _ & _ & Hnone & Hsome).
  assert (Hg1 : good g1) by (split; [by eapply P_root | done]).
  destruct res as [root|]; [|done].
  assert (Hroot : root ∈ Graph.nodes g1).
  { destruct (resolve idx cr cb (Target.product t) None) as [r|] eqn:Er;
      [|by destruct (Hnone eq_refl)].
    by destruct (Hsome r eq_refl) as (n & [= <-] & Hin & _). }
  enough (H : forall l, Forall (fun i => i ∈ GraphNode.inputs root) l ->
    forall g2, good g2 -> root ∈ Graph.nodes g2 ->
      good (fold_left (baseline_input idx cr cb root) l g2)
      /\ extends g2 (fold_left (baseline_input idx cr cb root) l g2)).
  { destruct (H (GraphNode.inputs root)) with (g2 := g1) as [H1 H2];
      [by apply Forall_forall | done | done |].
    split; [done | by eapply extends_trans]. }
  induction 1 as [|i l Hi Hl IH]; intros g2 Hg2 Hr2; cbn [fold_left].
  - split; [done | apply extends_refl].
  - destruct (baseline_input_good root g2 i Hi Hr2 Hg2) as [Hg3 Hext3].
    destruct (IH _ Hg3) as [Hg4 Hext4]; [by eapply extends_node|].
    split; [done | by eapply extends_trans].
Qed.

Lemma baseline_good : good (baseline idx cr cb targets).
Proof.
  unfold baseline.
  apply (fold_good (baseline_target idx cr cb) (fun t => t ∈ targets)).
  - intros g t Ht Hg. by apply baseline_target_good.
  - by apply Forall_forall.
  - split; [exact P_empty | apply graph_ok_empty].
Qed.

Lemma relax_good parent eff b i :
  i ∈ GraphNode.inputs parent -> parent ∈ Graph.nodes (Bfs.graph b) ->
  good (Bfs.graph b) ->
  good (Bfs.graph (relax idx cr cb e parent eff b i))
  /\ extends (Bfs.graph b) (Bfs.graph (relax idx cr cb e parent eff b i)).
Proof.
  intros Hi Hpar [HP Hok]. unfold relax.
  destruct (craftable idx (NodeIO.name i)) eqn:Hc; [|split; [done | apply extends_refl]].
  destruct (ensureNode idx cr cb (NodeIO.name i) (NodeIO.ratePerMin i)
              (GraphNode.depth parent + 1) (Some (GraphNode.building parent)) (Bfs.graph b))
    as [res g1] eqn:E.
  pose proof (P_hop _ parent i _ res g1 HP Hok Hpar Hi Hc (or_intror eq_refl) E) as Hhop.
  destruct (ensureNode_summary idx cr cb _ _ _ _ _ _ _ Hok E) as (Hok1 & Hext1 & _).
  destruct res as [child|]; [|split; [done | apply extends_refl]].
  destruct Hhop as [Hconn Hseen].
  assert (H2 : good (if connected parent child g1 then g1
                     else connect parent child (NodeIO.name i) g1)
               /\ extends (Bfs.graph b)
                    (if connected parent child g1 then g1
                     else connect parent child (NodeIO.name i) g1)).
  { destruct (connected parent child g1); [split; [split; [by apply Hseen | done] | done]|].
    split; [split; [done | by apply connect_ok]|].
    eapply extends_trans; [exact Hext1 | apply connect_extends]. }
  by destruct (_ && _).
Qed.

Lemma step_good b :
  good (Bfs.graph b) ->
  good (Bfs.graph (step idx cr cb e b)) /\ extends (Bfs.graph b) (Bfs.graph (step idx cr cb e b)).
Proof.
  intros Hg. unfold step.
  destruct (Bfs.queue b) as [|item rest]; [split; [done | apply extends_refl]|].
  destruct (QItem.rem item <=? 0)%Z; [split; [done | apply extends_refl]|].
  destruct (Graph.byId (Bfs.graph b) !! QItem.id item) as [parent|] eqn:Hp;
    [|split; [done | apply extends_refl]].
  destruct (graph_ok_byId idx _ _ _ (proj2 Hg) Hp) as [Hpar _].
  set (eff := Z.max _ _).
  enough (H : forall l, Forall (fun i => i ∈ GraphNode.inputs parent) l ->
    forall b2, good (Bfs.graph b2) -> parent ∈ Graph.nodes (Bfs.graph b2) ->
      good (Bfs.graph (fold_left (relax idx cr cb e parent eff) l b2))
      /\ extends (Bfs.graph b2) (Bfs.graph (fold_left (relax idx cr cb e parent eff) l b2))).
  { apply (H (GraphNode.inputs parent) (proj2 (Forall_forall _ _) (fun _ h => h))
             (Bfs.mk (Bfs.graph b) (Bfs.bestRem b) rest) Hg Hpar). }
  induction 1 as [|i l Hi Hl IH]; intros b2 Hg2 Hp2; cbn [fold_left].
  - split; [done | apply extends_refl].
  - destruct (relax_good parent eff b2 i Hi Hp2 Hg2) as [Hg3 Hext3].
    destruct (IH _ Hg3) as [Hg4 Hext4]; [by eapply extends_node|].
    split; [done | by eapply extends_trans].
Qed.

Lemma loop_good (n : nat) b :
  good (Bfs.graph b) ->
  good (Bfs.graph (loop idx cr cb e n b))
  /\ extends (Bfs.graph b) (Bfs.graph (loop idx cr cb e n b)).
Proof.
  revert b. induction n as [|n IH]; intros b Hg; cbn [loop].
  - split; [done | apply extends_refl].
  - destruct (Bfs.queue b); [split; [done | apply extends_refl]|].
    destruct (step_good b Hg) as [Hg1 Hext1]. destruct (IH _ Hg1) as [Hg2 Hext2].
    split; [done | by eapply extends_trans].
Qed.

Lemma expand_hops :
  P (Bfs.graph (expand idx cr cb e (baseline idx cr cb targets)))
  /\ graph_ok idx (Bfs.graph (expand idx cr cb e (baseline idx cr cb targets)))
  /\ extends (baseline idx cr cb targets)
       (Bfs.graph (expand idx cr cb e (baseline idx cr cb targets))).
Proof.
  pose proof baseline_good as Hg. unfold expand.
  destruct (seed_spec idx cr cb e _ (proj2 Hg)) as (_ & Hs & _).
  set (b := seed e _) in *.
  destruct (loop_good (measure idx e b) b) as [[H1 H2] H3]; [by rewrite Hs|].
  rewrite Hs in H3. done.
Qed.

End BuildInduction.

(** The same with the hop split in its two steps: the child is made or
    found, and then an edge is added. *)
Lemma expand_good (idx : ProductIndex) (cr : gmap string (option string))
    (cb : gmap string string) (e : gmap string Z) (targets : list Target.t)
    (P : Graph.t -> Prop) :
  P Graph.empty ->
  (forall g t res g',
     P g -> graph_ok idx g -> t ∈ targets ->
     ensureNode idx cr cb (Target.product t) (Target.ratePerMin t) 0 None g = (res, g') ->
     P g') ->
  (forall g parent i d res g',
     P g -> graph_ok idx g -> parent ∈ Graph.nodes g -> i ∈ GraphNode.inputs parent ->
     craftable idx (NodeIO.name i) = true ->
     d = 1%nat \/ d = (GraphNode.depth parent + 1)%nat ->
     ensureNode idx cr cb (NodeIO.name i) (NodeIO.ratePerMin i) d
       (Some (GraphNode.building parent)) g = (res, g') ->
     P g') ->
  (forall g parent i child r,
     P g -> graph_ok idx g -> parent ∈ Graph.nodes g -> child ∈ Graph.nodes g ->
     i ∈ GraphNode.inputs parent ->
     craftable idx (NodeIO.name i) = true ->
     resolve idx cr cb (NodeIO.name i) (Some (GraphNode.building parent)) = Some r ->
     GraphNode.id child = nodeIdFor (NodeIO.name i) (Recipe.recipeId r) ->
     P (connect parent child (NodeIO.name i) g)) ->
  P (Bfs.graph (expand idx cr cb e (baseline idx cr cb targets)))
  /\ graph_ok idx (Bfs.graph (expand idx cr cb e (baseline idx cr cb targets)))
  /\ extends (baseline idx cr cb targets)
       (Bfs.graph (expand idx cr cb e (baseline idx cr cb targets))).
Proof.
  intros P_empty P_root P_child P_edge.
  apply expand_hops; [done | done |].
  intros g parent i d res g' HP Hok Hpar Hi Hc Hd E.
  pose proof (P_child g parent i d res g' HP Hok Hpar Hi Hc Hd E) as HP'.
  destruct (ensureNode_summary idx cr cb _ _ _ _ _ _ _ Hok E)
    as (Hok' & Hext & _ & _ & Hnone & Hsome).
  destruct res as [child|]; [|done]. split; [|done].
  destruct (resolve idx cr cb (NodeIO.name i) (Some (GraphNode.building parent)))
    as [r|] eqn:Er; [|by destruct (Hnone eq_refl)].
  destruct (Hsome r eq_refl) as (n & [= <-] & Hin & Hid & _).
  eapply P_edge; eauto. by eapply extends_node.
Qed.

(** ** What [build] publishes: reasons, rates and edges *)

Lemma made_as_child_mono idx cr cb (l l' : list GraphNode.t) n :
  l `prefix_of` l' -> made_as_child idx cr cb l n -> made_as_child idx cr cb l' n.
Proof.
  intros Hl (parent & i & r & Hp & H). exists parent, i, r.
  split; [by eapply elem_of_prefix | done].
Qed.

Lemma build_nodes_made (idx : ProductIndex) (s : State.t) (n : GraphNode.t) :
  n ∈ State.graphNodes (build idx s) ->
  made_as_root idx (State.choicesRecipe s) (State.choicesBuilding s) (State.targets s) n
  \/ made_as_child idx (State.choicesRecipe s) (State.choicesBuilding s)
       (State.graphNodes (build idx s)) n.
Proof.
  destruct (State.targets s) as [|t0 ts] eqn:Et.
  { destruct (build_empty idx s Et) as [-> _]. by intros ?%elem_of_nil. }
  destruct (build_nonempty idx s) as [-> _]; [by rewrite Et|]. rewrite <- Et. clear t0 ts Et.
  set (cr := State.choicesRecipe s). set (cb := State.choicesBuilding s).
  set (P := fun g : Graph.t => forall n, n ∈ Graph.nodes g ->
    made_as_root idx cr cb (State.targets s) n \/ made_as_child idx cr cb (Graph.nodes g) n).
  enough (H : P (Bfs.graph (built idx s))) by apply H.
  assert (Hstep : forall g p rate d pb res g',
    P g -> graph_ok idx g ->
    ensureNode idx cr cb p rate d pb g = (res, g') ->
    (forall r, resolve idx cr cb p pb = Some r ->
       let n := makeNode r p rate d in
       made_as_root idx cr cb (State.targets s) n
       \/ made_as_child idx cr cb (Graph.nodes g) n) ->
    P g').
  { intros g p rate d pb res g' HP Hok E Hnew.
    destruct (ensureNode_cases idx cr cb p rate d pb g Hok)
      as [[_ E'] | [(r & m & _ & _ & E') | (r & g1 & Hr & _ & E' & Hnodes & _)]];
      rewrite E' in E; injection E as <- <-; [exact HP | exact HP |].
    intros m. rewrite Hnodes. intros [Hm | ->%list_elem_of_singleton]%elem_of_app.
    - destruct (HP m Hm) as [?|Hc]; [by left|]. right.
      eapply made_as_child_mono; [|exact Hc]. by apply prefix_app_r.
    - destruct (Hnew r Hr) as [?|Hc]; [by left|]. right.
      eapply made_as_child_mono; [|exact Hc]. by apply prefix_app_r. }
  unfold built. apply (expand_good idx cr cb (State.expandedByNode s) (State.targets s) P).
  - intros m Hm. by apply elem_of_nil in Hm.
  - intros g t res g' HP Hok Ht E. eapply Hstep; eauto.
    intros r Hr. left. by exists t, r.
  - intros g parent i d res g' HP Hok Hpar Hi Hc Hd E. eapply Hstep; eauto.
    intros r Hr. right. by exists parent, i, r.
  - intros g parent i child r HP _ _ _ _ _ _ _. exact HP.
Qed.

(** X8. Every node that [build] publishes has a reason: it is [makeNode] of
    the recipe resolved for a target, at the target's rate and depth 0, or
    [makeNode] of the recipe resolved (with the parent's building as hint)
    for a craftable input of a published node, at the rate of that input
    and at depth 1 or one below that node.  A node is never updated after it
    was made. *)
Theorem build_node_reason (idx : ProductIndex) (s : State.t) (n : GraphNode.t) :
  n ∈ State.graphNodes (build idx s) ->
  made_as_root idx (State.choicesRecipe s) (State.choicesBuilding s) (State.targets s) n
  \/ made_as_child idx (State.choicesRecipe s) (State.choicesBuilding s)
       (State.graphNodes (build idx s)) n.
Proof. apply build_nodes_made. Qed.

Lemma build_node_reason_witness :
  made_as_root (PRODUCT_INDEX Examples.chain) ∅ ∅ [Target.mk "Gear" 60 None]
    (makeNode Examples.R1 "Gear" 60 0)
  \/ made_as_child (PRODUCT_INDEX Examples.chain) ∅ ∅
       (State.graphNodes (build (PRODUCT_INDEX Examples.chain) Examples.chain_store))
       (makeNode Examples.R1 "Gear" 60 0).
Proof.
  apply (build_node_reason (PRODUCT_INDEX Examples.chain) Examples.chain_store
           (makeNode Examples.R1 "Gear" 60 0)).
  vm_compute. left.
Defined.

Lemma outputRatePerMin_nonneg (r : Recipe.t) (p : string) :
  recipe_nonneg r -> (0 <= outputRatePerMin r p)%Q.
Proof.
  intros (Hv & _ & Hout). unfold outputRatePerMin.
  destruct (Js.find _ _) as [out|] eqn:E; [|apply Qle_refl].
  apply find_some in E as [Hin _]. rewrite Forall_forall in Hout.
  specialize (Hout out Hin). unfold io_nonneg, Recipe.valid in *.
  apply Qmult_le_0_compat; [|done].
  apply Qmult_le_0_compat; [done|]. apply Qinv_le_0_compat. by apply Qlt_le_weak.
Qed.

Lemma makeNode_nonneg (r : Recipe.t) (p : string) (rate : Q) (d : nat) :
  recipe_nonneg r -> (0 <= rate)%Q -> node_nonneg (makeNode r p rate d).
Proof.
  intros Hr Hrate. pose proof (outputRatePerMin_nonneg r p Hr) as Hout.
  destruct Hr as (Hv & Hins & Houts). unfold Recipe.valid in Hv.
  unfold makeNode, node_nonneg.
  cbn [GraphNode.runsPerMin GraphNode.inputs GraphNode.outputs].
  set (runs := if Qeq_bool _ 0 then _ else _).
  assert (Hruns : (0 <= runs)%Q).
  { unfold runs. destruct (Qeq_bool _ 0); [apply Qle_refl|].
    apply Qmult_le_0_compat; [done | by apply Qinv_le_0_compat]. }
  split; [done|]. split; apply Forall_forall; intros x Hx;
    apply list_elem_of_In, in_map_iff in Hx as (io & <- & Hio); apply list_elem_of_In in Hio.
  - rewrite Forall_forall in Hins. specialize (Hins io Hio). cbn.
    by apply Qmult_le_0_compat.
  - rewrite Forall_forall in Houts. specialize (Houts io Hio). cbn.
    apply Qmult_le_0_compat; [|done]. apply Qmult_le_0_compat; [done|].
    apply Qmult_le_0_compat; [done|]. apply Qinv_le_0_compat. by apply Qlt_le_weak.
Qed.

Lemma PRODUCT_INDEX_nonneg (RECIPES : list Recipe.t) :
  Forall recipe_nonneg RECIPES -> index_nonneg (PRODUCT_INDEX RECIPES).
Proof.
  intros H k l Hl. pose proof (PRODUCT_INDEX_lookup RECIPES k) as Hp.
  rewrite Hl in Hp. cbn in Hp. subst l. apply Forall_forall. intros r Hr.
  apply producers_elem in Hr as [Hr _]. rewrite Forall_forall in H. by apply H.
Qed.

(** X9. On a catalog without negative quantities (and with positive times)
    and for targets with non-negative rates, [build] publishes only
    non-negative numbers: the runs per minute and every input and output
    rate of every node. *)
Theorem build_rates_nonneg (idx : ProductIndex) (s : State.t) (n : GraphNode.t) :
  index_nonneg idx ->
  Forall (fun t => (0 <= Target.ratePerMin t)%Q) (State.targets s) ->
  n ∈ State.graphNodes (build idx s) ->
  node_nonneg n.
Proof.
  intros Hidx Hts.
  destruct (State.targets s) as [|t0 ts] eqn:Et.
  { destruct (build_empty idx s Et) as [-> _]. by intros ?%elem_of_nil. }
  destruct (build_nonempty idx s) as [-> _]; [by rewrite Et|]. rewrite <- Et in *.
  clear t0 ts Et.
  set (cr := State.choicesRecipe s). set (cb := State.choicesBuilding s).
  set (P := fun g : Graph.t => Forall node_nonneg (Graph.nodes g)).
  enough (H : P (Bfs.graph (built idx s))).
  { intros Hn. unfold P in H. rewrite Forall_forall in H. by apply H. }
  assert (Hstep : forall g p rate d pb res g',
    P g -> graph_ok idx g -> (0 <= rate)%Q ->
    ensureNode idx cr cb p rate d pb g = (res, g') -> P g').
  { intros g p rate d pb res g' HP Hok Hrate E.
    destruct (ensureNode_cases idx cr cb p rate d pb g Hok)
      as [[_ E'] | [(r & m & _ & _ & E') | (r & g1 & Hr & _ & E' & Hnodes & _)]];
      rewrite E' in E; injection E as <- <-; [exact HP | exact HP |].
    unfold P. rewrite Hnodes. apply Forall_app. split; [exact HP|].
    apply Forall_singleton. apply makeNode_nonneg; [|done].
    apply pickRecipeWithPrefs_elem in Hr.
    destruct (idx !! p) as [l|] eqn:El; [|by apply elem_of_nil in Hr].
    specialize (Hidx p l El). rewrite Forall_forall in Hidx. by apply Hidx. }
  unfold built. apply (expand_good idx cr cb (State.expandedByNode s) (State.targets s) P).
  - constructor.
  - intros g t res g' HP Hok Ht E. eapply Hstep; eauto.
    rewrite Forall_forall in Hts. by apply Hts.
  - intros g parent i d res g' HP Hok Hpar Hi Hc Hd E. eapply Hstep; eauto.
    unfold P in HP. rewrite Forall_forall in HP. destruct (HP parent Hpar) as (_ & Hins & _).
    rewrite Forall_forall in Hins. by apply Hins.
  - intros g parent i child r HP _ _ _ _ _ _ _. exact HP.
Qed.

Lemma build_rates_nonneg_witness :
  node_nonneg (makeNode Examples.R1 "Gear" 60 0).
Proof.
  apply (build_rates_nonneg (PRODUCT_INDEX Examples.chain) Examples.chain_store).
  - apply PRODUCT_INDEX_nonneg.
    repeat constructor; vm_compute; discriminate.
  - repeat constructor. vm_compute. discriminate.
  - vm_compute. left.
Defined.

Lemma edge_joins_mono idx cr cb (l l' : list GraphNode.t) e :
  l `prefix_of` l' -> edge_joins idx cr cb l e -> edge_joins idx cr cb l' e.
Proof.
  intros Hl (parent & child & i & r & Hp & Hc & H). exists parent, child, i, r.
  split; [by eapply elem_of_prefix|]. split; [by eapply elem_of_prefix | done].
Qed.

Lemma build_edges_inv (idx : ProductIndex) (s : State.t) :
  let g := Bfs.graph (built idx s) in
  (forall e, e ∈ Graph.edges g ->
     edge_joins idx (State.choicesRecipe s) (State.choicesBuilding s) (Graph.nodes g) e)
  /\ (forall k e, Graph.edges g !! k = Some e -> edge_id_at k e).
Proof.
  set (cr := State.choicesRecipe s). set (cb := State.choicesBuilding s).
  set (P := fun g : Graph.t =>
    (forall e, e ∈ Graph.edges g -> edge_joins idx cr cb (Graph.nodes g) e)
    /\ (forall k e, Graph.edges g !! k = Some e -> edge_id_at k e)).
  change (P (Bfs.graph (built idx s))).
  assert (Hstep : forall g p rate d pb res g',
    P g -> graph_ok idx g -> ensureNode idx cr cb p rate d pb g = (res, g') -> P g').
  { intros g p rate d pb res g' [HP1 HP2] Hok E.
    destruct (ensureNode_summary idx cr cb _ _ _ _ _ _ _ Hok E) as (_ & [Hext _] & He & _).
    split; rewrite He; [|done].
    intros e' He'. eapply edge_joins_mono; [exact Hext | by apply HP1]. }
  unfold built. apply (expand_good idx cr cb (State.expandedByNode s) (State.targets s) P).
  - split; [intros e' He'; by apply elem_of_nil in He' | intros k e' Hk; done].
  - intros g t res g' HP Hok _ E. by eapply Hstep.
  - intros g parent i d res g' HP Hok _ _ _ _ E. by eapply Hstep.
  - intros g parent i child r [HP1 HP2] Hok Hpar Hch Hi Hc Hr Hid.
    unfold connect. cbn [Graph.edges Graph.nodes]. split.
    + intros e' [He' | ->%list_elem_of_singleton]%elem_of_app; [by apply HP1|].
      exists parent, child, i, r. done.
    + intros k e' Hk. apply lookup_app_Some in Hk as [Hk | [Hlen Hk]]; [by apply HP2|].
      apply list_lookup_singleton_Some in Hk as [Hk <-].
      assert (k = length (Graph.edges g)) as -> by lia. reflexivity.
Qed.

(** X10. Every edge that [build] publishes joins two published nodes: its
    source is a node, its label is the name of a craftable input of that
    node, and its target is the node that resolution (with the source's
    building as hint) gives for that input.  The id of the edge at position
    [k] of the edge array is [source=>target#k]. *)
Theorem build_edges_closed (idx : ProductIndex) (s : State.t) (k : nat) (e : GraphEdge.t) :
  State.graphEdges (build idx s) !! k = Some e ->
  edge_joins idx (State.choicesRecipe s) (State.choicesBuilding s)
    (State.graphNodes (build idx s)) e
  /\ edge_id_at k e.
Proof.
  destruct (State.targets s) as [|t0 ts] eqn:Et.
  { destruct (build_empty idx s Et) as [_ ->]. done. }
  destruct (build_nonempty idx s) as (-> & -> & _); [by rewrite Et|].
  destruct (build_edges_inv idx s) as [H1 H2]. intros Hk.
  split; [|by apply H2]. apply H1. by eapply list_elem_of_lookup_2.
Qed.

Lemma build_edges_closed_witness :
  edge_joins (PRODUCT_INDEX Examples.chain) ∅ ∅
    (State.graphNodes (build (PRODUCT_INDEX Examples.chain) Examples.chain_store))
    (GraphEdge.mk "Gear::R1=>Iron::R2#0" "Gear::R1" "Iron::R2" "Iron")
  /\ edge_id_at 0 (GraphEdge.mk "Gear::R1=>Iron::R2#0" "Gear::R1" "Iron::R2" "Iron").
Proof.
  apply (build_edges_closed (PRODUCT_INDEX Examples.chain) Examples.chain_store 0).
  vm_compute. reflexivity.
Defined.

(** *** Edge ids are unique *)

Lemma pretty_N_char_digit (x : N) : pretty_N_char x <> "#"%char.
Proof.
  destruct x as [|p]; [done|].
  destruct p as [p|p|]; [| |done];
    (destruct p as [p|p|]; [| |done]);
    (destruct p as [p|p|]; [| |done]);
    try (destruct p as [p|p|]); done.
Qed.

Lemma pretty_N_go_no_hash (x : N) (s : string) :
  ~ In "#"%char (list_ascii_of_string s) ->
  ~ In "#"%char (list_ascii_of_string (pretty_N_go x s)).
Proof.
  revert s. induction (N.lt_wf_0 x) as [x _ IH]. intros s Hs.
  destruct (decide (0 < x)%N) as [Hx|Hx].
  - rewrite pretty_N_go_step by done. apply IH.
    + by apply N.div_lt.
    + cbn. intros [E|E]; [|done]. by apply pretty_N_char_digit in E.
  - assert (x = 0%N) as -> by lia. by rewrite pretty_N_go_0.
Qed.

Lemma pretty_nat_no_hash (n : nat) : ~ In "#"%char (list_ascii_of_string (pretty n)).
Proof.
  unfold pretty, pretty_nat, pretty, pretty_N.
  case_decide; [cbn; intros [E|[]]; discriminate|].
  apply pretty_N_go_no_hash. cbn. tauto.
Qed.

Lemma hash_suffix_inj (s1 s2 d1 d2 : string) :
  ~ In "#"%char (list_ascii_of_string d1) ->
  ~ In "#"%char (list_ascii_of_string d2) ->
  s1 +:+ String "#" d1 = s2 +:+ String "#" d2 -> d1 = d2.
Proof.
  intros H1 H2. revert s2. induction s1 as [|c s1 IH]; intros [|c' s2] E.
  - by injection E.
  - change (String "#" d1 = String c' (s2 +:+ String "#" d2)) in E.
    injection E as _ E. exfalso. apply H1. rewrite E. clear.
    induction s2 as [|a s2 IH]; [by left | by right].
  - change (String c (s1 +:+ String "#" d1) = String "#" d2) in E.
    injection E as _ E. exfalso. apply H2. rewrite <- E. clear.
    induction s1 as [|a s1 IH]; [by left | by right].
  - change (String c (s1 +:+ String "#" d1) = String c' (s2 +:+ String "#" d2)) in E.
    injection E as _ E. by eapply IH.
Qed.

(** X11. No two edges that [build] publishes have the same id, even when
    product names or recipe ids themselves contain [#], [=>] or digits: the
    position after the last [#] tells the edges apart. *)
Theorem build_edge_ids_unique (idx : ProductIndex) (s : State.t) :
  NoDup (map GraphEdge.id (State.graphEdges (build idx s))).
Proof.
  assert (Hinj : forall k1 k2 e1 e2,
    State.graphEdges (build idx s) !! k1 = Some e1 ->
    State.graphEdges (build idx s) !! k2 = Some e2 ->
    GraphEdge.id e1 = GraphEdge.id e2 -> k1 = k2).
  { destruct (State.targets s) as [|t0 ts] eqn:Et.
    { destruct (build_empty idx s Et) as [_ ->]. done. }
    destruct (build_nonempty idx s) as (_ & -> & _); [by rewrite Et|].
    destruct (build_edges_inv idx s) as [_ H2]. intros k1 k2 e1 e2 L1 L2 E.
    apply H2 in L1, L2. unfold edge_id_at in L1, L2. rewrite L1, L2 in E.
    assert (Hform : forall a b (k : nat),
      a +:+ "=>" +:+ b +:+ "#" +:+ pretty k = (a +:+ "=>" +:+ b) +:+ String "#" (pretty k)).
    { intros a b k. by rewrite !append_assoc. }
    rewrite !Hform in E.
    apply hash_suffix_inj in E; [|apply pretty_nat_no_hash..].
    by apply pretty_nat_inj in E. }
  change (NoDup (GraphEdge.id <$> State.graphEdges (build idx s))).
  apply NoDup_alt. intros k1 k2 x L1 L2.
  apply list_lookup_fmap_Some in L1 as (e1 & -> & L1).
  apply list_lookup_fmap_Some in L2 as (e2 & E & L2).
  by eapply Hinj.
Qed.

(** ** The store's actions *)

Lemma seed_no_budget (e : gmap string Z) (g : Graph.t) :
  (forall n, n ∈ Graph.nodes g -> (budget e (GraphNode.id n) <= 0)%Z) ->
  seed e g = Bfs.mk g ∅ [].
Proof.
  unfold seed. generalize (Bfs.mk g ∅ []) as b.
  induction (Graph.nodes g) as [|n l IH]; intros b H; [done|]. cbn [fold_left].
  unfold seed_node at 2. rewrite (proj2 (Z.ltb_ge _ _)) by (apply H; left).
  apply IH. intros m Hm. apply H. by right.
Qed.

Lemma expand_no_budget idx cr cb (e : gmap string Z) (g : Graph.t) :
  (forall n, n ∈ Graph.nodes g -> (budget e (GraphNode.id n) <= 0)%Z) ->
  Bfs.graph (expand idx cr cb e g) = g.
Proof.
  intros H. unfold expand. rewrite (seed_no_budget e g H).
  by rewrite loop_stable.
Qed.

Lemma ensureNode_depth idx cr cb p rate d pb g res g' (k : nat) :
  graph_ok idx g -> (d <= k)%nat ->
  Forall (fun n => (GraphNode.depth n <= k)%nat) (Graph.nodes g) ->
  ensureNode idx cr cb p rate d pb g = (res, g') ->
  Forall (fun n => (GraphNode.depth n <= k)%nat) (Graph.nodes g').
Proof.
  intros Hok Hd Hall E.
  destruct (ensureNode_summary idx cr cb _ _ _ _ _ _ _ Hok E) as (_ & _ & _ & Hnew & _).
  rewrite Forall_forall in Hall |- *. intros n Hn.
  destruct (Hnew n Hn) as [Hold | [_ ->]]; [by apply Hall | done].
Qed.

Lemma baseline_depth idx cr cb (targets : list Target.t) :
  Forall (fun n => (GraphNode.depth n <= 1)%nat) (Graph.nodes (baseline idx cr cb targets)).
Proof.
  unfold baseline.
  enough (H : forall g, graph_ok idx g ->
    Forall (fun n => (GraphNode.depth n <= 1)%nat) (Graph.nodes g) ->
    graph_ok idx (fold_left (baseline_target idx cr cb) targets g)
    /\ Forall (fun n => (GraphNode.depth n <= 1)%nat)
         (Graph.nodes (fold_left (baseline_target idx cr cb) targets g))).
  { apply H; [apply graph_ok_empty | constructor]. }
  induction targets as [|t ts IH]; intros g Hok Hall; cbn [fold_left]; [done|].
  apply IH; unfold baseline_target;
    destruct (ensureNode idx cr cb (Target.product t) (Target.ratePerMin t) 0 None g)
      as [res g1] eqn:E;
    destruct (ensureNode_summary idx cr cb _ _ _ _ _ _ _ Hok E) as (Hok1 & _);
    pose proof (ensureNode_depth idx cr cb _ _ _ _ _ _ _ 1 Hok (Nat.le_0_l 1) Hall E) as Hall1;
    (destruct res as [root|]; [|done]);
    (enough (H : forall l g2, graph_ok idx g2 ->
       Forall (fun n => (GraphNode.depth n <= 1)%nat) (Graph.nodes g2) ->
       graph_ok idx (fold_left (baseline_input idx cr cb root) l g2)
       /\ Forall (fun n => (GraphNode.depth n <= 1)%nat)
            (Graph.nodes (fold_left (baseline_input idx cr cb root) l g2)));
     [by apply H|]);
    clear; induction l as [|i l IHl]; intros g2 Hok2 Hall2; cbn [fold_left]; try done;
    apply IHl; unfold baseline_input;
    destruct (craftable idx (NodeIO.name i)); try done;
    destruct (ensureNode idx cr cb (NodeIO.name i) (NodeIO.ratePerMin i) 1
                (Some (GraphNode.building root)) g2) as [res g3] eqn:E;
    destruct (ensureNode_summary idx cr cb _ _ _ _ _ _ _ Hok2 E) as (Hok3 & _);
    pose proof (ensureNode_depth idx cr cb _ _ _ _ _ _ _ 1 Hok2 (Nat.le_refl 1) Hall2 E);
    by destruct res.
Qed.

Lemma baseline_in_built (idx : ProductIndex) (s : State.t) :
  extends
    (baseline idx (State.choicesRecipe s) (State.choicesBuilding s) (State.targets s))
    (Bfs.graph (built idx s)).
Proof.
  unfold built.
  by apply (expand_good idx (State.choicesRecipe s) (State.choicesBuilding s)
              (State.expandedByNode s) (State.targets s) (fun _ => True)).
Qed.

(** X12. A store with no positive budget on any published node shows the
    collapsed view: what [build] publishes is what it publishes after
    [resetExpansions], and every node is a root or a first-hop child (depth
    at most 1). *)
Theorem build_collapsed (idx : ProductIndex) (s : State.t) :
  (forall n, n ∈ State.graphNodes (build idx s) ->
     (budget (State.expandedByNode s) (GraphNode.id n) <= 0)%Z) ->
  State.graphNodes (build idx s) = State.graphNodes (build idx (resetExpansions s))
  /\ State.graphEdges (build idx s) = State.graphEdges (build idx (resetExpansions s))
  /\ State.totals (build idx s) = State.totals (build idx (resetExpansions s))
  /\ Forall (fun n => (GraphNode.depth n <= 1)%nat) (State.graphNodes (build idx s)).
Proof.
  intros H. destruct (State.targets s) as [|t0 ts] eqn:Et.
  { unfold build, resetExpansions. cbn. rewrite Et. cbn. by repeat split. }
  assert (Hne : State.targets s <> []) by (by rewrite Et).
  destruct (build_nonempty idx s Hne) as (En & Ee & Et1).
  destruct (build_nonempty idx (resetExpansions s) Hne) as (En' & Ee' & Et').
  set (g := baseline idx (State.choicesRecipe s) (State.choicesBuilding s) (State.targets s)).
  assert (E1 : Bfs.graph (built idx s) = g).
  { apply expand_no_budget. intros n Hn. apply H. rewrite En.
    eapply extends_node; [apply baseline_in_built | exact Hn]. }
  assert (E2 : Bfs.graph (built idx (resetExpansions s)) = g).
  { apply expand_no_budget. intros n _. unfold budget. cbn. by rewrite lookup_empty. }
  rewrite En, Ee, Et1, En', Ee', Et', E1, E2. repeat split. apply baseline_depth.
Qed.

Lemma build_collapsed_witness :
  State.graphNodes (build (PRODUCT_INDEX Examples.chain) Examples.two_targets)
  = State.graphNodes
      (build (PRODUCT_INDEX Examples.chain) (resetExpansions Examples.two_targets))
  /\ State.graphEdges (build (PRODUCT_INDEX Examples.chain) Examples.two_targets)
     = State.graphEdges
         (build (PRODUCT_INDEX Examples.chain) (resetExpansions Examples.two_targets))
  /\ State.totals (build (PRODUCT_INDEX Examples.chain) Examples.two_targets)
     = State.totals
         (build (PRODUCT_INDEX Examples.chain) (resetExpansions Examples.two_targets))
  /\ Forall (fun n => (GraphNode.depth n <= 1)%nat)
       (State.graphNodes (build (PRODUCT_INDEX Examples.chain) Examples.two_targets)).
Proof.
  apply (build_collapsed (PRODUCT_INDEX Examples.chain) Examples.two_targets).
  intros n _. vm_compute. discriminate.
Defined.

Lemma build_reads (idx : ProductIndex) (s s' : State.t) :
  State.targets s = State.targets s' ->
  State.choicesRecipe s = State.choicesRecipe s' ->
  State.choicesBuilding s = State.choicesBuilding s' ->
  State.expandedByNode s = State.expandedByNode s' ->
  build idx s = build idx s'.
Proof.
  destruct s, s'. cbn. intros -> -> -> ->. reflexivity.
Qed.

Lemma expandNodeOnce_iter (idx : ProductIndex) (nodeId : string) (s : State.t) (k : nat) :
  Nat.iter (S k) (expandNodeOnce idx nodeId) s
  = build idx
      (State.set_expanded s
         (<[ nodeId := (default 0%Z (State.expandedByNode s !! nodeId) + Z.of_nat (S k))%Z ]>
            (State.expandedByNode s))).
Proof.
  induction k as [|k IH].
  - reflexivity.
  - change (Nat.iter (S (S k)) (expandNodeOnce idx nodeId) s)
      with (expandNodeOnce idx nodeId (Nat.iter (S k) (expandNodeOnce idx nodeId) s)).
    rewrite IH. unfold expandNodeOnce at 1.
    apply build_reads;
      cbn [State.set_expanded State.targets State.choicesRecipe
        State.choicesBuilding State.expandedByNode];
      rewrite ?build_targets, ?build_choicesRecipe, ?build_choicesBuilding,
        ?build_expandedByNode;
      cbn [State.set_expanded State.targets State.choicesRecipe
        State.choicesBuilding State.expandedByNode]; try done.
    rewrite lookup_insert_eq, insert_insert_eq. cbn [from_option id]. f_equal. lia.
Qed.

(** X13. In the per-node store, expanding a node by [k >= 1] hops at once
    leaves the store exactly as [k] single expansions of that node do
    (budgets, graph and totals), and a hop count below 1 counts as 1. *)
Theorem expandBranchBy_iter (idx : ProductIndex) (nodeId : string) (k : nat) (s : State.t) :
  (1 <= k)%nat ->
  expandBranchBy idx nodeId (Z.of_nat k) s = Nat.iter k (expandNodeOnce idx nodeId) s
  /\ forall hops, (hops <= 1)%Z ->
       expandBranchBy idx nodeId hops s = expandNodeOnce idx nodeId s.
Proof.
  intros Hk. split.
  - destruct k as [|k]; [lia|]. rewrite expandNodeOnce_iter. unfold expandBranchBy.
    by rewrite Z.max_r by lia.
  - intros hops Hh. unfold expandBranchBy, expandNodeOnce. by rewrite Z.max_l by lia.
Qed.

Lemma expandBranchBy_iter_witness :
  expandBranchBy Examples.gears "Gear::R1" (Z.of_nat 3) Examples.gear_store
  = Nat.iter 3 (expandNodeOnce Examples.gears "Gear::R1") Examples.gear_store
  /\ forall hops, (hops <= 1)%Z ->
       expandBranchBy Examples.gears "Gear::R1" hops Examples.gear_store
       = expandNodeOnce Examples.gears "Gear::R1" Examples.gear_store.
Proof. apply (expandBranchBy_iter Examples.gears "Gear::R1" 3). lia. Defined.

(** X14. [build] reads the budgets of published node ids only: two budget
    maps that agree on the ids of the published nodes publish the same
    nodes, edges and totals. *)
Theorem build_reads_published_budgets (idx : ProductIndex) (s : State.t)
    (e' : gmap string Z) :
  index_ok idx ->
  (forall n, n ∈ State.graphNodes (build idx s) ->
     budget (State.expandedByNode s) (GraphNode.id n) = budget e' (GraphNode.id n)) ->
  State.graphNodes (build idx (State.set_expanded s e')) = State.graphNodes (build idx s)
  /\ State.graphEdges (build idx (State.set_expanded s e')) = State.graphEdges (build idx s)
  /\ State.totals (build idx (State.set_expanded s e')) = State.totals (build idx s).
Proof.
  intros Hidx H. by rewrite (build_budget_local idx s e' Hidx H).
Qed.

Lemma build_reads_published_budgets_witness :
  State.graphNodes
    (build (PRODUCT_INDEX Examples.chain)
       (State.set_expanded Examples.chain_store
          (<[ Examples.ghost := 7%Z ]> Examples.iron_budget)))
  = State.graphNodes (build (PRODUCT_INDEX Examples.chain) Examples.chain_store)
  /\ State.graphEdges
       (build (PRODUCT_INDEX Examples.chain)
          (State.set_expanded Examples.chain_store
             (<[ Examples.ghost := 7%Z ]> Examples.iron_budget)))
     = State.graphEdges (build (PRODUCT_INDEX Examples.chain) Examples.chain_store)
  /\ State.totals
       (build (PRODUCT_INDEX Examples.chain)
          (State.set_expanded Examples.chain_store
             (<[ Examples.ghost := 7%Z ]> Examples.iron_budget)))
     = State.totals (build (PRODUCT_INDEX Examples.chain) Examples.chain_store).
Proof.
  apply (build_reads_published_budgets (PRODUCT_INDEX Examples.chain) Examples.chain_store).
  - apply PRODUCT_INDEX_ok.
  - intros n Hn. unfold budget. rewrite lookup_insert_ne; [done|].
    intros E. vm_compute in Hn.
    repeat (apply elem_of_cons in Hn as [->|Hn]; [discriminate E|]).
    by apply elem_of_nil in Hn.
Defined.

(** X15. After [setChoiceRecipe] with the non-empty id of a recipe of the
    product, every node that [build] publishes for that product uses that
    recipe id, whatever the building hints; the choice of every other
    product, the targets and the budgets are untouched (the budget stored
    under the id of the replaced node is not migrated). *)
Theorem setChoiceRecipe_pins (idx : ProductIndex) (s : State.t) (P : string)
    (r : Recipe.t) :
  r ∈ default [] (idx !! P) -> Recipe.recipeId r <> "" ->
  let s' := build idx (setChoiceRecipe idx P (Some (Recipe.recipeId r)) s) in
  (forall n, n ∈ State.graphNodes s' -> GraphNode.product n = P ->
     GraphNode.recipeId n = Recipe.recipeId r)
  /\ (forall p, p <> P ->
        State.choicesRecipe s' !! p = State.choicesRecipe s !! p
        /\ State.choicesBuilding s' !! p = State.choicesBuilding s !! p)
  /\ State.targets s' = State.targets s
  /\ State.expandedByNode s' = State.expandedByNode s.
Proof.
  intros Hr Hne s'. subst s'.
  set (s1 := setChoiceRecipe idx P (Some (Recipe.recipeId r)) s).
  rewrite build_targets, build_expandedByNode. split_and!; [| |done|done].
  - assert (Hres : forall pb r0,
      resolve idx (State.choicesRecipe s1) (State.choicesBuilding s1) P pb = Some r0 ->
      Recipe.recipeId r0 = Recipe.recipeId r).
    { intros pb r0 H0.
      destruct (resolve_explicit idx (State.choicesRecipe s1) (State.choicesBuilding s1)
                  P r pb Hr Hne) as (r' & H' & Hid).
      - unfold s1, setChoiceRecipe. cbn. apply lookup_insert_eq.
      - congruence. }
    intros n Hn Hp.
    destruct (build_nodes_made idx s1 n Hn)
      as [(t & r0 & _ & H0 & ->) | (parent & i & r0 & _ & _ & _ & H0 & E & _)].
    + cbn in Hp |- *. rewrite Hp in H0. by eapply Hres.
    + rewrite E in Hp |- *. cbn in Hp |- *. rewrite Hp in H0. by eapply Hres.
  - intros p Hp. rewrite build_choicesRecipe, build_choicesBuilding.
    unfold s1, setChoiceRecipe.
    cbn [State.set_choices State.choicesRecipe State.choicesBuilding].
    split; [by rewrite lookup_insert_ne | by apply prefer_building_other].
Qed.

Lemma setChoiceRecipe_pins_witness :
  let s' := build Examples.gears
              (setChoiceRecipe Examples.gears "Gear" (Some (Recipe.recipeId Examples.R1b))
                 Examples.gear_store) in
  (forall n, n ∈ State.graphNodes s' -> GraphNode.product n = "Gear" ->
     GraphNode.recipeId n = Recipe.recipeId Examples.R1b)
  /\ (forall p, p <> "Gear" ->
        State.choicesRecipe s' !! p = State.choicesRecipe Examples.gear_store !! p
        /\ State.choicesBuilding s' !! p = State.choicesBuilding Examples.gear_store !! p)
  /\ State.targets s' = State.targets Examples.gear_store
  /\ State.expandedByNode s' = State.expandedByNode Examples.gear_store.
Proof.
  apply (setChoiceRecipe_pins Examples.gears Examples.gear_store "Gear" Examples.R1b).
  - vm_compute. right. left.
  - discriminate.
Defined.

(** ** The per-product walks: [collapseBranch] *)

Section Collapse.

Import PerProduct.

Variable nodes : list GraphNode.t.
Variable edges : list GraphEdge.t.
Variable start : string.

Lemma parentsOf_elem (id p : string) :
  p ∈ parentsOf edges id <-> exists e, e ∈ edges /\ GraphEdge.target e = id /\ GraphEdge.source e = p.
Proof.
  unfold parentsOf. rewrite list_elem_of_In, in_map_iff. split.
  - intros (e & <- & He). apply list_elem_of_In, list_elem_of_filter in He as [Ht He]. eauto.
  - intros (e & He & Ht & <-). exists e. split; [done|].
    apply list_elem_of_In, list_elem_of_filter. done.
Qed.

Lemma unseen_split (seen : gset string) (id : string) (l : list GraphEdge.t) :
  id ∉ seen ->
  length (filter (fun e => GraphEdge.target e ∉ seen) l)
  = (length (filter (fun e => GraphEdge.target e ∉ {[ id ]} ∪ seen) l)
     + length (filter (fun e => GraphEdge.target e = id) l))%nat.
Proof.
  intros Hid. induction l as [|e l IH]; [done|].
  rewrite !filter_cons.
  destruct (decide (GraphEdge.target e = id)) as [E|E].
  - rewrite decide_True by (by rewrite E).
    rewrite decide_False by set_solver. cbn [length]. lia.
  - destruct (decide (GraphEdge.target e ∉ seen)) as [Hs|Hs].
    + rewrite decide_True; [cbn [length]; lia|].
      intros [?%elem_of_singleton|?]%elem_of_union; done.
    + rewrite decide_False; [exact IH|].
      intros H1. apply Hs. intros H2. apply H1, elem_of_union. by right.
Qed.

Lemma unseen_mono (seen : gset string) (id : string) (l : list GraphEdge.t) :
  (length (filter (fun e => GraphEdge.target e ∉ {[ id ]} ∪ seen) l)
   <= length (filter (fun e => GraphEdge.target e ∉ seen) l))%nat.
Proof.
  induction l as [|e l IH]; [done|]. rewrite !filter_cons.
  destruct (decide (GraphEdge.target e ∉ {[ id ]} ∪ seen)) as [Hs|Hs].
  - rewrite decide_True by set_solver. cbn [length]. lia.
  - destruct (decide (GraphEdge.target e ∉ seen)); cbn [length]; lia.
Qed.

Lemma walk_step_measure (w : Walk.t) :
  Walk.q w <> [] ->
  (walk_measure edges (walk_step nodes edges w) < walk_measure edges w)%nat.
Proof.
  intros Hq. unfold walk_step, walk_measure.
  destruct (Walk.q w) as [|id rest]; [done|].
  destruct (decide (id ∈ Walk.seen w)) as [Hs|Hs]; cbn [Walk.q Walk.seen length]; [lia|].
  destruct (nodeById nodes id) as [n|]; cbn [Walk.q Walk.seen length].
  - rewrite length_app. unfold parentsOf. rewrite length_map.
    rewrite (unseen_split (Walk.seen w) id edges Hs). lia.
  - pose proof (unseen_mono (Walk.seen w) id edges). lia.
Qed.

Lemma walk_done (fuel : nat) (w : Walk.t) :
  (walk_measure edges w <= fuel)%nat -> Walk.q (walk fuel nodes edges w) = [].
Proof.
  revert w. induction fuel as [|fuel IH]; intros w Hm; cbn [walk].
  - unfold walk_measure in Hm. destruct (Walk.q w); [done | cbn in Hm; lia].
  - destruct (Walk.q w) as [|id rest] eqn:Hq; [done|].
    apply IH. pose proof (walk_step_measure w) as H. rewrite Hq in H.
    specialize (H ltac:(done)). lia.
Qed.

Lemma seen_add_old (x id : string) (seen : gset string) : x ∈ seen -> x ∈ {[ id ]} ∪ seen.
Proof. intros H. apply elem_of_union. by right. Qed.

Lemma seen_add_new (id : string) (seen : gset string) : id ∈ {[ id ]} ∪ seen.
Proof. apply elem_of_union. left. by apply elem_of_singleton. Qed.

Lemma walk_step_ok (w : Walk.t) :
  walk_ok nodes edges start w -> walk_ok nodes edges start (walk_step nodes edges w).
Proof.
  intros (Hup & Hstart & Hclosed & Hzero). unfold walk_step.
  destruct (Walk.q w) as [|id rest] eqn:Hq; [by rewrite <- Hq in *|].
  destruct (decide (id ∈ Walk.seen w)) as [Hs|Hs].
  { split_and!; cbn [Walk.q Walk.seen Walk.toZero].
    - intros x [Hx|Hx]; apply Hup; [by left | right; by right].
    - destruct Hstart as [?|[->|?]%elem_of_cons]; [by left | by left | by right].
    - intros x e Hx Hn He Ht.
      destruct (Hclosed x e Hx Hn He Ht) as [?|[->|?]%elem_of_cons];
        [by left | by left | by right].
    - exact Hzero. }
  assert (Hid : upstream nodes edges start id) by (apply Hup; right; left).
  destruct (nodeById nodes id) as [n|] eqn:Hn.
  - split_and!; cbn [Walk.q Walk.seen Walk.toZero].
    + intros x [Hx|Hx].
      * apply elem_of_union in Hx as [->%elem_of_singleton|Hx]; [done | apply Hup; by left].
      * apply elem_of_app in Hx as [Hx|Hx]; [apply Hup; right; by right|].
        apply parentsOf_elem in Hx as (e & He & Ht & <-).
        eapply upstream_parent; [exact Hid | by rewrite Hn | exact He | exact Ht].
    + destruct Hstart as [?|[->|?]%elem_of_cons];
        [left; by apply seen_add_old | left; apply seen_add_new
        | right; apply elem_of_app; by left].
    + intros x e Hx Hx' He Ht.
      apply elem_of_union in Hx as [->%elem_of_singleton|Hx].
      * right. apply elem_of_app. right. apply parentsOf_elem. eauto.
      * destruct (Hclosed x e Hx Hx' He Ht) as [?|[->|?]%elem_of_cons];
          [left; by apply seen_add_old | left; apply seen_add_new
          | right; apply elem_of_app; by left].
    + intros p. rewrite elem_of_union, elem_of_singleton, Hzero. split.
      * intros [->|(x & m & Hx & Hm & Hp)].
        -- exists id, n. split; [apply seen_add_new | done].
        -- exists x, m. split; [by apply seen_add_old | done].
      * intros (x & m & Hx & Hm & Hp).
        apply elem_of_union in Hx as [->%elem_of_singleton|Hx]; [left | right; eauto].
        congruence.
  - split_and!; cbn [Walk.q Walk.seen Walk.toZero].
    + intros x [Hx|Hx].
      * apply elem_of_union in Hx as [->%elem_of_singleton|Hx]; [done | apply Hup; by left].
      * apply Hup. right. by right.
    + destruct Hstart as [?|[->|?]%elem_of_cons];
        [left; by apply seen_add_old | left; apply seen_add_new | by right].
    + intros x e Hx Hx' He Ht.
      apply elem_of_union in Hx as [->%elem_of_singleton|Hx].
      * rewrite Hn in Hx'. by destruct Hx'.
      * destruct (Hclosed x e Hx Hx' He Ht) as [?|[->|?]%elem_of_cons];
          [left; by apply seen_add_old | left; apply seen_add_new | by right].
    + intros p. rewrite Hzero. split.
      * intros (x & m & Hx & Hm & Hp). exists x, m. split; [by apply seen_add_old | done].
      * intros (x & m & Hx & Hm & Hp). exists x, m.
        apply elem_of_union in Hx as [->%elem_of_singleton|Hx]; [congruence | done].
Qed.

Lemma walk_ok_fuel (fuel : nat) (w : Walk.t) :
  walk_ok nodes edges start w -> walk_ok nodes edges start (walk fuel nodes edges w).
Proof.
  revert w. induction fuel as [|fuel IH]; intros w Hw; cbn [walk]; [done|].
  destruct (Walk.q w); [done|]. by apply IH, walk_step_ok.
Qed.

Lemma walk_ok_init : walk_ok nodes edges start (Walk.mk ∅ ∅ [start]).
Proof.
  split_and!; cbn.
  - intros id [Hid | ->%list_elem_of_singleton]; [by apply elem_of_empty in Hid | constructor].
  - right. by left.
  - intros id e Hid. by apply elem_of_empty in Hid.
  - intros p. split; [by intros ?%elem_of_empty|].
    intros (x & m & Hx & _). by apply elem_of_empty in Hx.
Qed.

Lemma walk_seen_upstream (w : Walk.t) :
  walk_ok nodes edges start w -> Walk.q w = [] ->
  forall id, id ∈ Walk.seen w <-> upstream nodes edges start id.
Proof.
  intros (Hup & Hstart & Hclosed & _) Hq id. rewrite Hq in *. split.
  - intros H. apply Hup. by left.
  - induction 1 as [|x e Hx IH Hn He Ht].
    + destruct Hstart as [?|?%elem_of_nil]; done.
    + destruct (Hclosed x e IH Hn He Ht) as [?|?%elem_of_nil]; done.
Qed.

Lemma zero_fold (X : gset string) (budgets : gmap string Z) (p : string) :
  set_fold (fun p next => <[ p := 0%Z ]> next) budgets X !! p
  = if decide (p ∈ X) then Some 0%Z else budgets !! p.
Proof.
  unfold set_fold. cbn.
  assert (H : forall l : list string,
    foldr (fun p next => <[ p := 0%Z ]> next) budgets l !! p
    = if decide (p ∈ l) then Some 0%Z else budgets !! p).
  { induction l as [|x l IH]; cbn [foldr].
    - by rewrite decide_False by (by intros ?%elem_of_nil).
    - destruct (decide (x = p)) as [->|Hne].
      + rewrite lookup_insert_eq. by rewrite decide_True by left.
      + rewrite lookup_insert_ne by done. rewrite IH.
        destruct (decide (p ∈ l)).
        * by rewrite decide_True by (by right).
        * rewrite decide_False; [done|]. intros [?|?]%elem_of_cons; congruence. }
  rewrite H. destruct (decide (p ∈ X)) as [Hp|Hp].
  - rewrite decide_True; [done|]. by apply elem_of_elements.
  - rewrite decide_False; [done|]. by rewrite elem_of_elements.
Qed.

End Collapse.

(** X16. The walk of the per-product [collapseBranch] ends within
    [1 + number of edges] iterations, whatever the graph (cycles included).
    It sets to 0 the budget of the product of every node that is reached
    from the clicked id by following edges from target to source through
    nodes of the graph, and leaves every other budget as it was. *)
Theorem collapseBranch_spec (nodes : list GraphNode.t) (edges : list GraphEdge.t)
    (budgets : gmap string Z) (nodeId : string) (fuel : nat) :
  (S (length edges) <= fuel)%nat ->
  let w := PerProduct.walk fuel nodes edges (PerProduct.Walk.mk ∅ ∅ [nodeId]) in
  let next := PerProduct.collapseBranch fuel nodes edges budgets nodeId in
  PerProduct.Walk.q w = []
  /\ (forall id n,
        upstream nodes edges nodeId id -> PerProduct.nodeById nodes id = Some n ->
        next !! GraphNode.product n = Some 0%Z)
  /\ (forall p,
        (forall id n,
           upstream nodes edges nodeId id -> PerProduct.nodeById nodes id = Some n ->
           GraphNode.product n <> p) ->
        next !! p = budgets !! p).
Proof.
  intros Hfuel w next.
  assert (Hq : PerProduct.Walk.q w = []).
  { apply walk_done. unfold walk_measure. cbn [PerProduct.Walk.q PerProduct.Walk.seen].
    etrans; [|exact Hfuel]. cbn [length Nat.add]. apply le_n_S, length_filter. }
  pose proof (walk_ok_fuel nodes edges nodeId fuel _ (walk_ok_init nodes edges nodeId)) as Hok.
  fold w in Hok. pose proof (walk_seen_upstream nodes edges nodeId w Hok Hq) as Hseen.
  destruct Hok as (_ & _ & _ & Hzero).
  split; [exact Hq|]. subst next. unfold PerProduct.collapseBranch. fold w. split.
  - intros id n Hid Hn. rewrite zero_fold. rewrite decide_True; [done|].
    apply Hzero. exists id, n. by rewrite Hseen.
  - intros p Hp. rewrite zero_fold. rewrite decide_False; [done|].
    rewrite Hzero. intros (id & n & Hid & Hn & E). apply (Hp id n); [by apply Hseen | done | done].
Qed.

Lemma collapseBranch_spec_witness :
  let w := PerProduct.walk 3 Examples.line_nodes Examples.line_edges
             (PerProduct.Walk.mk ∅ ∅ ["Iron::R2"]) in
  let next := PerProduct.collapseBranch 3 Examples.line_nodes Examples.line_edges
                Examples.iron_budget "Iron::R2" in
  PerProduct.Walk.q w = []
  /\ (forall id n,
        upstream Examples.line_nodes Examples.line_edges "Iron::R2" id ->
        PerProduct.nodeById Examples.line_nodes id = Some n ->
        next !! GraphNode.product n = Some 0%Z)
  /\ (forall p,
        (forall id n,
           upstream Examples.line_nodes Examples.line_edges "Iron::R2" id ->
           PerProduct.nodeById Examples.line_nodes id = Some n ->
           GraphNode.product n <> p) ->
        next !! p = Examples.iron_budget !! p).
Proof.
  apply (collapseBranch_spec Examples.line_nodes Examples.line_edges Examples.iron_budget
           "Iron::R2" 3).
  vm_compute. lia.
Defined.

(** ** The per-product walks: [expandBranchBy] *)

Section Climb.

Import PerProduct.

Variable nodes : list GraphNode.t.
Variable edges : list GraphEdge.t.
Variable start : string.
Variable hops : Z.
Variable budgets : gmap string Z.

Local Abbreviation ok := (climb_ok nodes edges start hops budgets).

Lemma nodeById_elem (id : string) (n : GraphNode.t) :
  nodeById nodes id = Some n -> n ∈ nodes /\ GraphNode.id n = id.
Proof.
  unfold nodeById. intros H. apply find_some in H as [Hin Hid].
  split; [by apply list_elem_of_In, in_rev, list_elem_of_In | by apply String.eqb_eq].
Qed.

Lemma reaches_le (id : string) (v : Z) :
  reaches nodes edges start hops id v -> (0 < v <= hops)%Z.
Proof. intros (d & _ & -> & Hpos). lia. Qed.

Lemma climb_potential_insert (best : gmap string Z) (id : string) (n : GraphNode.t)
    (rem : Z) :
  n ∈ nodes -> GraphNode.id n = id ->
  (default (-1) (best !! id) < rem <= hops)%Z ->
  (climb_potential nodes hops (<[ id := rem ]> best) < climb_potential nodes hops best)%nat.
Proof.
  intros Hn Hid Hrem. unfold climb_potential.
  apply sum_list_fmap_lt with (x := n); [done| |].
  - unfold climb_slack. rewrite Hid, lookup_insert_eq. cbn. lia.
  - intros m. unfold climb_slack. destruct (decide (id = GraphNode.id m)) as [<-|Hne].
    + rewrite lookup_insert_eq. cbn. lia.
    + by rewrite lookup_insert_ne.
Qed.

(** The two ways an iteration can go. *)
Lemma climb_step_cases (c : Climb.t) (item : QItem.t) (rest : list QItem.t) :
  Climb.q c = item :: rest ->
  (climb_step nodes edges c = Climb.mk (Climb.next c) (Climb.best c) rest
   /\ (nodeById nodes (QItem.id item) = None
       \/ (QItem.rem item <= default (-1) (Climb.best c !! QItem.id item))%Z))
  \/ exists n,
       nodeById nodes (QItem.id item) = Some n
       /\ (default (-1) (Climb.best c !! QItem.id item) < QItem.rem item)%Z
       /\ climb_step nodes edges c
          = Climb.mk
              (if (default 0 (Climb.next c !! GraphNode.product n) <? QItem.rem item)%Z
               then <[ GraphNode.product n := QItem.rem item ]> (Climb.next c)
               else Climb.next c)
              (<[ QItem.id item := QItem.rem item ]> (Climb.best c))
              (if (0 <? QItem.rem item - 1)%Z
               then rest ++ map (fun p => QItem.mk p (QItem.rem item - 1)%Z)
                              (parentsOf edges (QItem.id item))
               else rest).
Proof.
  intros Hq. unfold climb_step. rewrite Hq.
  destruct (nodeById nodes (QItem.id item)) as [n|]; [|left; split; [done | by left]].
  destruct (Z.ltb_spec (default (-1)%Z (Climb.best c !! QItem.id item)) (QItem.rem item)).
  - right. exists n. done.
  - left. split; [done | by right].
Qed.

Lemma climb_step_measure (c : Climb.t) :
  ok c -> Climb.q c <> [] ->
  (climb_measure nodes edges hops (climb_step nodes edges c)
   < climb_measure nodes edges hops c)%nat.
Proof.
  intros (Hq & _) Hne. destruct (Climb.q c) as [|item rest] eqn:Eq; [done|].
  apply Forall_cons in Hq as [Hitem _]. apply reaches_le in Hitem.
  unfold climb_measure.
  destruct (climb_step_cases c item rest Eq) as [[-> _] | (n & Hn & Hlt & ->)];
    rewrite Eq; cbn [Climb.q Climb.best length]; [lia|].
  apply nodeById_elem in Hn as [Hin Hid].
  pose proof (climb_potential_insert (Climb.best c) _ n (QItem.rem item) Hin Hid
                ltac:(lia)) as Hpot.
  assert (Hlen : (length (if (0 <? QItem.rem item - 1)%Z
                          then rest ++ map (fun p => QItem.mk p (QItem.rem item - 1)%Z)
                                         (parentsOf edges (QItem.id item))
                          else rest)
                  <= length rest + length edges)%nat).
  { destruct (0 <? _)%Z; [|lia]. rewrite length_app, length_map. unfold parentsOf.
    rewrite length_map. pose proof (length_filter
      (fun e => GraphEdge.target e = QItem.id item) edges). lia. }
  nia.
Qed.

Lemma covered_step (c : Climb.t) (x : string) (a : Z) :
  ok c -> covered nodes c x a -> covered nodes (climb_step nodes edges c) x a.
Proof.
  intros (Hq & _) Hc. destruct (Climb.q c) as [|item rest] eqn:Eq.
  { unfold climb_step. by rewrite Eq. }
  apply Forall_cons in Hq as [Hitem _]. apply reaches_le in Hitem. unfold covered.
  destruct Hc as [Hnone | [(v & Hv & Hle) | (it & Hit & Hid & Hle)]]; [by left | |].
  - right. left.
    destruct (climb_step_cases c item rest Eq) as [[-> _] | (n & Hn & Hlt & ->)];
      cbn [Climb.best]; [by exists v|].
    destruct (decide (QItem.id item = x)) as [E|E].
    + rewrite E in *. rewrite Hv in Hlt. cbn in Hlt.
      exists (QItem.rem item). rewrite lookup_insert_eq. split; [done | lia].
    + exists v. by rewrite lookup_insert_ne.
  - rewrite Eq in Hit. apply elem_of_cons in Hit as [-> | Hit].
    + destruct (climb_step_cases c item rest Eq) as [[-> [Hn | Hb]] | (n & Hn & Hlt & ->)];
        cbn [Climb.best].
      * left. by rewrite <- Hid.
      * right. left. rewrite Hid in Hb.
        destruct (Climb.best c !! x) as [v|]; cbn in Hb; [|lia].
        exists v. split; [done | lia].
      * right. left. exists (QItem.rem item). rewrite Hid, lookup_insert_eq. done.
    + right. right. exists it.
      destruct (climb_step_cases c item rest Eq) as [[-> _] | (n & Hn & Hlt & ->)];
        cbn [Climb.q]; [done|].
      split; [|done]. destruct (0 <? _)%Z; [apply elem_of_app; by left | done].
Qed.

Lemma raised_or_kept_le (next : gmap string Z) (p : string) :
  raised_or_kept nodes edges start hops budgets next p ->
  (default 0 (budgets !! p) <= default 0 (next !! p))%Z.
Proof.
  intros [-> | (id & n & v & _ & _ & _ & -> & Hlt)]; [lia | cbn; lia].
Qed.

Lemma climb_step_ok (c : Climb.t) : ok c -> ok (climb_step nodes edges c).
Proof.
  intros Hok. pose proof Hok as (Hq & Hbest & Hnext & Hlow & Hclosed & Hstart).
  destruct (Climb.q c) as [|item rest] eqn:Eq.
  { unfold climb_step. by rewrite Eq. }
  apply Forall_cons in Hq as [Hitem Hrest].
  pose proof (fun x a => covered_step c x a Hok) as Hcov.
  destruct (climb_step_cases c item rest Eq) as [[E _] | (n & Hn & Hlt & E)];
    rewrite E in *; clear E.
  { split_and!; cbn [Climb.q Climb.best Climb.next] in *; eauto. }
  pose proof (reaches_le _ _ Hitem) as Hrem.
  split_and!; cbn [Climb.q Climb.best Climb.next] in *.
  - destruct (Z.ltb_spec 0 (QItem.rem item - 1)); [|done].
    apply Forall_app. split; [done|]. apply Forall_forall. intros it Hit.
    apply list_elem_of_In, in_map_iff in Hit as (p & <- & Hp).
    apply list_elem_of_In in Hp. unfold parentsOf in Hp.
    apply list_elem_of_In, in_map_iff in Hp as (e & <- & He).
    apply list_elem_of_In, list_elem_of_filter in He as [Ht He].
    destruct Hitem as (d & Hd & Hv & _). exists (S d). cbn [QItem.id QItem.rem].
    split; [|lia]. eapply upstream_in_parent; [exact Hd | by rewrite Hn | exact He | exact Ht].
  - intros id v. destruct (decide (QItem.id item = id)) as [<-|Hne].
    + rewrite lookup_insert_eq. intros [= <-]. split; [by rewrite Hn | done].
    + rewrite lookup_insert_ne by done. apply Hbest.
  - intros p. destruct (Z.ltb_spec (default 0%Z (Climb.next c !! GraphNode.product n))
                          (QItem.rem item)) as [Hup|Hup]; [|apply Hnext].
    destruct (decide (GraphNode.product n = p)) as [<-|Hne].
    + right. exists (QItem.id item), n, (QItem.rem item).
      rewrite lookup_insert_eq. split_and!; try done.
      pose proof (raised_or_kept_le _ _ (Hnext (GraphNode.product n))). lia.
    + destruct (Hnext p) as [Hp | (id & m & v & H1 & H2 & H3 & H4 & H5)].
      * left. by rewrite lookup_insert_ne.
      * right. exists id, m, v. by rewrite lookup_insert_ne.
  - assert (Hmono : forall p,
      (default 0 (Climb.next c !! p)
       <= default 0 ((if (default 0 (Climb.next c !! GraphNode.product n) <? QItem.rem item)%Z
                      then <[ GraphNode.product n := QItem.rem item ]> (Climb.next c)
                      else Climb.next c) !! p))%Z).
    { intros p. destruct (Z.ltb_spec (default 0%Z (Climb.next c !! GraphNode.product n))
                            (QItem.rem item)) as [Hup|Hup]; [|lia].
      destruct (decide (GraphNode.product n = p)) as [<-|Hne].
      - rewrite lookup_insert_eq. cbn. lia.
      - rewrite lookup_insert_ne by done. lia. }
    intros id v m. destruct (decide (QItem.id item = id)) as [<-|Hne].
    + rewrite lookup_insert_eq, Hn. intros [= <-] [= <-].
      destruct (Z.ltb_spec (default 0%Z (Climb.next c !! GraphNode.product n))
                  (QItem.rem item)) as [Hup|Hup]; [|lia].
      rewrite lookup_insert_eq. cbn. lia.
    + rewrite lookup_insert_ne by done. intros Hv Hm.
      specialize (Hlow id v m Hv Hm). specialize (Hmono (GraphNode.product m)). lia.
  - intros id v e. destruct (decide (QItem.id item = id)) as [<-|Hne].
    + rewrite lookup_insert_eq. intros [= <-] Hv He Ht. right. right.
      exists (QItem.mk (GraphEdge.source e) (QItem.rem item - 1)%Z). cbn [Climb.q].
      rewrite (proj2 (Z.ltb_lt 0 (QItem.rem item - 1))) by lia. split; [|done].
      apply elem_of_app. right. apply list_elem_of_In, in_map_iff.
      exists (GraphEdge.source e). split; [done|]. apply list_elem_of_In.
      unfold parentsOf. apply list_elem_of_In, in_map_iff. exists e. split; [done|].
      apply list_elem_of_In, list_elem_of_filter. done.
    + rewrite lookup_insert_ne by done. intros Hv Hv1 He Ht.
      exact (Hcov _ _ (Hclosed id v e Hv Hv1 He Ht)).
  - exact (Hcov _ _ Hstart).
Qed.

Lemma climb_spec (fuel : nat) (c : Climb.t) :
  ok c ->
  ok (climb fuel nodes edges c)
  /\ ((climb_measure nodes edges hops c <= fuel)%nat ->
      Climb.q (climb fuel nodes edges c) = []).
Proof.
  revert c. induction fuel as [|fuel IH]; intros c Hok; cbn [climb].
  - split; [done|]. unfold climb_measure. destruct (Climb.q c); [done | cbn; lia].
  - destruct (Climb.q c) as [|item rest] eqn:Eq; [done|].
    destruct (IH _ (climb_step_ok c Hok)) as [H1 H2]. split; [done|].
    intros Hm. apply H2. pose proof (climb_step_measure c Hok) as Hlt.
    rewrite Eq in Hlt. specialize (Hlt ltac:(done)). lia.
Qed.

Lemma climb_ok_init :
  (0 < hops)%Z -> ok (Climb.mk budgets ∅ [QItem.mk start hops]).
Proof.
  intros Hpos. split_and!; cbn [Climb.q Climb.best Climb.next].
  - apply Forall_singleton. exists 0%nat. cbn. split; [constructor | lia].
  - intros id v. by rewrite lookup_empty.
  - intros p. by left.
  - intros id v n. by rewrite lookup_empty.
  - intros id v e. by rewrite lookup_empty.
  - right. right. exists (QItem.mk start hops). split; [by left | cbn; split; [done | lia]].
Qed.

Lemma climb_complete (c : Climb.t) (d : nat) (id : string) :
  ok c -> Climb.q c = [] ->
  upstream_in nodes edges start d id -> (Z.of_nat d < hops)%Z ->
  is_Some (nodeById nodes id) ->
  exists v, Climb.best c !! id = Some v /\ (hops - Z.of_nat d <= v)%Z.
Proof.
  intros (_ & _ & _ & _ & Hclosed & Hstart) Hq.
  assert (Hcov : forall x a, covered nodes c x a -> is_Some (nodeById nodes x) ->
    exists v, Climb.best c !! x = Some v /\ (a <= v)%Z).
  { intros x a [Hnone | [Hv | (it & Hit & _)]] Hx.
    - rewrite Hnone in Hx. by destruct Hx.
    - exact Hv.
    - rewrite Hq in Hit. by apply elem_of_nil in Hit. }
  induction 1 as [|d x e Hx IH Hnx He Ht]; intros Hd Hn.
  - destruct (Hcov _ _ Hstart Hn) as (v & Hv & Hle). exists v. split; [done | lia].
  - destruct (IH ltac:(lia) Hnx) as (v & Hv & Hle).
    destruct (Hcov _ _ (Hclosed x v e Hv ltac:(lia) He Ht) Hn) as (v' & Hv' & Hle').
    exists v'. split; [done | lia].
Qed.

End Climb.

Lemma expandBranchBy_walk (nodes : list GraphNode.t) (edges : list GraphEdge.t)
    (budgets : gmap string Z) (nodeId : string) (hops : Z) :
  let c0 := PerProduct.Climb.mk budgets ∅ [QItem.mk nodeId hops] in
  let next := PerProduct.expandBranchBy nodes edges budgets nodeId hops in
  ((0 < hops)%Z ->
   PerProduct.Climb.q
     (PerProduct.climb (PerProduct.climb_measure nodes edges hops c0) nodes edges c0) = [])
  /\ ((hops <= 0)%Z -> next = budgets)
  /\ (forall (d : nat) id n,
        upstream_in nodes edges nodeId d id -> (Z.of_nat d < hops)%Z ->
        PerProduct.nodeById nodes id = Some n ->
        (hops - Z.of_nat d <= default 0 (next !! GraphNode.product n))%Z)
  /\ (forall p,
        raised_or_kept nodes edges nodeId hops budgets next p
        /\ (default 0 (budgets !! p) <= default 0 (next !! p))%Z).
Proof.
  intros c0 next. subst next. unfold PerProduct.expandBranchBy. fold c0.
  destruct (Z.leb_spec hops 0) as [Hle|Hpos].
  - split_and!.
    + lia.
    + done.
    + intros d id n _ Hd. lia.
    + intros p. split; [by left | lia].
  - pose proof (climb_ok_init nodes edges nodeId hops budgets Hpos) as Hok0. fold c0 in Hok0.
    destruct (climb_spec nodes edges nodeId hops budgets
                (PerProduct.climb_measure nodes edges hops c0) c0 Hok0) as [Hok Hq].
    specialize (Hq (Nat.le_refl _)).
    set (c := PerProduct.climb _ nodes edges c0) in *.
    split_and!; [done | lia | |].
    + intros d id n Hup Hd Hn.
      destruct (climb_complete nodes edges nodeId hops budgets c d id Hok Hq Hup Hd)
        as (v & Hv & Hle); [by rewrite Hn|].
      destruct Hok as (_ & _ & _ & Hlow & _). specialize (Hlow id v n Hv Hn). lia.
    + intros p. destruct Hok as (_ & _ & Hnext & _).
      split; [apply Hnext | eapply raised_or_kept_le, Hnext].
Qed.

(** X17. The per-product [expandBranchBy] stops for every graph (cycles
    included).  With [hops <= 0] it changes nothing.  Otherwise it walks
    from the clicked node to its consumers, and for every node that is [d]
    edges above it with [d < hops] the budget of that node's product ends at
    [hops - d] or more; a budget is never lowered, and one that changes is
    raised to such an allowance [hops - d] of a node of its product. *)
Theorem expandBranchBy_spec (nodes : list GraphNode.t) (edges : list GraphEdge.t)
    (budgets : gmap string Z) (nodeId : string) (hops : Z) :
  let c0 := PerProduct.Climb.mk budgets ∅ [QItem.mk nodeId hops] in
  let next := PerProduct.expandBranchBy nodes edges budgets nodeId hops in
  ((0 < hops)%Z ->
   PerProduct.Climb.q
     (PerProduct.climb (PerProduct.climb_measure nodes edges hops c0) nodes edges c0) = [])
  /\ ((hops <= 0)%Z -> next = budgets)
  /\ (forall (d : nat) id n,
        upstream_in nodes edges nodeId d id -> (Z.of_nat d < hops)%Z ->
        PerProduct.nodeById nodes id = Some n ->
        (hops - Z.of_nat d <= default 0 (next !! GraphNode.product n))%Z)
  /\ (forall p,
        raised_or_kept nodes edges nodeId hops budgets next p
        /\ (default 0 (budgets !! p) <= default 0 (next !! p))%Z).
Proof. apply expandBranchBy_walk. Qed.

(** X18. The budget walk of the per-product [expandBranchBy] reaches a
    fixed point on the graph it walks: run again with the same node id and
    hop count over the same nodes and edges, from the budgets it produced,
    it changes nothing.  The statement holds the graph fixed.  It covers a
    second click only when the rebuild that ends the action publishes the
    same nodes and edges; when the rebuild adds an edge into the branch, the
    second walk runs on the larger graph and can raise further budgets. *)
Theorem expandBranchBy_fixed_graph (nodes : list GraphNode.t) (edges : list GraphEdge.t)
    (budgets : gmap string Z) (nodeId : string) (hops : Z) :
  PerProduct.expandBranchBy nodes edges
    (PerProduct.expandBranchBy nodes edges budgets nodeId hops) nodeId hops
  = PerProduct.expandBranchBy nodes edges budgets nodeId hops.
Proof.
  set (next1 := PerProduct.expandBranchBy nodes edges budgets nodeId hops).
  destruct (expandBranchBy_walk nodes edges budgets nodeId hops) as (_ & _ & Hfirst & _).
  destruct (expandBranchBy_walk nodes edges next1 nodeId hops) as (_ & _ & _ & Hsecond).
  cbv zeta in Hfirst, Hsecond. fold next1 in Hfirst.
  apply map_eq. intros p.
  destruct (Hsecond p) as [[Hkept | (id & n & v & (d & Hup & -> & Hpos) & Hn & <- & _ & Hlt)] _];
    [exact Hkept|].
  specialize (Hfirst d id n Hup ltac:(lia) Hn). lia.
Qed.

(** X19. In the per-product store, [expandBranchAll] expands by 50 hops:
    every node that is [d < 50] edges above the clicked node ends with a
    budget of at least [50 - d] for its product. *)
Theorem expandBranchAll_reach (nodes : list GraphNode.t) (edges : list GraphEdge.t)
    (budgets : gmap string Z) (nodeId : string) (d : nat) (id : string)
    (n : GraphNode.t) :
  upstream_in nodes edges nodeId d id -> (d < 50)%nat ->
  PerProduct.nodeById nodes id = Some n ->
  (50 - Z.of_nat d
   <= default 0 (PerProduct.expandBranchAll nodes edges budgets nodeId
                   !! GraphNode.product n))%Z.
Proof.
  intros Hup Hd Hn. unfold PerProduct.expandBranchAll.
  destruct (expandBranchBy_walk nodes edges budgets nodeId 50) as (_ & _ & H & _).
  apply (H d id n Hup ltac:(lia) Hn).
Qed.

Lemma expandBranchAll_reach_witness :
  (50 - Z.of_nat 1
   <= default 0 (PerProduct.expandBranchAll Examples.line_nodes Examples.line_edges ∅
                   "Iron::R2"
                   !! GraphNode.product (makeNode Examples.R1 "Gear" 60 0)))%Z.
Proof.
  apply (expandBranchAll_reach Examples.line_nodes Examples.line_edges ∅ "Iron::R2" 1
           "Gear::R1" (makeNode Examples.R1 "Gear" 60 0)).
  - apply (upstream_in_parent _ _ _ 0 "Iron::R2"
             (GraphEdge.mk "Gear::R1=>Iron::R2#0" "Gear::R1" "Iron::R2" "Iron")).
    + constructor.
    + vm_compute. eauto.
    + vm_compute. left.
    + reflexivity.
  - lia.
  - vm_compute. reflexivity.
Defined.

(** X20. After [setChoiceBuilding] with a non-empty building name, when no
    recipe is chosen explicitly for the product and some recipe of the
    product runs in that building, [build] makes the root of the first
    target, when it is of that product, from the first recipe of that
    building: that root is published, in the chosen building, at depth 0. *)
Theorem setChoiceBuilding_root (idx : ProductIndex) (s : State.t) (P b : string)
    (t : Target.t) (r : Recipe.t) :
  index_ok idx ->
  head (State.targets s) = Some t -> Target.product t = P ->
  b <> "" ->
  Js.truthy (default None (State.choicesRecipe s !! P)) = false ->
  r ∈ default [] (idx !! P) -> Recipe.building r = b ->
  let s' := build idx (setChoiceBuilding P b s) in
  exists r' root,
    Js.find (fun x => bool_decide (Recipe.building x = b)) (default [] (idx !! P)) = Some r'
    /\ root = makeNode r' P (Target.ratePerMin t) 0
    /\ root ∈ State.graphNodes s'
    /\ GraphNode.building root = b
    /\ State.choicesBuilding s' !! P = Some b.
Proof.
  intros Hidx Ht HP Hb Hexp Hr Hrb. cbv zeta.
  set (s1 := setChoiceBuilding P b s).
  destruct (Js.find (fun x => bool_decide (Recipe.building x = b)) (default [] (idx !! P)))
    as [r'|] eqn:Ef.
  2:{ apply find_none in Ef. rewrite Forall_forall in Ef. specialize (Ef r Hr). cbn in Ef.
      by rewrite bool_decide_true in Ef. }
  pose proof Ef as Ef'. apply find_some in Ef' as [Hr' Hb']. apply bool_decide_eq_true in Hb'.
  assert (Hres : resolve idx (State.choicesRecipe s1) (State.choicesBuilding s1)
                   (Target.product t) None = Some r').
  { rewrite HP. unfold resolve, pickRecipeWithPrefs, s1, setChoiceBuilding.
    cbn [State.set_choices State.choicesRecipe State.choicesBuilding].
    rewrite !(find_given _ Recipe.building), (find_given _ Recipe.recipeId).
    rewrite lookup_insert_eq. unfold given at 1 2 3. rewrite Hexp. cbn [Js.truthy].
    rewrite (proj2 (String.eqb_neq b "") Hb). cbn [negb mbind option_bind].
    by rewrite Ef. }
  assert (Ht1 : t ∈ State.targets s1).
  { unfold s1, setChoiceBuilding. cbn. destruct (State.targets s); [done|].
    cbn in Ht. injection Ht as <-. left. }
  destruct (built_first_hop idx s1 t r' Hidx Ht1 Hres) as (root & Hin & _ & Hmk & _).
  assert (Hhead : head (State.targets s1) = Some t) by exact Ht.
  specialize (Hmk Hhead). rewrite HP in Hmk.
  exists r', root. split; [done|]. split; [done|].
  destruct (build_nonempty idx s1) as (-> & _).
  { intros E. rewrite E in Ht1. by apply elem_of_nil in Ht1. }
  split; [done|]. split; [by rewrite Hmk|].
  rewrite build_choicesBuilding. unfold s1, setChoiceBuilding. cbn. apply lookup_insert_eq.
Qed.

Lemma setChoiceBuilding_root_witness :
  let s' := build Examples.gears (setChoiceBuilding "Gear" "Press" Examples.gear_store) in
  exists r' root,
    Js.find (fun x => bool_decide (Recipe.building x = "Press"))
      (default [] (Examples.gears !! "Gear")) = Some r'
    /\ root = makeNode r' "Gear" (Target.ratePerMin (Target.mk "Gear" 60 None)) 0
    /\ root ∈ State.graphNodes s'
    /\ GraphNode.building root = "Press"
    /\ State.choicesBuilding s' !! "Gear" = Some "Press".
Proof.
  apply (setChoiceBuilding_root Examples.gears Examples.gear_store "Gear" "Press"
           (Target.mk "Gear" 60 None) Examples.R1b).
  - apply PRODUCT_INDEX_ok.
  - vm_compute. reflexivity.
  - reflexivity.
  - discriminate.
  - vm_compute. reflexivity.
  - vm_compute. right. left.
  - reflexivity.
Defined.

(** ** scripts/convert-to-json: what the converter guarantees *)

Section Converted.

Variable numberOfString : string -> option Q.
Variable stringOfNumber : Q -> string.

Local Abbreviation collectIO := (Convert.collectIO numberOfString stringOfNumber).
Local Abbreviation convert_row := (Convert.convert_row numberOfString stringOfNumber).
Local Abbreviation convert := (Convert.convert numberOfString stringOfNumber).

Lemma collectIO_clean (cols : nat -> Convert.cell * Convert.cell) :
  Forall io_clean (collectIO cols) /\ (length (collectIO cols) <= 9)%nat.
Proof.
  unfold Convert.collectIO.
  enough (H : forall l : list nat,
    let ios := flat_map
      (fun i => let '(name, qty) := cols i in
         if negb (Convert.is_null name) && negb (Convert.is_null qty)
            && negb (Qeq_bool (Convert.toNumber numberOfString qty) 0)
         then [IO.mk (Js.trim (Convert.toString stringOfNumber name))
                 (Convert.toNumber numberOfString qty)]
         else []) l in
    Forall io_clean ios /\ (length ios <= length l)%nat) by apply (H (seq 1 9)).
  induction l as [|i l [IH1 IH2]]; cbn [flat_map length]; [split; [constructor | lia]|].
  destruct (cols i) as [name qty].
  destruct (negb (Convert.is_null name) && negb (Convert.is_null qty)
            && negb (Qeq_bool (Convert.toNumber numberOfString qty) 0)) eqn:E.
  - split; [|cbn; lia]. constructor; [|done].
    apply andb_true_iff in E as [_ E]. apply negb_true_iff in E.
    split; cbn; [|apply trim_idem]. intros H. apply Qeq_bool_iff in H. congruence.
  - split; [done | cbn; lia].
Qed.

Lemma convert_row_clean (r : Convert.row) (x : Recipe.t) :
  convert_row r = Some x -> recipe_clean x.
Proof.
  unfold Convert.convert_row. cbv zeta.
  destruct (negb (Convert.truthy (Convert.RecipeId r))
            || Qeq_bool (Convert.toNumber numberOfString (Convert.Time r)) 0) eqn:E;
    [discriminate|].
  apply orb_false_iff in E as [_ Et]. cbn [Recipe.outputs].
  destruct (collectIO (Convert.Output r)) as [|o outs] eqn:Eo; [discriminate|].
  intros [= <-]. rewrite <- Eo.
  destruct (collectIO_clean (Convert.Input r)) as [Hi1 Hi2].
  destruct (collectIO_clean (Convert.Output r)) as [Ho1 Ho2].
  unfold recipe_clean. cbn [Recipe.timeSec Recipe.outputs Recipe.inputs Recipe.recipeId
    Recipe.building].
  split_and!; try done.
  - intros H. apply Qeq_bool_iff in H. congruence.
  - by rewrite Eo.
  - apply trim_idem.
  - destruct (Convert.is_null (Convert.Building r)); [done | apply trim_idem].
Qed.

Lemma convert_elem (rows : list Convert.row) (x : Recipe.t) :
  x ∈ convert rows <-> exists r, r ∈ rows /\ convert_row r = Some x.
Proof.
  unfold Convert.convert. rewrite list_elem_of_In, in_flat_map. split.
  - intros (r & Hr & Hx). exists r. split; [by apply list_elem_of_In|].
    destruct (convert_row r) as [y|]; [|done]. by destruct Hx as [<-|[]].
  - intros (r & Hr & Hx). exists r. split; [by apply list_elem_of_In|].
    rewrite Hx. by left.
Qed.

(** X21. Every recipe that the converter writes comes from a row with a
    truthy [RecipeId] and a [Time] that is a non-zero number; its time is not
    0 (it may be negative), it has at least one output, at most 9 inputs and
    9 outputs, none of quantity 0, and its names, recipe id and building are
    trimmed.  In the index built from the converted catalog, every output
    name of a recipe is a key under which the recipe is listed. *)
Theorem convert_clean (rows : list Convert.row) (x : Recipe.t) :
  x ∈ convert rows ->
  recipe_clean x
  /\ (exists r, r ∈ rows /\ convert_row r = Some x
                /\ Convert.truthy (Convert.RecipeId r) = true)
  /\ (forall o, o ∈ Recipe.outputs x ->
        exists l, PRODUCT_INDEX (convert rows) !! IO.name o = Some l /\ x ∈ l).
Proof.
  intros Hx. pose proof Hx as Hx'. apply convert_elem in Hx' as (r & Hr & Hc).
  pose proof (convert_row_clean r x Hc) as Hclean. split_and!; [done| |].
  - exists r. split_and!; [done | done |]. unfold Convert.convert_row in Hc. cbv zeta in Hc.
    destruct (Convert.truthy (Convert.RecipeId r)); [done | discriminate].
  - intros o Ho. destruct Hclean as (_ & _ & _ & Houts & _).
    rewrite Forall_forall in Houts. destruct (Houts o Ho) as [_ Htrim].
    assert (Hp : x ∈ producers (convert rows) (IO.name o)).
    { apply producers_elem. split; [done|]. by exists o. }
    pose proof (PRODUCT_INDEX_lookup (convert rows) (IO.name o)) as Hl.
    destruct (PRODUCT_INDEX (convert rows) !! IO.name o) as [l|]; cbn in Hl.
    + exists l. by rewrite Hl.
    + rewrite <- Hl in Hp. by apply elem_of_nil in Hp.
Qed.

End Converted.

Lemma convert_clean_witness :
  recipe_clean Examples.R1
  /\ (exists r, r ∈ [Examples.gear_row]
                /\ Convert.convert_row (fun _ => None) (fun _ => "") r = Some Examples.R1
                /\ Convert.truthy (Convert.RecipeId r) = true)
  /\ (forall o, o ∈ Recipe.outputs Examples.R1 ->
        exists l,
          PRODUCT_INDEX (Convert.convert (fun _ => None) (fun _ => "") [Examples.gear_row])
            !! IO.name o = Some l
          /\ Examples.R1 ∈ l).
Proof.
  apply (convert_clean (fun _ => None) (fun _ => "") [Examples.gear_row] Examples.R1).
  vm_compute. left.
Defined.

(** ** components/ChainGraph: focus mode *)

Section FocusMode.

Import ChainGraph.

Variable edges : list GraphEdge.t.
Variable start : string.

Lemma focus_step_measure (f : Focus.t) :
  Focus.q f <> [] ->
  (focus_measure edges (focus_step edges f) < focus_measure edges f)%nat.
Proof.
  intros Hq. unfold focus_step, focus_measure.
  destruct (Focus.q f) as [|id rest]; [done|].
  destruct (decide (id ∈ Focus.keepNodeIds f)) as [Hs|Hs];
    cbn [Focus.q Focus.keepNodeIds length]; [lia|].
  rewrite length_app. unfold PerProduct.parentsOf. rewrite length_map.
  rewrite (unseen_split (Focus.keepNodeIds f) id edges Hs). lia.
Qed.

Lemma focus_done (fuel : nat) (f : Focus.t) :
  (focus_measure edges f <= fuel)%nat -> Focus.q (focus_walk fuel edges f) = [].
Proof.
  revert f. induction fuel as [|fuel IH]; intros f Hm; cbn [focus_walk].
  - unfold focus_measure in Hm. destruct (Focus.q f); [done | cbn in Hm; lia].
  - destruct (Focus.q f) as [|id rest] eqn:Hq; [done|].
    apply IH. pose proof (focus_step_measure f) as H. rewrite Hq in H.
    specialize (H ltac:(done)). lia.
Qed.

Lemma fold_keep_edge (child : string) (parents : list string) (keep : gset string)
    (x : string) :
  x ∈ fold_left (keep_edge edges child) parents keep
  <-> x ∈ keep
      \/ exists p, p ∈ parents /\ edgeKeyToId edges (edgeKey p child) = Some x /\ x <> "".
Proof.
  revert keep. induction parents as [|p parents IH]; intros keep; cbn [fold_left].
  - split; [by left|]. intros [H | (p & Hp & _)]; [done | by apply elem_of_nil in Hp].
  - rewrite IH. unfold keep_edge at 1.
    destruct (edgeKeyToId edges (edgeKey p child)) as [y|] eqn:Ey.
    + cbn [Js.truthy]. destruct (String.eqb_spec y "") as [Hy|Hy]; cbn [negb].
      * split.
        -- intros [H | (p' & Hp' & H)]; [by left | right; exists p'; split; [by right | done]].
        -- intros [H | (p' & [->|Hp']%elem_of_cons & H1 & H2)]; [by left | | right; eauto].
           rewrite Ey in H1. congruence.
      * rewrite elem_of_union, elem_of_singleton. split.
        -- intros [[-> | H] | (p' & Hp' & H)];
             [right; exists p; split; [by left | done] | by left
             | right; exists p'; split; [by right | done]].
        -- intros [H | (p' & [->|Hp']%elem_of_cons & H1 & H2)];
             [left; by right | | right; eauto].
           rewrite Ey in H1. injection H1 as ->. left. by left.
    + split.
      * intros [H | (p' & Hp' & H)]; [by left | right; exists p'; split; [by right | done]].
      * intros [H | (p' & [->|Hp']%elem_of_cons & H1 & H2)]; [by left | | right; eauto].
        rewrite Ey in H1. discriminate.
Qed.

Lemma focus_step_ok (f : Focus.t) :
  focus_ok edges start f -> focus_ok edges start (focus_step edges f).
Proof.
  intros (Hup & Hstart & Hclosed & Hkeep). unfold focus_step.
  destruct (Focus.q f) as [|id rest] eqn:Hq; [by rewrite <- Hq in *|].
  destruct (decide (id ∈ Focus.keepNodeIds f)) as [Hs|Hs].
  { split_and!; cbn [Focus.q Focus.keepNodeIds Focus.keepEdgeIds].
    - intros x [Hx|Hx]; apply Hup; [by left | right; by right].
    - destruct Hstart as [?|[->|?]%elem_of_cons]; [by left | by left | by right].
    - intros e He Ht.
      destruct (Hclosed e He Ht) as [?|[->|?]%elem_of_cons]; [by left | by left | by right].
    - exact Hkeep. }
  assert (Hid : above edges start id) by (apply Hup; right; left).
  split_and!; cbn [Focus.q Focus.keepNodeIds Focus.keepEdgeIds].
  - intros x [Hx|Hx].
    + apply elem_of_union in Hx as [->%elem_of_singleton|Hx]; [done | apply Hup; by left].
    + apply elem_of_app in Hx as [Hx|Hx]; [apply Hup; right; by right|].
      apply parentsOf_elem in Hx as (e & He & Ht & <-).
      apply above_parent; [done | by rewrite Ht].
  - destruct Hstart as [?|[->|?]%elem_of_cons];
      [left; by apply seen_add_old | left; apply seen_add_new
      | right; apply elem_of_app; by left].
  - intros e He Ht. apply elem_of_union in Ht as [Ht%elem_of_singleton|Ht].
    + right. apply elem_of_app. right. apply parentsOf_elem. eauto.
    + destruct (Hclosed e He Ht) as [?|[->|?]%elem_of_cons];
        [left; by apply seen_add_old | left; apply seen_add_new
        | right; apply elem_of_app; by left].
  - intros x. rewrite fold_keep_edge, Hkeep. split.
    + intros [(e & He & Ht & Hx) | (p & Hp & Hx)].
      * exists e. split; [done|]. split; [by apply seen_add_old | done].
      * apply parentsOf_elem in Hp as (e & He & Ht & <-). exists e.
        split; [done|]. rewrite Ht. split; [apply seen_add_new | done].
    + intros (e & He & Ht & Hx).
      apply elem_of_union in Ht as [Ht%elem_of_singleton|Ht]; [right | left; eauto].
      exists (GraphEdge.source e). rewrite <- Ht. split; [|done].
      apply parentsOf_elem. eauto.
Qed.

Lemma focus_ok_fuel (fuel : nat) (f : Focus.t) :
  focus_ok edges start f -> focus_ok edges start (focus_walk fuel edges f).
Proof.
  revert f. induction fuel as [|fuel IH]; intros f Hf; cbn [focus_walk]; [done|].
  destruct (Focus.q f); [done|]. by apply IH, focus_step_ok.
Qed.

Lemma focus_ok_init : focus_ok edges start (Focus.mk ∅ ∅ [start]).
Proof.
  split_and!; cbn.
  - intros id [Hid | ->%list_elem_of_singleton]; [by apply elem_of_empty in Hid | constructor].
  - right. by left.
  - intros e _ He. by apply elem_of_empty in He.
  - intros x. split; [by intros ?%elem_of_empty|].
    intros (e & _ & He & _). by apply elem_of_empty in He.
Qed.

Lemma focus_kept_above (f : Focus.t) :
  focus_ok edges start f -> Focus.q f = [] ->
  forall id, id ∈ Focus.keepNodeIds f <-> above edges start id.
Proof.
  intros (Hup & Hstart & Hclosed & _) Hq id. rewrite Hq in *. split.
  - intros H. apply Hup. by left.
  - induction 1 as [|e He Ht IH].
    + destruct Hstart as [?|?%elem_of_nil]; done.
    + destruct (Hclosed e He IH) as [?|?%elem_of_nil]; done.
Qed.

End FocusMode.

(** X22. Focus mode in ChainGraph: without a focused node there are no
    visibility sets.  With one, the walk ends on every edge list (cycles
    included); the nodes kept visible are exactly the ids reached from the
    focused id by following edges from target to source, and the edges kept
    visible are, for every edge into a kept node, the non-empty id of the
    last edge of the list with the same source and target key. *)
Theorem visibleSets_spec (edges : list GraphEdge.t) :
  ChainGraph.visibleSets edges None = None
  /\ ChainGraph.visibleSets edges (Some "") = None
  /\ forall id, id <> "" ->
       exists f,
         ChainGraph.visibleSets edges (Some id) = Some f
         /\ ChainGraph.Focus.q f = []
         /\ (forall x, x ∈ ChainGraph.Focus.keepNodeIds f <-> above edges id x)
         /\ (forall x, x ∈ ChainGraph.Focus.keepEdgeIds f <->
               exists e, e ∈ edges /\ above edges id (GraphEdge.target e)
                         /\ ChainGraph.edgeKeyToId edges
                              (ChainGraph.edgeKey (GraphEdge.source e) (GraphEdge.target e))
                            = Some x
                         /\ x <> "").
Proof.
  split; [done|]. split; [done|]. intros id Hid.
  unfold ChainGraph.visibleSets. cbn [Js.truthy].
  rewrite (proj2 (String.eqb_neq id "") Hid). cbn [negb].
  set (f0 := ChainGraph.Focus.mk ∅ ∅ [id]).
  set (f := ChainGraph.focus_walk _ edges f0).
  assert (Hq : ChainGraph.Focus.q f = []) by (by apply focus_done).
  pose proof (focus_ok_fuel edges id (ChainGraph.focus_measure edges f0) f0
                (focus_ok_init edges id)) as Hok. fold f in Hok.
  pose proof (focus_kept_above edges id f Hok Hq) as Hkept.
  exists f. split_and!; [done | done | done |].
  destruct Hok as (_ & _ & _ & Hkeep). intros x. rewrite Hkeep.
  split; intros (e & He & Ht & Hx); exists e; (split; [done|]); split; try done;
    by apply Hkept.
Qed.

(** X23. Swapping a node of a current graph to the recipe it already uses
    is not a no-op: the budget is merged into the new id and then deleted
    with the old id, which is the same key, so the node loses its expansion
    budget; every other budget is kept and the recipe becomes the product's
    explicit choice. *)
Theorem swapNodeRecipe_same (idx : ProductIndex) (s : State.t) (nodeId : string)
    (node : GraphNode.t) :
  index_ok idx ->
  State.graphNodes (build idx s) = State.graphNodes s ->
  Js.find (fun n => String.eqb (GraphNode.id n) nodeId) (State.graphNodes s) = Some node ->
  let s' := swapNodeRecipe idx nodeId (GraphNode.recipeId node) s in
  nodeId = nodeIdFor (GraphNode.product node) (GraphNode.recipeId node)
  /\ State.expandedByNode s' = delete nodeId (State.expandedByNode s)
  /\ budget (State.expandedByNode s') nodeId = 0%Z
  /\ State.choicesRecipe s' !! GraphNode.product node
     = Some (Some (GraphNode.recipeId node)).
Proof.
  intros Hidx Hcur Hfind. cbv zeta.
  assert (Hid : nodeId = nodeIdFor (GraphNode.product node) (GraphNode.recipeId node)).
  { pose proof (find_id_some _ _ _ Hfind) as <-. apply find_some in Hfind as [Hin _].
    rewrite <- Hcur in Hin. destruct (State.targets s) as [|t ts] eqn:Et.
    - destruct (build_empty idx s Et) as [E _]. rewrite E in Hin. by apply elem_of_nil in Hin.
    - destruct (build_nonempty idx s) as [E _]; [by rewrite Et|]. rewrite E in Hin.
      destruct (built_spec idx Hidx s) as (_ & ((_ & _ & _ & Hall) & _) & _).
      rewrite Forall_forall in Hall. by destruct (Hall node Hin) as [-> _]. }
  destruct (swapNodeRecipe_found idx nodeId (GraphNode.recipeId node) s node Hfind)
    as (Hcr & _ & He). cbv zeta in Hcr, He.
  assert (He' : State.expandedByNode (swapNodeRecipe idx nodeId (GraphNode.recipeId node) s)
                = delete nodeId (State.expandedByNode s)).
  { rewrite He, <- Hid. destruct (0 <? _)%Z; [apply delete_insert_eq | done]. }
  split_and!; [done | done | |].
  - unfold budget. by rewrite He', lookup_delete_eq.
  - rewrite Hcr. apply lookup_insert_eq.
Qed.

Lemma swapNodeRecipe_same_witness :
  let s' := swapNodeRecipe Examples.gears "Gear::R1"
              (GraphNode.recipeId (makeNode Examples.R1 "Gear" 60 0)) Examples.gear_store in
  "Gear::R1" = nodeIdFor (GraphNode.product (makeNode Examples.R1 "Gear" 60 0))
                 (GraphNode.recipeId (makeNode Examples.R1 "Gear" 60 0))
  /\ State.expandedByNode s' = delete "Gear::R1" (State.expandedByNode Examples.gear_store)
  /\ budget (State.expandedByNode s') "Gear::R1" = 0%Z
  /\ State.choicesRecipe s' !! GraphNode.product (makeNode Examples.R1 "Gear" 60 0)
     = Some (Some (GraphNode.recipeId (makeNode Examples.R1 "Gear" 60 0))).
Proof.
  apply (swapNodeRecipe_same Examples.gears Examples.gear_store "Gear::R1"
           (makeNode Examples.R1 "Gear" 60 0)).
  - apply PRODUCT_INDEX_ok.
  - apply (f_equal State.graphNodes (build_idem Examples.gears _)).
  - vm_compute. reflexivity.
Defined.

Lemma from_root_mono idx cr cb targets (l l' : list GraphNode.t) (es es' : list GraphEdge.t) n :
  l `prefix_of` l' -> es `prefix_of` es' ->
  from_root idx cr cb targets l es n -> from_root idx cr cb targets l' es' n.
Proof.
  intros Hl Hes. induction 1 as [n Hn Hr | parent child e _ IH Hc He Hs Ht].
  - apply from_root_here; [by eapply elem_of_prefix | done].
  - eapply from_root_hop; [exact IH | by eapply elem_of_prefix | by eapply elem_of_prefix
                          | done | done].
Qed.

(** X24. The graph that [build] publishes is connected to its targets:
    every published node is the root made for a target or is reached from
    such a root along published edges (from a node to the node of one of its
    inputs). *)
Theorem build_connected (idx : ProductIndex) (s : State.t) (n : GraphNode.t) :
  n ∈ State.graphNodes (build idx s) ->
  from_root idx (State.choicesRecipe s) (State.choicesBuilding s) (State.targets s)
    (State.graphNodes (build idx s)) (State.graphEdges (build idx s)) n.
Proof.
  destruct (State.targets s) as [|t0 ts] eqn:Et.
  { destruct (build_empty idx s Et) as [-> _]. by intros ?%elem_of_nil. }
  destruct (build_nonempty idx s) as (-> & -> & _); [by rewrite Et|]. rewrite <- Et.
  clear t0 ts Et.
  set (cr := State.choicesRecipe s). set (cb := State.choicesBuilding s).
  set (P := fun g : Graph.t => forall n, n ∈ Graph.nodes g ->
    from_root idx cr cb (State.targets s) (Graph.nodes g) (Graph.edges g) n).
  enough (H : P (Bfs.graph (built idx s))) by apply H.
  unfold built. apply (expand_hops idx cr cb (State.expandedByNode s) (State.targets s) P).
  - intros m Hm. by apply elem_of_nil in Hm.
  - intros g t res g' HP Hok Ht E.
    destruct (ensureNode_cases idx cr cb (Target.product t) (Target.ratePerMin t) 0 None g Hok)
      as [[_ E'] | [(r & m & _ & _ & E') | (r & g1 & Hr & _ & E' & Hnodes & Hedges & _)]];
      rewrite E' in E; injection E as <- <-; [exact HP | exact HP |].
    intros m. rewrite Hnodes, Hedges.
    intros [Hm | ->%list_elem_of_singleton]%elem_of_app.
    + eapply from_root_mono; [by apply prefix_app_r | done | by apply HP].
    + apply from_root_here; [apply elem_of_app; right; by left|]. by exists t, r.
  - intros g parent i d res g' HP Hok Hpar Hi Hc Hd E.
    destruct (ensureNode_cases idx cr cb (NodeIO.name i) (NodeIO.ratePerMin i) d
                (Some (GraphNode.building parent)) g Hok)
      as [[_ E'] | [(r & m & _ & _ & E') | (r & g1 & Hr & _ & E' & Hnodes & Hedges & _)]];
      rewrite E' in E; injection E as <- <-; [exact HP | |].
    + split; [|by intros _]. intros x Hx. cbn [connect Graph.nodes Graph.edges] in *.
      eapply from_root_mono; [done | by apply prefix_app_r | by apply HP].
    + set (c := makeNode r (NodeIO.name i) (NodeIO.ratePerMin i) d) in *. split.
      * intros x. cbn [connect Graph.nodes Graph.edges]. rewrite Hnodes, Hedges.
        intros [Hx | ->%list_elem_of_singleton]%elem_of_app.
        -- eapply from_root_mono; [by apply prefix_app_r | by apply prefix_app_r | by apply HP].
        -- eapply (from_root_hop _ _ _ _ _ _ parent c).
           ++ eapply from_root_mono; [by apply prefix_app_r | by apply prefix_app_r
                                     | by apply HP].
           ++ apply elem_of_app. right. by left.
           ++ apply elem_of_app. right. by left.
           ++ reflexivity.
           ++ reflexivity.
      * intros Hconn x. rewrite Hnodes, Hedges.
        intros [Hx | ->%list_elem_of_singleton]%elem_of_app.
        -- eapply from_root_mono; [by apply prefix_app_r | done | by apply HP].
        -- unfold connected in Hconn. rewrite Hedges in Hconn.
           apply existsb_exists in Hconn as (e' & He' & Hst).
           apply andb_true_iff in Hst as [Hs' Ht']. apply String.eqb_eq in Hs', Ht'.
           eapply (from_root_hop _ _ _ _ _ _ parent c e').
           ++ eapply from_root_mono; [by apply prefix_app_r | done | by apply HP].
           ++ apply elem_of_app. right. by left.
           ++ by apply list_elem_of_In.
           ++ done.
           ++ done.
Qed.

Lemma build_connected_witness :
  from_root (PRODUCT_INDEX Examples.chain) ∅ ∅ [Target.mk "Gear" 60 None]
    (State.graphNodes (build (PRODUCT_INDEX Examples.chain) Examples.chain_store))
    (State.graphEdges (build (PRODUCT_INDEX Examples.chain) Examples.chain_store))
    (makeNode Examples.R1 "Gear" 60 0).
Proof.
  apply (build_connected (PRODUCT_INDEX Examples.chain) Examples.chain_store
           (makeNode Examples.R1 "Gear" 60 0)).
  vm_compute. left.
Defined.

(** ** What a budget shows *)

Section Shown.

Variable idx : ProductIndex.
Variable cr : gmap string (option string).
Variable cb : gmap string string.
Variable e : gmap string Z.
Hypothesis Hidx : index_ok idx.

Local Abbreviation hop g := (hop_shown idx cr cb (Graph.nodes g) (Graph.edges g)).
Local Abbreviation waiting := (hops_waiting idx cr cb).

Lemma hop_shown_extends g g' parent i child :
  extends g g' -> hop g parent i child -> hop g' parent i child.
Proof.
  intros Hext (rc & ed & Hrc & Hin & Hid & He & Hs & Ht). exists rc, ed.
  split_and!; try done; [by eapply extends_node | by eapply extends_edge].
Qed.

(** One pass of the inner loop body. *)
Lemma relax_shows parent eff (b : Bfs.t) i :
  graph_ok idx (Bfs.graph b) ->
  let b' := relax idx cr cb e parent eff b i in
  (craftable idx (NodeIO.name i) = true -> exists child, hop (Bfs.graph b') parent i child)
  /\ (forall k v, Bfs.bestRem b' !! k = Some v ->
        Bfs.bestRem b !! k = Some v \/ QItem.mk k v ∈ Bfs.queue b')
  /\ (forall it, it ∈ Bfs.queue b -> it ∈ Bfs.queue b')
  /\ (seeded e b -> seeded e b').
Proof.
  intros Hok. cbv zeta. unfold relax.
  destruct (craftable idx (NodeIO.name i)) eqn:Hc; [|by split_and!; eauto].
  destruct (ensureNode idx cr cb (NodeIO.name i) (NodeIO.ratePerMin i)
              (GraphNode.depth parent + 1) (Some (GraphNode.building parent)) (Bfs.graph b))
    as [res g1] eqn:E.
  destruct (ensureNode_summary idx cr cb _ _ _ _ _ _ _ Hok E)
    as (Hok1 & Hext1 & Hedges & Hnew & Hnone & Hsome).
  destruct (pickRecipeWithPrefs_craftable idx (NodeIO.name i)
              (default None (cr !! NodeIO.name i)) (cb !! NodeIO.name i)
              (Some (GraphNode.building parent)) Hidx Hc) as [rc Hrc].
  destruct (Hsome rc Hrc) as (child & -> & Hin & Hid & _).
  set (g2 := if connected parent child g1 then g1
             else connect parent child (NodeIO.name i) g1).
  assert (Hnodes2 : Graph.nodes g2 = Graph.nodes g1).
  { unfold g2. by destruct (connected parent child g1). }
  assert (Hhop : hop g2 parent i child).
  { exists rc. unfold g2. destruct (connected parent child g1) eqn:Hconn.
    - unfold connected in Hconn. apply existsb_exists in Hconn as (ed & Hed & Hst).
      apply andb_true_iff in Hst as [Hs Ht]. apply String.eqb_eq in Hs, Ht.
      exists ed. split_and!; try done. by apply list_elem_of_In.
    - exists (GraphEdge.mk
                (GraphNode.id parent +:+ "=>" +:+ GraphNode.id child +:+ "#"
                 +:+ pretty (length (Graph.edges g1)))
                (GraphNode.id parent) (GraphNode.id child) (NodeIO.name i)).
      split_and!; [done | done | done | | reflexivity | reflexivity].
      cbn. apply elem_of_app. right. by left. }
  set (a := Z.max (eff - 1) (budget e (GraphNode.id child))).
  destruct ((0 <? a)%Z && (default (-1)%Z (Bfs.bestRem b !! GraphNode.id child) <? a)%Z)
    eqn:Etest; cbn [Bfs.graph Bfs.bestRem Bfs.queue].
  - apply andb_true_iff in Etest as [Hpos Hlt]. apply Z.ltb_lt in Hpos, Hlt.
    split_and!.
    + intros _. by exists child.
    + intros k v. destruct (decide (GraphNode.id child = k)) as [<-|Hne].
      * rewrite lookup_insert_eq. intros [= <-]. right. apply elem_of_app. right. by left.
      * rewrite lookup_insert_ne by done. by left.
    + intros it Hit. apply elem_of_app. by left.
    + intros Hseed n. cbn [Bfs.graph Bfs.bestRem]. rewrite Hnodes2. intros Hn Hb.
      destruct (decide (GraphNode.id child = GraphNode.id n)) as [Eid|Hne].
      * rewrite <- Eid in *. rewrite lookup_insert_eq. exists a. split; [done | lia].
      * rewrite lookup_insert_ne by done.
        destruct (Hnew n Hn) as [Hold | [[= ->] _]]; [by apply Hseed | done].
  - split_and!.
    + intros _. by exists child.
    + intros k v Hv. by left.
    + done.
    + intros Hseed n. cbn [Bfs.graph Bfs.bestRem]. rewrite Hnodes2. intros Hn Hb.
      destruct (Hnew n Hn) as [Hold | [[= ->] _]]; [by apply Hseed|].
      apply andb_false_iff in Etest as [Hpos | Hlt].
      * apply Z.ltb_ge in Hpos. lia.
      * apply Z.ltb_ge in Hlt.
        destruct (Bfs.bestRem b !! GraphNode.id n) as [v|]; cbn in Hlt; [|lia].
        exists v. split; [done | lia].
Qed.

Lemma relax_fold_shows parent eff (l : list NodeIO.t) :
  (eff <= maxBudget e)%Z ->
  forall b,
    bfs_ok idx e b -> parent ∈ Graph.nodes (Bfs.graph b) ->
    let b' := fold_left (relax idx cr cb e parent eff) l b in
    bfs_ok idx e b'
    /\ extends (Bfs.graph b) (Bfs.graph b')
    /\ (forall i, i ∈ l -> craftable idx (NodeIO.name i) = true ->
          exists child, hop (Bfs.graph b') parent i child)
    /\ (forall k v, Bfs.bestRem b' !! k = Some v ->
          Bfs.bestRem b !! k = Some v \/ QItem.mk k v ∈ Bfs.queue b')
    /\ (forall it, it ∈ Bfs.queue b -> it ∈ Bfs.queue b')
    /\ (seeded e b -> seeded e b').
Proof.
  intros Heff. induction l as [|i l IH]; intros b Hbfs Hpar; cbn [fold_left].
  - split; [done|]. split; [apply extends_refl|].
    split; [intros i Hi; by apply elem_of_nil in Hi|].
    split; [intros k v Hv; by left|]. by split.
  - destruct (relax_spec idx cr cb e parent eff b i Hidx Hbfs Heff) as (Hbfs1 & Hext1 & _).
    destruct (relax_shows parent eff b i (proj1 Hbfs)) as (Ha1 & Hb1 & Hc1 & Hd1).
    cbv zeta in *. set (b1 := relax idx cr cb e parent eff b i) in *.
    destruct (IH b1 Hbfs1) as (Hbfs2 & Hext2 & Ha2 & Hb2 & Hc2 & Hd2);
      [by eapply extends_node|].
    cbv zeta in *. set (b2 := fold_left _ l b1) in *.
    split_and!; try done.
    + by eapply extends_trans.
    + intros j [->|Hj]%elem_of_cons Hc; [|by apply Ha2].
      destruct (Ha1 Hc) as (child & Hh). exists child. by eapply hop_shown_extends.
    + intros k v Hv. destruct (Hb2 k v Hv) as [Hv1 | Hq]; [|by right].
      destruct (Hb1 k v Hv1) as [Hv0 | Hq]; [by left | right; by apply Hc2].
    + intros it Hit. by apply Hc2, Hc1.
    + intros Hs. by apply Hd2, Hd1.
Qed.

Lemma step_shows (b : Bfs.t) item rest :
  bfs_ok idx e b -> waiting b -> seeded e b ->
  Bfs.queue b = item :: rest ->
  bfs_ok idx e (step idx cr cb e b)
  /\ waiting (step idx cr cb e b)
  /\ seeded e (step idx cr cb e b).
Proof.
  intros Hbfs Hwait Hseed Hq. pose proof Hbfs as (Hok & Hbest & Hqueue).
  rewrite Hq in Hqueue. apply Forall_cons in Hqueue as [[Hrem [parent Hparent]] Hrest].
  rewrite (step_dequeue idx cr cb e b item rest parent Hq (proj1 Hrem) Hparent).
  set (eff := effective_remaining _ _).
  set (b0 := Bfs.mk (Bfs.graph b) (Bfs.bestRem b) rest).
  destruct (graph_ok_byId idx _ _ _ Hok Hparent) as [Hpin Hpid].
  assert (Hbfs0 : bfs_ok idx e b0) by (by split).
  assert (Heff : (eff <= maxBudget e)%Z).
  { unfold eff, effective_remaining. pose proof (budget_le e (GraphNode.id parent)). lia. }
  destruct (relax_fold_shows parent eff (GraphNode.inputs parent) Heff b0 Hbfs0 Hpin)
    as (Hbfs1 & Hext1 & Ha & Hb & Hc & Hd).
  cbv zeta in *. set (b1 := fold_left _ (GraphNode.inputs parent) b0) in *.
  split_and!; [done | | by apply Hd].
  intros p r Hp Hr. destruct (Hb _ _ Hr) as [Hr0 | Hin]; [|by left].
  cbn [b0 Bfs.bestRem] in Hr0.
  assert (Hp0 : p ∈ Graph.nodes (Bfs.graph b)).
  { eapply (recorded_node idx e b (Bfs.graph b1)); eauto. exact (proj1 Hbfs1). }
  destruct (Hwait p r Hp0 Hr0) as [Hin | Hshown].
  - rewrite Hq in Hin. apply elem_of_cons in Hin as [Hitem | Hin].
    + right. assert (p = parent) as ->.
      { pose proof (graph_ok_lookup idx _ _ Hok Hp0) as Hl.
        rewrite <- Hitem in Hparent. cbn in Hparent. congruence. }
      intros i Hi Hci. by apply Ha.
    + left. apply Hc. exact Hin.
  - right. intros i Hi Hci. destruct (Hshown i Hi Hci) as (child & Hh).
    exists child. by eapply hop_shown_extends.
Qed.

Lemma loop_shows (n : nat) (b : Bfs.t) :
  bfs_ok idx e b -> waiting b -> seeded e b ->
  bfs_ok idx e (loop idx cr cb e n b)
  /\ waiting (loop idx cr cb e n b)
  /\ seeded e (loop idx cr cb e n b).
Proof.
  revert b. induction n as [|n IH]; intros b Hbfs Hwait Hseed; cbn [loop]; [done|].
  destruct (Bfs.queue b) as [|item rest] eqn:Hq; [done|].
  destruct (step_shows b item rest Hbfs Hwait Hseed Hq) as (H1 & H2 & H3). by apply IH.
Qed.

Lemma seed_shows (g : Graph.t) :
  graph_ok idx g -> waiting (seed e g) /\ seeded e (seed e g).
Proof.
  intros Hok. destruct (seed_spec idx cr cb e g Hok) as (_ & Hg & _).
  enough (H : forall l b,
    let b' := fold_left (seed_node e) l b in
    (forall k v, Bfs.bestRem b !! k = Some v -> QItem.mk k v ∈ Bfs.queue b) ->
    (forall k v, Bfs.bestRem b !! k = Some v -> v = budget e k) ->
    (forall k v, Bfs.bestRem b' !! k = Some v -> QItem.mk k v ∈ Bfs.queue b')
    /\ (forall k v, Bfs.bestRem b' !! k = Some v -> v = budget e k)
    /\ (forall k, is_Some (Bfs.bestRem b !! k) -> is_Some (Bfs.bestRem b' !! k))
    /\ (forall n, n ∈ l -> (0 < budget e (GraphNode.id n))%Z ->
          is_Some (Bfs.bestRem b' !! GraphNode.id n))).
  { destruct (H (Graph.nodes g) (Bfs.mk g ∅ [])) as (H1 & H2 & _ & H4).
    - intros k v. cbn. by rewrite lookup_empty.
    - intros k v. cbn. by rewrite lookup_empty.
    - fold (seed e g) in H1, H2, H4. split.
      + intros p r _ Hr. left. by apply H1.
      + intros n. rewrite Hg. intros Hn Hb. destruct (H4 n Hn Hb) as [v Hv].
        exists v. split; [done|]. rewrite (H2 _ _ Hv). lia. }
  induction l as [|n l IH]; intros b; cbn [fold_left]; intros Hq Hv.
  - split_and!; try done. intros n Hn. by apply elem_of_nil in Hn.
  - assert (Hq1 : forall k v, Bfs.bestRem (seed_node e b n) !! k = Some v ->
                    QItem.mk k v ∈ Bfs.queue (seed_node e b n)).
    { unfold seed_node. destruct (0 <? _)%Z; [|done]. cbn. intros k v.
      destruct (decide (GraphNode.id n = k)) as [<-|Hne].
      - rewrite lookup_insert_eq. intros [= <-]. apply elem_of_app. right. by left.
      - rewrite lookup_insert_ne by done. intros H. apply elem_of_app. left. by apply Hq. }
    assert (Hv1 : forall k v, Bfs.bestRem (seed_node e b n) !! k = Some v -> v = budget e k).
    { unfold seed_node. destruct (0 <? _)%Z; [|done]. cbn. intros k v.
      destruct (decide (GraphNode.id n = k)) as [<-|Hne].
      - rewrite lookup_insert_eq. by intros [= <-].
      - rewrite lookup_insert_ne by done. apply Hv. }
    destruct (IH (seed_node e b n) Hq1 Hv1) as (H1 & H2 & H3 & H4).
    split_and!; try done.
    + intros k Hk. apply H3. unfold seed_node. destruct (0 <? _)%Z; [|done]. cbn.
      destruct (decide (GraphNode.id n = k)) as [<-|Hne].
      * rewrite lookup_insert_eq. eauto.
      * by rewrite lookup_insert_ne.
    + intros m [->|Hm]%elem_of_cons Hb; [|by apply H4].
      apply H3. unfold seed_node. rewrite (proj2 (Z.ltb_lt _ _) Hb). cbn.
      rewrite lookup_insert_eq. eauto.
Qed.

Lemma not_improves (best : gmap string Z) (c : string) (a : Z) :
  (0 < a)%Z -> ~ improves best c a -> exists prev, best !! c = Some prev /\ (a <= prev)%Z.
Proof.
  intros Hpos Hn. destruct (best !! c) as [prev|] eqn:E.
  - exists prev. split; [done|]. destruct (Z.le_gt_cases a prev) as [?|Hlt]; [done|].
    exfalso. apply Hn. split; [done|]. intros p. rewrite E. intros [= <-]. lia.
  - exfalso. apply Hn. split; [done|]. intros p. rewrite E. discriminate.
Qed.

Lemma shown_by_allowance (b : Bfs.t) :
  bfs_ok idx e b -> Bfs.queue b = [] -> waiting b -> relaxed_but idx cr cb e None b ->
  forall (k : nat) n v,
    n ∈ Graph.nodes (Bfs.graph b) -> Bfs.bestRem b !! GraphNode.id n = Some v ->
    (Z.of_nat k <= v)%Z ->
    shown idx cr cb (Graph.nodes (Bfs.graph b)) (Graph.edges (Bfs.graph b)) k n.
Proof.
  intros Hbfs Hq Hwait Hrel. induction k as [|k IH]; intros n v Hn Hv Hk; [done|].
  cbn [shown]. intros i Hi Hc.
  destruct (Hwait n v Hn Hv) as [Hin | Hshown].
  { rewrite Hq in Hin. by apply elem_of_nil in Hin. }
  destruct (Hshown i Hi Hc) as (child & Hhop). exists child. split; [done|].
  destruct k as [|k]; [done|].
  destruct Hhop as (rc & ed & Hrc & Hcin & Hcid & _).
  destruct (Hrel n v Hn Hv) as [Hs | [Hin | Hset]]; [discriminate | |].
  { rewrite Hq in Hin. by apply elem_of_nil in Hin. }
  specialize (Hset i Hi Hc rc Hrc).
  apply not_improves in Hset as (prev & Hprev & Hle).
  - rewrite <- Hcid in Hprev. apply (IH child prev Hcin Hprev).
    unfold inherited_allowance, effective_remaining in Hle. lia.
  - unfold inherited_allowance, effective_remaining. lia.
Qed.

End Shown.

(** X25. What a budget buys: on an index without empty lists, a published
    node that carries an expansion budget of [k] or more has its upstream
    shown [k] hops deep: every craftable input of the node has its child
    (the node of the recipe resolved with the node's building as hint) and
    an edge to it in the published graph, and so on below each child for
    [k - 1] more hops. *)
Theorem build_shows_budget (idx : ProductIndex) (s : State.t) (k : nat) (n : GraphNode.t) :
  index_ok idx ->
  n ∈ State.graphNodes (build idx s) ->
  (Z.of_nat k <= budget (State.expandedByNode s) (GraphNode.id n))%Z ->
  shown idx (State.choicesRecipe s) (State.choicesBuilding s)
    (State.graphNodes (build idx s)) (State.graphEdges (build idx s)) k n.
Proof.
  intros Hidx Hn Hb. destruct (decide (k = 0%nat)) as [->|Hk]; [done|].
  destruct (State.targets s) as [|t0 ts] eqn:Et.
  { destruct (build_empty idx s Et) as [E _]. rewrite E in Hn. by apply elem_of_nil in Hn. }
  destruct (build_nonempty idx s) as (En & Ee & _); [by rewrite Et|].
  rewrite En, Ee in *. clear t0 ts Et.
  destruct (built_spec idx Hidx s) as (Hq & Hbfs & _ & Hrel).
  set (cr := State.choicesRecipe s) in *. set (cb := State.choicesBuilding s) in *.
  set (e := State.expandedByNode s) in *.
  assert (Hinv : hops_waiting idx cr cb (built idx s) /\ seeded e (built idx s)).
  { unfold built, expand. fold cr cb e.
    pose proof (baseline_ok idx Hidx s) as Hok0. fold cr cb in Hok0.
    destruct (seed_spec idx cr cb e _ Hok0) as (Hbfs0 & _ & _).
    destruct (seed_shows idx cr cb e _ Hok0) as [Hw0 Hs0].
    destruct (loop_shows idx cr cb e Hidx (measure idx e (seed e (baseline idx cr cb (State.targets s))))
                _ Hbfs0 Hw0 Hs0) as (_ & Hw & Hs). done. }
  destruct Hinv as [Hwait Hseed].
  destruct (Hseed n Hn ltac:(lia)) as (v & Hv & Hle).
  apply (shown_by_allowance idx cr cb e (built idx s) Hbfs Hq Hwait Hrel k n v Hn Hv).
  lia.
Qed.

Lemma build_shows_budget_witness :
  shown (PRODUCT_INDEX Examples.chain) ∅ ∅ Examples.line_nodes Examples.line_edges 1
    (makeNode Examples.R2 "Iron" (240 # 60) 1).
Proof.
  apply (build_shows_budget (PRODUCT_INDEX Examples.chain) Examples.chain_store 1
           (makeNode Examples.R2 "Iron" (240 # 60) 1)).
  - apply PRODUCT_INDEX_ok.
  - vm_compute. right. left.
  - vm_compute. discriminate.
Defined.
